(** * A shallow embedding of [parse.go] (package [sh])

    The validator is a hand-written lexer ([next], [strContent],
    [discardUpTo]) driven by a recursive-descent walker ([program],
    [command], [value]) over one mutable [parser] struct.  The struct is
    threaded explicitly here.  Loops and recursive calls take fuel; the
    lemmas on fuel show that the amounts chosen by [next] and by [parse]
    are enough and that more changes nothing.

    What lies outside [parse.go] is modelled as follows.
    - The input is an in-memory byte stream read through [bufio.Reader]:
      reads deliver its bytes in order and then [io.EOF], and no other read
      error occurs.  [UnreadRune] succeeds only straight after a
      [ReadRune] that returned a rune, as bufio has it.
    - [ReadRune] decodes UTF-8 as [unicode/utf8] does.
    - [int] has 64 bits.
    - An error made by [fmt.Errorf] is kept as the format and the operands
      given to it.

    Module [Env] writes the same functions over a state that holds the
    package-level variables and an [io.Reader] whose reads can fail; what
    is proved of a run among other runs, or over such a reader, is proved
    there. *)

From Stdlib Require Import ZArith String Ascii Lia Bool DecimalString List.
Import ListNotations.
Local Open Scope Z_scope.

(** ** Bytes, runes and Go integers *)

(** A byte of the stream, as its value in [0, 256). *)
Definition code (b : ascii) : Z := Z.of_N (N_of_ascii b).

(** The byte of a rune, Go's conversion [byte(r)]. *)
Definition byte_of (r : Z) : ascii := ascii_of_N (Z.to_N (r mod 256)).

(** Go's [int] (64 bits): arithmetic wraps around. *)
Definition int_wrap (z : Z) : Z := (z + 2 ^ 63) mod 2 ^ 64 - 2 ^ 63.
Definition incr (z : Z) : Z := int_wrap (z + 1).
Definition decr (z : Z) : Z := int_wrap (z - 1).

Definition bslash : ascii := "092"%char.
Definition dquote : ascii := "034"%char.
Definition squote : ascii := "039"%char.
Definition newline : ascii := "010"%char.
Definition tab : ascii := "009"%char.

(** ** Errors *)

(** An error value.  [fmt.Errorf] is kept as its arguments: the format,
    which [lineErr] starts with the position, and the operands. *)
Inductive error : Type :=
| io_EOF                                   (* io.EOF *)
| ErrInvalidUnreadRune                     (* bufio.ErrInvalidUnreadRune *)
| Errorf (format : string) (v : list string).

(** [fmt.Sprintf] for formats whose only verb is [%s], each with its
    operand. *)
Fixpoint Sprintf (format : string) (v : list string) : string :=
  match format with
  | EmptyString => EmptyString
  | String "%" (String "s" rest) =>
      match v with
      | a :: v' => (a ++ Sprintf rest v')%string
      | [] => ("%!s(MISSING)" ++ Sprintf rest [])%string
      end
  | String c rest => String c (Sprintf rest v)
  end.

(** The [Error()] method; for [Errorf] it is the text that [fmt] makes of a
    format with no percent sign other than those of [%s], which is the
    case of a position whose name holds none. *)
Definition Error (e : error) : string :=
  match e with
  | io_EOF => "EOF"
  | ErrInvalidUnreadRune => "bufio: invalid use of UnreadRune"
  | Errorf format v => Sprintf format v
  end.

(** ** [unicode/utf8]: decoding one rune *)

Definition RuneError : Z := 65533.
Definition locb : Z := 128.
Definition hicb : Z := 191.

(** The [first] table of package utf8: for a leading byte, [None] when it
    is invalid ([xx]), otherwise the size of the sequence and the range
    accepted for the second byte. *)
Definition first (c0 : Z) : option (nat * (Z * Z)) :=
  if c0 <? 194 then None
  else if c0 <? 224 then Some (2%nat, (locb, hicb))
  else if c0 =? 224 then Some (3%nat, (160, hicb))
  else if c0 <? 237 then Some (3%nat, (locb, hicb))
  else if c0 =? 237 then Some (3%nat, (locb, 159))
  else if c0 <? 240 then Some (3%nat, (locb, hicb))
  else if c0 =? 240 then Some (4%nat, (144, hicb))
  else if c0 <? 244 then Some (4%nat, (locb, hicb))
  else if c0 =? 244 then Some (4%nat, (locb, 143))
  else None.

Definition byte_at (p : list ascii) (i : nat) : Z := code (nth i p zero).

(** [utf8.DecodeRune], called by [ReadRune] for a first byte at or above
    [utf8.RuneSelf]. *)
Definition DecodeRune (p : list ascii) : Z * nat :=
  let n := length p in
  if (n <? 1)%nat then (RuneError, 0%nat)
  else
    let p0 := byte_at p 0 in
    if p0 <? 128 then (p0, 1%nat)
    else
      match first p0 with
      | None => (RuneError, 1%nat)
      | Some (sz, (lo, hi)) =>
          if (n <? sz)%nat then (RuneError, 1%nat)
          else
            let b1 := byte_at p 1 in
            if (b1 <? lo) || (hi <? b1) then (RuneError, 1%nat)
            else if (sz <=? 2)%nat then
              (Z.lor (Z.shiftl (Z.land p0 31) 6) (Z.land b1 63), 2%nat)
            else
              let b2 := byte_at p 2 in
              if (b2 <? locb) || (hicb <? b2) then (RuneError, 1%nat)
              else if (sz <=? 3)%nat then
                (Z.lor (Z.lor (Z.shiftl (Z.land p0 15) 12)
                              (Z.shiftl (Z.land b1 63) 6))
                       (Z.land b2 63), 3%nat)
              else
                let b3 := byte_at p 3 in
                if (b3 <? locb) || (hicb <? b3) then (RuneError, 1%nat)
                else
                  (Z.lor (Z.lor (Z.lor (Z.shiftl (Z.land p0 7) 18)
                                       (Z.shiftl (Z.land b1 63) 12))
                                (Z.shiftl (Z.land b2 63) 6))
                         (Z.land b3 63), 4%nat)
      end.

(** ** [bufio.Reader] over an in-memory stream

    [rd_buf] holds the bytes not yet read.  [rd_last] stands for the
    field [lastRuneSize]: it holds the bytes of the rune that [UnreadRune]
    would push back, and is [None] where bufio has [lastRuneSize = -1] or
    has moved its read index below the size of that rune: at creation,
    after [UnreadRune], after a [ReadRune] that met the end of the stream
    ([ReadRune] sets [lastRuneSize = -1] before it looks whether a byte is
    left) and after [ReadBytes].  With [None], [UnreadRune] returns
    [ErrInvalidUnreadRune] and changes nothing. *)
Record Reader : Type := mkReader {
  rd_buf : list ascii;
  rd_last : option (list ascii)
}.

Definition NewReader (s : list ascii) : Reader := mkReader s None.

Definition ReadRune (b : Reader) : (Z * nat * option error) * Reader :=
  match rd_buf b with
  | [] => ((0, 0%nat, Some io_EOF), mkReader [] None)
  | c :: _ =>
      let '(r, size) :=
        if code c <? 128 then (code c, 1%nat) else DecodeRune (rd_buf b) in
      ((r, size, None),
       mkReader (skipn size (rd_buf b)) (Some (firstn size (rd_buf b))))
  end.

Definition UnreadRune (b : Reader) : option error * Reader :=
  match rd_last b with
  | None => (Some ErrInvalidUnreadRune, b)
  | Some bs => (None, mkReader (bs ++ rd_buf b) None)
  end.

(** The line up to and including the first [delim], and what follows. *)
Fixpoint cut (delim : ascii) (l : list ascii)
  : option (list ascii * list ascii) :=
  match l with
  | [] => None
  | c :: t =>
      if Ascii.eqb c delim then Some ([c], t)
      else match cut delim t with
           | Some (line, rest) => Some (c :: line, rest)
           | None => None
           end
  end.

Definition ReadBytes (delim : ascii) (b : Reader)
  : (list ascii * option error) * Reader :=
  match cut delim (rd_buf b) with
  | Some (line, rest) => ((line, None), mkReader rest None)
  | None => ((rd_buf b, Some io_EOF), mkReader [] None)
  end.

(** ** Tokens and the package-level tables *)

Definition EOF : Z := -1.
Definition IDENT : Z := -2.
Definition STRING : Z := -3.

(** A Go [map[rune]bool] literal with every listed key at [true]; a
    missing key reads [false]. *)
Definition runeSet (keys : list ascii) (r : Z) : bool :=
  existsb (fun k => r =? code k) keys.

Definition reserved : Z -> bool :=
  runeSet [newline; "#"; "="; "&"; ">"; "<"; "|"; ";"; "("; ")"; "{"; "}"]%char.

Definition quote : Z -> bool := runeSet [dquote; squote].

Definition space : Z -> bool := runeSet [" "%char; tab].

(** The regular expression [^[a-zA-Z_]+[a-zA-Z0-9_]*$]: its two character
    classes, and a match as a split of the whole text into one or more
    runes of the first class followed by runes of the second. *)
Definition inRange (lo hi : ascii) (r : Z) : bool :=
  (code lo <=? r) && (r <=? code hi).

Definition identHead (r : Z) : bool :=
  inRange "a" "z" r || inRange "A" "Z" r || (r =? code "_").

Definition identTail (r : Z) : bool :=
  inRange "a" "z" r || inRange "A" "Z" r || inRange "0" "9" r
  || (r =? code "_").

Definition ident_MatchString (s : list Z) : bool :=
  existsb (fun k => (0 <? k)%nat
                    && forallb identHead (firstn k s)
                    && forallb identTail (skipn k s))
          (seq 0 (S (length s))).

(** ** The parser struct *)

(** The fields of [parser]; [p_log] is a ghost field, absent from the
    source and read by no operation: the errors given to [errPass], the
    most recent first. *)
Record parser : Type := mkParser {
  p_r : Reader;
  p_tok : Z;
  p_err : option error;
  p_name : string;
  p_line : Z;
  p_col : Z;
  p_log : list error
}.

Definition set_r (p : parser) (b : Reader) : parser :=
  mkParser b (p_tok p) (p_err p) (p_name p) (p_line p) (p_col p) (p_log p).
Definition set_tok (p : parser) (t : Z) : parser :=
  mkParser (p_r p) t (p_err p) (p_name p) (p_line p) (p_col p) (p_log p).
Definition set_line (p : parser) (l : Z) : parser :=
  mkParser (p_r p) (p_tok p) (p_err p) (p_name p) l (p_col p) (p_log p).
Definition set_col (p : parser) (c : Z) : parser :=
  mkParser (p_r p) (p_tok p) (p_err p) (p_name p) (p_line p) c (p_log p).

(** ** Error reporting *)

Definition errPass (e : error) (p : parser) : parser :=
  mkParser (p_r p) EOF (Some e) (p_name p) (p_line p) (p_col p)
           (e :: p_log p).

Definition hexdigit (n : Z) : string :=
  String (nth (Z.to_nat n) (list_ascii_of_string "0123456789abcdef") zero)
         EmptyString.

Fixpoint hex (digits : nat) (n : Z) : string :=
  match digits with
  | O => EmptyString
  | S d => (hex d (n / 16) ++ hexdigit (n mod 16))%string
  end.

Definition char (r : Z) : string := String (byte_of r) EmptyString.

(** [strconv.QuoteRune] on the runes a token can be: ASCII.  Above ASCII
    the escaped forms are given; the table of printable Unicode runes,
    which strconv writes as they are, is not reproduced. *)
Definition QuoteRune (r : Z) : string :=
  let body :=
    if (r =? code squote) || (r =? code bslash) then
      (String bslash EmptyString ++ char r)%string
    else if (32 <=? r) && (r <? 127) then char r
    else if r =? 7 then (String bslash "a")
    else if r =? 8 then (String bslash "b")
    else if r =? 12 then (String bslash "f")
    else if r =? 10 then (String bslash "n")
    else if r =? 13 then (String bslash "r")
    else if r =? 9 then (String bslash "t")
    else if r =? 11 then (String bslash "v")
    else if (0 <=? r) && ((r <? 32) || (r =? 127)) then
      (String bslash "x" ++ hex 2 r)%string
    else if (r <? 0) || (1114111 <? r) || ((55296 <=? r) && (r <=? 57343))
    then (String bslash "u" ++ hex 4 RuneError)%string
    else if r <? 65536 then (String bslash "u" ++ hex 4 r)%string
    else (String bslash "U" ++ hex 8 r)%string
  in ("'" ++ body ++ "'")%string.

Definition tokStr (tok : Z) : string :=
  if tok =? EOF then "EOF"%string
  else if tok =? STRING then "string"%string
  else if tok =? IDENT then "ident"%string
  else QuoteRune tok.

(** [%d] of [fmt]. *)
Definition itoa (z : Z) : string := NilZero.string_of_int (Z.to_int z).

(** [fmt.Sprintf("%s:%d:%d: ", name, line, col)]. *)
Definition positionAt (name : string) (line col : Z) : string :=
  (name ++ ":" ++ itoa line ++ ":" ++ itoa col ++ ": ")%string.

Definition position (p : parser) : string :=
  positionAt (p_name p) (p_line p) (p_col p).

Definition lineErr (format : string) (v : list string) (p : parser)
  : parser :=
  errPass (Errorf (position p ++ format) v) p.

Definition errUnexpected (p : parser) : parser :=
  lineErr "unexpected token %s" [tokStr (p_tok p)] p.

Definition errWanted (tok : Z) (p : parser) : parser :=
  lineErr "unexpected token %s, wanted %s" [tokStr (p_tok p); tokStr tok] p.

(** ** The lexer *)

(** The loop of [strContent]; one unit of fuel per call of [ReadBytes]. *)
Fixpoint strContent (fuel : nat) (delim : ascii) (p : parser)
  : option parser :=
  match fuel with
  | O => None
  | S fuel' =>
      let '((b, err), rd) := ReadBytes delim (p_r p) in
      let p := set_r p rd in
      let p := match err with
               | Some io_EOF => errWanted (code delim) p
               | Some e => errPass e p
               | None => p
               end in
      if Ascii.eqb delim squote then Some p
      else if (1 <? length b)%nat
              && Ascii.eqb (nth (length b - 2) b zero) bslash
              && Ascii.eqb (nth (length b - 1) b zero) delim
      then strContent fuel' delim p
      else Some p
  end.

Definition discardUpTo (delim : ascii) (p : parser) : parser :=
  let '((_, err), rd) := ReadBytes delim (p_r p) in
  let p := set_r p rd in
  match err with
  | Some io_EOF => set_tok p EOF
  | Some e => errPass e p
  | None => p
  end.

(** How the first loop of [next] ends: [next] has returned, or the loop
    has left a rune that is not a space in [r]. *)
Inductive skipped : Type :=
| Returned (p : parser)
| Rune (r : Z) (p : parser).

(** [for space[r] { r, _, err = p.r.ReadRune() ... p.col++ }], entered
    with [r = ' ']. *)
Fixpoint skipSpace (fuel : nat) (p : parser) : option skipped :=
  match fuel with
  | O => None
  | S fuel' =>
      let '((r, _, err), rd) := ReadRune (p_r p) in
      let p := set_r p rd in
      match err with
      | Some io_EOF => Some (Returned (set_tok p EOF))
      | Some e => Some (Returned (errPass e p))
      | None =>
          let p := set_col p (incr (p_col p)) in
          if space r then skipSpace fuel' p else Some (Rune r p)
      end
  end.

(** How the loop that accumulates a run ends: [next] has returned on a
    read error, or the loop is left with the runes read. *)
Inductive run : Type :=
| RunFailed (p : parser)
| RunEnd (runes : list Z) (p : parser).

(** [for !reserved[r] && !quote[r] && !space[r] { ... }]. *)
Fixpoint readRun (fuel : nat) (r : Z) (runes : list Z) (p : parser)
  : option run :=
  match fuel with
  | O => None
  | S fuel' =>
      if negb (reserved r) && negb (quote r) && negb (space r) then
        let '((r', _, err), rd) := ReadRune (p_r p) in
        let p := set_r p rd in
        match err with
        | Some io_EOF => Some (RunEnd runes p)
        | Some e => Some (RunFailed (errPass e p))
        | None => readRun fuel' r' (runes ++ [r']) (set_col p (incr (p_col p)))
        end
      else Some (RunEnd runes p)
  end.

(** The classification of a completed run (the last four statements of
    [next]). *)
Definition classify (runes : list Z) : Z :=
  if ident_MatchString runes then IDENT else STRING.

(** [next] from [runes := []rune{r}] on. *)
Definition word (fuel : nat) (r : Z) (p : parser) : option parser :=
  match readRun fuel r [r] p with
  | None => None
  | Some (RunFailed p) => Some p
  | Some (RunEnd runes p) =>
      if (1 <? length runes)%nat then
        match UnreadRune (p_r p) with
        | (Some e, rd) => Some (errPass e (set_r p rd))
        | (None, rd) =>
            let p := set_col (set_r p rd) (decr (p_col p)) in
            Some (set_tok p (classify (removelast runes)))
        end
      else Some (set_tok p (classify runes))
  end.

(** [next] from [if reserved[r]] on; [next'] is the recursive call. *)
Definition token (next' : parser -> option parser) (fuel : nat) (r : Z)
    (p : parser) : option parser :=
  if reserved r then
    if r =? code "#" then next' (discardUpTo newline p)
    else
      let p := if r =? code newline
               then set_col (set_line p (incr (p_line p))) 0 else p in
      Some (set_tok p r)
  else if quote r then
    match strContent fuel (byte_of r) p with
    | None => None
    | Some p => if p_tok p =? EOF then Some p else Some (set_tok p STRING)
    end
  else word fuel r p.

(** [next] from [if r == '\\'] on. *)
Definition lexRune (next' : parser -> option parser) (fuel : nat) (r : Z)
    (p : parser) : option parser :=
  if r =? code bslash then
    match next' p with
    | None => None
    | Some p =>
        if p_tok p =? code newline then next' p
        else
          match UnreadRune (p_r p) with
          | (Some e, rd) => Some (errPass e (set_r p rd))
          | (None, rd) =>
              token next' fuel r (set_col (set_r p rd) (decr (p_col p)))
          end
    end
  else token next' fuel r p.

(** [next] with fuel: one unit for each nested call, and the loops of a
    call run on what is left of the caller's. *)
Fixpoint next_fuel (fuel : nat) (p : parser) : option parser :=
  match fuel with
  | O => None
  | S fuel' =>
      match skipSpace fuel' p with
      | None => None
      | Some (Returned p) => Some p
      | Some (Rune r p) => lexRune (next_fuel fuel') fuel' r p
      end
  end.

(** Fuel that is enough for one call of [next], as is proved below. *)
Definition lexFuel (p : parser) : nat := (length (rd_buf (p_r p)) + 2)%nat.

Definition next (p : parser) : parser :=
  match next_fuel (lexFuel p) p with
  | Some p' => p'
  | None => p
  end.

(** ** The walker's primitives *)

Definition got (tok : Z) (p : parser) : bool * parser :=
  if p_tok p =? tok then (true, next p) else (false, p).

Definition want (tok : Z) (p : parser) : parser :=
  if negb (p_tok p =? tok) then errWanted tok p else next p.

Definition value (p : parser) : parser :=
  let '(b, p) := got IDENT p in
  if b then p
  else
    let '(b, p) := got STRING p in
    if b then p else errUnexpected p.

(** ** The walker

    A loop takes one unit of fuel per iteration; [command'] is the call
    [p.command()] made from inside a loop or a connector.  Every [return]
    of the source and every exit of a loop that ends [command] yields the
    state. *)
Section Walker.

Variable command' : parser -> option parser.

(** [switch { case p.got(IDENT): case p.got(STRING): }] after ['=']. *)
Definition assigned (p : parser) : parser :=
  let '(b, p) := got IDENT p in
  if b then p else snd (got STRING p).

(** [switch { case p.got('>'): case p.got('&'): }] after ['>']. *)
Definition redirected (p : parser) : parser :=
  let '(b, p) := got (code ">") p in
  if b then p else snd (got (code "&") p).

(** [if p.got('&') { p.command() }; return] after ['&']. *)
Definition andThen (p : parser) : option parser :=
  let '(b, p) := got (code "&") p in
  if b then command' p else Some p.

(** [p.got('|'); p.command(); return] after ['|']. *)
Definition pipeThen (p : parser) : option parser :=
  command' (snd (got (code "|") p)).

(** [for !p.got('}') { ... }] of the ['('] case. *)
Fixpoint funcBody (fuel : nat) (p : parser) : option parser :=
  match fuel with
  | O => None
  | S fuel' =>
      let '(b, p) := got (code "}") p in
      if b then Some p
      else if p_tok p =? EOF then Some (errWanted (code "}") p)
      else
        let '(b, p) := got (code newline) p in
        if b then funcBody fuel' p
        else match command' p with
             | None => None
             | Some p => funcBody fuel' p
             end
  end.

(** The loop of the [IDENT] case. *)
Fixpoint identLoop (fuel : nat) (p : parser) : option parser :=
  match fuel with
  | O => None
  | S fuel' =>
      if p_tok p =? EOF then Some p
      else
        let '(b, p) := got IDENT p in
        if b then identLoop fuel' p else
        let '(b, p) := got STRING p in
        if b then identLoop fuel' p else
        let '(b, p) := got (code "=") p in
        if b then identLoop fuel' (assigned p) else
        let '(b, p) := got (code "&") p in
        if b then andThen p else
        let '(b, p) := got (code "|") p in
        if b then pipeThen p else
        let '(b, p) := got (code "(") p in
        if b then funcBody fuel' (want (code "{") (want (code ")") p)) else
        let '(b, p) := got (code ">") p in
        if b then identLoop fuel' (value (redirected p)) else
        let '(b, p) := got (code "<") p in
        if b then identLoop fuel' (value p) else
        let '(b, p) := got (code ";") p in
        if b then Some p else
        let '(b, p) := got (code newline) p in
        if b then Some p else
        identLoop fuel' (errUnexpected p)
  end.

(** The loop of the [STRING] case. *)
Fixpoint stringLoop (fuel : nat) (p : parser) : option parser :=
  match fuel with
  | O => None
  | S fuel' =>
      if p_tok p =? EOF then Some p
      else
        let '(b, p) := got IDENT p in
        if b then stringLoop fuel' p else
        let '(b, p) := got STRING p in
        if b then stringLoop fuel' p else
        let '(b, p) := got (code "&") p in
        if b then andThen p else
        let '(b, p) := got (code "|") p in
        if b then pipeThen p else
        let '(b, p) := got (code ">") p in
        if b then stringLoop fuel' (value (redirected p)) else
        let '(b, p) := got (code "<") p in
        if b then stringLoop fuel' (value p) else
        let '(b, p) := got (code ";") p in
        if b then Some p else
        let '(b, p) := got (code newline) p in
        if b then Some p else
        stringLoop fuel' (errUnexpected p)
  end.

(** [for p.tok != EOF && p.tok != '}' { ... }] of the ['{'] case. *)
Fixpoint braceBody (fuel : nat) (p : parser) : option parser :=
  match fuel with
  | O => None
  | S fuel' =>
      if negb (p_tok p =? EOF) && negb (p_tok p =? code "}") then
        let '(b, p) := got (code newline) p in
        if b then braceBody fuel' p
        else match command' p with
             | None => None
             | Some p => braceBody fuel' p
             end
      else Some p
  end.

(** The ['{'] case after its loop: [p.want('}')] and the [switch]. *)
Definition braceTail (p : parser) : option parser :=
  let p := want (code "}") p in
  let '(b, p) := got (code "&") p in
  if b then andThen p else
  let '(b, p) := got (code "|") p in
  if b then pipeThen p else
  let '(b, p) := got (code ">") p in
  if b then Some (value (redirected p)) else
  let '(b, p) := got (code "<") p in
  if b then Some (value p) else
  let '(b, p) := got (code ";") p in
  if b then Some p else
  let '(b, p) := got (code newline) p in
  if b then Some p else
  Some (errUnexpected p).

(** The body of [command]. *)
Definition commandBody (fuel : nat) (p : parser) : option parser :=
  let '(b, p) := got IDENT p in
  if b then identLoop fuel p else
  let '(b, p) := got STRING p in
  if b then stringLoop fuel p else
  let '(b, p) := got (code "{") p in
  if b then
    match braceBody fuel p with
    | None => None
    | Some p => braceTail p
    end
  else Some (errUnexpected p).

(** The loop of [program]. *)
Fixpoint programLoop (fuel : nat) (p : parser) : option parser :=
  match fuel with
  | O => None
  | S fuel' =>
      if negb (p_tok p =? EOF) then
        let '(b, p) := got (code newline) p in
        if b then programLoop fuel' p
        else match command' p with
             | None => None
             | Some p => programLoop fuel' p
             end
      else Some p
  end.

End Walker.

Fixpoint command (fuel : nat) (p : parser) : option parser :=
  match fuel with
  | O => None
  | S fuel' => commandBody (command fuel') fuel' p
  end.

Definition program (fuel : nat) (p : parser) : option parser :=
  programLoop (command fuel) fuel (next p).

Definition newParser (r : list ascii) (name : string) : parser :=
  mkParser (NewReader r) 0 None name 1 0 [].

(** Fuel that is enough for the whole pass, as is proved below. *)
Definition passFuel (r : list ascii) : nat := S (S (S (length r))).

(** The final state of [parse]; [None] stands for a pass that the fuel
    does not finish, which does not happen. *)
Definition run_parse (r : string) (name : string) : option parser :=
  let input := list_ascii_of_string r in
  program (passFuel input) (newParser input name).

(** [parse]: the error returned, [Some None] for the [nil] error. *)
Definition parse (r : string) (name : string) : option (option error) :=
  option_map p_err (run_parse r name).

(** The errors recorded during the pass, the most recent first. *)
Definition recorded (r : string) (name : string) : option (list error) :=
  option_map p_log (run_parse r name).

Definition str (l : list ascii) : string := string_of_list_ascii l.

(** * The pass in its environment

    The embedding above fixes what a run of [parse] finds outside its
    parser struct: the package-level variables [reserved], [quote], [space]
    and [ident], which every run of the package shares, and an [io.Reader]
    whose reads do not fail.  Here both are explicit.  The same functions
    are written over a state that holds the four variables, read where the
    source reads them, and what the [io.Reader] has still to give, read
    errors included; the lemmas below show that on the tables as declared
    and a reader that does not fail they compute what the functions above
    compute. *)
Module Env.

(** The package-level variables: the three maps, each as the value it gives
    for a key ([false] for a key that is missing), and the compiled regular
    expression as its method [MatchString]. *)
Record package : Type := mkPackage {
  pk_reserved : Z -> bool;
  pk_quote : Z -> bool;
  pk_space : Z -> bool;
  pk_ident : list Z -> bool
}.

(** The variables as [parse.go] declares them. *)
Definition package0 : package :=
  mkPackage reserved quote space ident_MatchString.

(** What the [io.Reader] has to give once the bytes that bufio holds are
    read: read errors, each with the bytes that the reads after it
    deliver; after the last of them, [io.EOF].  The reader gives bytes and
    errors by separate calls of [Read], as files, connections and
    [iotest.TimeoutReader] do. *)
Definition source : Type := list (error * list ascii).

Record world : Type := mkWorld {
  w_pkg : package;
  w_src : source
}.

Definition world0 : world := mkWorld package0 [].

(** A computation in the environment; [None] is a computation that the
    fuel does not finish. *)
Definition M (A : Type) : Type := world -> option (A * world).

Definition ret {A : Type} (a : A) : M A := fun w => Some (a, w).

Definition bind {A B : Type} (m : M A) (k : A -> M B) : M B :=
  fun w => match m w with
           | Some (a, w') => k a w'
           | None => None
           end.

Definition out_of_fuel {A : Type} : M A := fun _ => None.

Notation "x <- m ;; k" := (bind m (fun x => k))
  (at level 61, m at next level, right associativity).
Notation "' pat <- m ;; k" := (bind m (fun x => match x with pat => k end))
  (at level 61, pat pattern, m at next level, right associativity).

(** [table[r]], a read of one of the maps. *)
Definition lookup (table : package -> Z -> bool) (r : Z) : M bool :=
  fun w => Some (table (w_pkg w) r, w).

(** [ident.MatchString(s)]. *)
Definition MatchString (s : list Z) : M bool :=
  fun w => Some (pk_ident (w_pkg w) s, w).

(** [a || b], where [b] is evaluated only when [a] is false. *)
Definition orElse (a b : M bool) : M bool :=
  x <- a ;; if x then ret true else b.

(** [ReadRune] when bufio may have to ask the [io.Reader] for more: with
    no byte left and a read error to come, it returns that error, and the
    reads after it find the bytes that follow the error. *)
Definition ReadRune (b : Reader) : M ((Z * nat * option error) * Reader) :=
  fun w =>
    match rd_buf b, w_src w with
    | [], (e, bytes) :: src =>
        Some (((0, 0%nat, Some e), mkReader bytes None),
              mkWorld (w_pkg w) src)
    | _, _ => Some (ReadRune b, w)
    end.

(** [ReadBytes] likewise: when no [delim] comes before a read error, it
    returns the bytes before the error, and the error. *)
Definition ReadBytes (delim : ascii) (b : Reader)
  : M ((list ascii * option error) * Reader) :=
  fun w =>
    match cut delim (rd_buf b), w_src w with
    | None, (e, bytes) :: src =>
        Some (((rd_buf b, Some e), mkReader bytes None),
              mkWorld (w_pkg w) src)
    | _, _ => Some (ReadBytes delim b, w)
    end.

(** ** The lexer *)

Fixpoint strContent (fuel : nat) (delim : ascii) (p : parser) : M parser :=
  match fuel with
  | O => out_of_fuel
  | S fuel' =>
      '((b, err), rd) <- ReadBytes delim (p_r p) ;;
      let p := set_r p rd in
      let p := match err with
               | Some io_EOF => errWanted (code delim) p
               | Some e => errPass e p
               | None => p
               end in
      if Ascii.eqb delim squote then ret p
      else if (1 <? length b)%nat
              && Ascii.eqb (nth (length b - 2) b zero) bslash
              && Ascii.eqb (nth (length b - 1) b zero) delim
      then strContent fuel' delim p
      else ret p
  end.

Definition discardUpTo (delim : ascii) (p : parser) : M parser :=
  '((_, err), rd) <- ReadBytes delim (p_r p) ;;
  let p := set_r p rd in
  match err with
  | Some io_EOF => ret (set_tok p EOF)
  | Some e => ret (errPass e p)
  | None => ret p
  end.

Fixpoint skipSpace (fuel : nat) (p : parser) : M skipped :=
  match fuel with
  | O => out_of_fuel
  | S fuel' =>
      '((r, _, err), rd) <- ReadRune (p_r p) ;;
      let p := set_r p rd in
      match err with
      | Some io_EOF => ret (Returned (set_tok p EOF))
      | Some e => ret (Returned (errPass e p))
      | None =>
          let p := set_col p (incr (p_col p)) in
          sp <- lookup pk_space r ;;
          if sp then skipSpace fuel' p else ret (Rune r p)
      end
  end.

Fixpoint readRun (fuel : nat) (r : Z) (runes : list Z) (p : parser)
  : M run :=
  match fuel with
  | O => out_of_fuel
  | S fuel' =>
      d <- orElse (lookup pk_reserved r)
                  (orElse (lookup pk_quote r) (lookup pk_space r)) ;;
      if negb d then
        '((r', _, err), rd) <- ReadRune (p_r p) ;;
        let p := set_r p rd in
        match err with
        | Some io_EOF => ret (RunEnd runes p)
        | Some e => ret (RunFailed (errPass e p))
        | None => readRun fuel' r' (runes ++ [r']) (set_col p (incr (p_col p)))
        end
      else ret (RunEnd runes p)
  end.

Definition classify (runes : list Z) : M Z :=
  m <- MatchString runes ;; ret (if m then IDENT else STRING).

Definition word (fuel : nat) (r : Z) (p : parser) : M parser :=
  res <- readRun fuel r [r] p ;;
  match res with
  | RunFailed p => ret p
  | RunEnd runes p =>
      if (1 <? length runes)%nat then
        match UnreadRune (p_r p) with
        | (Some e, rd) => ret (errPass e (set_r p rd))
        | (None, rd) =>
            let p := set_col (set_r p rd) (decr (p_col p)) in
            t <- classify (removelast runes) ;; ret (set_tok p t)
        end
      else t <- classify runes ;; ret (set_tok p t)
  end.

Definition token (next' : parser -> M parser) (fuel : nat) (r : Z)
    (p : parser) : M parser :=
  rs <- lookup pk_reserved r ;;
  if rs then
    if r =? code "#" then p <- discardUpTo newline p ;; next' p
    else
      let p := if r =? code newline
               then set_col (set_line p (incr (p_line p))) 0 else p in
      ret (set_tok p r)
  else
    q <- lookup pk_quote r ;;
    if q then
      p <- strContent fuel (byte_of r) p ;;
      if p_tok p =? EOF then ret p else ret (set_tok p STRING)
    else word fuel r p.

Definition lexRune (next' : parser -> M parser) (fuel : nat) (r : Z)
    (p : parser) : M parser :=
  if r =? code bslash then
    p <- next' p ;;
    if p_tok p =? code newline then next' p
    else
      match UnreadRune (p_r p) with
      | (Some e, rd) => ret (errPass e (set_r p rd))
      | (None, rd) =>
          token next' fuel r (set_col (set_r p rd) (decr (p_col p)))
      end
  else token next' fuel r p.

Fixpoint next_fuel (fuel : nat) (p : parser) : M parser :=
  match fuel with
  | O => out_of_fuel
  | S fuel' =>
      s <- skipSpace fuel' p ;;
      match s with
      | Returned p => ret p
      | Rune r p => lexRune (next_fuel fuel') fuel' r p
      end
  end.

(** The bytes and the read errors that the [io.Reader] has still to
    give. *)
Definition pending (src : source) : nat :=
  list_sum (map (fun s => S (length (snd s))) src).

Definition next (p : parser) : M parser :=
  fun w => next_fuel (lexFuel p + pending (w_src w)) p w.

(** ** The walker *)

Definition got (tok : Z) (p : parser) : M (bool * parser) :=
  if p_tok p =? tok then p <- next p ;; ret (true, p) else ret (false, p).

Definition want (tok : Z) (p : parser) : M parser :=
  if negb (p_tok p =? tok) then ret (errWanted tok p) else next p.

Definition value (p : parser) : M parser :=
  '(b, p) <- got IDENT p ;;
  if b then ret p
  else
    '(b, p) <- got STRING p ;;
    if b then ret p else ret (errUnexpected p).

Section Walker.

Variable command' : parser -> M parser.

Definition assigned (p : parser) : M parser :=
  '(b, p) <- got IDENT p ;;
  if b then ret p else '(_, p) <- got STRING p ;; ret p.

Definition redirected (p : parser) : M parser :=
  '(b, p) <- got (code ">") p ;;
  if b then ret p else '(_, p) <- got (code "&") p ;; ret p.

Definition andThen (p : parser) : M parser :=
  '(b, p) <- got (code "&") p ;;
  if b then command' p else ret p.

Definition pipeThen (p : parser) : M parser :=
  '(_, p) <- got (code "|") p ;; command' p.

Fixpoint funcBody (fuel : nat) (p : parser) : M parser :=
  match fuel with
  | O => out_of_fuel
  | S fuel' =>
      '(b, p) <- got (code "}") p ;;
      if b then ret p
      else if p_tok p =? EOF then ret (errWanted (code "}") p)
      else
        '(b, p) <- got (code newline) p ;;
        if b then funcBody fuel' p
        else p <- command' p ;; funcBody fuel' p
  end.

Fixpoint identLoop (fuel : nat) (p : parser) : M parser :=
  match fuel with
  | O => out_of_fuel
  | S fuel' =>
      if p_tok p =? EOF then ret p
      else
        '(b, p) <- got IDENT p ;;
        if b then identLoop fuel' p else
        '(b, p) <- got STRING p ;;
        if b then identLoop fuel' p else
        '(b, p) <- got (code "=") p ;;
        if b then p <- assigned p ;; identLoop fuel' p else
        '(b, p) <- got (code "&") p ;;
        if b then andThen p else
        '(b, p) <- got (code "|") p ;;
        if b then pipeThen p else
        '(b, p) <- got (code "(") p ;;
        if b then
          p <- want (code ")") p ;; p <- want (code "{") p ;;
          funcBody fuel' p
        else
        '(b, p) <- got (code ">") p ;;
        if b then p <- redirected p ;; p <- value p ;; identLoop fuel' p else
        '(b, p) <- got (code "<") p ;;
        if b then p <- value p ;; identLoop fuel' p else
        '(b, p) <- got (code ";") p ;;
        if b then ret p else
        '(b, p) <- got (code newline) p ;;
        if b then ret p else
        identLoop fuel' (errUnexpected p)
  end.

Fixpoint stringLoop (fuel : nat) (p : parser) : M parser :=
  match fuel with
  | O => out_of_fuel
  | S fuel' =>
      if p_tok p =? EOF then ret p
      else
        '(b, p) <- got IDENT p ;;
        if b then stringLoop fuel' p else
        '(b, p) <- got STRING p ;;
        if b then stringLoop fuel' p else
        '(b, p) <- got (code "&") p ;;
        if b then andThen p else
        '(b, p) <- got (code "|") p ;;
        if b then pipeThen p else
        '(b, p) <- got (code ">") p ;;
        if b then p <- redirected p ;; p <- value p ;; stringLoop fuel' p else
        '(b, p) <- got (code "<") p ;;
        if b then p <- value p ;; stringLoop fuel' p else
        '(b, p) <- got (code ";") p ;;
        if b then ret p else
        '(b, p) <- got (code newline) p ;;
        if b then ret p else
        stringLoop fuel' (errUnexpected p)
  end.

Fixpoint braceBody (fuel : nat) (p : parser) : M parser :=
  match fuel with
  | O => out_of_fuel
  | S fuel' =>
      if negb (p_tok p =? EOF) && negb (p_tok p =? code "}") then
        '(b, p) <- got (code newline) p ;;
        if b then braceBody fuel' p
        else p <- command' p ;; braceBody fuel' p
      else ret p
  end.

Definition braceTail (p : parser) : M parser :=
  p <- want (code "}") p ;;
  '(b, p) <- got (code "&") p ;;
  if b then andThen p else
  '(b, p) <- got (code "|") p ;;
  if b then pipeThen p else
  '(b, p) <- got (code ">") p ;;
  if b then p <- redirected p ;; value p else
  '(b, p) <- got (code "<") p ;;
  if b then value p else
  '(b, p) <- got (code ";") p ;;
  if b then ret p else
  '(b, p) <- got (code newline) p ;;
  if b then ret p else
  ret (errUnexpected p).

Definition commandBody (fuel : nat) (p : parser) : M parser :=
  '(b, p) <- got IDENT p ;;
  if b then identLoop fuel p else
  '(b, p) <- got STRING p ;;
  if b then stringLoop fuel p else
  '(b, p) <- got (code "{") p ;;
  if b then p <- braceBody fuel p ;; braceTail p
  else ret (errUnexpected p).

Fixpoint programLoop (fuel : nat) (p : parser) : M parser :=
  match fuel with
  | O => out_of_fuel
  | S fuel' =>
      if negb (p_tok p =? EOF) then
        '(b, p) <- got (code newline) p ;;
        if b then programLoop fuel' p
        else p <- command' p ;; programLoop fuel' p
      else ret p
  end.

End Walker.

Fixpoint command (fuel : nat) (p : parser) : M parser :=
  match fuel with
  | O => out_of_fuel
  | S fuel' => commandBody (command fuel') fuel' p
  end.

Definition program (fuel : nat) (p : parser) : M parser :=
  p <- next p ;; programLoop (command fuel) fuel p.

(** The reader given to [parse]: the bytes that come before the first
    read error, and what [source] describes. *)
Definition input : Type := (list ascii * source)%type.

Definition passFuel (r : input) : nat :=
  S (S (S (length (fst r) + pending (snd r)))).

(** [parse]: a new parser over the reader [r], and the pass. *)
Definition run_parse (r : input) (name : string) : M parser :=
  fun w => program (passFuel r) (newParser (fst r) name)
                   (mkWorld (w_pkg w) (snd r)).

Definition parse (r : input) (name : string) : M (option error) :=
  p <- run_parse r name ;; ret (p_err p).

(** Two runs of [parse], one after the other, each over a reader of its
    own that gives [r]. *)
Definition twice (r : input) (name : string)
  : M (option error * option error) :=
  first <- parse r name ;;
  second <- parse r name ;;
  ret (first, second).

End Env.

(** * The vocabulary of the statements *)

(** Bytes that a reader can still give out: those not yet read and those
    [UnreadRune] would push back. *)
Definition weight (b : Reader) : nat :=
  (length (rd_buf b)
   + match rd_last b with Some bs => length bs | None => 0 end)%nat.

(** The number of bytes not yet read. *)
Definition buflen (p : parser) : nat := length (rd_buf (p_r p)).

(** [p'] has the name, the error and the log of [p]. *)
Definition same_err (p p' : parser) : Prop :=
  p_name p' = p_name p /\ p_log p' = p_log p /\ p_err p' = p_err p.

(** From [p] to [p'] either no error was recorded, or the one recorded
    last is the error of [p'], the token is [EOF] and the reader has
    nothing to push back. *)
Definition logged (p p' : parser) : Prop :=
  p_name p' = p_name p
  /\ ((p_log p' = p_log p /\ p_err p' = p_err p)
      \/ (exists e es, p_log p' = e :: es ++ p_log p
                       /\ p_err p' = Some e /\ p_tok p' = EOF
                       /\ rd_last (p_r p') = None)).

(** A rune that ends a run: the negation of the test of the loop of
    [next] that accumulates one. *)
Definition delimiter (r : Z) : bool := reserved r || quote r || space r.

(** What one call of [next] guarantees: the bytes it leaves, those to push
    back included, were there at the start; it takes at least one byte
    unless the token is [EOF]; and [logged]. *)
Definition lexed (p p' : parser) : Prop :=
  (weight (p_r p') <= buflen p)%nat
  /\ (p_tok p' = EOF \/ (buflen p' < buflen p)%nat)
  /\ logged p p'.

(** The steps by which the walker changes the parser: a token accepted by
    [got] or [want], which is never [EOF], and the two errors. *)
Inductive wstep : parser -> parser -> Prop :=
| ws_next (p : parser) : p_tok p <> EOF -> wstep p (next p)
| ws_wanted (tok : Z) (p : parser) : wstep p (errWanted tok p)
| ws_unexpected (p : parser) : wstep p (errUnexpected p).

(** Any number of steps of the walker. *)
Inductive walks : parser -> parser -> Prop :=
| walks_refl (p : parser) : walks p p
| walks_step (p q r : parser) : wstep p q -> walks q r -> walks p r.

(** The measure that bounds the pass: the bytes left, and one more while
    the token is not [EOF]. *)
Definition mu (p : parser) : nat :=
  (buflen p + if (p_tok p =? EOF)%Z then 0 else 1)%nat.

(** What the walker needs of a call of [command]: on a state of measure
    below [M] it returns, by steps of the walker, and the measure goes down
    unless the token was [EOF]. *)
Definition command_ok (M : nat) (command' : parser -> option parser) : Prop :=
  forall q, (mu q < M)%nat ->
    exists q', command' q = Some q' /\ walks q q'
               /\ (p_tok q <> EOF -> (mu q' < mu q)%nat).

(** The error of the struct is the one recorded last. *)
Definition consistent (p : parser) : Prop := p_err p = hd_error (p_log p).

(** The states of a pass over [r]: those the steps of the walker reach from
    the new parser, whose first step is the call of [next] in [program]. *)
Definition reachable (r name : string) (p : parser) : Prop :=
  walks (newParser (list_ascii_of_string r) name) p.

(** An error on record goes with the token [EOF]. *)
Definition frozen (p : parser) : Prop := p_err p <> None -> p_tok p = EOF.

(** The first error recorded during the pass. *)
Definition firstRecorded (r name : string) : option (option error) :=
  option_map (fun log => hd_error (rev log)) (recorded r name).

(** What the spec says of the error returned: it is the first that was
    recorded. *)
Definition first_error_wins : Prop :=
  forall (r name : string) (e : error),
    parse r name = Some (Some e) -> firstRecorded r name = Some (Some e).

(** The progress of the walker: the bytes left go down, or the token is
    [EOF]. *)
Definition progress (p p' : parser) : Prop :=
  (buflen p' < buflen p)%nat \/ (p_tok p' = EOF /\ (buflen p' <= buflen p)%nat).

(** A byte that goes on a run: ASCII, and not reserved, a quote or a
    space. *)
Definition wordChar (c : ascii) : bool :=
  (code c <? 128) && negb (delimiter (code c)).

(** A byte that ends a run. *)
Definition endChar (c : ascii) : bool :=
  (code c <? 128) && delimiter (code c).

(** [n] increments of a column. *)
Definition incrs (n : nat) (col : Z) : Z := Nat.iter n incr col.

(** Content with no double quote to end it: every double quote in it
    comes straight after a backslash that belongs to the same stretch. *)
Inductive unterminated : list ascii -> Prop :=
| un_plain (s : list ascii) : ~ In dquote s -> unterminated s
| un_escaped (pre t : list ascii) :
    ~ In dquote pre -> unterminated t ->
    unterminated (pre ++ bslash :: dquote :: t).

(** The line and the column of the end of an ASCII input, counted as the
    lexer counts: from line 1 and column 0, a newline starts a line. *)
Fixpoint endPosition (l : list ascii) (line col : Z) : Z * Z :=
  match l with
  | [] => (line, col)
  | c :: t =>
      if Ascii.eqb c newline then endPosition t (line + 1) 0
      else endPosition t line (col + 1)
  end.

(** What the spec says of an unterminated string, at one input: the pass
    fails with an error that wants the double quote and whose position is
    that of the end of the input. *)
Definition reported_at_end (r name : string) : Prop :=
  exists (format : string) (seen : string),
    parse r name = Some (Some (Errorf format [seen; tokStr (code dquote)]))
    /\ let '(line, col) := endPosition (list_ascii_of_string r) 1 0 in
       format = (positionAt name line col
                 ++ "unexpected token %s, wanted %s")%string.

(** An error text ends with [suffix]. *)
Definition hasSuffix (suffix s : string) : bool :=
  (String.length suffix <=? String.length s)%nat
  && String.eqb (substring (String.length s - String.length suffix)
                           (String.length suffix) s) suffix.

(** What the spec says of a ['('] that no [')'] follows, at one input:
    the pass fails, and the text of its error ends with the mismatch
    between the unexpected ['('] and the wanted [')']. *)
Definition paren_mismatch_reported (r name : string) : Prop :=
  exists e : error,
    parse r name = Some (Some e)
    /\ hasSuffix ("unexpected token " ++ tokStr (code "(") ++ ", wanted "
                  ++ tokStr (code ")")) (Error e) = true.

(** The pattern of the spec for an identifier, in its words: the first
    rune a letter or an underscore, the others letters, digits or
    underscores. *)
Definition isLetter (r : Z) : bool :=
  ((65 <=? r) && (r <=? 90)) || ((97 <=? r) && (r <=? 122)).

Definition isDigit (r : Z) : bool := (48 <=? r) && (r <=? 57).

Definition isUnderscore (r : Z) : bool := r =? 95.

Definition matchesIdentPattern (s : list Z) : bool :=
  match s with
  | [] => false
  | c :: cs =>
      (isLetter c || isUnderscore c)
      && forallb (fun r => isLetter r || isDigit r || isUnderscore r) cs
  end.

(** An unquoted word: word bytes, the first of them no backslash. *)
Definition isWord (w : list ascii) : bool :=
  match w with
  | [] => false
  | c :: w' =>
      wordChar c && negb (code c =? code bslash) && forallb wordChar w'
  end.

(** The words of a command after the first, a space before each. *)
Definition spaced (ws : list (list ascii)) : list ascii :=
  flat_map (fun w => " "%char :: w) ws.

(** The line, counted from 1, of the byte that follows [prefix]. *)
Definition lineAfter (prefix : list ascii) : Z :=
  1 + Z.of_nat (count_occ ascii_dec prefix newline).

(** The tokens that a call of [next] can leave in [p.tok]: [EOF], [IDENT],
    [STRING], or a reserved rune other than ['#']. *)
Definition tokenKind (t : Z) : bool :=
  (t =? EOF) || (t =? IDENT) || (t =? STRING)
  || (reserved t && negb (t =? code "#")).

(** The errors that a pass under [name] can record: the one of
    [UnreadRune], and the two that [lineErr] makes, for some position and
    some tokens. *)
Definition shaped (name : string) (e : error) : Prop :=
  e = ErrInvalidUnreadRune
  \/ (exists line col tok,
        e = Errorf (positionAt name line col ++ "unexpected token %s")
                   [tokStr tok])
  \/ (exists line col tok w,
        e = Errorf (positionAt name line col
                    ++ "unexpected token %s, wanted %s")
                   [tokStr tok; tokStr w]).

(** From [p] to [p'] the name is kept and the log has grown by errors of
    these shapes only. *)
Definition grows (p p' : parser) : Prop :=
  p_name p' = p_name p
  /\ exists es, p_log p' = es ++ p_log p /\ Forall (shaped (p_name p)) es.

(** What one call of [next] guarantees besides [lexed]: the kind of the
    token; that the reader has a rune to push back only when the token is
    that reserved rune; the shapes of the errors recorded; and that the
    token [EOF] with no error recorded means that nothing is left to read
    (for a call made on a token other than [EOF], or on an empty reader). *)
Definition lexinv (p p' : parser) : Prop :=
  tokenKind (p_tok p') = true
  /\ (rd_last (p_r p') <> None -> reserved (p_tok p') = true)
  /\ grows p p'
  /\ (p_tok p <> EOF \/ rd_buf (p_r p) = [] ->
      p_log p' = p_log p -> p_tok p' = EOF -> rd_buf (p_r p') = []).

(** Every error on record has one of the shapes, under the name [name]. *)
Definition wellLogged (name : string) (p : parser) : Prop :=
  p_name p = name /\ Forall (shaped name) (p_log p).

(** The token [EOF] with no error on record means that nothing is left to
    read. *)
Definition readOut (p : parser) : Prop :=
  p_err p = None -> p_tok p = EOF -> rd_buf (p_r p) = [].

(** An input of spaces, tabs, newlines and comments: [inComment] tells
    whether the bytes are those of a comment, which a newline ends. *)
Fixpoint blankFrom (inComment : bool) (l : list ascii) : bool :=
  match l with
  | [] => true
  | c :: t =>
      if inComment then blankFrom (negb (Ascii.eqb c newline)) t
      else if Ascii.eqb c "#" then blankFrom true t
      else (space (code c) || Ascii.eqb c newline) && blankFrom false t
  end.

(** Double-quoted content that the next double quote ends: stretches
    with no double quote, each but the last ended by a backslash and a
    double quote, the last not ended by a backslash. *)
Inductive closed : list ascii -> Prop :=
| cl_plain (s : list ascii) :
    ~ In dquote s -> last s zero <> bslash -> closed s
| cl_escaped (pre t : list ascii) :
    ~ In dquote pre -> closed t -> closed (pre ++ bslash :: dquote :: t).

(** A plain byte: ASCII, and no ['#'], quote or backslash. *)
Definition plainByte (c : ascii) : bool :=
  (code c <? 128) && negb (Ascii.eqb c "#") && negb (quote (code c))
  && negb (Ascii.eqb c bslash).

(** The line and the column of [p] are those of the end of the bytes of
    [input] that are no longer in its reader. *)
Definition located (input : list ascii) (p : parser) : Prop :=
  exists pre, input = pre ++ rd_buf (p_r p)
              /\ endPosition pre 1 0 = (p_line p, p_col p).

(** The error on record, when [lineErr] made it, starts with the position
    that [p] has. *)
Definition positioned (p : parser) : Prop :=
  match p_err p with
  | Some (Errorf format _) =>
      exists rest, format = (position p ++ rest)%string
  | Some io_EOF => False
  | _ => True
  end.

(** The error of [UnreadRune], when it is on record, comes with an input
    that ends in two bytes of a word or more. *)
Definition endsInWord (input : list ascii) (p : parser) : Prop :=
  p_err p = Some ErrInvalidUnreadRune ->
  exists pre c c' w,
    input = pre ++ c :: c' :: w /\ forallb wordChar (c :: c' :: w) = true.

(** A text with no percent sign. *)
Definition noPercent (s : string) : bool :=
  forallb (fun c => negb (Ascii.eqb c "%")) (list_ascii_of_string s).

(** ** The grammar of the walker, on tokens *)

(** A state delivers the tokens [ts]: they are the tokens of [p] and of
    the states that successive calls of [next] give, up to a token [EOF]
    that comes with no error on record. *)
Inductive lexes : parser -> list Z -> Prop :=
| lexes_nil (p : parser) : p_tok p = EOF -> p_err p = None -> lexes p []
| lexes_cons (p : parser) (ts : list Z) :
    p_tok p <> EOF -> lexes (next p) ts -> lexes p (p_tok p :: ts).

(** The same as a function: the tokens from [p] on, [None] when the token
    [EOF] comes with an error on record (or the fuel is too short). *)
Fixpoint scan (fuel : nat) (p : parser) : option (list Z) :=
  match fuel with
  | O => None
  | S fuel' =>
      if p_tok p =? EOF then
        match p_err p with
        | None => Some []
        | Some _ => None
        end
      else
        match scan fuel' (next p) with
        | Some ts => Some (p_tok p :: ts)
        | None => None
        end
  end.

(** The tokens of an input: those that the first call of [next], made by
    [program], and the calls after it deliver. *)
Definition tokens (r name : string) : option (list Z) :=
  let input := list_ascii_of_string r in
  scan (passFuel input) (next (newParser input name)).

(** A word of a command: [IDENT] or [STRING]. *)
Definition wordTok (t : Z) : bool := (t =? IDENT) || (t =? STRING).

(** The token sequences that [command] takes, read off its cases; the
    second list is what is left when [command] returns.
    - [Tail id]: what follows the first word of a command, [id] telling
      whether that word was [IDENT]: words, redirections and, after an
      identifier, [=], up to the end of the input, a [;], a newline, a
      [&], a connector and its command, or, after an identifier, the body
      of a function.
    - [Cmd]: a command.
    - [Block]: newlines and commands up to a closing brace.
    - [After]: what follows the closing brace of a [{] command. *)
Inductive Tail : bool -> list Z -> list Z -> Prop :=
| tail_eof (id : bool) : Tail id [] []
| tail_word (id : bool) (t : Z) (ts r : list Z) :
    wordTok t = true -> Tail id ts r -> Tail id (t :: ts) r
| tail_assign (ts r : list Z) :
    Tail true ts r -> Tail true (code "=" :: ts) r
| tail_out (id : bool) (w : Z) (ts r : list Z) :
    wordTok w = true -> Tail id ts r -> Tail id (code ">" :: w :: ts) r
| tail_append (id : bool) (w : Z) (ts r : list Z) :
    wordTok w = true -> Tail id ts r ->
    Tail id (code ">" :: code ">" :: w :: ts) r
| tail_dup (id : bool) (w : Z) (ts r : list Z) :
    wordTok w = true -> Tail id ts r ->
    Tail id (code ">" :: code "&" :: w :: ts) r
| tail_in (id : bool) (w : Z) (ts r : list Z) :
    wordTok w = true -> Tail id ts r -> Tail id (code "<" :: w :: ts) r
| tail_semi (id : bool) (r : list Z) : Tail id (code ";" :: r) r
| tail_newline (id : bool) (r : list Z) : Tail id (code newline :: r) r
| tail_bg (id : bool) (r : list Z) :
    hd_error r <> Some (code "&") -> Tail id (code "&" :: r) r
| tail_and (id : bool) (ts r : list Z) :
    Cmd ts r -> Tail id (code "&" :: code "&" :: ts) r
| tail_pipe (id : bool) (ts r : list Z) :
    Cmd ts r -> Tail id (code "|" :: ts) r
| tail_or (id : bool) (ts r : list Z) :
    Cmd ts r -> Tail id (code "|" :: code "|" :: ts) r
| tail_func (ts r : list Z) :
    Block ts r -> Tail true (code "(" :: code ")" :: code "{" :: ts) r
with Cmd : list Z -> list Z -> Prop :=
| cmd_ident (ts r : list Z) : Tail true ts r -> Cmd (IDENT :: ts) r
| cmd_string (ts r : list Z) : Tail false ts r -> Cmd (STRING :: ts) r
| cmd_brace (ts m r : list Z) :
    Block ts m -> After m r -> Cmd (code "{" :: ts) r
with Block : list Z -> list Z -> Prop :=
| block_end (r : list Z) : Block (code "}" :: r) r
| block_newline (ts r : list Z) : Block ts r -> Block (code newline :: ts) r
| block_cmd (ts m r : list Z) : Cmd ts m -> Block m r -> Block ts r
with After : list Z -> list Z -> Prop :=
| after_semi (r : list Z) : After (code ";" :: r) r
| after_newline (r : list Z) : After (code newline :: r) r
| after_bg (r : list Z) :
    hd_error r <> Some (code "&") -> After (code "&" :: r) r
| after_and (ts r : list Z) : Cmd ts r -> After (code "&" :: code "&" :: ts) r
| after_pipe (ts r : list Z) : Cmd ts r -> After (code "|" :: ts) r
| after_or (ts r : list Z) : Cmd ts r -> After (code "|" :: code "|" :: ts) r
| after_out (w : Z) (r : list Z) :
    wordTok w = true -> After (code ">" :: w :: r) r
| after_append (w : Z) (r : list Z) :
    wordTok w = true -> After (code ">" :: code ">" :: w :: r) r
| after_dup (w : Z) (r : list Z) :
    wordTok w = true -> After (code ">" :: code "&" :: w :: r) r
| after_in (w : Z) (r : list Z) :
    wordTok w = true -> After (code "<" :: w :: r) r.

Scheme Tail_mut := Minimality for Tail Sort Prop
  with Cmd_mut := Minimality for Cmd Sort Prop
  with Block_mut := Minimality for Block Sort Prop
  with After_mut := Minimality for After Sort Prop.

Combined Scheme grammar_mut from Tail_mut, Cmd_mut, Block_mut, After_mut.

(** The token sequences that [program] takes: newlines and commands, up
    to the end of the input. *)
Inductive Prog : list Z -> Prop :=
| prog_end : Prog []
| prog_newline (ts : list Z) : Prog ts -> Prog (code newline :: ts)
| prog_cmd (ts r : list Z) : Cmd ts r -> Prog r -> Prog ts.

(** The loop of [command] after its first word. *)
Definition wordLoop (id : bool) :=
  if id then identLoop else stringLoop.

(** With enough fuel, [command] takes [p] to [p']. *)
Definition runs (p p' : parser) : Prop :=
  exists n, forall m, (n <= m)%nat -> command m p = Some p'.

(** With enough fuel for it and for the calls of [command] it makes, the
    loop [f] takes [p] to [p']. *)
Definition loops
    (f : (parser -> option parser) -> nat -> parser -> option parser)
    (p p' : parser) : Prop :=
  exists n, forall m k, (n <= m)%nat -> (n <= k)%nat ->
    f (command m) k p = Some p'.

(** ** The tokens of plain input, said directly *)

(** The token of a word that a delimiter ends, when there is a word. *)
Definition flush (w : list ascii) : list Z :=
  match w with
  | [] => []
  | _ => [classify (map code w)]
  end.

(** The token of a word that the end of the input ends: a word of two
    bytes or more there is an error of the lexer. *)
Definition flushEnd (w : list ascii) : option (list Z) :=
  match w with
  | [] => Some []
  | [c] => Some [classify [code c]]
  | _ => None
  end.

(** The tokens of plain bytes: the longest runs of word bytes, each
    classified, and the reserved bytes, each its own token; spaces and
    tabs only separate.  [w] is the word read so far. *)
Fixpoint plainTokens (l : list ascii) (w : list ascii) : option (list Z) :=
  match l with
  | [] => flushEnd w
  | c :: t =>
      if wordChar c then plainTokens t (w ++ [c])
      else
        match plainTokens t [] with
        | Some ts =>
            Some (flush w ++ (if space (code c) then [] else [code c]) ++ ts)
        | None => None
        end
  end.

(** The number of tokens [t] in [ts]. *)
Definition count (t : Z) (ts : list Z) : nat :=
  length (filter (Z.eqb t) ts).

(** [ts] has, over what is left in [r], [k] more closing braces than
    opening ones, and as many closing parentheses as opening ones. *)
Definition closes (k : nat) (ts r : list Z) : Prop :=
  (count (code "{") ts + count (code "}") r + k
   = count (code "}") ts + count (code "{") r)%nat
  /\ (count (code "(") ts + count (code ")") r
      = count (code ")") ts + count (code "(") r)%nat.

(** Two states that differ at most by the name and by which errors are on
    record: the reader, the token, the line and the column are the same,
    and one has an error when the other has. *)
Definition alike (p q : parser) : Prop :=
  p_r p = p_r q /\ p_tok p = p_tok q /\ p_line p = p_line q
  /\ p_col p = p_col q /\ (p_err p = None <-> p_err q = None).

(** Two results that are both there and alike, or both missing. *)
Definition alikeOpt (a b : option parser) : Prop :=
  match a, b with
  | Some p, Some q => alike p q
  | None, None => True
  | _, _ => False
  end.

(** At least one step of the walker from [p] to [p']: a token was consumed
    or a fatal error was recorded, and nothing else was done. *)
Definition advances (p p' : parser) : Prop :=
  exists q, wstep p q /\ walks q p'.

(** One round of the loop [L] entered on [p]: by at least one step of the
    walker it reaches a state of smaller measure, on which the loop goes
    round or with which it returns. *)
Definition iterates (L : nat -> parser -> option parser) (p : parser)
  : Prop :=
  forall fuel, (mu p + 1 <= fuel)%nat ->
    exists q, advances p q /\ (mu q < mu p)%nat
              /\ (L (S fuel) p = L fuel q \/ L (S fuel) p = Some q).

(** A byte of an input with no quoted string and no backslash: ASCII, and
    no quote or backslash. *)
Definition bareByte (c : ascii) : bool :=
  (code c <? 128) && negb (quote (code c)) && negb (Ascii.eqb c bslash).

(** The line and the column at the end of [l] when, of a comment, only the
    ['#'] is counted, and neither its body nor the newline that ends it.
    [inComment] tells whether [l] starts inside a comment, and the result
    whether it ends inside one. *)
Fixpoint countedPosition (inComment : bool) (l : list ascii) (line col : Z)
  : bool * (Z * Z) :=
  match l with
  | [] => (inComment, (line, col))
  | c :: t =>
      if inComment then
        countedPosition (negb (Ascii.eqb c newline)) t line col
      else if Ascii.eqb c "#" then countedPosition true t line (col + 1)
      else if Ascii.eqb c newline then countedPosition false t (line + 1) 0
      else countedPosition false t line (col + 1)
  end.

(** The number of comments of [l] that a newline ends. *)
Fixpoint commentLines (inComment : bool) (l : list ascii) : nat :=
  match l with
  | [] => 0
  | c :: t =>
      if inComment then
        if Ascii.eqb c newline then S (commentLines false t)
        else commentLines true t
      else commentLines (Ascii.eqb c "#") t
  end.

(** The line and the column of [p] are those counted in this way over the
    bytes of [input] that are no longer in its reader, and a comment that
    these bytes leave open has taken all the bytes there were. *)
Definition counted (input : list ascii) (p : parser) : Prop :=
  exists pre inComment,
    input = pre ++ rd_buf (p_r p)
    /\ countedPosition false pre 1 0 = (inComment, (p_line p, p_col p))
    /\ (inComment = true -> rd_buf (p_r p) = []).

(** What the claim on comment lines says of the line of an error, at one
    input whose offending token starts at offset [k]: the pass fails with
    an error whose line is the line of that byte less the number of comment
    lines before it. *)
Definition line_short_by_comments (input : list ascii) (name : string)
    (k : nat) : Prop :=
  exists col format v,
    parse (str input) name
    = Some (Some (Errorf
                    (positionAt name
                       (lineAfter (firstn k input)
                        - Z.of_nat (commentLines false (firstn k input)))
                       col ++ format) v)).

(** [m] computes [x] and leaves the world [world0] as it is. *)
Definition computes {A : Type} (m : Env.M A) (x : option A) : Prop :=
  m Env.world0 = option_map (fun a => (a, Env.world0)) x.

(** [m] leaves the package-level variables as they were, whatever they
    hold and whatever the reader gives. *)
Definition keeps {A : Type} (m : Env.M A) : Prop :=
  forall w a w', m w = Some (a, w') -> Env.w_pkg w' = Env.w_pkg w.

(** An error other than [io.EOF] that a read of the reader described by
    [src] returns. *)
Definition readError (src : Env.source) (e : error) : Prop :=
  e <> io_EOF /\ exists bytes, In (e, bytes) src.

(** The errors that a pass under [name] over such a reader can record:
    those of the shapes above, and the read errors of the reader. *)
Definition recordable (name : string) (src : Env.source) (e : error)
  : Prop :=
  shaped name e \/ readError src e.

(** The name is [name], every error on record is one of these, and the
    error of the struct is the one recorded last. *)
Definition sound (name : string) (src : Env.source) (p : parser) : Prop :=
  p_name p = name /\ Forall (recordable name src) (p_log p)
  /\ consistent p.

(** When the read errors that the reader has still to give are among those
    of [src], the result of [m] satisfies [P], and the read errors left are
    among those of [src]. *)
Definition yields {A : Type} (src : Env.source) (P : A -> Prop)
    (m : Env.M A) : Prop :=
  forall w a w',
    incl (Env.w_src w) src -> m w = Some (a, w') ->
    P a /\ incl (Env.w_src w') src.

(** The outcome of a read: its error, if it has one, is [io.EOF] or a read
    error of the reader. *)
Definition readOutcome {A B : Type} (src : Env.source)
    (x : (A * option error) * B) : Prop :=
  forall e, snd (fst x) = Some e -> e = io_EOF \/ readError src e.

(** The parser that an outcome of the first loop of [next], or of the
    loop that accumulates a run, holds. *)
Definition skippedParser (s : skipped) : parser :=
  match s with
  | Returned p => p
  | Rune _ p => p
  end.

Definition runParser (r : run) : parser :=
  match r with
  | RunFailed p => p
  | RunEnd _ p => p
  end.

(** * Properties of the reader *)

Lemma first_size (c0 : Z) (sz : nat) (rg : Z * Z) :
  first c0 = Some (sz, rg) -> (2 <= sz <= 4)%nat.
Proof.
  unfold first.
  repeat match goal with
         | |- context [if ?c then _ else _] => destruct c
         end; intros H; inversion H; subst; lia.
Qed.

Lemma DecodeRune_size (p : list ascii) :
  p <> [] -> (1 <= snd (DecodeRune p) <= length p)%nat.
Proof.
  intros Hp. unfold DecodeRune.
  destruct p as [|c t]; [congruence|]. cbn [length].
  change (S (length t) <? 1)%nat with false. cbv iota.
  destruct (byte_at (c :: t) 0 <? 128); [cbn; lia|].
  destruct (first (byte_at (c :: t) 0)) as [[sz [lo hi]]|] eqn:Hf;
    [|cbn; lia].
  apply first_size in Hf.
  destruct (S (length t) <? sz)%nat eqn:Hn; [cbn; lia|].
  apply Nat.ltb_ge in Hn.
  destruct (_ || _); [cbn; lia|].
  destruct (sz <=? 2)%nat eqn:H2; [cbn; lia|]. apply Nat.leb_gt in H2.
  destruct (_ || _); [cbn; lia|].
  destruct (sz <=? 3)%nat eqn:H3; [cbn; lia|]. apply Nat.leb_gt in H3.
  destruct (_ || _); cbn; lia.
Qed.

(** What [ReadRune] does to the reader: at the end of the stream nothing
    is left to push back; otherwise at least one byte is taken, and it is
    what [UnreadRune] would give back. *)
Lemma ReadRune_cases (b : Reader) :
  let '((r, sz, e), b') := ReadRune b in
  (e = Some io_EOF /\ rd_buf b = [] /\ b' = mkReader [] None)
  \/ (e = None /\ weight b' = length (rd_buf b)
      /\ (length (rd_buf b') < length (rd_buf b))%nat
      /\ rd_last b' <> None).
Proof.
  unfold ReadRune. destruct (rd_buf b) as [|c t] eqn:Hb; [left; auto|].
  assert (Hsz : forall rs : Z * nat, (1 <= snd rs <= length (c :: t))%nat ->
            let '(r, size) := rs in
            (None = Some io_EOF :> option error /\ c :: t = [] /\
             mkReader (skipn size (c :: t)) (Some (firstn size (c :: t)))
             = mkReader [] None)
            \/ (None = None :> option error
                /\ weight (mkReader (skipn size (c :: t))
                                    (Some (firstn size (c :: t))))
                   = length (c :: t)
                /\ (length (rd_buf (mkReader (skipn size (c :: t))
                                             (Some (firstn size (c :: t)))))
                    < length (c :: t))%nat
                /\ rd_last (mkReader (skipn size (c :: t))
                                     (Some (firstn size (c :: t)))) <> None)).
  { intros [r size] Hs. cbn [snd] in Hs. right. unfold weight. cbn [rd_buf rd_last].
    rewrite length_skipn, length_firstn. repeat split; try lia. discriminate. }
  destruct (code c <? 128).
  - apply (Hsz (code c, 1%nat)). cbn. lia.
  - specialize (Hsz (DecodeRune (c :: t))).
    destruct (DecodeRune (c :: t)) as [r size] eqn:Hd.
    apply Hsz. rewrite <- Hd at 1 2. rewrite Hd. cbn [snd].
    pose proof (DecodeRune_size (c :: t)) as H. rewrite Hd in H.
    apply H. discriminate.
Qed.

Lemma UnreadRune_cases (b : Reader) :
  let '(e, b') := UnreadRune b in
  (e = Some ErrInvalidUnreadRune /\ b' = b /\ rd_last b = None)
  \/ (e = None /\ rd_last b' = None /\ length (rd_buf b') = weight b
      /\ rd_last b <> None).
Proof.
  unfold UnreadRune, weight. destruct (rd_last b) as [bs|]; [right|left; auto].
  cbn. rewrite length_app. repeat split; try lia. discriminate.
Qed.

Lemma cut_some (d : ascii) (l line rest : list ascii) :
  cut d l = Some (line, rest) ->
  l = line ++ rest /\ nth (length line - 1) line zero = d
  /\ (1 <= length line)%nat /\ ~ In d (removelast line).
Proof.
  revert line rest. induction l as [|c t IH]; intros line rest; cbn [cut].
  - discriminate.
  - destruct (Ascii.eqb c d) eqn:Hc.
    + intros H; inversion H; subst. apply Ascii.eqb_eq in Hc. subst.
      cbn. repeat split; auto.
    + destruct (cut d t) as [[line' rest']|]; [|discriminate].
      intros H; inversion H; subst.
      destruct (IH line' rest eq_refl) as (-> & Hn & Hl & Hin).
      repeat split; cbn [length]; try lia.
      * destruct line' as [|x xs]; [cbn in Hl; lia|].
        cbn [length] in *. replace (S (S (length xs)) - 1)%nat
          with (S (S (length xs) - 1)) by lia. exact Hn.
      * destruct line' as [|x xs]; [cbn in Hl; lia|].
        change (removelast (c :: x :: xs)) with (c :: removelast (x :: xs)).
        intros [E|E]; [|auto]. subst. rewrite Ascii.eqb_refl in Hc.
        discriminate.
Qed.

Lemma cut_none (d : ascii) (l : list ascii) :
  cut d l = None <-> ~ In d l.
Proof.
  induction l as [|c t IH]; cbn [cut].
  - split; auto.
  - destruct (Ascii.eqb c d) eqn:Hc.
    + apply Ascii.eqb_eq in Hc. subst. split; [discriminate|].
      intros H; exfalso; apply H; left; auto.
    + apply Ascii.eqb_neq in Hc. destruct (cut d t) as [[a b]|].
      * split; [discriminate|]. intros H. exfalso.
        assert (Ht : ~ In d t) by (intros X; apply H; right; auto).
        apply IH in Ht. discriminate.
      * split; auto. intros _ [E|E]; [auto|]. apply IH in E; auto.
Qed.

Lemma cut_found (d : ascii) (pre t : list ascii) :
  ~ In d pre -> cut d (pre ++ d :: t) = Some (pre ++ [d], t).
Proof.
  intros Hn. induction pre as [|x xs IH]; cbn [cut app].
  - rewrite Ascii.eqb_refl. reflexivity.
  - destruct (Ascii.eqb x d) eqn:E.
    + apply Ascii.eqb_eq in E. exfalso. apply Hn. left. exact E.
    + rewrite IH; [reflexivity|]. intros H. apply Hn. right. exact H.
Qed.

Lemma ReadBytes_cases (d : ascii) (b : Reader) :
  let '((line, e), b') := ReadBytes d b in
  rd_last b' = None /\ rd_buf b = line ++ rd_buf b'
  /\ ((e = None /\ nth (length line - 1) line zero = d
       /\ (1 <= length line)%nat)
      \/ (e = Some io_EOF /\ rd_buf b' = [] /\ ~ In d line)).
Proof.
  unfold ReadBytes. destruct (cut d (rd_buf b)) as [[line rest]|] eqn:Hc.
  - apply cut_some in Hc. destruct Hc as (H1 & H2 & H3 & _).
    cbn. repeat split; auto.
  - apply cut_none in Hc. cbn. rewrite app_nil_r. repeat split; auto.
Qed.

(** * Properties of the lexer *)

Arguments incr : simpl never.
Arguments decr : simpl never.
Arguments position : simpl never.
Arguments positionAt : simpl never.
Arguments tokStr : simpl never.
Arguments classify : simpl never.

Lemma same_err_trans p q r : same_err p q -> same_err q r -> same_err p r.
Proof. unfold same_err. intuition congruence. Qed.

Lemma same_err_logged p q : same_err p q -> logged p q.
Proof. unfold same_err, logged. intuition. Qed.

Lemma logged_same_l p q r : same_err p q -> logged q r -> logged p r.
Proof.
  intros (Hn & Hl & He) (Hn' & [[Hl' He']|(e & es & Hl' & R)]).
  - split; [congruence|left; split; congruence].
  - split; [congruence|right]. exists e, es. rewrite <- Hl. auto.
Qed.

Lemma logged_errPass p q e :
  logged p q -> rd_last (p_r q) = None -> logged p (errPass e q).
Proof.
  intros (Hn & [[Hl He]|(e' & es & Hl & R)]) Hlast; split; auto; right.
  - exists e, []. cbn. rewrite Hl. auto.
  - exists e, (e' :: es). cbn. rewrite Hl. auto.
Qed.

Ltac reader_cases :=
  match goal with
  | |- context [ReadRune ?b] =>
      let H := fresh "Hrd" in
      pose proof (ReadRune_cases b) as H;
      destruct (ReadRune b) as [[[? ?] ?] ?];
      destruct H as [(-> & ? & ->)|(-> & ? & ? & ?)]
  | |- context [ReadBytes ?d ?b] =>
      let H := fresh "Hrd" in
      pose proof (ReadBytes_cases d b) as H;
      destruct (ReadBytes d b) as [[? ?] ?];
      destruct H as (? & ? & [(-> & ? & ?)|(-> & ? & ?)])
  | |- context [UnreadRune ?b] =>
      let H := fresh "Hrd" in
      pose proof (UnreadRune_cases b) as H;
      destruct (UnreadRune b) as [? ?];
      destruct H as [(-> & -> & ?)|(-> & ? & ? & ?)]
  end.

(** The test of [strContent] for going on: the line read has at least two
    bytes and ends with a backslash and the delimiter. *)
Lemma escaped_end (d : ascii) (b : list ascii) :
  (1 <? length b)%nat
  && Ascii.eqb (nth (length b - 2) b zero) bslash
  && Ascii.eqb (nth (length b - 1) b zero) d = true ->
  In d b /\ (2 <= length b)%nat.
Proof.
  intros Hc. apply andb_prop in Hc. destruct Hc as [Hc Hd].
  apply andb_prop in Hc. destruct Hc as [Hlen _].
  apply Ascii.eqb_eq in Hd. apply Nat.ltb_lt in Hlen.
  split; [|lia]. rewrite <- Hd. apply nth_In. lia.
Qed.

Lemma strContent_post (fuel : nat) (d : ascii) (p p' : parser) :
  strContent fuel d p = Some p' ->
  (weight (p_r p') <= buflen p)%nat /\ logged p p'
  /\ (p_log p' = p_log p -> p_tok p' = p_tok p).
Proof.
  revert p p'. induction fuel as [|n IH]; intros p p'; [discriminate|].
  cbn [strContent]. reader_cases.
  - (* the delimiter was found *)
    assert (Hw : (weight r <= buflen p)%nat).
    { unfold weight, buflen. rewrite H, H0, length_app. lia. }
    destruct (Ascii.eqb d squote).
    { intros E; inversion E; subst. split; [exact Hw|].
      split; [apply same_err_logged; repeat split|auto]. }
    destruct (_ && _).
    + intros E. apply IH in E. destruct E as (E1 & E2 & E3).
      cbn in E1. unfold buflen in *. cbn in *.
      split; [rewrite H0, length_app; lia|]. split; [|exact E3].
      eapply logged_same_l; [|exact E2]. repeat split.
    + intros E; inversion E; subst. split; [exact Hw|].
      split; [apply same_err_logged; repeat split|auto].
  - (* the stream ended first *)
    assert (Hp : forall q, Some (errWanted (code d) (set_r p r)) = Some q ->
      (weight (p_r q) <= buflen p)%nat /\ logged p q
      /\ (p_log q = p_log p -> p_tok q = p_tok p)).
    { intros q E; inversion E; subst. cbn. unfold weight. rewrite H, H1.
      split; [cbn; lia|]. split.
      - split; [reflexivity|right]. eexists _, []. cbn. auto.
      - intros X. exfalso. symmetry in X.
        apply (f_equal (@length error)) in X. cbn in X. lia. }
    destruct (Ascii.eqb d squote); [apply Hp|].
    destruct (_ && _) eqn:Hc; [|apply Hp].
    apply escaped_end in Hc. destruct Hc as (Hin & _). contradiction.
Qed.

Lemma discardUpTo_post (d : ascii) (p : parser) :
  (weight (p_r (discardUpTo d p)) <= buflen p)%nat
  /\ same_err p (discardUpTo d p).
Proof.
  unfold discardUpTo. reader_cases; cbn; unfold weight, buflen;
    rewrite H, H0, length_app; split; try lia; repeat split.
Qed.

Lemma skipSpace_post (fuel : nat) (p : parser) (s : skipped) :
  skipSpace fuel p = Some s ->
  match s with
  | Returned p' =>
      (weight (p_r p') <= buflen p)%nat /\ p_tok p' = EOF /\ same_err p p'
  | Rune r p' =>
      (weight (p_r p') <= buflen p)%nat /\ (buflen p' < buflen p)%nat
      /\ space r = false /\ same_err p p' /\ p_tok p' = p_tok p
      /\ p_line p' = p_line p
  end.
Proof.
  revert p s. induction fuel as [|n IH]; intros p s; [discriminate|].
  cbn [skipSpace]. reader_cases.
  - intros E; inversion E; subst. cbn. repeat split. lia.
  - destruct (space z) eqn:Hs.
    + intros E. apply IH in E. unfold buflen in *. cbn in *.
      destruct s; cbn in *; intuition (try lia);
        eapply same_err_trans; eauto; repeat split.
    + intros E; inversion E; subst. unfold buflen. cbn.
      repeat split; auto; lia.
Qed.

Lemma readRun_post (fuel : nat) (r : Z) (runes : list Z) (p : parser)
    (res : run) :
  readRun fuel r runes p = Some res ->
  match res with
  | RunFailed _ => False
  | RunEnd runes' p' =>
      same_err p p' /\ p_tok p' = p_tok p /\ p_line p' = p_line p
      /\ (length runes <= length runes')%nat
      /\ (weight (p_r p') <= weight (p_r p))%nat
      /\ (delimiter r = false -> (weight (p_r p') <= buflen p)%nat)
      /\ (delimiter r = true -> p' = p /\ runes' = runes)
  end.
Proof.
  revert r runes p res. induction fuel as [|n IH]; intros r runes p res;
    [discriminate|].
  cbn [readRun]. unfold delimiter.
  destruct (reserved r), (quote r), (space r); cbn [negb andb orb];
    try (intros E; inversion E; subst; repeat split; auto; discriminate).
  reader_cases.
  - intros E; inversion E; subst. cbn. unfold weight, buflen. cbn.
    repeat split; auto; try lia; discriminate.
  - intros E. apply IH in E. destruct res as [|runes' p']; [exact E|].
    destruct E as (E1 & E2 & E3 & E4 & E5 & _). cbn in *.
    rewrite length_app in E4. cbn in E4. unfold buflen, weight in *.
    repeat split; try (destruct E1 as (?&?&?); assumption);
      auto; try lia; discriminate.
Qed.

Lemma word_post (fuel : nat) (r : Z) (p p' : parser) :
  delimiter r = false ->
  word fuel r p = Some p' ->
  (weight (p_r p') <= buflen p)%nat /\ logged p p'.
Proof.
  intros Hd. unfold word.
  destruct (readRun fuel r [r] p) as [[q|runes q]|] eqn:Hr; [| |discriminate];
    apply readRun_post in Hr; [contradiction|].
  destruct Hr as (Hs & Ht & _ & Hl & _ & Hw & _). specialize (Hw Hd).
  destruct (1 <? length runes)%nat.
  - reader_cases; intros E; inversion E; subst; cbn.
    + split; [exact Hw|]. apply logged_errPass; cbn; auto.
      apply same_err_logged. destruct Hs as (?&?&?). repeat split; auto.
    + unfold weight in *. rewrite H. split; [lia|].
      apply same_err_logged. destruct Hs as (?&?&?). repeat split; auto.
  - intros E; inversion E; subst; cbn. split; [exact Hw|].
    apply same_err_logged. destruct Hs as (?&?&?). repeat split; auto.
Qed.

Lemma buflen_weight (p : parser) : (buflen p <= weight (p_r p))%nat.
Proof. unfold buflen, weight. lia. Qed.

Lemma token_post (next' : parser -> option parser) (fuel : nat) (r : Z)
    (p p' : parser) :
  (forall q q', next' q = Some q' -> lexed q q') ->
  space r = false ->
  token next' fuel r p = Some p' ->
  (weight (p_r p') <= weight (p_r p))%nat
  /\ (buflen p' <= buflen p)%nat /\ logged p p'.
Proof.
  intros Hnext Hsp. unfold token.
  destruct (reserved r) eqn:Hres.
  - destruct (r =? code "#").
    + intros E. apply Hnext in E. destruct E as (E1 & _ & E3).
      destruct (discardUpTo_post newline p) as (D1 & D2).
      pose proof (buflen_weight (discardUpTo newline p)).
      pose proof (buflen_weight p). pose proof (buflen_weight p').
      split; [lia|split; [lia|]]. eapply logged_same_l; eauto.
    + intros E; inversion E; subst.
      destruct (r =? code newline); cbn; unfold buflen; cbn;
        (split; [lia|split; [lia|]]); apply same_err_logged; repeat split.
  - destruct (quote r) eqn:Hq.
    + destruct (strContent fuel (byte_of r) p) as [q|] eqn:Hs; [|discriminate].
      apply strContent_post in Hs. destruct Hs as (S1 & S2 & _).
      pose proof (buflen_weight p). pose proof (buflen_weight q).
      destruct (p_tok q =? EOF) eqn:Ht; intros E; inversion E; subst.
      * split; [lia|split; [lia|exact S2]].
      * cbn. unfold buflen in *. cbn. split; [lia|split; [lia|]].
        destruct S2 as (Sn & [S2|(e & es & _ & _ & S2 & _)]);
          [split; [exact Sn|left; exact S2]|].
        rewrite S2 in Ht. discriminate.
    + intros E. apply word_post in E.
      * destruct E as (E1 & E2). pose proof (buflen_weight p).
        pose proof (buflen_weight p'). split; [lia|split; [lia|exact E2]].
      * unfold delimiter. rewrite Hres, Hq, Hsp. reflexivity.
Qed.

Lemma next_fuel_post (fuel : nat) (p p' : parser) :
  next_fuel fuel p = Some p' -> lexed p p'.
Proof.
  revert p p'. induction fuel as [|n IH]; intros p p'; [discriminate|].
  cbn [next_fuel].
  destruct (skipSpace n p) as [[q|r q]|] eqn:Hs; [| |discriminate];
    apply skipSpace_post in Hs.
  - intros E; inversion E; subst. destruct Hs as (S1 & S2 & S3).
    split; [exact S1|split; [left; exact S2|apply same_err_logged; exact S3]].
  - destruct Hs as (S1 & S2 & S3 & S4 & _).
    assert (Htok : forall q0 q1,
      (weight (p_r q0) <= buflen q)%nat -> (buflen q0 <= buflen q)%nat ->
      logged q q0 ->
      token (next_fuel n) n r q0 = Some q1 ->
      (weight (p_r q1) <= weight (p_r q0))%nat /\
      (buflen q1 <= buflen q0)%nat /\ logged q0 q1).
    { intros q0 q1 _ _ _ E. eapply token_post; eauto. }
    unfold lexRune. destruct (r =? code bslash).
    + destruct (next_fuel n q) as [q1|] eqn:Hn1; [|discriminate].
      apply IH in Hn1. destruct Hn1 as (N1 & N2 & N3).
      pose proof (buflen_weight q1).
      destruct (p_tok q1 =? code newline) eqn:Hnl.
      * intros E. apply IH in E. destruct E as (E1 & E2 & E3).
        pose proof (buflen_weight p').
        assert (Hsame : same_err q q1).
        { destruct N3 as (? & [[? ?]|(e & es & _ & _ & X & _)]);
            [repeat split; auto|].
          rewrite X in Hnl. discriminate. }
        split; [lia|split; [right; lia|]].
        eapply logged_same_l; [exact S4|].
        eapply logged_same_l; [exact Hsame|exact E3].
      * reader_cases.
        -- intros E; inversion E; subst. unfold lexed. cbn.
           split; [lia|split; [left; reflexivity|]].
           eapply logged_same_l; [exact S4|].
           apply logged_errPass; cbn; auto.
        -- intros E.
           assert (Hsame : same_err q q1).
           { destruct N3 as (? & [[? ?]|(e & es & _ & _ & _ & X)]);
               [repeat split; auto|].
             (* an error recorded by the nested call leaves nothing to
                push back, so [UnreadRune] cannot have succeeded *)
             congruence. }
           apply token_post in E; auto.
           destruct E as (E1 & E2 & E3).
           match goal with
           | Hl : rd_last ?b = None, Hb : length (rd_buf ?b) = weight _ |- _ =>
               assert (Hw0 : weight b = length (rd_buf b))
                 by (unfold weight; rewrite Hl; lia);
               rewrite Hb in Hw0
           end.
           unfold lexed, buflen in *. cbn [p_r set_col set_r] in *.
           split; [lia|split; [right; lia|]].
           eapply logged_same_l; [exact S4|].
           eapply logged_same_l; [exact Hsame|].
           eapply logged_same_l; [|exact E3]. repeat split.
    + intros E. apply token_post in E; auto.
      destruct E as (E1 & E2 & E3). split; [lia|split; [right; lia|]].
      eapply logged_same_l; eauto.
Qed.

(** ** Enough fuel for the lexer *)

Lemma strContent_total (fuel : nat) (d : ascii) (p : parser) :
  (buflen p + 1 <= fuel)%nat -> exists p', strContent fuel d p = Some p'.
Proof.
  revert p. induction fuel as [|n IH]; intros p Hf; [lia|].
  cbn [strContent]. unfold buflen in *. reader_cases.
  - destruct (Ascii.eqb d squote); [eauto|].
    destruct (_ && _); [|eauto]. apply IH. cbn.
    match goal with H : rd_buf _ = _ ++ _ |- _ =>
      rewrite H, length_app in Hf end. lia.
  - destruct (Ascii.eqb d squote); [eauto|].
    destruct (_ && _) eqn:Hc; [|eauto].
    apply escaped_end in Hc. destruct Hc as (Hin & _). contradiction.
Qed.

Lemma skipSpace_total (fuel : nat) (p : parser) :
  (buflen p + 1 <= fuel)%nat -> exists s, skipSpace fuel p = Some s.
Proof.
  revert p. induction fuel as [|n IH]; intros p Hf; [lia|].
  cbn [skipSpace]. unfold buflen in *. reader_cases; [eauto|].
  destruct (space z); [|eauto]. apply IH. cbn. lia.
Qed.

Lemma readRun_total (fuel : nat) (r : Z) (runes : list Z) (p : parser) :
  (buflen p + 1 <= fuel)%nat -> exists res, readRun fuel r runes p = Some res.
Proof.
  revert r runes p. induction fuel as [|n IH]; intros r runes p Hf; [lia|].
  cbn [readRun]. unfold buflen in *.
  destruct (_ && _); [|eauto]. reader_cases; [eauto|].
  apply IH. cbn. lia.
Qed.

Lemma word_total (fuel : nat) (r : Z) (p : parser) :
  (buflen p + 1 <= fuel)%nat -> exists p', word fuel r p = Some p'.
Proof.
  intros Hf. unfold word.
  destruct (readRun_total fuel r [r] p Hf) as [[q|runes q] ->]; [eauto|].
  destruct (1 <? length runes)%nat; [|eauto].
  destruct (UnreadRune (p_r q)) as [[e|] rd]; eauto.
Qed.

Lemma token_total (next' : parser -> option parser) (fuel : nat) (r : Z)
    (p : parser) :
  (forall q, (buflen q <= buflen p)%nat -> exists q', next' q = Some q') ->
  (buflen p + 1 <= fuel)%nat ->
  exists p', token next' fuel r p = Some p'.
Proof.
  intros Hnext Hf. unfold token.
  destruct (reserved r).
  - destruct (r =? code "#"); [|eauto]. apply Hnext.
    destruct (discardUpTo_post newline p) as (D & _).
    pose proof (buflen_weight (discardUpTo newline p)). lia.
  - destruct (quote r).
    + destruct (strContent_total fuel (byte_of r) p Hf) as [q ->].
      destruct (p_tok q =? EOF); eauto.
    + apply word_total; auto.
Qed.

Lemma next_fuel_total (fuel : nat) (p : parser) :
  (buflen p + 2 <= fuel)%nat -> exists p', next_fuel fuel p = Some p'.
Proof.
  revert p. induction fuel as [|n IH]; intros p Hf; [lia|].
  cbn [next_fuel].
  destruct (skipSpace_total n p) as [[q|r q] Hs]; [lia| |]; rewrite Hs;
    [eauto|].
  apply skipSpace_post in Hs. destruct Hs as (S1 & S2 & S3 & _).
  assert (Htok : forall q0, (buflen q0 <= buflen q)%nat ->
            exists p', token (next_fuel n) n r q0 = Some p').
  { intros q0 H0. apply token_total; [|lia]. intros q1 H1. apply IH. lia. }
  unfold lexRune. destruct (r =? code bslash); [|apply Htok; lia].
  destruct (IH q) as [q1 Hn1]; [lia|]. rewrite Hn1.
  apply next_fuel_post in Hn1. destruct Hn1 as (N1 & _).
  pose proof (buflen_weight q1).
  destruct (p_tok q1 =? code newline); [apply IH; lia|].
  reader_cases; [eauto|]. apply Htok. unfold buflen in *. cbn. lia.
Qed.

(** ** More fuel changes nothing *)

Lemma strContent_mono (f f' : nat) (d : ascii) (p p' : parser) :
  strContent f d p = Some p' -> (f <= f')%nat -> strContent f' d p = Some p'.
Proof.
  revert f' p p'. induction f as [|n IH]; intros f' p p'; [discriminate|].
  intros E Hf. destruct f' as [|m]; [lia|]. revert E. cbn [strContent].
  destruct (ReadBytes d (p_r p)) as [[b e] rd].
  destruct (Ascii.eqb d squote); [auto|].
  destruct (_ && _); [|auto]. intros E. apply IH; [exact E|lia].
Qed.

Lemma skipSpace_mono (f f' : nat) (p : parser) (s : skipped) :
  skipSpace f p = Some s -> (f <= f')%nat -> skipSpace f' p = Some s.
Proof.
  revert f' p s. induction f as [|n IH]; intros f' p s; [discriminate|].
  intros E Hf. destruct f' as [|m]; [lia|]. revert E. cbn [skipSpace].
  destruct (ReadRune (p_r p)) as [[[r sz] e] rd].
  destruct e as [[| |]|]; auto.
  destruct (space r); [|auto]. intros E. apply IH; [exact E|lia].
Qed.

Lemma readRun_mono (f f' : nat) (r : Z) (runes : list Z) (p : parser)
    (res : run) :
  readRun f r runes p = Some res -> (f <= f')%nat ->
  readRun f' r runes p = Some res.
Proof.
  revert f' r runes p res. induction f as [|n IH]; intros f' r runes p res;
    [discriminate|].
  intros E Hf. destruct f' as [|m]; [lia|]. revert E. cbn [readRun].
  destruct (_ && _); [|auto].
  destruct (ReadRune (p_r p)) as [[[r' sz] e] rd].
  destruct e as [[| |]|]; auto. intros E. apply IH; [exact E|lia].
Qed.

Lemma word_mono (f f' : nat) (r : Z) (p p' : parser) :
  word f r p = Some p' -> (f <= f')%nat -> word f' r p = Some p'.
Proof.
  unfold word. intros E Hf.
  destruct (readRun f r [r] p) as [res|] eqn:Hr; [|discriminate].
  rewrite (readRun_mono _ _ _ _ _ _ Hr Hf). exact E.
Qed.

Lemma token_mono (n1 n2 : parser -> option parser) (f f' : nat) (r : Z)
    (p p' : parser) :
  (forall q q', n1 q = Some q' -> n2 q = Some q') ->
  token n1 f r p = Some p' -> (f <= f')%nat -> token n2 f' r p = Some p'.
Proof.
  intros Hn. unfold token. intros E Hf.
  destruct (reserved r).
  - destruct (r =? code "#"); auto.
  - destruct (quote r).
    + destruct (strContent f (byte_of r) p) as [q|] eqn:Hs; [|discriminate].
      rewrite (strContent_mono _ _ _ _ _ Hs Hf). exact E.
    + eapply word_mono; eauto.
Qed.

Lemma lexRune_mono (n1 n2 : parser -> option parser) (f f' : nat) (r : Z)
    (p p' : parser) :
  (forall q q', n1 q = Some q' -> n2 q = Some q') ->
  lexRune n1 f r p = Some p' -> (f <= f')%nat -> lexRune n2 f' r p = Some p'.
Proof.
  intros Hn. unfold lexRune. intros E Hf.
  destruct (r =? code bslash); [|eapply token_mono; eauto].
  destruct (n1 p) as [q1|] eqn:Hn1; [|discriminate].
  rewrite (Hn _ _ Hn1).
  destruct (p_tok q1 =? code newline); [auto|].
  destruct (UnreadRune (p_r q1)) as [[e|] rd]; [auto|].
  eapply token_mono; eauto.
Qed.

Lemma next_fuel_mono (f f' : nat) (p p' : parser) :
  next_fuel f p = Some p' -> (f <= f')%nat -> next_fuel f' p = Some p'.
Proof.
  revert f' p p'. induction f as [|n IH]; intros f' p p'; [discriminate|].
  intros E Hf. destruct f' as [|m]; [lia|]. revert E. cbn [next_fuel].
  assert (Hnm : (n <= m)%nat) by lia.
  destruct (skipSpace n p) as [s|] eqn:Hs; [|discriminate].
  rewrite (skipSpace_mono _ _ _ _ Hs Hnm).
  destruct s as [q|r q]; [auto|].
  intros E. eapply lexRune_mono; [|exact E|exact Hnm].
  intros; apply IH; auto.
Qed.

(** [next] is the result of [next_fuel] for any fuel that gives one. *)
Lemma next_eq (fuel : nat) (p p' : parser) :
  next_fuel fuel p = Some p' -> next p = p'.
Proof.
  intros E. unfold next.
  destruct (next_fuel_total (lexFuel p) p) as [q Hq]; [unfold lexFuel, buflen; lia|].
  rewrite Hq.
  pose proof (next_fuel_mono _ (Nat.max fuel (lexFuel p)) _ _ E
                (Nat.le_max_l _ _)) as H1.
  pose proof (next_fuel_mono _ (Nat.max fuel (lexFuel p)) _ _ Hq
                (Nat.le_max_r _ _)) as H2.
  congruence.
Qed.

Lemma next_lexed (p : parser) : lexed p (next p).
Proof.
  destruct (next_fuel_total (lexFuel p) p) as [q Hq]; [unfold lexFuel, buflen; lia|].
  rewrite (next_eq _ _ _ Hq). eapply next_fuel_post; eauto.
Qed.

(** [next] is [next_fuel] on the fuel of [lexFuel], which is enough. *)
Lemma next_defined (p : parser) : next_fuel (lexFuel p) p = Some (next p).
Proof.
  destruct (next_fuel_total (lexFuel p) p) as [q Hq];
    [unfold lexFuel, buflen; lia|].
  rewrite Hq. f_equal. symmetry. eapply next_eq. exact Hq.
Qed.

(** * Properties of the walker *)

Lemma walks_trans (p q r : parser) : walks p q -> walks q r -> walks p r.
Proof. induction 1; eauto using walks. Qed.

Lemma walks_one (p q : parser) : wstep p q -> walks p q.
Proof. eauto using walks. Qed.

Lemma next_mu (p : parser) : p_tok p <> EOF -> (mu (next p) < mu p)%nat.
Proof.
  intros Ht. destruct (next_lexed p) as (H1 & H2 & _).
  pose proof (buflen_weight (next p)). unfold mu.
  destruct (p_tok p =? EOF) eqn:E; [apply Z.eqb_eq in E; contradiction|].
  destruct H2 as [H2|H2].
  - rewrite H2. cbn. lia.
  - destruct (p_tok (next p) =? EOF); lia.
Qed.

Lemma wstep_mu (p q : parser) : wstep p q -> (mu q <= mu p)%nat.
Proof.
  destruct 1.
  - apply Nat.lt_le_incl, next_mu; auto.
  - unfold mu, buflen. cbn. destruct (p_tok p =? EOF); lia.
  - unfold mu, buflen. cbn. destruct (p_tok p =? EOF); lia.
Qed.

Lemma walks_mu (p q : parser) : walks p q -> (mu q <= mu p)%nat.
Proof.
  induction 1; [lia|]. apply wstep_mu in H. lia.
Qed.

Lemma errUnexpected_mu (p : parser) :
  p_tok p <> EOF -> (mu (errUnexpected p) < mu p)%nat.
Proof.
  intros Ht. unfold mu, buflen. cbn.
  destruct (p_tok p =? EOF) eqn:E; [apply Z.eqb_eq in E; contradiction|lia].
Qed.

(** The constant tokens of the grammar are not [EOF]. *)
Lemma tok_eqb_neq (p : parser) (t : Z) :
  (p_tok p =? t) = true -> t <> EOF -> p_tok p <> EOF.
Proof. intros H. apply Z.eqb_eq in H. congruence. Qed.

Ltac tok_neq :=
  match goal with
  | H : (p_tok ?p =? ?t) = true |- p_tok ?p <> EOF =>
      apply (tok_eqb_neq p t H); discriminate
  | H : (p_tok ?p =? EOF) = false |- p_tok ?p <> EOF =>
      apply Z.eqb_neq; exact H
  end.

(** One [case p.got(tok)] of a [switch]. *)
Ltac case_got :=
  match goal with
  | |- context [got ?t ?p] =>
      change (got t p)
        with (if p_tok p =? t then (true, next p) else (false, p));
      let H := fresh "Hgot" in
      destruct (p_tok p =? t) eqn:H; cbv beta iota
  end.

Lemma got_walks (t : Z) (p : parser) :
  t <> EOF -> walks p (snd (got t p)).
Proof.
  intros Ht. unfold got. destruct (p_tok p =? t) eqn:E; cbn [snd].
  - apply walks_one, ws_next. apply (tok_eqb_neq p t E Ht).
  - apply walks_refl.
Qed.

Lemma want_walks (t : Z) (p : parser) : t <> EOF -> walks p (want t p).
Proof.
  intros Ht. unfold want. destruct (p_tok p =? t) eqn:E; cbn [negb].
  - apply walks_one, ws_next. apply (tok_eqb_neq p t E Ht).
  - apply walks_one, ws_wanted.
Qed.

Lemma value_walks (p : parser) : walks p (value p).
Proof.
  unfold value. repeat case_got;
    try (apply walks_one, ws_next; tok_neq).
  apply walks_one, ws_unexpected.
Qed.

Lemma assigned_walks (p : parser) : walks p (assigned p).
Proof.
  unfold assigned. case_got; [apply walks_one, ws_next; tok_neq|].
  apply got_walks. discriminate.
Qed.

Lemma redirected_walks (p : parser) : walks p (redirected p).
Proof.
  unfold redirected. case_got; [apply walks_one, ws_next; tok_neq|].
  apply got_walks. discriminate.
Qed.

Create HintDb walk.

#[local] Hint Resolve walks_refl value_walks assigned_walks redirected_walks
  : walk.

Section WalkerTotal.

Variable command' : parser -> option parser.
Variable M : nat.
Hypothesis Hcmd : command_ok M command'.

Lemma andThen_ok (p : parser) :
  (mu p < M)%nat -> exists p', andThen command' p = Some p' /\ walks p p'.
Proof.
  intros Hm. unfold andThen. case_got; [|eauto with walk].
  assert (Hn : (mu (next p) < mu p)%nat) by (apply next_mu; tok_neq).
  destruct (Hcmd (next p)) as (q & -> & Hw & _); [lia|].
  exists q. split; [reflexivity|].
  eapply walks_step; [apply ws_next; tok_neq|exact Hw].
Qed.

Lemma pipeThen_ok (p : parser) :
  (mu p < M)%nat -> exists p', pipeThen command' p = Some p' /\ walks p p'.
Proof.
  intros Hm. unfold pipeThen.
  assert (Hg : walks p (snd (got (code "|") p)))
    by (apply got_walks; discriminate).
  pose proof (walks_mu _ _ Hg).
  destruct (Hcmd (snd (got (code "|") p))) as (q & -> & Hw & _); [lia|].
  exists q. split; [reflexivity|]. eapply walks_trans; eauto.
Qed.

Lemma funcBody_ok (fuel : nat) (p : parser) :
  (mu p < M)%nat -> (mu p + 1 <= fuel)%nat ->
  exists p', funcBody command' fuel p = Some p' /\ walks p p'.
Proof.
  revert p. induction fuel as [|n IH]; intros p Hm Hf; [lia|].
  cbn [funcBody]. case_got.
  { eexists; split; [reflexivity|]. apply walks_one, ws_next; tok_neq. }
  destruct (p_tok p =? EOF) eqn:He.
  { eexists; split; [reflexivity|]. apply walks_one, ws_wanted. }
  case_got.
  - assert (Hn : (mu (next p) < mu p)%nat) by (apply next_mu; tok_neq).
    destruct (IH (next p)) as (q & Hq & Hw); [lia|lia|].
    exists q. split; [exact Hq|].
    eapply walks_step; [apply ws_next; tok_neq|exact Hw].
  - destruct (Hcmd p Hm) as (q & -> & Hw & Hlt).
    assert (Hn : (mu q < mu p)%nat) by (apply Hlt; tok_neq).
    destruct (IH q) as (q' & Hq & Hw'); [lia|lia|].
    exists q'. split; [exact Hq|]. eapply walks_trans; eauto.
Qed.

Lemma after_next (p X : parser) :
  p_tok p <> EOF -> walks (next p) X ->
  walks p X /\ (mu X < mu p)%nat.
Proof.
  intros Ht Hw. split.
  - eapply walks_step; [apply ws_next; exact Ht|exact Hw].
  - apply walks_mu in Hw. pose proof (next_mu p Ht). lia.
Qed.

Lemma value_redirected_walks (p : parser) : walks p (value (redirected p)).
Proof.
  eapply walks_trans; [apply redirected_walks|apply value_walks].
Qed.

Lemma func_walks (p : parser) :
  walks p (want (code "{") (want (code ")") p)).
Proof.
  eapply walks_trans; apply want_walks; discriminate.
Qed.

Hint Resolve value_redirected_walks func_walks : walk.

(** A loop goes round on [X], reached after a token was accepted. *)
Ltac go_round IH p X :=
  let Hw := fresh "Hw" in
  let Hlt := fresh "Hlt" in
  destruct (after_next p X) as [Hw Hlt]; [tok_neq|auto with walk|];
  let q := fresh "q" in
  let Hq := fresh "Hq" in
  let Hw' := fresh "Hw'" in
  destruct (IH X) as (q & Hq & Hw'); [lia|lia|];
  exists q; split; [exact Hq|eapply walks_trans; eauto].

(** A branch ends by [Some (next p)]. *)
Ltac accepted :=
  eexists; split; [reflexivity|apply walks_one, ws_next; tok_neq].

(** A branch ends in a connector, entered with the token accepted. *)
Ltac connector lem p :=
  let Hw := fresh "Hw" in
  let Hlt := fresh "Hlt" in
  destruct (after_next p (next p)) as [Hw Hlt]; [tok_neq|auto with walk|];
  let q := fresh "q" in
  let Hq := fresh "Hq" in
  let Hw' := fresh "Hw'" in
  destruct (lem (next p)) as (q & Hq & Hw'); [lia|];
  exists q; split; [exact Hq|eapply walks_trans; eauto].

Lemma identLoop_ok (fuel : nat) (p : parser) :
  (mu p < M)%nat -> (mu p + 1 <= fuel)%nat ->
  exists p', identLoop command' fuel p = Some p' /\ walks p p'.
Proof.
  revert p. induction fuel as [|n IH]; intros p Hm Hf; [lia|].
  cbn [identLoop].
  destruct (p_tok p =? EOF) eqn:He; [eauto with walk|].
  case_got; [go_round IH p (next p)|].
  case_got; [go_round IH p (next p)|].
  case_got; [go_round IH p (assigned (next p))|].
  case_got; [connector andThen_ok p|].
  case_got; [connector pipeThen_ok p|].
  case_got.
  { destruct (after_next p (want (code "{") (want (code ")") (next p))))
      as [Hw Hlt]; [tok_neq|auto with walk|].
    destruct (funcBody_ok n (want (code "{") (want (code ")") (next p))))
      as (q & Hq & Hw'); [lia|lia|].
    exists q. split; [exact Hq|eapply walks_trans; eauto]. }
  case_got; [go_round IH p (value (redirected (next p)))|].
  case_got; [go_round IH p (value (next p))|].
  case_got; [accepted|].
  case_got; [accepted|].
  assert (Hlt : (mu (errUnexpected p) < mu p)%nat)
    by (apply errUnexpected_mu; tok_neq).
  destruct (IH (errUnexpected p)) as (q & Hq & Hw); [lia|lia|].
  exists q. split; [exact Hq|].
  eapply walks_step; [apply ws_unexpected|exact Hw].
Qed.

Lemma stringLoop_ok (fuel : nat) (p : parser) :
  (mu p < M)%nat -> (mu p + 1 <= fuel)%nat ->
  exists p', stringLoop command' fuel p = Some p' /\ walks p p'.
Proof.
  revert p. induction fuel as [|n IH]; intros p Hm Hf; [lia|].
  cbn [stringLoop].
  destruct (p_tok p =? EOF) eqn:He; [eauto with walk|].
  case_got; [go_round IH p (next p)|].
  case_got; [go_round IH p (next p)|].
  case_got; [connector andThen_ok p|].
  case_got; [connector pipeThen_ok p|].
  case_got; [go_round IH p (value (redirected (next p)))|].
  case_got; [go_round IH p (value (next p))|].
  case_got; [accepted|].
  case_got; [accepted|].
  assert (Hlt : (mu (errUnexpected p) < mu p)%nat)
    by (apply errUnexpected_mu; tok_neq).
  destruct (IH (errUnexpected p)) as (q & Hq & Hw); [lia|lia|].
  exists q. split; [exact Hq|].
  eapply walks_step; [apply ws_unexpected|exact Hw].
Qed.

Lemma braceBody_ok (fuel : nat) (p : parser) :
  (mu p < M)%nat -> (mu p + 1 <= fuel)%nat ->
  exists p', braceBody command' fuel p = Some p' /\ walks p p'.
Proof.
  revert p. induction fuel as [|n IH]; intros p Hm Hf; [lia|].
  cbn [braceBody].
  destruct (p_tok p =? EOF) eqn:He; cbn [negb andb]; [eauto with walk|].
  destruct (p_tok p =? code "}"); cbn [negb]; [eauto with walk|].
  case_got; [go_round IH p (next p)|].
  destruct (Hcmd p Hm) as (q & -> & Hw & Hlt).
  assert (Hn : (mu q < mu p)%nat) by (apply Hlt; tok_neq).
  destruct (IH q) as (q' & Hq & Hw'); [lia|lia|].
  exists q'. split; [exact Hq|]. eapply walks_trans; eauto.
Qed.

Lemma braceTail_ok (p : parser) :
  (mu p < M)%nat ->
  exists p', braceTail command' p = Some p' /\ walks p p'.
Proof.
  intros Hm. unfold braceTail.
  assert (Hw0 : walks p (want (code "}") p))
    by (apply want_walks; discriminate).
  pose proof (walks_mu _ _ Hw0) as Hm0.
  set (p0 := want (code "}") p) in *.
  assert (Hend : forall X, walks p0 X -> exists p', Some X = Some p' /\ walks p p').
  { intros X HX. exists X. split; [reflexivity|].
    eapply walks_trans; eauto. }
  assert (Hcon : forall (r : option parser),
             (exists p', r = Some p' /\ walks p0 p') ->
             exists p', r = Some p' /\ walks p p').
  { intros r (q & -> & Hq). exists q. split; [reflexivity|].
    eapply walks_trans; eauto. }
  case_got; [apply Hcon; connector andThen_ok p0|].
  case_got; [apply Hcon; connector pipeThen_ok p0|].
  case_got.
  { apply Hend. eapply walks_step; [apply ws_next; tok_neq|auto with walk]. }
  case_got.
  { apply Hend. eapply walks_step; [apply ws_next; tok_neq|auto with walk]. }
  case_got; [apply Hend, walks_one, ws_next; tok_neq|].
  case_got; [apply Hend, walks_one, ws_next; tok_neq|].
  apply Hend, walks_one, ws_unexpected.
Qed.

Lemma commandBody_ok (fuel : nat) (p : parser) :
  (mu p <= M)%nat -> (mu p <= fuel)%nat ->
  exists p', commandBody command' fuel p = Some p' /\ walks p p'
             /\ (p_tok p <> EOF -> (mu p' < mu p)%nat).
Proof.
  intros Hm Hf. unfold commandBody.
  assert (Hloop : forall (r : option parser),
             p_tok p <> EOF ->
             (exists p', r = Some p' /\ walks (next p) p') ->
             exists p', r = Some p' /\ walks p p'
                        /\ (p_tok p <> EOF -> (mu p' < mu p)%nat)).
  { intros r Ht (q & -> & Hq). exists q. split; [reflexivity|].
    destruct (after_next p q Ht Hq). auto. }
  case_got.
  { apply Hloop; [tok_neq|].
    assert ((mu (next p) < mu p)%nat) by (apply next_mu; tok_neq).
    apply identLoop_ok; lia. }
  case_got.
  { apply Hloop; [tok_neq|].
    assert ((mu (next p) < mu p)%nat) by (apply next_mu; tok_neq).
    apply stringLoop_ok; lia. }
  case_got.
  { apply Hloop; [tok_neq|].
    assert ((mu (next p) < mu p)%nat) by (apply next_mu; tok_neq).
    destruct (braceBody_ok fuel (next p)) as (q & -> & Hq); [lia|lia|].
    pose proof (walks_mu _ _ Hq).
    destruct (braceTail_ok q) as (q' & -> & Hq'); [lia|].
    exists q'. split; [reflexivity|]. eapply walks_trans; eauto. }
  exists (errUnexpected p). split; [reflexivity|].
  split; [apply walks_one, ws_unexpected|apply errUnexpected_mu].
Qed.

Lemma programLoop_ok (fuel : nat) (p : parser) :
  (mu p < M)%nat -> (mu p + 1 <= fuel)%nat ->
  exists p', programLoop command' fuel p = Some p' /\ walks p p'
             /\ p_tok p' = EOF.
Proof.
  revert p. induction fuel as [|n IH]; intros p Hm Hf; [lia|].
  cbn [programLoop].
  destruct (p_tok p =? EOF) eqn:He; cbn [negb].
  { exists p. apply Z.eqb_eq in He. auto with walk. }
  case_got.
  - assert (Hn : (mu (next p) < mu p)%nat) by (apply next_mu; tok_neq).
    destruct (IH (next p)) as (q & Hq & Hw & Ht); [lia|lia|].
    exists q. split; [exact Hq|]. split; [|exact Ht].
    eapply walks_step; [apply ws_next; tok_neq|exact Hw].
  - destruct (Hcmd p Hm) as (q & -> & Hw & Hlt).
    assert (Hn : (mu q < mu p)%nat) by (apply Hlt; tok_neq).
    destruct (IH q) as (q' & Hq & Hw' & Ht); [lia|lia|].
    exists q'. split; [exact Hq|]. split; [|exact Ht].
    eapply walks_trans; eauto.
Qed.

End WalkerTotal.

(** [command] with fuel above the measure of the state returns, and takes
    the measure down unless it was entered at [EOF]. *)
Lemma command_total (fuel : nat) :
  command_ok (fuel - 1) (command fuel).
Proof.
  induction fuel as [|n IH]; intros q Hq; [lia|].
  cbn [command]. apply (commandBody_ok (command n) (n - 1) IH); lia.
Qed.

Lemma program_total (fuel : nat) (p : parser) :
  p_tok p <> EOF -> (mu p + 1 <= fuel)%nat ->
  exists p', program fuel p = Some p' /\ walks (next p) p' /\ p_tok p' = EOF.
Proof.
  intros Ht Hf. unfold program. pose proof (next_mu p Ht).
  apply (programLoop_ok (command fuel) (fuel - 1) (command_total fuel)); lia.
Qed.

Lemma run_parse_total (r name : string) :
  exists p', run_parse r name = Some p'
             /\ walks (next (newParser (list_ascii_of_string r) name)) p'
             /\ p_tok p' = EOF.
Proof.
  unfold run_parse. apply program_total; [discriminate|].
  unfold mu, passFuel, buflen. cbn. lia.
Qed.

(** ** More fuel changes nothing for the walker either *)

Section WalkerMono.

Variables c1 c2 : parser -> option parser.
Hypothesis Hc : forall q q', c1 q = Some q' -> c2 q = Some q'.

Lemma andThen_mono (p p' : parser) :
  andThen c1 p = Some p' -> andThen c2 p = Some p'.
Proof. unfold andThen. case_got; auto. Qed.

Lemma pipeThen_mono (p p' : parser) :
  pipeThen c1 p = Some p' -> pipeThen c2 p = Some p'.
Proof. unfold pipeThen. auto. Qed.

Hint Resolve andThen_mono pipeThen_mono : walk.

Ltac loop_mono IH :=
  repeat case_got; auto with walk;
  try (intros E; apply IH; [exact E|lia]).

Lemma funcBody_mono (f f' : nat) (p p' : parser) :
  funcBody c1 f p = Some p' -> (f <= f')%nat -> funcBody c2 f' p = Some p'.
Proof.
  revert f' p p'. induction f as [|n IH]; intros f' p p'; [discriminate|].
  intros E Hf. destruct f' as [|m]; [lia|]. revert E. cbn [funcBody].
  case_got; [auto|]. destruct (p_tok p =? EOF); [auto|].
  case_got; [intros E; apply IH; [exact E|lia]|].
  destruct (c1 p) as [q|] eqn:Hq; [|discriminate]. rewrite (Hc _ _ Hq).
  intros E; apply IH; [exact E|lia].
Qed.

Lemma identLoop_mono (f f' : nat) (p p' : parser) :
  identLoop c1 f p = Some p' -> (f <= f')%nat ->
  identLoop c2 f' p = Some p'.
Proof.
  revert f' p p'. induction f as [|n IH]; intros f' p p'; [discriminate|].
  intros E Hf. destruct f' as [|m]; [lia|]. revert E. cbn [identLoop].
  destruct (p_tok p =? EOF); [auto|]. loop_mono IH.
  intros E. eapply funcBody_mono; [exact E|lia].
Qed.

Lemma stringLoop_mono (f f' : nat) (p p' : parser) :
  stringLoop c1 f p = Some p' -> (f <= f')%nat ->
  stringLoop c2 f' p = Some p'.
Proof.
  revert f' p p'. induction f as [|n IH]; intros f' p p'; [discriminate|].
  intros E Hf. destruct f' as [|m]; [lia|]. revert E. cbn [stringLoop].
  destruct (p_tok p =? EOF); [auto|]. loop_mono IH.
Qed.

Lemma braceBody_mono (f f' : nat) (p p' : parser) :
  braceBody c1 f p = Some p' -> (f <= f')%nat ->
  braceBody c2 f' p = Some p'.
Proof.
  revert f' p p'. induction f as [|n IH]; intros f' p p'; [discriminate|].
  intros E Hf. destruct f' as [|m]; [lia|]. revert E. cbn [braceBody].
  destruct (_ && _); [|auto].
  case_got; [intros E; apply IH; [exact E|lia]|].
  destruct (c1 p) as [q|] eqn:Hq; [|discriminate]. rewrite (Hc _ _ Hq).
  intros E; apply IH; [exact E|lia].
Qed.

Lemma braceTail_mono (p p' : parser) :
  braceTail c1 p = Some p' -> braceTail c2 p = Some p'.
Proof. unfold braceTail. repeat case_got; auto with walk. Qed.

Lemma commandBody_mono (f f' : nat) (p p' : parser) :
  commandBody c1 f p = Some p' -> (f <= f')%nat ->
  commandBody c2 f' p = Some p'.
Proof.
  unfold commandBody. intros E Hf. revert E.
  case_got; [intros E; eapply identLoop_mono; eauto|].
  case_got; [intros E; eapply stringLoop_mono; eauto|].
  case_got; [|auto].
  destruct (braceBody c1 f (next p)) as [q|] eqn:Hq; [|discriminate].
  rewrite (braceBody_mono _ _ _ _ Hq Hf). apply braceTail_mono.
Qed.

Lemma programLoop_mono (f f' : nat) (p p' : parser) :
  programLoop c1 f p = Some p' -> (f <= f')%nat ->
  programLoop c2 f' p = Some p'.
Proof.
  revert f' p p'. induction f as [|n IH]; intros f' p p'; [discriminate|].
  intros E Hf. destruct f' as [|m]; [lia|]. revert E. cbn [programLoop].
  destruct (negb _); [|auto].
  case_got; [intros E; apply IH; [exact E|lia]|].
  destruct (c1 p) as [q|] eqn:Hq; [|discriminate]. rewrite (Hc _ _ Hq).
  intros E; apply IH; [exact E|lia].
Qed.

End WalkerMono.

Lemma command_mono (f f' : nat) (p p' : parser) :
  command f p = Some p' -> (f <= f')%nat -> command f' p = Some p'.
Proof.
  revert f' p p'. induction f as [|n IH]; intros f' p p'; [discriminate|].
  intros E Hf. destruct f' as [|m]; [lia|]. cbn [command] in *.
  eapply commandBody_mono; [|exact E|lia].
  intros q q' Hq. eapply IH; [exact Hq|lia].
Qed.

Lemma program_mono (f f' : nat) (p p' : parser) :
  program f p = Some p' -> (f <= f')%nat -> program f' p = Some p'.
Proof.
  unfold program. intros E Hf. eapply programLoop_mono; [|exact E|exact Hf].
  intros q q' Hq. eapply command_mono; eauto.
Qed.

(** ** What the steps of the walker preserve *)

Lemma logged_consistent (p q : parser) :
  logged p q -> consistent p -> consistent q.
Proof.
  unfold consistent. intros (_ & [[Hl He]|(e & es & Hl & He & _)]) Hp.
  - congruence.
  - rewrite Hl, He. reflexivity.
Qed.

Lemma wstep_consistent (p q : parser) :
  wstep p q -> consistent p -> consistent q.
Proof.
  destruct 1; intros Hp; [|reflexivity|reflexivity].
  eapply logged_consistent; [|exact Hp]. apply next_lexed.
Qed.

Lemma walks_consistent (p q : parser) :
  walks p q -> consistent p -> consistent q.
Proof. induction 1; eauto using wstep_consistent. Qed.

Lemma run_parse_reachable (r name : string) (p : parser) :
  run_parse r name = Some p -> reachable r name p.
Proof.
  intros E. destruct (run_parse_total r name) as (q & Hq & Hw & _).
  assert (q = p) by congruence. subst q.
  eapply walks_step; [apply ws_next; discriminate|exact Hw].
Qed.

Lemma wstep_frozen (p q : parser) : wstep p q -> frozen p -> frozen q.
Proof.
  destruct 1; intros Hp; [|intros _; reflexivity|intros _; reflexivity].
  intros He. destruct (next_lexed p) as (_ & _ & _ & [[Hl E]|(e & es & _ & _ & Ht & _)]);
    [|exact Ht].
  exfalso. apply H, Hp. congruence.
Qed.

Lemma walks_frozen (p q : parser) : walks p q -> frozen p -> frozen q.
Proof. induction 1; eauto using wstep_frozen. Qed.

(** From a state with an error on record and the token [EOF], the steps of
    the walker read nothing and leave the token. *)
Lemma wstep_stuck (p q : parser) :
  wstep p q -> p_tok p = EOF ->
  p_r q = p_r p /\ p_tok q = EOF /\ p_err q <> None.
Proof.
  destruct 1; intros Ht; [contradiction| |]; cbn; repeat split; discriminate.
Qed.

Lemma walks_stuck (p q : parser) :
  walks p q -> p_tok p = EOF -> p_err p <> None ->
  p_r q = p_r p /\ p_tok q = EOF /\ p_err q <> None.
Proof.
  induction 1; intros Ht He; [auto|].
  destruct (wstep_stuck _ _ H Ht) as (H1 & H2 & H3).
  destruct (IHwalks H2 H3) as (I1 & I2 & I3). repeat split; congruence.
Qed.

(** * The pass as a whole *)

(** The pass returns for every input, with the token at [EOF]. *)
Lemma parse_total (r name : string) :
  exists p, run_parse r name = Some p /\ p_tok p = EOF /\ consistent p
            /\ frozen p.
Proof.
  destruct (run_parse_total r name) as (p & Hp & Hw & Ht).
  exists p. split; [exact Hp|]. split; [exact Ht|].
  assert (Hr : reachable r name p) by (apply run_parse_reachable; exact Hp).
  split.
  - eapply walks_consistent; [exact Hr|reflexivity].
  - eapply walks_frozen; [exact Hr|]. intros H. cbn in H. congruence.
Qed.

(** C2 fails on the code: on [a(b;] the failed [want(')')] records an
    error at [ident]; [want('{')] and the loop that looks for ['}'], which
    both see [EOF], then each replace the error on record, and the first
    is not the one returned. *)
Lemma first_error_is_replaced : ~ first_error_wins.
Proof.
  intros H.
  specialize (H "a(b;"%string "f"%string
                (Errorf "f:1:3: unexpected token %s, wanted %s"
                        ["EOF"; "'}'"]%string) eq_refl).
  vm_compute in H. discriminate H.
Qed.

(** C2 on the code: for every input the pass returns, and what it returns
    is the error recorded last, since [errPass] overwrites the field: the
    [nil] error when none was recorded, otherwise the head of the log. *)
Theorem parse_returns_last_recorded (r name : string) :
  exists log, recorded r name = Some log
              /\ parse r name = Some (hd_error log).
Proof.
  destruct (parse_total r name) as (p & Hp & _ & Hc & _).
  exists (p_log p). unfold recorded, parse. rewrite Hp. cbn.
  split; [reflexivity|]. rewrite Hc. reflexivity.
Qed.

(** With a reader that does not fail, in every state the walker reaches
    during a pass an error on record means that the token is [EOF]; from
    there on every state of the pass has the token [EOF], the same reader
    and an error on record; and [got] and [want] of any token of the
    grammar find [EOF] and read nothing. *)
Lemma error_freezes_cursor (r name : string) (p : parser) :
  reachable r name p -> p_err p <> None ->
  p_tok p = EOF
  /\ (forall q, walks p q ->
        p_tok q = EOF /\ p_r q = p_r p /\ p_err q <> None)
  /\ (forall tok, tok <> EOF ->
        got tok p = (false, p)
        /\ p_r (want tok p) = p_r p /\ p_tok (want tok p) = EOF).
Proof.
  intros Hr He.
  assert (Ht : p_tok p = EOF).
  { eapply walks_frozen; [exact Hr| |exact He]. intros H. cbn in H.
    congruence. }
  split; [exact Ht|]. split.
  - intros q Hq. destruct (walks_stuck _ _ Hq Ht He) as (H1 & H2 & H3). auto.
  - intros tok Hne. unfold got, want. rewrite Ht.
    destruct (EOF =? tok) eqn:E; [apply Z.eqb_eq in E; congruence|].
    cbn. auto.
Qed.

Lemma mu_progress (p p' : parser) :
  p_tok p <> EOF -> (mu p' < mu p)%nat -> progress p p'.
Proof.
  unfold mu, progress. intros Ht.
  destruct (p_tok p =? EOF) eqn:E; [apply Z.eqb_eq in E; contradiction|].
  destruct (p_tok p' =? EOF) eqn:E'; [apply Z.eqb_eq in E'|]; lia.
Qed.

(** ** The rounds of the loops *)

Lemma advances_next (p q : parser) :
  p_tok p <> EOF -> walks (next p) q -> advances p q.
Proof.
  intros Ht Hw. exists (next p). split; [apply ws_next; exact Ht|exact Hw].
Qed.

Lemma walks_advances (p q : parser) :
  walks p q -> (mu q < mu p)%nat -> advances p q.
Proof.
  intros Hw Hlt. destruct Hw as [p|p q r Hs Hw]; [lia|].
  exists q. auto.
Qed.

Section Rounds.

Variable command' : parser -> option parser.
Variable M : nat.
Hypothesis Hcmd : command_ok M command'.

#[local] Hint Resolve walks_refl value_walks assigned_walks redirected_walks
  value_redirected_walks func_walks : walk.

(** The round ends on [X], reached from [next p]. *)
Ltac round_on p X :=
  let Hw := fresh "Hw" in
  let Hlt := fresh "Hlt" in
  destruct (after_next p X) as [Hw Hlt]; [tok_neq|auto with walk|];
  exists X; split; [apply advances_next; [tok_neq|auto with walk]|];
  split; [exact Hlt|].

(** The round ends in a connector or in the body of a function. *)
Ltac round_in lem p :=
  let Hn := fresh "Hn" in
  assert (Hn : (mu (next p) < mu p)%nat) by (apply next_mu; tok_neq);
  let q := fresh "q" in
  let Hq := fresh "Hq" in
  let Hw := fresh "Hw" in
  destruct (lem (next p)) as (q & Hq & Hw); [lia|];
  exists q; split; [apply advances_next; [tok_neq|exact Hw]|];
  split; [apply walks_mu in Hw; lia|right; exact Hq].

Lemma identLoop_round (p : parser) :
  (mu p < M)%nat -> p_tok p <> EOF -> iterates (identLoop command') p.
Proof.
  intros Hm Ht fuel Hf. cbn [identLoop].
  destruct (p_tok p =? EOF) eqn:He; [apply Z.eqb_eq in He; contradiction|].
  case_got; [round_on p (next p); left; reflexivity|].
  case_got; [round_on p (next p); left; reflexivity|].
  case_got; [round_on p (assigned (next p)); left; reflexivity|].
  case_got; [round_in (andThen_ok command' M Hcmd) p|].
  case_got; [round_in (pipeThen_ok command' M Hcmd) p|].
  case_got.
  { destruct (after_next p (want (code "{") (want (code ")") (next p))))
      as [Hw Hlt]; [tok_neq|auto with walk|].
    destruct (funcBody_ok command' M Hcmd fuel
                (want (code "{") (want (code ")") (next p))))
      as (q & Hq & Hw'); [lia|lia|].
    exists q. split.
    - apply advances_next; [tok_neq|].
      eapply walks_trans; [|exact Hw']. auto with walk.
    - split; [apply walks_mu in Hw'; lia|right; exact Hq]. }
  case_got; [round_on p (value (redirected (next p))); left; reflexivity|].
  case_got; [round_on p (value (next p)); left; reflexivity|].
  case_got; [round_on p (next p); right; reflexivity|].
  case_got; [round_on p (next p); right; reflexivity|].
  exists (errUnexpected p). split.
  - exists (errUnexpected p). split; [apply ws_unexpected|apply walks_refl].
  - split; [apply errUnexpected_mu; exact Ht|left; reflexivity].
Qed.

Lemma stringLoop_round (p : parser) :
  (mu p < M)%nat -> p_tok p <> EOF -> iterates (stringLoop command') p.
Proof.
  intros Hm Ht fuel Hf. cbn [stringLoop].
  destruct (p_tok p =? EOF) eqn:He; [apply Z.eqb_eq in He; contradiction|].
  case_got; [round_on p (next p); left; reflexivity|].
  case_got; [round_on p (next p); left; reflexivity|].
  case_got; [round_in (andThen_ok command' M Hcmd) p|].
  case_got; [round_in (pipeThen_ok command' M Hcmd) p|].
  case_got; [round_on p (value (redirected (next p))); left; reflexivity|].
  case_got; [round_on p (value (next p)); left; reflexivity|].
  case_got; [round_on p (next p); right; reflexivity|].
  case_got; [round_on p (next p); right; reflexivity|].
  exists (errUnexpected p). split.
  - exists (errUnexpected p). split; [apply ws_unexpected|apply walks_refl].
  - split; [apply errUnexpected_mu; exact Ht|left; reflexivity].
Qed.

(** A round that calls [command]. *)
Lemma command_round (L : nat -> parser -> option parser) (p : parser)
    (fuel : nat) :
  (mu p < M)%nat -> p_tok p <> EOF ->
  L (S fuel) p = match command' p with
                 | None => None
                 | Some q => L fuel q
                 end ->
  exists q, advances p q /\ (mu q < mu p)%nat
            /\ (L (S fuel) p = L fuel q \/ L (S fuel) p = Some q).
Proof.
  intros Hm Ht HL. destruct (Hcmd p Hm) as (q & Hq & Hw & Hlt).
  specialize (Hlt Ht). exists q.
  split; [apply walks_advances; assumption|]. split; [exact Hlt|].
  left. rewrite HL, Hq. reflexivity.
Qed.

Lemma programLoop_round (p : parser) :
  (mu p < M)%nat -> p_tok p <> EOF -> iterates (programLoop command') p.
Proof.
  intros Hm Ht fuel Hf.
  destruct (p_tok p =? code newline) eqn:Hn.
  - cbn [programLoop].
    destruct (p_tok p =? EOF) eqn:He; [apply Z.eqb_eq in He; contradiction|].
    cbn [negb]. unfold got. rewrite Hn.
    round_on p (next p). left. reflexivity.
  - apply command_round; [assumption..|]. cbn [programLoop].
    destruct (p_tok p =? EOF) eqn:He; [apply Z.eqb_eq in He; contradiction|].
    cbn [negb]. unfold got. rewrite Hn. reflexivity.
Qed.

Lemma braceBody_round (p : parser) :
  (mu p < M)%nat -> p_tok p <> EOF -> p_tok p <> code "}" ->
  iterates (braceBody command') p.
Proof.
  intros Hm Ht Hb fuel Hf.
  apply Z.eqb_neq in Hb.
  destruct (p_tok p =? code newline) eqn:Hn.
  - cbn [braceBody].
    destruct (p_tok p =? EOF) eqn:He; [apply Z.eqb_eq in He; contradiction|].
    rewrite Hb. cbn [negb andb]. unfold got. rewrite Hn.
    round_on p (next p). left. reflexivity.
  - apply command_round; [assumption..|]. cbn [braceBody].
    destruct (p_tok p =? EOF) eqn:He; [apply Z.eqb_eq in He; contradiction|].
    rewrite Hb. cbn [negb andb]. unfold got. rewrite Hn. reflexivity.
Qed.

Lemma funcBody_round (p : parser) :
  (mu p < M)%nat -> p_tok p <> EOF -> iterates (funcBody command') p.
Proof.
  intros Hm Ht fuel Hf.
  destruct (p_tok p =? code "}") eqn:Hb.
  { cbn [funcBody]. unfold got. rewrite Hb.
    round_on p (next p). right. reflexivity. }
  destruct (p_tok p =? code newline) eqn:Hn.
  - cbn [funcBody]. unfold got. rewrite Hb. cbv iota beta.
    destruct (p_tok p =? EOF) eqn:He; [apply Z.eqb_eq in He; contradiction|].
    rewrite Hn. round_on p (next p). left. reflexivity.
  - apply command_round; [assumption..|]. cbn [funcBody].
    unfold got. rewrite Hb. cbv iota beta.
    destruct (p_tok p =? EOF) eqn:He; [apply Z.eqb_eq in He; contradiction|].
    rewrite Hn. reflexivity.
Qed.

End Rounds.

(** At [EOF] every loop is left at once; the one that looks for ['}']
    records that it is missing. *)
Lemma loops_exit (c : parser -> option parser) (fuel : nat) (p : parser) :
  p_tok p = EOF ->
  programLoop c (S fuel) p = Some p
  /\ identLoop c (S fuel) p = Some p
  /\ stringLoop c (S fuel) p = Some p
  /\ braceBody c (S fuel) p = Some p
  /\ funcBody c (S fuel) p = Some (errWanted (code "}") p).
Proof.
  intros Ht. cbn [programLoop identLoop stringLoop braceBody funcBody].
  unfold got. rewrite Ht. repeat split; try reflexivity.
  change (EOF =? code "}") with false. cbv iota beta. rewrite Ht.
  reflexivity.
Qed.

(** C10: the pass over any input returns, with the token at [EOF], on the
    fuel [passFuel] that the length of the input gives.  It does because
    every token accepted makes progress; every error sets the token to
    [EOF]; every call of [command] entered on a token other than [EOF]
    returns after at least one step of the walker, each of which consumes
    a token or records an error, and with a smaller measure; every round
    of each of the five loops does the same; and at [EOF] every loop is
    left at once. *)
Theorem parse_terminates (r name : string) :
  (exists p, run_parse r name = Some p /\ p_tok p = EOF)
  /\ (forall p tok, tok <> EOF -> p_tok p = tok ->
        got tok p = (true, next p) /\ progress p (next p)
        /\ (mu (next p) < mu p)%nat)
  /\ (forall p tok,
        p_tok (errWanted tok p) = EOF /\ p_tok (errUnexpected p) = EOF
        /\ p_err (errWanted tok p) <> None
        /\ p_err (errUnexpected p) <> None)
  /\ (forall p q, wstep p q ->
        (p_tok p <> EOF /\ q = next p)
        \/ (p_tok q = EOF /\ exists e, p_err q = Some e
                                       /\ p_log q = e :: p_log p))
  /\ (forall p fuel, (mu p + 2 <= fuel)%nat -> p_tok p <> EOF ->
        exists p', command fuel p = Some p' /\ advances p p'
                   /\ (mu p' < mu p)%nat /\ progress p p')
  /\ (forall p fuel, (mu p + 2 <= fuel)%nat -> p_tok p <> EOF ->
        iterates (programLoop (command fuel)) p
        /\ iterates (identLoop (command fuel)) p
        /\ iterates (stringLoop (command fuel)) p
        /\ iterates (funcBody (command fuel)) p
        /\ (p_tok p <> code "}" -> iterates (braceBody (command fuel)) p))
  /\ (forall c fuel p, p_tok p = EOF ->
        programLoop c (S fuel) p = Some p
        /\ identLoop c (S fuel) p = Some p
        /\ stringLoop c (S fuel) p = Some p
        /\ braceBody c (S fuel) p = Some p
        /\ funcBody c (S fuel) p = Some (errWanted (code "}") p)).
Proof.
  split; [|split; [|split; [|split; [|split; [|split]]]]].
  - destruct (parse_total r name) as (p & Hp & Ht & _). eauto.
  - intros p tok Hne Ht. split; [|split].
    + unfold got. rewrite Ht, Z.eqb_refl. reflexivity.
    + apply mu_progress; [congruence|]. apply next_mu. congruence.
    + apply next_mu. congruence.
  - intros p tok. repeat split; discriminate.
  - intros p q Hs. destruct Hs as [p Ht|tok p|p].
    + left. auto.
    + right. split; [reflexivity|]. eexists. split; reflexivity.
    + right. split; [reflexivity|]. eexists. split; reflexivity.
  - intros p fuel Hf Ht.
    destruct (command_total fuel p) as (p' & Hp' & Hw & Hlt); [lia|].
    specialize (Hlt Ht). exists p'. split; [exact Hp'|].
    split; [apply walks_advances; assumption|].
    split; [exact Hlt|apply mu_progress; auto].
  - intros p fuel Hf Ht.
    pose proof (command_total fuel) as Hc.
    assert (Hm : (mu p < fuel - 1)%nat) by lia.
    split; [apply (programLoop_round _ _ Hc); assumption|].
    split; [apply (identLoop_round _ _ Hc); assumption|].
    split; [apply (stringLoop_round _ _ Hc); assumption|].
    split; [apply (funcBody_round _ _ Hc); assumption|].
    intros Hb. apply (braceBody_round _ _ Hc); assumption.
  - exact loops_exit.
Qed.

(** The command [a;], entered on its first token: it returns after the
    two tokens were consumed. *)
Lemma parse_terminates_witness :
  let p := next (newParser (list_ascii_of_string "a;") "f") in
  exists p', command 5 p = Some p' /\ advances p p'
             /\ (mu p' < mu p)%nat /\ progress p p'.
Proof.
  intros p.
  apply (proj1 (proj2 (proj2 (proj2 (proj2 (parse_terminates "a;" "f")))))
           p 5%nat).
  - vm_compute. lia.
  - vm_compute. discriminate.
Defined.

(** * The lexer on ASCII input *)

Arguments reserved : simpl never.
Arguments quote : simpl never.
Arguments space : simpl never.
Arguments delimiter : simpl never.
Arguments code : simpl never.

Lemma incrs_small (n : nat) (col : Z) :
  0 <= col -> col + Z.of_nat n < 2 ^ 63 -> incrs n col = col + Z.of_nat n.
Proof.
  unfold incrs. induction n as [|n IH]; intros H0 H1; [cbn; lia|].
  rewrite Nat.iter_succ, IH by lia. unfold incr, int_wrap.
  rewrite Z.mod_small by lia. lia.
Qed.

Lemma ReadRune_ascii (b : Reader) (c : ascii) (t : list ascii) :
  rd_buf b = c :: t -> code c < 128 ->
  ReadRune b = ((code c, 1%nat, None), mkReader t (Some [c])).
Proof.
  intros Hb Hc. unfold ReadRune. rewrite Hb.
  apply Z.ltb_lt in Hc. rewrite Hc. reflexivity.
Qed.

Lemma ReadRune_end (b : Reader) :
  rd_buf b = [] -> ReadRune b = ((0, 0%nat, Some io_EOF), mkReader [] None).
Proof. intros Hb. unfold ReadRune. rewrite Hb. reflexivity. Qed.

Lemma skipSpace_rune (fuel : nat) (p : parser) (c : ascii) (t : list ascii) :
  rd_buf (p_r p) = c :: t -> code c < 128 -> space (code c) = false ->
  skipSpace (S fuel) p
  = Some (Rune (code c)
               (set_col (set_r p (mkReader t (Some [c]))) (incr (p_col p)))).
Proof.
  intros Hb Hc Hs. cbn [skipSpace]. rewrite (ReadRune_ascii _ _ _ Hb Hc).
  cbn. rewrite Hs. reflexivity.
Qed.

Lemma wordChar_spec (c : ascii) :
  wordChar c = true -> code c < 128 /\ delimiter (code c) = false.
Proof.
  unfold wordChar. intros H. apply andb_prop in H. destruct H as [H1 H2].
  apply Z.ltb_lt in H1. apply negb_true_iff in H2. auto.
Qed.

Lemma endChar_spec (c : ascii) :
  endChar c = true -> code c < 128 /\ delimiter (code c) = true.
Proof.
  unfold endChar. intros H. apply andb_prop in H. destruct H as [H1 H2].
  apply Z.ltb_lt in H1. auto.
Qed.

Lemma delimiter_false (r : Z) :
  delimiter r = false ->
  negb (reserved r) && negb (quote r) && negb (space r) = true.
Proof.
  unfold delimiter. destruct (reserved r), (quote r), (space r);
    cbn; congruence.
Qed.

Lemma delimiter_true (r : Z) :
  delimiter r = true ->
  negb (reserved r) && negb (quote r) && negb (space r) = false.
Proof.
  unfold delimiter. destruct (reserved r), (quote r), (space r);
    cbn; congruence.
Qed.

(** The loop of a run over word bytes that a delimiter follows: it reads
    them all and the delimiter. *)
Lemma readRun_run (w : list ascii) :
  forall (fuel : nat) (r : Z) (runes : list Z) (p : parser) (d : ascii)
         (t : list ascii),
    delimiter r = false -> forallb wordChar w = true ->
    rd_buf (p_r p) = w ++ d :: t -> endChar d = true ->
    (length w + 2 <= fuel)%nat ->
    readRun fuel r runes p
    = Some (RunEnd (runes ++ map code w ++ [code d])
                   (set_col (set_r p (mkReader t (Some [d])))
                            (incrs (S (length w)) (p_col p)))).
Proof.
  induction w as [|c w IH]; intros fuel r runes p d t Hr Hw Hb Hd Hf.
  - destruct fuel as [|[|f]]; [cbn in Hf; lia|cbn in Hf; lia|].
    apply endChar_spec in Hd. destruct Hd as [Hd1 Hd2].
    cbn [readRun]. rewrite (delimiter_false _ Hr).
    rewrite (ReadRune_ascii _ _ _ Hb Hd1). cbn.
    rewrite (delimiter_true _ Hd2). reflexivity.
  - destruct fuel as [|f]; [cbn in Hf; lia|].
    cbn [forallb] in Hw. apply andb_prop in Hw. destruct Hw as [Hc Hw].
    apply wordChar_spec in Hc. destruct Hc as [Hc1 Hc2].
    cbn [readRun]. rewrite (delimiter_false _ Hr).
    rewrite (ReadRune_ascii _ _ _ Hb Hc1). cbn [set_r set_col].
    erewrite IH; [|exact Hc2|exact Hw|reflexivity|exact Hd|cbn in *; lia].
    cbn [map app length p_col p_r set_col set_r]. rewrite <- app_assoc.
    unfold incrs. rewrite (Nat.iter_succ_r (S (length w))). reflexivity.
Qed.

(** The same loop over word bytes that end the stream. *)
Lemma readRun_end (w : list ascii) :
  forall (fuel : nat) (r : Z) (runes : list Z) (p : parser),
    delimiter r = false -> forallb wordChar w = true ->
    rd_buf (p_r p) = w -> (length w + 1 <= fuel)%nat ->
    readRun fuel r runes p
    = Some (RunEnd (runes ++ map code w)
                   (set_col (set_r p (mkReader [] None))
                            (incrs (length w) (p_col p)))).
Proof.
  induction w as [|c w IH]; intros fuel r runes p Hr Hw Hb Hf.
  - destruct fuel as [|f]; [cbn in Hf; lia|].
    cbn [readRun]. rewrite (delimiter_false _ Hr).
    rewrite (ReadRune_end _ Hb). cbn. rewrite app_nil_r.
    destruct p; reflexivity.
  - destruct fuel as [|f]; [cbn in Hf; lia|].
    cbn [forallb] in Hw. apply andb_prop in Hw. destruct Hw as [Hc Hw].
    apply wordChar_spec in Hc. destruct Hc as [Hc1 Hc2].
    cbn [readRun]. rewrite (delimiter_false _ Hr).
    rewrite (ReadRune_ascii _ _ _ Hb Hc1). cbn [set_r set_col].
    erewrite IH; [|exact Hc2|exact Hw|reflexivity|cbn in *; lia].
    cbn [map app length p_col p_r set_col set_r]. rewrite <- app_assoc.
    unfold incrs. rewrite (Nat.iter_succ_r (length w)). reflexivity.
Qed.

Lemma wordChar_not_space (c : ascii) :
  wordChar c = true ->
  code c < 128 /\ space (code c) = false /\ reserved (code c) = false
  /\ quote (code c) = false.
Proof.
  intros H. apply wordChar_spec in H. destruct H as [H1 H2].
  unfold delimiter in H2.
  destruct (reserved (code c)), (quote (code c)), (space (code c));
    cbn in H2; try discriminate. auto.
Qed.

(** A run of word bytes, not led by a backslash, that a delimiter follows:
    the delimiter is pushed back and the run classified. *)
Lemma next_word (p : parser) (c : ascii) (w : list ascii) (d : ascii)
    (t : list ascii) :
  rd_buf (p_r p) = c :: w ++ d :: t ->
  wordChar c = true -> code c <> code bslash ->
  forallb wordChar w = true -> endChar d = true ->
  next p
  = set_tok (set_col (set_r p (mkReader (d :: t) None))
                     (decr (incrs (S (S (length w))) (p_col p))))
            (classify (map code (c :: w))).
Proof.
  intros Hb Hc Hbs Hw Hd.
  apply (next_eq (S (S (S (length w))))).
  destruct (wordChar_not_space c Hc) as (H1 & H2 & H3 & H4).
  cbn [next_fuel]. rewrite (skipSpace_rune _ _ _ _ Hb H1 H2).
  unfold lexRune. apply Z.eqb_neq in Hbs. rewrite Hbs.
  unfold token. rewrite H3, H4. unfold word.
  erewrite readRun_run;
    [|apply wordChar_spec; exact Hc|exact Hw|reflexivity|exact Hd|cbn; lia].
  cbn [length app].
  replace (1 <? S (length (map code w ++ [code d])))%nat with true.
  2:{ symmetry. apply Nat.ltb_lt. rewrite length_app. cbn. lia. }
  cbn [UnreadRune rd_last p_r set_col set_r p_col rd_buf app].
  unfold UnreadRune. cbn [rd_last rd_buf app].
  change (code c :: map code w ++ [code d])
    with ((code c :: map code w) ++ [code d]).
  rewrite removelast_last. cbn [map].
  unfold incrs. rewrite <- (Nat.iter_succ_r (S (length w))). reflexivity.
Qed.

(** A single word byte that ends the stream is a token. *)
Lemma next_word_end1 (p : parser) (c : ascii) :
  rd_buf (p_r p) = [c] -> wordChar c = true -> code c <> code bslash ->
  next p
  = set_tok (set_col (set_r p (mkReader [] None)) (incr (p_col p)))
            (classify [code c]).
Proof.
  intros Hb Hc Hbs. apply (next_eq 3).
  destruct (wordChar_not_space c Hc) as (H1 & H2 & H3 & H4).
  cbn [next_fuel]. rewrite (skipSpace_rune _ _ _ _ Hb H1 H2).
  unfold lexRune. apply Z.eqb_neq in Hbs. rewrite Hbs.
  unfold token. rewrite H3, H4. unfold word.
  erewrite (readRun_end []);
    [|apply wordChar_spec; exact Hc|reflexivity|reflexivity|cbn; lia].
  cbn. reflexivity.
Qed.

(** A run of two word bytes or more that ends the stream: [UnreadRune]
    follows a [ReadRune] that met the end, and fails. *)
Lemma next_word_end (p : parser) (c c' : ascii) (w : list ascii) :
  rd_buf (p_r p) = c :: c' :: w ->
  wordChar c = true -> code c <> code bslash ->
  forallb wordChar (c' :: w) = true ->
  next p
  = errPass ErrInvalidUnreadRune
      (set_col (set_r p (mkReader [] None))
               (incrs (S (S (length w))) (p_col p))).
Proof.
  intros Hb Hc Hbs Hw. apply (next_eq (S (S (S (S (length w)))))).
  destruct (wordChar_not_space c Hc) as (H1 & H2 & H3 & H4).
  cbn [next_fuel]. rewrite (skipSpace_rune _ _ _ _ Hb H1 H2).
  unfold lexRune. apply Z.eqb_neq in Hbs. rewrite Hbs.
  unfold token. rewrite H3, H4. unfold word.
  erewrite (readRun_end (c' :: w));
    [|apply wordChar_spec; exact Hc|exact Hw|reflexivity|cbn; lia].
  cbn [length app map]. cbn [Nat.ltb Nat.leb].
  unfold UnreadRune. cbn [rd_last p_r set_col set_r p_col].
  unfold incrs. rewrite <- (Nat.iter_succ_r (S (length w))). reflexivity.
Qed.

(** A reserved byte other than ['#'] and the newline is its own token. *)
Lemma next_reserved (p : parser) (c : ascii) (t : list ascii) :
  rd_buf (p_r p) = c :: t -> code c < 128 -> reserved (code c) = true ->
  code c <> code "#" -> code c <> code newline ->
  next p
  = set_tok (set_col (set_r p (mkReader t (Some [c]))) (incr (p_col p)))
            (code c).
Proof.
  intros Hb Hc Hr Hh Hn. apply (next_eq 2).
  assert (Hs : space (code c) = false).
  { unfold space, runeSet. cbn [existsb]. rewrite orb_false_r.
    apply orb_false_intro; apply Z.eqb_neq; intros E; rewrite E in Hr;
      vm_compute in Hr; discriminate. }
  assert (Hbs : (code c =? code bslash) = false).
  { apply Z.eqb_neq. intros E. rewrite E in Hr. vm_compute in Hr.
    discriminate. }
  cbn [next_fuel]. rewrite (skipSpace_rune _ _ _ _ Hb Hc Hs).
  unfold lexRune. rewrite Hbs. unfold token. rewrite Hr.
  apply Z.eqb_neq in Hh, Hn. rewrite Hh, Hn. reflexivity.
Qed.

(** The end of the stream is the token [EOF]. *)
Lemma next_end (p : parser) :
  rd_buf (p_r p) = [] -> next p = set_tok (set_r p (mkReader [] None)) EOF.
Proof.
  intros Hb. apply (next_eq 2). cbn [next_fuel skipSpace].
  rewrite (ReadRune_end _ Hb). reflexivity.
Qed.

Lemma next_fuel_S (fuel : nat) (p : parser) :
  next_fuel (S fuel) p
  = match skipSpace fuel p with
    | None => None
    | Some (Returned p) => Some p
    | Some (Rune r p) => lexRune (next_fuel fuel) fuel r p
    end.
Proof. reflexivity. Qed.

Lemma skipSpace_space (fuel : nat) (p : parser) (t : list ascii) :
  rd_buf (p_r p) = " "%char :: t ->
  skipSpace (S fuel) p
  = skipSpace fuel (set_col (set_r p (mkReader t (Some [" "%char])))
                            (incr (p_col p))).
Proof.
  intros Hb. cbn [skipSpace].
  rewrite (ReadRune_ascii _ _ _ Hb) by (vm_compute; reflexivity).
  reflexivity.
Qed.

(** A space before a token only moves the column. *)
Lemma next_space (p : parser) (t : list ascii) :
  rd_buf (p_r p) = " "%char :: t ->
  next p
  = next (set_col (set_r p (mkReader t (Some [" "%char]))) (incr (p_col p))).
Proof.
  intros Hb.
  set (p1 := set_col (set_r p (mkReader t (Some [" "%char]))) (incr (p_col p))).
  destruct (next_fuel_total (lexFuel p1) p1) as [q Hq];
    [unfold lexFuel, buflen; lia|].
  rewrite (next_eq _ _ _ Hq). apply (next_eq (S (lexFuel p1))).
  unfold lexFuel in *. rewrite Nat.add_comm in *. cbn [Nat.add] in *.
  remember (length (rd_buf (p_r p1))) as n eqn:Hn. clear Hn.
  rewrite next_fuel_S in Hq. rewrite next_fuel_S.
  rewrite (skipSpace_space _ _ _ Hb). fold p1.
  destruct (skipSpace (S n) p1) as [[s|r s]|]; [exact Hq| |discriminate].
  eapply lexRune_mono; [|exact Hq|lia].
  intros q0 q1 H. eapply next_fuel_mono; [exact H|lia].
Qed.

(** A comment goes with its newline and leaves the line and the column as
    they were after ['#']. *)
Lemma next_comment (p : parser) (body t : list ascii) :
  rd_buf (p_r p) = "#"%char :: body ++ newline :: t ->
  ~ In newline body ->
  next p = next (set_col (set_r p (mkReader t None)) (incr (p_col p))).
Proof.
  intros Hb Hn.
  set (p1 := set_col (set_r p (mkReader t None)) (incr (p_col p))).
  destruct (next_fuel_total (lexFuel p1) p1) as [q Hq];
    [unfold lexFuel, buflen; lia|].
  rewrite (next_eq _ _ _ Hq). apply (next_eq (S (lexFuel p1))).
  unfold lexFuel in *. rewrite Nat.add_comm in *. cbn [Nat.add] in *.
  cbn [next_fuel]. rewrite (skipSpace_rune _ _ _ _ Hb);
    [|vm_compute; reflexivity|vm_compute; reflexivity].
  unfold lexRune. change (code "#" =? code bslash) with false. cbv iota.
  unfold token. change (reserved (code "#")) with true.
  change (code "#" =? code "#") with true. cbv iota.
  unfold discardUpTo, ReadBytes. cbn [p_r set_col set_r rd_buf].
  rewrite (cut_found _ _ _ Hn). cbn [set_r set_col p_r p_col]. exact Hq.
Qed.

(** ** Double-quoted content *)

(** In the scan of double-quoted content a double quote that a backslash
    precedes does not end the string, whatever precedes the backslash: the scan goes
    on after it. *)
Lemma strContent_escaped (fuel : nat) (p : parser) (pre t : list ascii) :
  rd_buf (p_r p) = pre ++ bslash :: dquote :: t ->
  ~ In dquote pre ->
  strContent (S fuel) dquote p
  = strContent fuel dquote (set_r p (mkReader t None)).
Proof.
  intros Hb Hn. cbn [strContent]. unfold ReadBytes. rewrite Hb.
  assert (Hn' : ~ In dquote (pre ++ [bslash])).
  { intros H. apply in_app_or in H. destruct H as [H|[H|[]]]; [auto|].
    discriminate H. }
  change (pre ++ bslash :: dquote :: t)
    with (pre ++ [bslash] ++ dquote :: t).
  rewrite app_assoc, (cut_found _ _ _ Hn'). cbv iota beta.
  change (Ascii.eqb dquote squote) with false. cbv iota.
  rewrite <- app_assoc. cbn [app].
  replace (length (pre ++ [bslash; dquote])) with (S (S (length pre)))
    by (rewrite length_app; cbn; lia).
  cbn [Nat.ltb Nat.leb Nat.sub].
  rewrite Nat.sub_0_r.
  rewrite (app_nth2 pre) by lia. rewrite Nat.sub_diag. cbn [nth].
  rewrite (app_nth2 pre) by lia.
  replace (S (length pre) - length pre)%nat with 1%nat by lia. cbn [nth].
  rewrite !Ascii.eqb_refl. reflexivity.
Qed.

Lemma strContent_unterminated (s : list ascii) :
  unterminated s ->
  forall (fuel : nat) (p : parser),
    rd_buf (p_r p) = s -> (length s + 1 <= fuel)%nat ->
    strContent fuel dquote p
    = Some (errWanted (code dquote) (set_r p (mkReader [] None))).
Proof.
  induction 1 as [s Hn|pre t Hn Ht IH]; intros fuel p Hb Hf.
  - destruct fuel as [|f]; [lia|]. cbn [strContent]. unfold ReadBytes.
    rewrite Hb. apply cut_none in Hn. rewrite Hn. cbv iota beta.
    change (Ascii.eqb dquote squote) with false. cbv iota.
    destruct (_ && _) eqn:Hc; [|reflexivity].
    apply escaped_end in Hc. destruct Hc as [Hin _].
    apply cut_none in Hn. contradiction.
  - destruct fuel as [|f]; [lia|].
    rewrite (strContent_escaped _ _ _ _ Hb Hn).
    rewrite IH; [reflexivity|reflexivity|].
    rewrite length_app in Hf. cbn in Hf. cbn. lia.
Qed.

(** An opening double quote with unterminated content: the error is recorded with
    the line and the column that [next] had on reading the quote. *)
Lemma next_unterminated (p : parser) (s : list ascii) :
  rd_buf (p_r p) = dquote :: s -> unterminated s ->
  next p
  = errWanted (code dquote)
      (set_col (set_r p (mkReader [] None)) (incr (p_col p))).
Proof.
  intros Hb Hs. apply (next_eq (S (S (S (length s))))).
  rewrite next_fuel_S.
  rewrite (skipSpace_rune _ _ _ _ Hb);
    [|vm_compute; reflexivity|vm_compute; reflexivity].
  unfold lexRune. change (code dquote =? code bslash) with false. cbv iota.
  unfold token. change (reserved (code dquote)) with false.
  change (quote (code dquote)) with true. cbv iota.
  change (byte_of (code dquote)) with dquote.
  rewrite (strContent_unterminated s Hs); [|reflexivity|lia].
  reflexivity.
Qed.

Lemma next_spaces_unterminated (k : nat) :
  forall (p : parser) (s : list ascii),
    rd_buf (p_r p) = repeat " "%char k ++ dquote :: s -> unterminated s ->
    next p
    = errWanted (code dquote)
        (set_col (set_r p (mkReader [] None)) (incrs (S k) (p_col p))).
Proof.
  induction k as [|k IH]; intros p s Hb Hs.
  - apply (next_unterminated p s Hb Hs).
  - cbn [repeat app] in Hb. rewrite (next_space _ _ Hb).
    rewrite (IH _ s); [|reflexivity|exact Hs].
    cbn [set_col set_r p_r p_col p_tok p_err p_name p_line p_log].
    unfold incrs. rewrite <- (Nat.iter_succ_r (S k)). reflexivity.
Qed.

(** * The pass on inputs of a given shape *)

Lemma list_of_str (l : list ascii) : list_ascii_of_string (str l) = l.
Proof. apply list_ascii_of_string_of_list_ascii. Qed.

Lemma programLoop_eof (c : parser -> option parser) (fuel : nat)
    (p : parser) :
  p_tok p = EOF -> programLoop c (S fuel) p = Some p.
Proof. intros Ht. cbn [programLoop]. rewrite Ht. reflexivity. Qed.

(** A pass whose first call of [next] ends at [EOF] is over. *)
Lemma run_parse_first_eof (r name : string) :
  p_tok (next (newParser (list_ascii_of_string r) name)) = EOF ->
  run_parse r name = Some (next (newParser (list_ascii_of_string r) name)).
Proof.
  intros Ht. unfold run_parse, program, passFuel.
  apply programLoop_eof. exact Ht.
Qed.

(** C1 fails on the code: an input that is one run of two word bytes or
    more, with nothing after it, is refused.  The loop of the run leaves on
    [io.EOF], and the [UnreadRune] that follows, meant for the delimiter
    that ended a run, is refused by bufio after a read that failed; its
    error is what [parse] returns. *)
Theorem word_at_end_of_input_fails (c c' : ascii) (w : list ascii)
    (name : string) :
  wordChar c = true -> code c <> code bslash ->
  forallb wordChar (c' :: w) = true ->
  parse (str (c :: c' :: w)) name = Some (Some ErrInvalidUnreadRune).
Proof.
  intros Hc Hbs Hw. unfold parse.
  assert (Hn : next (newParser (list_ascii_of_string (str (c :: c' :: w))) name)
               = errPass ErrInvalidUnreadRune
                   (set_col (set_r (newParser (c :: c' :: w) name)
                                   (mkReader [] None))
                            (incrs (S (S (length w))) 0))).
  { rewrite list_of_str.
    exact (next_word_end (newParser (c :: c' :: w) name) c c' w
             eq_refl Hc Hbs Hw). }
  rewrite run_parse_first_eof; rewrite Hn; reflexivity.
Qed.

(** The input [echo]. *)
Lemma word_at_end_of_input_fails_witness :
  parse "echo" "f" = Some (Some ErrInvalidUnreadRune).
Proof.
  apply (word_at_end_of_input_fails "e" "c" ["h"; "o"]%char "f");
    [reflexivity|discriminate|reflexivity].
Defined.

(** A pass over an opening double quote with unterminated content. *)
Lemma parse_unterminated_first (s : list ascii) (name : string) :
  unterminated s ->
  parse (str (dquote :: s)) name
  = Some (Some (Errorf (positionAt name 1 1
                        ++ "unexpected token %s, wanted %s")
                       [tokStr 0; tokStr (code dquote)])).
Proof.
  intros Hs. unfold parse.
  assert (Hn : next (newParser (list_ascii_of_string (str (dquote :: s))) name)
               = errWanted (code dquote)
                   (set_col (set_r (newParser (dquote :: s) name)
                                   (mkReader [] None))
                            (incr 0))).
  { rewrite list_of_str.
    exact (next_unterminated (newParser (dquote :: s) name) s eq_refl Hs). }
  rewrite run_parse_first_eof; rewrite Hn; reflexivity.
Qed.

(** C9: in the scan of double-quoted content a double quote that comes
    straight after a backslash never ends the string, also when another
    backslash precedes that backslash: only the byte before the quote is
    looked at, and the scan goes on after the quote.  So the input made of
    a double quote, [a], two backslashes and a double quote is refused as
    unterminated: the error wants the double quote. *)
Theorem escaped_quote_never_closes :
  (forall (fuel : nat) (p : parser) (pre t : list ascii),
      rd_buf (p_r p) = pre ++ bslash :: dquote :: t ->
      ~ In dquote pre ->
      strContent (S fuel) dquote p
      = strContent fuel dquote (set_r p (mkReader t None)))
  /\ (forall name : string,
        parse (str [dquote; "a"%char; bslash; bslash; dquote]) name
        = Some (Some (Errorf (positionAt name 1 1
                              ++ "unexpected token %s, wanted %s")
                             [tokStr 0; tokStr (code dquote)]))).
Proof.
  split; [apply strContent_escaped|].
  intros name. apply parse_unterminated_first.
  apply (un_escaped ["a"%char; bslash] []).
  - intros [H|[H|[]]]; discriminate H.
  - apply un_plain. intros [].
Qed.

(** The content [a], two backslashes and a double quote: the scan goes on
    after the quote, where nothing is left. *)
Lemma escaped_quote_never_closes_witness :
  let p := newParser ["a"%char; bslash; bslash; dquote] "f" in
  strContent 2 dquote p = strContent 1 dquote (set_r p (mkReader [] None)).
Proof.
  intros p.
  apply (proj1 escaped_quote_never_closes 1%nat p ["a"%char; bslash] []).
  - reflexivity.
  - intros [H|[H|[]]]; discriminate H.
Defined.

Lemma next_name (p : parser) : p_name (next p) = p_name p.
Proof. destruct (next_lexed p) as (_ & _ & H & _). exact H. Qed.

Lemma got_eq (tok : Z) (p : parser) :
  p_tok p = tok -> got tok p = (true, next p).
Proof. intros H. unfold got. rewrite H, Z.eqb_refl. reflexivity. Qed.

Lemma got_neq (tok : Z) (p : parser) :
  p_tok p <> tok -> got tok p = (false, p).
Proof.
  intros H. unfold got. apply Z.eqb_neq in H. rewrite H. reflexivity.
Qed.

Lemma programLoop_S (c : parser -> option parser) (fuel : nat) (p : parser) :
  programLoop c (S fuel) p
  = if negb (p_tok p =? EOF) then
      let '(b, p) := got (code newline) p in
      if b then programLoop c fuel p
      else match c p with
           | None => None
           | Some p => programLoop c fuel p
           end
    else Some p.
Proof. reflexivity. Qed.

Lemma command_S (fuel : nat) (p : parser) :
  command (S fuel) p = commandBody (command fuel) fuel p.
Proof. reflexivity. Qed.

Lemma identLoop_eof (c : parser -> option parser) (fuel : nat) (p : parser) :
  p_tok p = EOF -> identLoop c (S fuel) p = Some p.
Proof. intros Ht. cbn [identLoop]. rewrite Ht. reflexivity. Qed.

(** The pass when the first token is [IDENT]: the loop of [program] calls
    [command], which accepts it and enters the loop of the [IDENT] case. *)
Lemma run_parse_ident (r name : string) :
  let p1 := next (newParser (list_ascii_of_string r) name) in
  p_tok p1 = IDENT ->
  run_parse r name
  = match identLoop (command (S (S (length (list_ascii_of_string r)))))
                    (S (S (length (list_ascii_of_string r)))) (next p1) with
    | None => None
    | Some p =>
        programLoop (command (passFuel (list_ascii_of_string r)))
                    (S (S (length (list_ascii_of_string r)))) p
    end.
Proof.
  intros p1 Ht. unfold run_parse, program, passFuel. fold p1.
  rewrite programLoop_S. rewrite Ht. change (negb (IDENT =? EOF)) with true.
  cbv iota. rewrite got_neq by (rewrite Ht; discriminate). cbv iota beta.
  rewrite command_S. unfold commandBody.
  rewrite (got_eq IDENT p1 Ht). cbv iota beta. reflexivity.
Qed.

(** C3, as stated, fails on the example of the spec, [echo] followed by a
    space, a double quote and [abc]: the end of the input is at column 9
    and the error is reported at column 6, that of the opening quote. *)
Lemma unterminated_not_reported_at_end :
  ~ reported_at_end ("echo " ++ String dquote "abc") "f".
Proof.
  intros (format & seen & H & Hpos). vm_compute in H, Hpos.
  subst format. discriminate H.
Qed.

(** C3, amended: when [next] meets, after spaces, an opening double quote
    with no double quote after it other than those that come straight after
    a backslash, it records an error that wants the double quote and names
    the token the parser held, and the position of that error is the line
    it was on and the column reached on reading the opening quote: the
    content scanned up to the end of the input moves neither.  For every
    input whose first token is an identifier that such a string follows,
    this is the error of the pass: [ident] met, the double quote wanted. *)
Theorem unterminated_reported_at_quote :
  (forall (p : parser) (k : nat) (s : list ascii),
      rd_buf (p_r p) = repeat " "%char k ++ dquote :: s ->
      unterminated s ->
      next p
      = errWanted (code dquote)
          (set_col (set_r p (mkReader [] None)) (incrs (S k) (p_col p))))
  /\ (forall (r name : string) (k : nat) (s : list ascii),
        let p1 := next (newParser (list_ascii_of_string r) name) in
        p_tok p1 = IDENT ->
        rd_buf (p_r p1) = repeat " "%char k ++ dquote :: s ->
        unterminated s ->
        parse r name
        = Some (Some (Errorf (positionAt name (p_line p1)
                                         (incrs (S k) (p_col p1))
                              ++ "unexpected token %s, wanted %s")
                             [tokStr IDENT; tokStr (code dquote)]))).
Proof.
  split.
  - intros p k s. apply next_spaces_unterminated.
  - intros r name k s p1 Ht Hb Hs. unfold parse.
    rewrite (run_parse_ident r name Ht). fold p1.
    rewrite (next_spaces_unterminated k p1 s Hb Hs).
    rewrite identLoop_eof by reflexivity.
    rewrite programLoop_eof by reflexivity.
    cbn [option_map]. unfold errWanted, lineErr, errPass, position.
    cbn [p_err p_name p_line p_col p_tok set_col set_r].
    rewrite Ht. unfold p1. rewrite next_name. reflexivity.
Qed.

(** The example of the spec: the error is at column 6. *)
Lemma unterminated_reported_at_quote_witness :
  parse ("echo " ++ String dquote "abc") "f"
  = Some (Some (Errorf (positionAt "f" 1 6
                        ++ "unexpected token %s, wanted %s")
                       [tokStr IDENT; tokStr (code dquote)])).
Proof.
  apply (proj2 unterminated_reported_at_quote
           ("echo " ++ String dquote "abc")%string "f"%string 1%nat
           (list_ascii_of_string "abc")).
  - vm_compute. reflexivity.
  - vm_compute. reflexivity.
  - apply un_plain. intros [H|[H|[H|[]]]]; discriminate H.
Defined.

Lemma identLoop_S (c : parser -> option parser) (fuel : nat) (p : parser) :
  identLoop c (S fuel) p
  = if p_tok p =? EOF then Some p
    else
      let '(b, p) := got IDENT p in
      if b then identLoop c fuel p else
      let '(b, p) := got STRING p in
      if b then identLoop c fuel p else
      let '(b, p) := got (code "=") p in
      if b then identLoop c fuel (assigned p) else
      let '(b, p) := got (code "&") p in
      if b then andThen c p else
      let '(b, p) := got (code "|") p in
      if b then pipeThen c p else
      let '(b, p) := got (code "(") p in
      if b then funcBody c fuel (want (code "{") (want (code ")") p)) else
      let '(b, p) := got (code ">") p in
      if b then identLoop c fuel (value (redirected p)) else
      let '(b, p) := got (code "<") p in
      if b then identLoop c fuel (value p) else
      let '(b, p) := got (code ";") p in
      if b then Some p else
      let '(b, p) := got (code newline) p in
      if b then Some p else
      identLoop c fuel (errUnexpected p).
Proof. reflexivity. Qed.

Lemma funcBody_S (c : parser -> option parser) (fuel : nat) (p : parser) :
  funcBody c (S fuel) p
  = let '(b, p) := got (code "}") p in
    if b then Some p
    else if p_tok p =? EOF then Some (errWanted (code "}") p)
    else
      let '(b, p) := got (code newline) p in
      if b then funcBody c fuel p
      else match c p with
           | None => None
           | Some p => funcBody c fuel p
           end.
Proof. reflexivity. Qed.

(** The ['('] case of the loop of an identifier-led command, in any state
    whose token is ['('] and whose next token is not [')']: the three
    checks that follow each record an error. *)
Lemma identLoop_paren (c : parser -> option parser) (fuel : nat)
    (p : parser) :
  p_tok p = code "(" -> p_tok (next p) <> code ")" ->
  identLoop c (S (S fuel)) p
  = Some (errWanted (code "}")
            (errWanted (code "{") (errWanted (code ")") (next p)))).
Proof.
  intros Ht Hn. rewrite identLoop_S. rewrite Ht.
  change (code "(" =? EOF) with false. cbv iota.
  repeat (rewrite got_neq by (rewrite Ht; discriminate); cbv iota beta).
  rewrite (got_eq (code "(") p Ht). cbv iota beta.
  unfold want at 2. apply Z.eqb_neq in Hn. rewrite Hn. cbn [negb].
  unfold want. change (p_tok (errWanted (code ")") (next p))) with EOF.
  change (negb (EOF =? code "{")) with true. cbv iota.
  rewrite funcBody_S. rewrite got_neq by discriminate. cbv iota beta.
  reflexivity.
Qed.

(** C5, as stated, fails on [a(b;]: the error returned is the one of the
    loop that looks for ['}'], recorded at [EOF]. *)
Lemma paren_mismatch_not_reported : ~ paren_mismatch_reported "a(b;" "f".
Proof.
  intros (e & H & Hs). vm_compute in H. injection H as <-.
  vm_compute in Hs. discriminate Hs.
Qed.

(** C5, amended: in the loop of an identifier-led command, whenever the
    token is ['('] and the token after it is not [')'], the command ends
    with an error on record, and the [want(')')] that fails records a
    mismatch whose unexpected token is the token after the ['('] (the
    ['('] has been accepted by then, and is no longer the token) and
    whose wanted token is [')'], at the position reached on reading the
    token after the ['('].  So every input whose first token is an
    identifier, its second ['('] and its third not [')'] fails. *)
Theorem paren_without_close_fails :
  (forall (c : parser -> option parser) (fuel : nat) (p : parser),
      p_tok p = code "(" -> p_tok (next p) <> code ")" ->
      want (code ")") (next p) = errWanted (code ")") (next p)
      /\ exists p' later,
           identLoop c (S (S fuel)) p = Some p'
           /\ p_err p' <> None /\ p_tok p' = EOF
           /\ p_log p'
              = later
                ++ Errorf (position (next p)
                           ++ "unexpected token %s, wanted %s")
                          [tokStr (p_tok (next p)); tokStr (code ")")]
                :: p_log (next p))
  /\ (forall r name : string,
        let p1 := next (newParser (list_ascii_of_string r) name) in
        let p2 := next p1 in
        let q := next p2 in
        p_tok p1 = IDENT -> p_tok p2 = code "(" -> p_tok q <> code ")" ->
        (exists e, parse r name = Some (Some e))
        /\ exists later,
             recorded r name
             = Some (later
                     ++ Errorf (position q
                                ++ "unexpected token %s, wanted %s")
                               [tokStr (p_tok q); tokStr (code ")")]
                     :: p_log q)).
Proof.
  split.
  - intros c fuel p Ht Hn. split.
    + unfold want. apply Z.eqb_neq in Hn. rewrite Hn. reflexivity.
    + rewrite (identLoop_paren c fuel p Ht Hn).
      eexists _, [_; _]. split; [reflexivity|].
      split; [discriminate|]. split; reflexivity.
  - intros r name p1 p2 q H1 H2 Hq. unfold parse, recorded.
    rewrite (run_parse_ident r name H1). fold p1. fold p2.
    rewrite (identLoop_paren _ _ p2 H2 Hq). fold q.
    rewrite programLoop_eof by reflexivity.
    split; [eexists; reflexivity|]. eexists [_; _]. reflexivity.
Qed.

(** The input [a(b;]: the third token is [ident], at line 1, column 3. *)
Lemma paren_without_close_fails_witness :
  (exists e, parse "a(b;" "f" = Some (Some e))
  /\ exists later,
       recorded "a(b;" "f"
       = Some (later
               ++ [Errorf "f:1:3: unexpected token %s, wanted %s"
                          ["ident"; "')'"]%string]).
Proof.
  apply (proj2 paren_without_close_fails "a(b;"%string "f"%string).
  - vm_compute. reflexivity.
  - vm_compute. reflexivity.
  - vm_compute. discriminate.
Defined.

(** ** Identifiers *)

Lemma identHead_spec (r : Z) : identHead r = isLetter r || isUnderscore r.
Proof.
  unfold identHead, inRange, isLetter, isUnderscore.
  change (code "a") with 97. change (code "z") with 122.
  change (code "A") with 65. change (code "Z") with 90.
  change (code "_") with 95.
  destruct ((97 <=? r) && (r <=? 122)), ((65 <=? r) && (r <=? 90));
    reflexivity.
Qed.

Lemma identTail_spec (r : Z) :
  identTail r = isLetter r || isDigit r || isUnderscore r.
Proof.
  unfold identTail, inRange, isLetter, isDigit, isUnderscore.
  change (code "a") with 97. change (code "z") with 122.
  change (code "A") with 65. change (code "Z") with 90.
  change (code "0") with 48. change (code "9") with 57.
  change (code "_") with 95.
  destruct ((97 <=? r) && (r <=? 122)), ((65 <=? r) && (r <=? 90));
    reflexivity.
Qed.

Lemma identHead_tail (r : Z) : identHead r = true -> identTail r = true.
Proof.
  rewrite identHead_spec, identTail_spec. intros H.
  apply orb_prop in H. destruct H as [->| ->]; [reflexivity|].
  apply orb_true_r.
Qed.

(** The regular expression of the source accepts the runs of the pattern
    and no other. *)
Lemma ident_MatchString_spec (s : list Z) :
  ident_MatchString s = matchesIdentPattern s.
Proof.
  apply eq_true_iff_eq. unfold ident_MatchString. rewrite existsb_exists.
  split.
  - intros (k & Hk & Hf). apply andb_prop in Hf. destruct Hf as [Hf Ht].
    apply andb_prop in Hf. destruct Hf as [Hpos Hh].
    apply Nat.ltb_lt in Hpos.
    destruct k as [|k]; [lia|]. destruct s as [|c cs].
    + apply in_seq in Hk. cbn in Hk. lia.
    + cbn [firstn forallb skipn] in Hh, Ht.
      apply andb_prop in Hh. destruct Hh as [Hc Hh].
      cbn [matchesIdentPattern]. rewrite <- identHead_spec, Hc.
      cbn [andb]. rewrite <- (firstn_skipn k cs), forallb_app.
      apply andb_true_intro. split.
      * rewrite forallb_forall in *. intros x Hx.
        rewrite <- identTail_spec. apply identHead_tail. auto.
      * rewrite forallb_forall in *. intros x Hx.
        rewrite <- identTail_spec. auto.
  - destruct s as [|c cs]; [discriminate|]. cbn [matchesIdentPattern].
    intros H. apply andb_prop in H. destruct H as [Hc Ht].
    exists 1%nat. split; [apply in_seq; cbn; lia|].
    cbn [firstn skipn forallb Nat.ltb Nat.leb].
    rewrite identHead_spec, Hc. cbn [andb].
    rewrite forallb_forall in *. intros x Hx. rewrite identTail_spec. auto.
Qed.

Lemma classify_spec (runes : list Z) :
  classify runes = if matchesIdentPattern runes then IDENT else STRING.
Proof. unfold classify. rewrite ident_MatchString_spec. reflexivity. Qed.

(** C6 fails on the code for a run that the end of the input ends after
    two bytes or more: the run is complete, yet the token is [EOF], with
    the error of [UnreadRune] on record, and so neither [IDENT] nor
    [STRING], whether the run matches the pattern of an identifier or not.
    The same run before a delimiter is classified by the pattern, as the
    claim says. *)
Theorem run_at_end_not_classified (p : parser) (c c' : ascii)
    (w : list ascii) :
  rd_buf (p_r p) = c :: c' :: w ->
  wordChar c = true -> code c <> code bslash ->
  forallb wordChar (c' :: w) = true ->
  let run := map code (c :: c' :: w) in
  p_tok (next p) = EOF
  /\ p_err (next p) = Some ErrInvalidUnreadRune
  /\ p_tok (next p) <> (if matchesIdentPattern run then IDENT else STRING)
  /\ (forall (q : parser) (d : ascii) (t : list ascii),
        rd_buf (p_r q) = c :: (c' :: w) ++ d :: t -> endChar d = true ->
        p_tok (next q) = if matchesIdentPattern run then IDENT else STRING).
Proof.
  intros Hb Hc Hbs Hw run.
  rewrite (next_word_end p c c' w Hb Hc Hbs Hw).
  cbn [p_tok p_err errPass].
  split; [reflexivity|]. split; [reflexivity|]. split.
  - destruct (matchesIdentPattern run); discriminate.
  - intros q d t Hq Hd.
    rewrite (next_word q c (c' :: w) d t Hq Hc Hbs Hw Hd).
    apply classify_spec.
Qed.

(** The input [echo]: its one run matches the pattern of an identifier, and
    the token is [EOF]; before a space the run is [IDENT]. *)
Lemma run_at_end_not_classified_witness :
  let p := newParser (list_ascii_of_string "echo") "f" in
  matchesIdentPattern (map code (list_ascii_of_string "echo")) = true
  /\ p_tok (next p) = EOF
  /\ p_err (next p) = Some ErrInvalidUnreadRune
  /\ p_tok (next p) <> IDENT
  /\ p_tok (next (newParser (list_ascii_of_string "echo x") "f")) = IDENT.
Proof.
  intros p.
  destruct (run_at_end_not_classified p "e"%char "c"%char ["h"; "o"]%char)
    as (H1 & H2 & H3 & H4);
    [reflexivity|reflexivity|discriminate|reflexivity|].
  split; [reflexivity|]. split; [exact H1|]. split; [exact H2|].
  split; [exact H3|].
  apply (H4 (newParser (list_ascii_of_string "echo x") "f") " "%char
            ["x"]%char); reflexivity.
Defined.

(** ** Simple commands *)

(** The newline is its own token, and starts a line. *)
Lemma next_newline (p : parser) (t : list ascii) :
  rd_buf (p_r p) = newline :: t ->
  next p
  = set_tok (set_col (set_line (set_r p (mkReader t (Some [newline])))
                               (incr (p_line p))) 0)
            (code newline).
Proof.
  intros Hb. apply (next_eq 2). rewrite next_fuel_S.
  rewrite (skipSpace_rune _ _ _ _ Hb);
    [|vm_compute; reflexivity|vm_compute; reflexivity].
  reflexivity.
Qed.

Lemma isWord_spec (w : list ascii) :
  isWord w = true ->
  exists c w', w = c :: w' /\ wordChar c = true /\ code c <> code bslash
               /\ forallb wordChar w' = true.
Proof.
  destruct w as [|c w']; [discriminate|]. cbn [isWord]. intros H.
  apply andb_prop in H. destruct H as [H Hw].
  apply andb_prop in H. destruct H as [Hc Hb].
  apply negb_true_iff, Z.eqb_neq in Hb. exists c, w'. auto.
Qed.

(** What follows a word of a simple command: a delimiter. *)
Lemma spaced_starts (ws : list (list ascii)) (term : ascii) :
  term = ";"%char \/ term = newline ->
  exists d t, spaced ws ++ [term] = d :: t /\ endChar d = true.
Proof.
  intros Ht. destruct ws as [|w ws]; cbn [spaced flat_map app].
  - exists term, []. split; [reflexivity|].
    destruct Ht as [-> | ->]; reflexivity.
  - eexists _, _. split; reflexivity.
Qed.

(** The loop of the [IDENT] case over the words of a simple command and its
    terminator: every word is accepted, the terminator ends the command,
    and no error is recorded. *)
Lemma identLoop_words (c : parser -> option parser) (term : ascii)
    (ws : list (list ascii)) :
  term = ";"%char \/ term = newline ->
  forallb isWord ws = true ->
  forall (fuel : nat) (p : parser),
    rd_buf (p_r p) = spaced ws ++ [term] ->
    (length ws + 1 <= fuel)%nat ->
    exists p', identLoop c fuel (next p) = Some p'
               /\ p_err p' = p_err p /\ p_tok p' = EOF.
Proof.
  intros Hterm. induction ws as [|w ws IH]; intros Hws fuel p Hb Hf.
  - destruct fuel as [|fuel]; [cbn in Hf; lia|].
    cbn [spaced flat_map app] in Hb. rewrite identLoop_S.
    destruct Hterm as [-> | ->].
    + rewrite (next_reserved p ";" [] Hb);
        [|reflexivity|reflexivity|discriminate|discriminate].
      match goal with |- context [got IDENT ?q] => set (q0 := q) end.
      assert (Ht : p_tok q0 = code ";") by reflexivity.
      rewrite Ht. change (code ";" =? EOF) with false. cbv iota.
      repeat (rewrite got_neq by (rewrite Ht; discriminate); cbv iota beta).
      rewrite (got_eq (code ";") q0 Ht). cbv iota beta.
      rewrite (next_end q0) by reflexivity.
      eexists. split; [reflexivity|]. split; reflexivity.
    + rewrite (next_newline p [] Hb).
      match goal with |- context [got IDENT ?q] => set (q0 := q) end.
      assert (Ht : p_tok q0 = code newline) by reflexivity.
      rewrite Ht. change (code newline =? EOF) with false. cbv iota.
      repeat (rewrite got_neq by (rewrite Ht; discriminate); cbv iota beta).
      rewrite (got_eq (code newline) q0 Ht). cbv iota beta.
      rewrite (next_end q0) by reflexivity.
      eexists. split; [reflexivity|]. split; reflexivity.
  - destruct fuel as [|fuel]; [cbn in Hf; lia|].
    cbn [forallb] in Hws. apply andb_prop in Hws. destruct Hws as [Hw Hws].
    apply isWord_spec in Hw. destruct Hw as (c0 & w' & -> & Hc & Hbs & Hw').
    destruct (spaced_starts ws term Hterm) as (d & t & Hd & Hend).
    cbn [spaced flat_map] in Hb. fold (spaced ws) in Hb.
    rewrite <- app_assoc, Hd in Hb. cbn [app] in Hb.
    rewrite (next_space p _ Hb).
    rewrite (next_word _ c0 w' d t); [|reflexivity|assumption..].
    match goal with |- context [identLoop c (S fuel) ?q] => set (q0 := q) end.
    assert (Hq : rd_buf (p_r q0) = spaced ws ++ [term])
      by (rewrite Hd; reflexivity).
    destruct (IH Hws fuel q0 Hq) as (p' & Hp' & He & Ht);
      [cbn in Hf; lia|].
    exists p'. split; [|split; [exact He|exact Ht]].
    rewrite identLoop_S.
    assert (Hcl : p_tok q0 = IDENT \/ p_tok q0 = STRING).
    { unfold q0. cbn [p_tok set_tok]. unfold classify.
      destruct (ident_MatchString _); auto. }
    destruct Hcl as [Hcl|Hcl]; rewrite Hcl.
    + change (IDENT =? EOF) with false. cbv iota.
      rewrite (got_eq IDENT q0 Hcl). cbv iota beta. exact Hp'.
    + change (STRING =? EOF) with false. cbv iota.
      rewrite got_neq by (rewrite Hcl; discriminate). cbv iota beta.
      rewrite (got_eq STRING q0 Hcl). cbv iota beta. exact Hp'.
Qed.

(** A command made of an identifier and of unquoted words, a space before
    each, that a [;] or a newline ends, is accepted. *)
Lemma simple_command_accepted (w0 : list ascii) (ws : list (list ascii))
    (term : ascii) (name : string) :
  isWord w0 = true -> matchesIdentPattern (map code w0) = true ->
  forallb isWord ws = true ->
  term = ";"%char \/ term = newline ->
  parse (str (w0 ++ spaced ws ++ [term])) name = Some None.
Proof.
  intros Hw0 Hid Hws Hterm.
  apply isWord_spec in Hw0. destruct Hw0 as (c0 & w' & -> & Hc & Hbs & Hw').
  destruct (spaced_starts ws term Hterm) as (d & t & Hd & Hend).
  set (input := (c0 :: w') ++ spaced ws ++ [term]).
  set (p0 := newParser input name).
  assert (Hn : next p0
               = set_tok (set_col (set_r p0 (mkReader (d :: t) None))
                                  (decr (incrs (S (S (length w'))) 0)))
                         IDENT).
  { rewrite (next_word p0 c0 w' d t);
      [|unfold p0, input; rewrite Hd; reflexivity|assumption..].
    rewrite classify_spec, Hid. reflexivity. }
  unfold parse. rewrite (run_parse_ident (str input) name);
    rewrite list_of_str; fold p0; [|rewrite Hn; reflexivity].
  destruct (identLoop_words (command (S (S (length input)))) term ws Hterm
              Hws (S (S (length input))) (next p0)) as (p' & Hp' & He & Ht).
  { rewrite Hn, Hd. reflexivity. }
  { unfold input. rewrite !length_app. cbn [length].
    assert (length ws <= length (spaced ws))%nat.
    { clear. induction ws as [|w ws IH]; [cbn; lia|].
      cbn [spaced flat_map length]. fold (spaced ws).
      rewrite length_app. cbn [length]. lia. }
    lia. }
  rewrite Hp'. rewrite programLoop_eof by exact Ht.
  cbn [option_map]. rewrite He, Hn. reflexivity.
Qed.

(** * What every call of [next] guarantees *)

Lemma grows_refl (p : parser) : grows p p.
Proof. split; [reflexivity|]. exists []. split; [reflexivity|constructor]. Qed.

Lemma grows_same (p q : parser) : same_err p q -> grows p q.
Proof.
  intros (Hn & Hl & _). split; [exact Hn|]. exists [].
  split; [exact Hl|constructor].
Qed.

Lemma grows_trans (p q r : parser) : grows p q -> grows q r -> grows p r.
Proof.
  intros (Hn & es & Hl & Hs) (Hn' & es' & Hl' & Hs').
  split; [congruence|]. exists (es' ++ es). split.
  - rewrite Hl', Hl, app_assoc. reflexivity.
  - apply Forall_app. split; [rewrite <- Hn; exact Hs'|exact Hs].
Qed.

Lemma grows_errPass (p q : parser) (e : error) :
  grows p q -> shaped (p_name p) e -> grows p (errPass e q).
Proof.
  intros (Hn & es & Hl & Hs) He. split; [exact Hn|]. exists (e :: es).
  split; [cbn; rewrite Hl; reflexivity|constructor; assumption].
Qed.

Lemma shaped_wanted (tok : Z) (p : parser) :
  shaped (p_name p)
         (Errorf (position p ++ "unexpected token %s, wanted %s")
                 [tokStr (p_tok p); tokStr tok]).
Proof.
  right; right. exists (p_line p), (p_col p), (p_tok p), tok. reflexivity.
Qed.

Lemma shaped_unexpected (p : parser) :
  shaped (p_name p)
         (Errorf (position p ++ "unexpected token %s") [tokStr (p_tok p)]).
Proof.
  right; left. exists (p_line p), (p_col p), (p_tok p). reflexivity.
Qed.

(** A log that is what it was has grown by nothing. *)
Lemma app_same_nil (A : Type) (es l : list A) : es ++ l = l -> es = [].
Proof.
  intros H. apply (f_equal (@length A)) in H. rewrite length_app in H.
  destruct es; [reflexivity|cbn in H; lia].
Qed.

Lemma grows_twice_same (p q r : parser) :
  grows p q -> grows q r -> p_log r = p_log p ->
  p_log q = p_log p /\ p_log r = p_log q.
Proof.
  intros (_ & es & Hl & _) (_ & es' & Hl' & _) H.
  rewrite Hl', Hl, app_assoc in H. apply app_same_nil in H.
  apply app_eq_nil in H. destruct H as [-> ->]. cbn in *. split; congruence.
Qed.

Lemma strContent_inv (fuel : nat) (d : ascii) (p p' : parser) :
  strContent fuel d p = Some p' ->
  grows p p' /\ rd_last (p_r p') = None.
Proof.
  revert p p'. induction fuel as [|n IH]; intros p p'; [discriminate|].
  cbn [strContent]. reader_cases.
  - assert (Hp : forall q, Some (set_r p r) = Some q ->
                   grows p q /\ rd_last (p_r q) = None).
    { intros q [= <-]. split; [|assumption].
      apply grows_same. repeat split. }
    destruct (Ascii.eqb d squote); [apply Hp|].
    destruct (_ && _); [|apply Hp].
    intros E. apply IH in E. exact E.
  - assert (Hp : forall q, Some (errWanted (code d) (set_r p r)) = Some q ->
                   grows p q /\ rd_last (p_r q) = None).
    { intros q [= <-]. split; [|assumption].
      apply (grows_errPass p (set_r p r));
        [apply grows_same; repeat split|].
      apply (shaped_wanted (code d) (set_r p r)). }
    destruct (Ascii.eqb d squote); [apply Hp|].
    destruct (_ && _); [|apply Hp].
    intros E. apply IH in E. destruct E as [E1 E2]. split; [|exact E2].
    eapply grows_trans; [|exact E1].
    apply (grows_errPass p (set_r p r)); [apply grows_same; repeat split|].
    apply (shaped_wanted (code d) (set_r p r)).
Qed.

Lemma skipSpace_inv (fuel : nat) (p : parser) (s : skipped) :
  skipSpace fuel p = Some s ->
  match s with
  | Returned p' => p_r p' = mkReader [] None
  | Rune r p' => rd_buf (p_r p) <> [] /\ rd_last (p_r p') <> None
  end.
Proof.
  revert p s. induction fuel as [|n IH]; intros p s; [discriminate|].
  cbn [skipSpace]. reader_cases.
  - intros [= <-]. reflexivity.
  - assert (Hb : rd_buf (p_r p) <> []).
    { intros X. rewrite X in *. cbn in *. lia. }
    destruct (space z).
    + intros E. apply IH in E. destruct s; [exact E|].
      split; [exact Hb|apply E].
    + intros [= <-]. split; [exact Hb|assumption].
Qed.

Lemma readRun_inv (fuel : nat) (r : Z) (runes : list Z) (p : parser)
    (runes' : list Z) (p' : parser) :
  readRun fuel r runes p = Some (RunEnd runes' p') ->
  length runes' = length runes ->
  delimiter r = true \/ rd_last (p_r p') = None.
Proof.
  revert r runes p. induction fuel as [|n IH]; intros r runes p;
    [discriminate|].
  cbn [readRun]. unfold delimiter.
  destruct (reserved r), (quote r), (space r); cbn [negb andb orb]; auto.
  reader_cases.
  - intros [= <- <-]. auto.
  - intros E Hl. apply readRun_post in E.
    destruct E as (_ & _ & _ & E & _). rewrite length_app in E. cbn in E. lia.
Qed.

(** A run ends as a token [IDENT] or [STRING], or in the error of
    [UnreadRune]; either way nothing is left to push back. *)
Lemma word_inv (fuel : nat) (r : Z) (p p' : parser) :
  delimiter r = false ->
  word fuel r p = Some p' ->
  rd_last (p_r p') = None /\ p_name p' = p_name p
  /\ ((p_log p' = p_log p /\ (p_tok p' = IDENT \/ p_tok p' = STRING))
      \/ (p_log p' = ErrInvalidUnreadRune :: p_log p /\ p_tok p' = EOF)).
Proof.
  intros Hd. unfold word.
  destruct (readRun fuel r [r] p) as [[q|runes q]|] eqn:Hr; [| |discriminate].
  { apply readRun_post in Hr. contradiction. }
  pose proof (readRun_inv _ _ _ _ _ _ Hr) as Hi.
  apply readRun_post in Hr.
  destruct Hr as ((Hn & Hl & _) & _ & _ & Hlen & _).
  assert (Hc : forall runes0, classify runes0 = IDENT \/ classify runes0 = STRING).
  { intros runes0. unfold classify. destruct (ident_MatchString _); auto. }
  destruct (1 <? length runes)%nat eqn:E1.
  - reader_cases; intros [= <-]; cbn.
    + split; [assumption|]. split; [exact Hn|]. right. rewrite Hl. auto.
    + split; [assumption|]. split; [exact Hn|]. left. auto.
  - intros [= <-]. cbn. apply Nat.ltb_ge in E1. cbn in Hlen.
    destruct Hi as [Hi|Hi]; [cbn; lia|congruence|].
    split; [exact Hi|]. split; [exact Hn|]. left. auto.
Qed.

Lemma reserved_not_EOF (r : Z) : reserved r = true -> r <> EOF.
Proof. intros H E. rewrite E in H. vm_compute in H. discriminate. Qed.

Lemma quote_cases (r : Z) :
  quote r = true -> r = code dquote \/ r = code squote.
Proof.
  unfold quote, runeSet. cbn [existsb]. rewrite orb_false_r. intros H.
  apply orb_prop in H. destruct H as [H|H]; apply Z.eqb_eq in H; auto.
Qed.

Lemma token_inv (next' : parser -> option parser) (fuel : nat) (r : Z)
    (p p' : parser) :
  (forall q q', next' q = Some q' -> lexinv q q') ->
  space r = false ->
  token next' fuel r p = Some p' ->
  tokenKind (p_tok p') = true
  /\ (rd_last (p_r p') <> None -> reserved (p_tok p') = true)
  /\ grows p p'
  /\ (p_tok p <> EOF ->
      p_log p' = p_log p -> p_tok p' = EOF -> rd_buf (p_r p') = []).
Proof.
  intros Hnext Hsp. unfold token.
  destruct (reserved r) eqn:Hres.
  - destruct (r =? code "#") eqn:Hh.
    + intros E. apply Hnext in E. destruct E as (E1 & E2 & E3 & E4).
      destruct (discardUpTo_post newline p) as (_ & D).
      assert (Hpre : p_tok p <> EOF ->
                     p_tok (discardUpTo newline p) <> EOF
                     \/ rd_buf (p_r (discardUpTo newline p)) = []).
      { intros Ht. unfold discardUpTo. reader_cases; cbn; auto. }
      split; [exact E1|]. split; [exact E2|]. split.
      * eapply grows_trans; [apply grows_same; exact D|exact E3].
      * intros Ht Hl. apply E4; [exact (Hpre Ht)|].
        destruct D as (_ & D & _). congruence.
    + intros [= <-]. unfold lexinv, tokenKind.
      assert (Hk : (r =? EOF) || (r =? IDENT) || (r =? STRING)
                   || reserved r && negb (r =? code "#") = true).
      { rewrite Hres, Hh. cbn. apply orb_true_r. }
      assert (Hne : r <> EOF) by (apply reserved_not_EOF; exact Hres).
      destruct (r =? code newline); cbn;
        repeat split; auto; try (exists []; split; [reflexivity|constructor]);
        intros; contradiction.
  - destruct (quote r) eqn:Hq.
    + destruct (strContent fuel (byte_of r) p) as [q|] eqn:Hs; [|discriminate].
      pose proof (strContent_inv _ _ _ _ Hs) as (G & Hlast).
      apply strContent_post in Hs. destruct Hs as (_ & _ & Hs).
      destruct (p_tok q =? EOF) eqn:E; intros [= <-].
      * apply Z.eqb_eq in E. split; [rewrite E; reflexivity|].
        split; [intros X; contradiction|]. split; [exact G|].
        intros Ht Hl _. exfalso. apply Ht. rewrite <- (Hs Hl). exact E.
      * cbn. split; [reflexivity|]. split; [intros X; contradiction|].
        split; [exact G|]. intros _ _ X. discriminate X.
    + intros E. apply word_inv in E;
        [|unfold delimiter; rewrite Hres, Hq, Hsp; reflexivity].
      destruct E as (Hlast & Hn & [(Hl & Hk)|(Hl & Hk)]).
      * split; [destruct Hk as [-> | ->]; reflexivity|].
        split; [intros X; contradiction|]. split.
        -- split; [exact Hn|]. exists []. split; [exact Hl|constructor].
        -- intros _ _ X. destruct Hk as [Hk|Hk]; rewrite Hk in X;
             discriminate X.
      * split; [rewrite Hk; reflexivity|].
        split; [intros X; contradiction|]. split.
        -- split; [exact Hn|]. exists [ErrInvalidUnreadRune].
           split; [exact Hl|]. constructor; [left; reflexivity|constructor].
        -- intros _ X. exfalso. rewrite Hl in X.
           apply (f_equal (@length error)) in X. cbn in X. lia.
Qed.

Lemma next_fuel_inv (fuel : nat) (p p' : parser) :
  next_fuel fuel p = Some p' -> lexinv p p'.
Proof.
  revert p p'. induction fuel as [|n IH]; intros p p'; [discriminate|].
  rewrite next_fuel_S.
  destruct (skipSpace n p) as [[q|r q]|] eqn:Hs; [| |discriminate];
    pose proof (skipSpace_inv _ _ _ Hs) as Hi; apply skipSpace_post in Hs.
  - intros [= <-]. destruct Hs as (_ & S2 & S3). unfold lexinv. rewrite Hi.
    split; [rewrite S2; reflexivity|]. split; [intros X; contradiction|].
    split; [apply grows_same; exact S3|]. reflexivity.
  - destruct Hs as (_ & _ & S3 & S4 & S5 & _). destruct Hi as (Hb & Hlast).
    unfold lexRune. destruct (r =? code bslash).
    + destruct (next_fuel n q) as [q1|] eqn:Hn1; [|discriminate].
      apply IH in Hn1.
      destruct (p_tok q1 =? code newline) eqn:Hnl.
      * intros E. apply IH in E. apply Z.eqb_eq in Hnl.
        destruct Hn1 as (_ & _ & N3 & _). destruct E as (E1 & E2 & E3 & E4).
        split; [exact E1|]. split; [exact E2|].
        split; [eapply grows_trans;
                  [apply grows_same; exact S4|eapply grows_trans; eauto]|].
        intros _ Hl. apply E4; [left; rewrite Hnl; discriminate|].
        destruct S4 as (_ & S4 & _). rewrite <- S4 in Hl.
        apply (grows_twice_same q q1 p' N3 E3 Hl).
      * reader_cases.
        -- intros [= <-]. destruct Hn1 as (_ & _ & N3 & _).
           split; [reflexivity|]. split; [cbn; intros X; contradiction|].
           split.
           ++ eapply grows_trans; [apply grows_same; exact S4|].
              apply grows_errPass; [exact N3|left; reflexivity].
           ++ intros _ Hl. exfalso. cbn in Hl.
              destruct N3 as (_ & es & N3 & _). destruct S4 as (_ & S4 & _).
              rewrite N3, S4 in Hl.
              apply (f_equal (@length error)) in Hl.
              cbn in Hl. rewrite length_app in Hl. lia.
        -- intros E. destruct Hn1 as (_ & N2 & N3 & _).
           assert (Hne : p_tok q1 <> EOF).
           { apply reserved_not_EOF, N2. assumption. }
           apply token_inv in E; [|exact IH|exact S3].
           destruct E as (E1 & E2 & E3 & E4).
           split; [exact E1|]. split; [exact E2|].
           assert (G : grows q p').
           { eapply grows_trans; [exact N3|].
             eapply grows_trans; [|exact E3]. apply grows_same. repeat split. }
           split; [eapply grows_trans; [apply grows_same; exact S4|exact G]|].
           intros _ Hl. apply E4; [exact Hne|].
           destruct S4 as (_ & S4 & _). rewrite <- S4 in Hl.
           cbn [p_log set_col set_r].
           destruct E3 as (_ & es & E3 & _). cbn [p_log set_col set_r] in E3.
           destruct N3 as (_ & es' & N3 & _).
           rewrite E3, N3, app_assoc in Hl. apply app_same_nil in Hl.
           apply app_eq_nil in Hl. destruct Hl as [-> ->]. exact E3.
    + intros E. apply token_inv in E; [|exact IH|exact S3].
      destruct E as (E1 & E2 & E3 & E4).
      split; [exact E1|]. split; [exact E2|].
      split; [eapply grows_trans; [apply grows_same; exact S4|exact E3]|].
      intros [Hp|Hp] Hl; [|contradiction].
      apply E4; [congruence|]. destruct S4 as (_ & S4 & _). congruence.
Qed.

Lemma next_inv (p : parser) : lexinv p (next p).
Proof.
  pose proof (next_defined p) as H. apply next_fuel_inv in H. exact H.
Qed.

(** X1: whatever the state and the bytes left, the token that a call of
    [next] leaves is [EOF], [IDENT], [STRING] or a reserved rune other than
    ['#']: a comment is never a token, and neither is a space, a quote or
    a rune of a word. *)
Theorem next_token_kinds (p : parser) :
  let t := p_tok (next p) in
  t = EOF \/ t = IDENT \/ t = STRING
  \/ (reserved t = true /\ t <> code "#").
Proof.
  cbv zeta. destruct (next_inv p) as (H & _). unfold tokenKind in H.
  repeat (apply orb_prop in H; destruct H as [H|H]);
    try (apply Z.eqb_eq in H; auto).
  apply andb_prop in H. destruct H as [H1 H2].
  apply negb_true_iff, Z.eqb_neq in H2. auto.
Qed.

(** * What the steps of the walker preserve, continued *)

Lemma wstep_wellLogged (name : string) (p q : parser) :
  wstep p q -> wellLogged name p -> wellLogged name q.
Proof.
  destruct 1; intros (Hn & Hl).
  - destruct (next_inv p) as (_ & _ & (Gn & es & Gl & Gs) & _).
    split; [congruence|]. rewrite Gl. apply Forall_app.
    split; [rewrite <- Hn; exact Gs|exact Hl].
  - split; [exact Hn|]. cbn. constructor; [|exact Hl].
    rewrite <- Hn. apply shaped_wanted.
  - split; [exact Hn|]. cbn. constructor; [|exact Hl].
    rewrite <- Hn. apply shaped_unexpected.
Qed.

Lemma walks_wellLogged (name : string) (p q : parser) :
  walks p q -> wellLogged name p -> wellLogged name q.
Proof. induction 1; eauto using wstep_wellLogged. Qed.

Lemma wstep_readOut (p q : parser) : wstep p q -> readOut q.
Proof.
  destruct 1; [|intros X; discriminate X|intros X; discriminate X].
  intros He Ht. destruct (next_inv p) as (_ & _ & _ & H4).
  apply H4; [left; assumption| |exact Ht].
  destruct (next_lexed p) as (_ & _ & _ & [[Hl _]|(e & es & _ & E & _)]);
    [exact Hl|congruence].
Qed.

Lemma walks_readOut (p q : parser) : walks p q -> readOut p -> readOut q.
Proof.
  induction 1 as [|p q r Hs Hw IH]; [auto|]. intros _.
  apply IH. eapply wstep_readOut. exact Hs.
Qed.

(** X2: when the pass returns the [nil] error, it has read the whole input:
    the reader of the final state has no byte left, and the token is
    [EOF]. *)
Theorem accepted_input_is_read_whole (r name : string) :
  parse r name = Some None ->
  exists p, run_parse r name = Some p
            /\ rd_buf (p_r p) = [] /\ p_tok p = EOF.
Proof.
  unfold parse. intros H.
  destruct (parse_total r name) as (p & Hp & Ht & _).
  rewrite Hp in H. cbn in H. injection H as He.
  exists p. split; [exact Hp|]. split; [|exact Ht].
  apply run_parse_reachable in Hp.
  apply (walks_readOut _ _ Hp); [|exact He|exact Ht].
  intros _ X. discriminate X.
Qed.

(** The input [echo foo;]. *)
Lemma accepted_input_is_read_whole_witness :
  exists p, run_parse "echo foo;" "f" = Some p
            /\ rd_buf (p_r p) = [] /\ p_tok p = EOF.
Proof. apply (accepted_input_is_read_whole "echo foo;" "f"). reflexivity. Defined.

Lemma parse_shaped (r name : string) (e : error) :
  parse r name = Some (Some e) -> shaped name e.
Proof.
  unfold parse. intros H.
  destruct (parse_total r name) as (p & Hp & _ & Hc & _).
  rewrite Hp in H. cbn in H. injection H as He.
  apply run_parse_reachable in Hp.
  assert (Hw : wellLogged name p).
  { apply (walks_wellLogged name _ _ Hp). split; [reflexivity|constructor]. }
  destruct Hw as (_ & Hw). unfold consistent in Hc. rewrite He in Hc.
  destruct (p_log p) as [|e' es]; [discriminate Hc|].
  cbn in Hc. injection Hc as <-. inversion Hw; assumption.
Qed.

(** * The text of an error *)

Lemma Sprintf_cons (c : ascii) (rest : string) (v : list string) :
  c <> "%"%char -> Sprintf (String c rest) v = String c (Sprintf rest v).
Proof.
  intros H.
  destruct c as [[|] [|] [|] [|] [|] [|] [|] [|]]; try reflexivity.
  exfalso. apply H. reflexivity.
Qed.

(** A start of the format that holds no percent sign is copied. *)
Lemma Sprintf_plain (s format : string) (v : list string) :
  noPercent s = true ->
  Sprintf (s ++ format) v = (s ++ Sprintf format v)%string.
Proof.
  unfold noPercent. induction s as [|c s IH]; intros H; [reflexivity|].
  cbn [list_ascii_of_string forallb] in H. apply andb_prop in H.
  destruct H as [Hc Hs]. apply negb_true_iff, Ascii.eqb_neq in Hc.
  cbn [append]. rewrite Sprintf_cons by exact Hc. rewrite IH by exact Hs.
  reflexivity.
Qed.

Lemma noPercent_app (s t : string) :
  noPercent (s ++ t) = noPercent s && noPercent t.
Proof.
  unfold noPercent. induction s as [|c s IH]; [reflexivity|].
  cbn [append list_ascii_of_string forallb]. rewrite IH.
  apply andb_assoc.
Qed.

Lemma noPercent_digits (d : Decimal.uint) :
  noPercent (NilEmpty.string_of_uint d) = true.
Proof. induction d; [reflexivity|exact IHd..]. Qed.

Lemma noPercent_uint (d : Decimal.uint) :
  noPercent (NilZero.string_of_uint d) = true.
Proof. destruct d; try reflexivity; apply noPercent_digits. Qed.

Lemma noPercent_itoa (z : Z) : noPercent (itoa z) = true.
Proof.
  unfold itoa. destruct (Z.to_int z) as [d|d]; cbn [NilZero.string_of_int].
  - apply noPercent_uint.
  - change (noPercent (String "-" (NilZero.string_of_uint d)))
      with (noPercent (NilZero.string_of_uint d)).
    apply noPercent_uint.
Qed.

Lemma noPercent_position (name : string) (line col : Z) :
  noPercent name = true -> noPercent (positionAt name line col) = true.
Proof.
  intros H. unfold positionAt. rewrite !noPercent_app, H, !noPercent_itoa.
  reflexivity.
Qed.

Lemma append_nil_r (s : string) : (s ++ "")%string = s.
Proof. induction s as [|c s IH]; [reflexivity|]. cbn. rewrite IH. reflexivity. Qed.

Lemma append_assoc (s t u : string) :
  ((s ++ t) ++ u)%string = (s ++ t ++ u)%string.
Proof. induction s as [|c s IH]; [reflexivity|]. cbn. rewrite IH. reflexivity. Qed.

(** * The walker and the grammar *)

Lemma lexes_inv_cons (p : parser) (t : Z) (ts : list Z) :
  lexes p (t :: ts) -> p_tok p = t /\ t <> EOF /\ lexes (next p) ts.
Proof. intros H; inversion H; subst; auto. Qed.

Lemma lexes_inv_nil (p : parser) :
  lexes p [] -> p_tok p = EOF /\ p_err p = None.
Proof. intros H; inversion H; subst; auto. Qed.

Lemma lexes_not_hd (p : parser) (r : list Z) (t : Z) :
  lexes p r -> t <> EOF -> hd_error r <> Some t -> p_tok p <> t.
Proof.
  intros H Ht Hh. inversion H; subst; [congruence|].
  cbn in Hh. congruence.
Qed.

Lemma wordTok_cases (t : Z) : wordTok t = true -> t = IDENT \/ t = STRING.
Proof.
  unfold wordTok. intros H. apply orb_prop in H.
  destruct H as [H|H]; apply Z.eqb_eq in H; auto.
Qed.

Lemma stringLoop_S (c : parser -> option parser) (fuel : nat) (p : parser) :
  stringLoop c (S fuel) p
  = if p_tok p =? EOF then Some p
    else
      let '(b, p) := got IDENT p in
      if b then stringLoop c fuel p else
      let '(b, p) := got STRING p in
      if b then stringLoop c fuel p else
      let '(b, p) := got (code "&") p in
      if b then andThen c p else
      let '(b, p) := got (code "|") p in
      if b then pipeThen c p else
      let '(b, p) := got (code ">") p in
      if b then stringLoop c fuel (value (redirected p)) else
      let '(b, p) := got (code "<") p in
      if b then stringLoop c fuel (value p) else
      let '(b, p) := got (code ";") p in
      if b then Some p else
      let '(b, p) := got (code newline) p in
      if b then Some p else
      stringLoop c fuel (errUnexpected p).
Proof. reflexivity. Qed.

Lemma braceBody_S (c : parser -> option parser) (fuel : nat) (p : parser) :
  braceBody c (S fuel) p
  = if negb (p_tok p =? EOF) && negb (p_tok p =? code "}") then
      let '(b, p) := got (code newline) p in
      if b then braceBody c fuel p
      else match c p with
           | None => None
           | Some p => braceBody c fuel p
           end
    else Some p.
Proof. reflexivity. Qed.

(** The [switch] of a loop, for a state whose token is known. *)
Ltac eval_got Ht :=
  rewrite ?Ht;
  repeat (rewrite got_neq by (rewrite Ht; discriminate); cbv iota beta);
  try (rewrite (got_eq _ _ Ht); cbv iota beta).

Ltac loop_step Ht :=
  rewrite Ht; match goal with
              | |- context [?t =? EOF] => change (t =? EOF) with false
              end; cbv iota;
  repeat (rewrite got_neq by (rewrite Ht; discriminate); cbv iota beta);
  rewrite (got_eq _ _ Ht); cbv iota beta; reflexivity.

Ltac loop_at id Ht :=
  destruct id; cbn [wordLoop];
  [rewrite identLoop_S|rewrite stringLoop_S]; loop_step Ht.

Lemma wordLoop_eof (id : bool) (c : parser -> option parser) (f : nat)
    (p : parser) :
  p_tok p = EOF -> wordLoop id c (S f) p = Some p.
Proof.
  intros Ht. destruct id; cbn [wordLoop identLoop stringLoop];
    rewrite Ht; reflexivity.
Qed.

Lemma wordLoop_word (id : bool) (c : parser -> option parser) (f : nat)
    (p : parser) :
  wordTok (p_tok p) = true ->
  wordLoop id c (S f) p = wordLoop id c f (next p).
Proof.
  intros H. apply wordTok_cases in H. destruct H as [Ht|Ht]; loop_at id Ht.
Qed.

Lemma identLoop_assign (c : parser -> option parser) (f : nat) (p : parser) :
  p_tok p = code "=" ->
  identLoop c (S f) p = identLoop c f (assigned (next p)).
Proof. intros Ht. rewrite identLoop_S. loop_step Ht. Qed.

Lemma wordLoop_out (id : bool) (c : parser -> option parser) (f : nat)
    (p : parser) :
  p_tok p = code ">" ->
  wordLoop id c (S f) p = wordLoop id c f (value (redirected (next p))).
Proof. intros Ht. loop_at id Ht. Qed.

Lemma wordLoop_in (id : bool) (c : parser -> option parser) (f : nat)
    (p : parser) :
  p_tok p = code "<" ->
  wordLoop id c (S f) p = wordLoop id c f (value (next p)).
Proof. intros Ht. loop_at id Ht. Qed.

Lemma wordLoop_semi (id : bool) (c : parser -> option parser) (f : nat)
    (p : parser) :
  p_tok p = code ";" -> wordLoop id c (S f) p = Some (next p).
Proof. intros Ht. loop_at id Ht. Qed.

Lemma wordLoop_newline (id : bool) (c : parser -> option parser) (f : nat)
    (p : parser) :
  p_tok p = code newline -> wordLoop id c (S f) p = Some (next p).
Proof. intros Ht. loop_at id Ht. Qed.

Lemma wordLoop_amp (id : bool) (c : parser -> option parser) (f : nat)
    (p : parser) :
  p_tok p = code "&" -> wordLoop id c (S f) p = andThen c (next p).
Proof. intros Ht. loop_at id Ht. Qed.

Lemma wordLoop_bar (id : bool) (c : parser -> option parser) (f : nat)
    (p : parser) :
  p_tok p = code "|" -> wordLoop id c (S f) p = pipeThen c (next p).
Proof. intros Ht. loop_at id Ht. Qed.

Lemma identLoop_func (c : parser -> option parser) (f : nat) (p : parser) :
  p_tok p = code "(" ->
  identLoop c (S f) p
  = funcBody c f (want (code "{") (want (code ")") (next p))).
Proof. intros Ht. rewrite identLoop_S. loop_step Ht. Qed.

Lemma want_eq (t : Z) (p : parser) : p_tok p = t -> want t p = next p.
Proof. intros H. unfold want. rewrite H, Z.eqb_refl. reflexivity. Qed.

Lemma value_word (p : parser) :
  wordTok (p_tok p) = true -> value p = next p.
Proof.
  intros H. apply wordTok_cases in H. unfold value.
  destruct H as [Ht|Ht]; eval_got Ht; reflexivity.
Qed.

Lemma redirected_out (p : parser) :
  p_tok p = code ">" -> redirected p = next p.
Proof. intros Ht. unfold redirected. eval_got Ht. reflexivity. Qed.

Lemma redirected_dup (p : parser) :
  p_tok p = code "&" -> redirected p = next p.
Proof. intros Ht. unfold redirected. eval_got Ht. reflexivity. Qed.

Lemma redirected_word (p : parser) :
  wordTok (p_tok p) = true -> redirected p = p.
Proof.
  intros H. apply wordTok_cases in H. unfold redirected.
  destruct H as [Ht|Ht]; eval_got Ht; reflexivity.
Qed.

Lemma assigned_word (p : parser) :
  wordTok (p_tok p) = true -> assigned p = next p.
Proof.
  intros H. apply wordTok_cases in H. unfold assigned.
  destruct H as [Ht|Ht]; eval_got Ht; reflexivity.
Qed.

Lemma assigned_other (p : parser) :
  wordTok (p_tok p) = false -> assigned p = p.
Proof.
  unfold wordTok. intros H. apply orb_false_elim in H. destruct H as [H1 H2].
  apply Z.eqb_neq in H1, H2. unfold assigned.
  rewrite !got_neq by assumption. reflexivity.
Qed.

Lemma andThen_and (c : parser -> option parser) (p : parser) :
  p_tok p = code "&" -> andThen c p = c (next p).
Proof. intros Ht. unfold andThen. rewrite (got_eq _ _ Ht). reflexivity. Qed.

Lemma andThen_bg (c : parser -> option parser) (p : parser) :
  p_tok p <> code "&" -> andThen c p = Some p.
Proof. intros Ht. unfold andThen. rewrite got_neq by exact Ht. reflexivity. Qed.

Lemma pipeThen_or (c : parser -> option parser) (p : parser) :
  p_tok p = code "|" -> pipeThen c p = c (next p).
Proof. intros Ht. unfold pipeThen. rewrite (got_eq _ _ Ht). reflexivity. Qed.

Lemma pipeThen_pipe (c : parser -> option parser) (p : parser) :
  p_tok p <> code "|" -> pipeThen c p = c p.
Proof. intros Ht. unfold pipeThen. rewrite got_neq by exact Ht. reflexivity. Qed.

(** A command starts with a word or an opening brace. *)
Lemma Cmd_first (ts r : list Z) :
  Cmd ts r ->
  exists t ts', ts = t :: ts'
                /\ (t = IDENT \/ t = STRING \/ t = code "{").
Proof. destruct 1; eauto 6. Qed.

Lemma lexes_Cmd_tok (p : parser) (ts r : list Z) :
  lexes p ts -> Cmd ts r ->
  p_tok p = IDENT \/ p_tok p = STRING \/ p_tok p = code "{".
Proof.
  intros Hl Hc. destruct (Cmd_first _ _ Hc) as (t & ts' & -> & Ht).
  apply lexes_inv_cons in Hl. destruct Hl as (-> & _). exact Ht.
Qed.

(** ** How runs of the loops compose *)

Lemma loops_return f (p p' : parser) :
  (forall c k, f c (S k) p = Some p') -> loops f p p'.
Proof.
  intros H. exists 1%nat. intros m [|k] _ Hk; [lia|]. apply H.
Qed.

Lemma loops_step f (p q p' : parser) :
  (forall c k, f c (S k) p = f c k q) -> loops f q p' -> loops f p p'.
Proof.
  intros H (n & Hn). exists (S n). intros m [|k] Hm Hk; [lia|].
  rewrite H. apply Hn; lia.
Qed.

Lemma loops_call f (p q p' : parser) :
  (forall c k, f c (S k) p = c q) -> runs q p' -> loops f p p'.
Proof.
  intros H (n & Hn). exists (S n). intros m [|k] Hm Hk; [lia|].
  rewrite H. apply Hn; lia.
Qed.

Lemma loops_call_then f (p q p' : parser) :
  (forall c k, f c (S k) p
               = match c p with None => None | Some q => f c k q end) ->
  runs p q -> loops f q p' -> loops f p p'.
Proof.
  intros H (n & Hn) (n' & Hn'). exists (S (Nat.max n n')).
  intros m [|k] Hm Hk; [lia|].
  rewrite H, Hn by lia. apply Hn'; lia.
Qed.

(** The first token that [H : lexes p (t :: ts)] delivers. *)
Ltac lex H Ht :=
  apply lexes_inv_cons in H; destruct H as (Ht & _ & H).

(** Every sequence of the grammar is taken by the code, which records no
    error and is left with what the grammar leaves. *)
Lemma grammar_sound :
  (forall id ts r, Tail id ts r ->
     forall p, lexes p ts ->
       exists p', loops (wordLoop id) p p' /\ lexes p' r)
  /\ (forall ts r, Cmd ts r ->
        forall p, lexes p ts -> exists p', runs p p' /\ lexes p' r)
  /\ (forall ts r, Block ts r ->
        forall p, lexes p ts ->
          (exists p', loops funcBody p p' /\ lexes p' r)
          /\ (exists p', loops braceBody p p' /\ lexes p' (code "}" :: r)))
  /\ (forall m r, After m r ->
        forall p, lexes p (code "}" :: m) ->
          exists p', loops (fun c _ => braceTail c) p p' /\ lexes p' r).
Proof.
  apply grammar_mut.
  - (* the end of the input *)
    intros id p H. apply lexes_inv_nil in H. destruct H as [Ht He].
    exists p. split; [|constructor; assumption].
    apply loops_return. intros c k. apply wordLoop_eof. exact Ht.
  - (* a word *)
    intros id t ts r Hw _ IH p H. lex H Ht.
    destruct (IH _ H) as (p' & Hr & Hl). exists p'. split; [|exact Hl].
    eapply loops_step; [|exact Hr]. intros c k. apply wordLoop_word.
    rewrite Ht. exact Hw.
  - (* [=] *)
    intros ts r _ IH p H. lex H Ht.
    destruct (IH _ H) as (p' & Hr & Hl). exists p'. split; [|exact Hl].
    apply (loops_step (wordLoop true) p (assigned (next p)));
      [intros c k; exact (identLoop_assign c k p Ht)|].
    destruct (wordTok (p_tok (next p))) eqn:E.
    + rewrite assigned_word by exact E. destruct Hr as (n & Hn).
      exists n. intros m k Hm Hk.
      rewrite <- (wordLoop_word true (command m) k (next p) E).
      apply Hn; lia.
    + rewrite assigned_other by exact E. exact Hr.
  - (* [> word] *)
    intros id w ts r Hw _ IH p H. lex H Ht. lex H Ht1.
    destruct (IH _ H) as (p' & Hr & Hl). exists p'. split; [|exact Hl].
    eapply loops_step; [|exact Hr]. intros c k.
    rewrite (wordLoop_out id c k p Ht).
    rewrite redirected_word, value_word by (rewrite Ht1; exact Hw).
    reflexivity.
  - (* [>> word] *)
    intros id w ts r Hw _ IH p H. lex H Ht. lex H Ht1. lex H Ht2.
    destruct (IH _ H) as (p' & Hr & Hl). exists p'. split; [|exact Hl].
    eapply loops_step; [|exact Hr]. intros c k.
    rewrite (wordLoop_out id c k p Ht).
    rewrite (redirected_out _ Ht1), value_word by (rewrite Ht2; exact Hw).
    reflexivity.
  - (* [>& word] *)
    intros id w ts r Hw _ IH p H. lex H Ht. lex H Ht1. lex H Ht2.
    destruct (IH _ H) as (p' & Hr & Hl). exists p'. split; [|exact Hl].
    eapply loops_step; [|exact Hr]. intros c k.
    rewrite (wordLoop_out id c k p Ht).
    rewrite (redirected_dup _ Ht1), value_word by (rewrite Ht2; exact Hw).
    reflexivity.
  - (* [< word] *)
    intros id w ts r Hw _ IH p H. lex H Ht. lex H Ht1.
    destruct (IH _ H) as (p' & Hr & Hl). exists p'. split; [|exact Hl].
    eapply loops_step; [|exact Hr]. intros c k.
    rewrite (wordLoop_in id c k p Ht).
    rewrite value_word by (rewrite Ht1; exact Hw). reflexivity.
  - (* [;] *)
    intros id r p H. lex H Ht. exists (next p). split; [|exact H].
    apply loops_return. intros c k. apply wordLoop_semi. exact Ht.
  - (* newline *)
    intros id r p H. lex H Ht. exists (next p). split; [|exact H].
    apply loops_return. intros c k. apply wordLoop_newline. exact Ht.
  - (* [&] *)
    intros id r Hr p H. lex H Ht. exists (next p). split; [|exact H].
    apply loops_return. intros c k. rewrite (wordLoop_amp id c k p Ht).
    apply andThen_bg. eapply lexes_not_hd; [exact H|discriminate|exact Hr].
  - (* [&&] and a command *)
    intros id ts r _ IH p H. lex H Ht. lex H Ht1.
    destruct (IH _ H) as (p' & Hr & Hl). exists p'. split; [|exact Hl].
    eapply loops_call; [|exact Hr]. intros c k.
    rewrite (wordLoop_amp id c k p Ht). apply andThen_and. exact Ht1.
  - (* [|] and a command *)
    intros id ts r Hc IH p H. lex H Ht.
    destruct (IH _ H) as (p' & Hr & Hl). exists p'. split; [|exact Hl].
    eapply loops_call; [|exact Hr]. intros c k.
    rewrite (wordLoop_bar id c k p Ht). apply pipeThen_pipe.
    destruct (lexes_Cmd_tok _ _ _ H Hc) as [E|[E|E]]; rewrite E;
      discriminate.
  - (* [||] and a command *)
    intros id ts r _ IH p H. lex H Ht. lex H Ht1.
    destruct (IH _ H) as (p' & Hr & Hl). exists p'. split; [|exact Hl].
    eapply loops_call; [|exact Hr]. intros c k.
    rewrite (wordLoop_bar id c k p Ht). apply pipeThen_or. exact Ht1.
  - (* the body of a function *)
    intros ts r _ IH p H. lex H Ht. lex H Ht1. lex H Ht2.
    destruct (IH _ H) as ((p' & Hr & Hl) & _). exists p'. split; [|exact Hl].
    destruct Hr as (n & Hn). exists (S n). intros m [|k] Hm Hk; [lia|].
    cbn [wordLoop]. rewrite (identLoop_func _ _ _ Ht).
    rewrite (want_eq _ _ Ht1), (want_eq _ _ Ht2). apply Hn; lia.
  - (* a command led by an identifier *)
    intros ts r _ IH p H. lex H Ht.
    destruct (IH _ H) as (p' & (n & Hn) & Hl). exists p'. split; [|exact Hl].
    exists (S n). intros [|m] Hm; [lia|].
    rewrite command_S. unfold commandBody. rewrite (got_eq _ _ Ht).
    cbv iota beta. apply Hn; lia.
  - (* a command led by a string *)
    intros ts r _ IH p H. lex H Ht.
    destruct (IH _ H) as (p' & (n & Hn) & Hl). exists p'. split; [|exact Hl].
    exists (S n). intros [|m] Hm; [lia|].
    rewrite command_S. unfold commandBody.
    rewrite got_neq by (rewrite Ht; discriminate). cbv iota beta.
    rewrite (got_eq _ _ Ht). cbv iota beta. apply Hn; lia.
  - (* a block and what follows it *)
    intros ts m r _ IHb _ IHa p H. lex H Ht.
    destruct (IHb _ H) as (_ & q & (n & Hn) & Hq).
    destruct (IHa _ Hq) as (p' & (n' & Hn') & Hl).
    exists p'. split; [|exact Hl].
    exists (S (Nat.max n n')). intros [|k] Hk; [lia|].
    rewrite command_S. unfold commandBody.
    repeat (rewrite got_neq by (rewrite Ht; discriminate); cbv iota beta).
    rewrite (got_eq _ _ Ht). cbv iota beta.
    rewrite Hn by lia. apply (Hn' k k); lia.
  - (* the closing brace *)
    intros r p H. split.
    + lex H Ht. exists (next p). split; [|exact H].
      apply loops_return. intros c k. rewrite funcBody_S.
      rewrite (got_eq _ _ Ht). reflexivity.
    + exists p. split; [|exact H]. lex H Ht.
      apply loops_return. intros c k. rewrite braceBody_S, Ht.
      reflexivity.
  - (* a newline in a block *)
    intros ts r _ IH p H. lex H Ht.
    destruct (IH _ H) as ((p1 & Hr1 & Hl1) & (p2 & Hr2 & Hl2)). split.
    + exists p1. split; [|exact Hl1]. eapply loops_step; [|exact Hr1].
      intros c k. rewrite funcBody_S.
      rewrite got_neq by (rewrite Ht; discriminate). cbv iota beta.
      rewrite Ht. change (code newline =? EOF) with false. cbv iota.
      rewrite (got_eq _ _ Ht). reflexivity.
    + exists p2. split; [|exact Hl2]. eapply loops_step; [|exact Hr2].
      intros c k. rewrite braceBody_S, Ht.
      change (negb (code newline =? EOF) && negb (code newline =? code "}"))
        with true. cbv iota.
      rewrite (got_eq _ _ Ht). reflexivity.
  - (* a command in a block *)
    intros ts m r Hc IHc _ IHb p H.
    destruct (IHc _ H) as (q & Hq & Hlq).
    destruct (IHb _ Hlq) as ((p1 & Hr1 & Hl1) & (p2 & Hr2 & Hl2)).
    assert (Ht : p_tok p <> EOF /\ p_tok p <> code "}"
                 /\ p_tok p <> code newline).
    { destruct (lexes_Cmd_tok _ _ _ H Hc) as [E|[E|E]]; rewrite E;
        repeat split; discriminate. }
    destruct Ht as (T1 & T2 & T3). split.
    + exists p1. split; [|exact Hl1].
      eapply loops_call_then; [|exact Hq|exact Hr1].
      intros c k. rewrite funcBody_S. rewrite got_neq by exact T2.
      cbv iota beta. apply Z.eqb_neq in T1. rewrite T1.
      rewrite got_neq by exact T3. reflexivity.
    + exists p2. split; [|exact Hl2].
      eapply loops_call_then; [|exact Hq|exact Hr2].
      intros c k. rewrite braceBody_S. apply Z.eqb_neq in T1, T2.
      rewrite T1, T2. cbn [negb andb].
      rewrite got_neq by exact T3. reflexivity.
  - (* after a block: [;] *)
    intros r p H. lex H Ht. lex H Ht1. exists (next (next p)).
    split; [|exact H]. apply loops_return. intros c k. unfold braceTail.
    rewrite (want_eq _ _ Ht). eval_got Ht1. reflexivity.
  - (* newline *)
    intros r p H. lex H Ht. lex H Ht1. exists (next (next p)).
    split; [|exact H]. apply loops_return. intros c k. unfold braceTail.
    rewrite (want_eq _ _ Ht). eval_got Ht1. reflexivity.
  - (* [&] *)
    intros r Hr p H. lex H Ht. lex H Ht1. exists (next (next p)).
    split; [|exact H]. apply loops_return. intros c k. unfold braceTail.
    rewrite (want_eq _ _ Ht). eval_got Ht1.
    apply andThen_bg. eapply lexes_not_hd; [exact H|discriminate|exact Hr].
  - (* [&&] and a command *)
    intros ts r _ IH p H. lex H Ht. lex H Ht1. lex H Ht2.
    destruct (IH _ H) as (p' & Hr & Hl). exists p'. split; [|exact Hl].
    eapply (loops_call _ _ (next (next (next p)))); [|exact Hr].
    intros c k. unfold braceTail.
    rewrite (want_eq _ _ Ht). eval_got Ht1. apply andThen_and. exact Ht2.
  - (* [|] and a command *)
    intros ts r Hc IH p H. lex H Ht. lex H Ht1.
    destruct (IH _ H) as (p' & Hr & Hl). exists p'. split; [|exact Hl].
    eapply (loops_call _ _ (next (next p))); [|exact Hr].
    intros c k. unfold braceTail.
    rewrite (want_eq _ _ Ht). eval_got Ht1. apply pipeThen_pipe.
    destruct (lexes_Cmd_tok _ _ _ H Hc) as [E|[E|E]]; rewrite E;
      discriminate.
  - (* [||] and a command *)
    intros ts r _ IH p H. lex H Ht. lex H Ht1. lex H Ht2.
    destruct (IH _ H) as (p' & Hr & Hl). exists p'. split; [|exact Hl].
    eapply (loops_call _ _ (next (next (next p)))); [|exact Hr].
    intros c k. unfold braceTail.
    rewrite (want_eq _ _ Ht). eval_got Ht1. apply pipeThen_or. exact Ht2.
  - (* [> word] *)
    intros w r Hw p H. lex H Ht. lex H Ht1. lex H Ht2.
    exists (next (next (next p))). split; [|exact H].
    apply loops_return. intros c k. unfold braceTail.
    rewrite (want_eq _ _ Ht). eval_got Ht1.
    rewrite redirected_word, value_word by (rewrite Ht2; exact Hw).
    reflexivity.
  - (* [>> word] *)
    intros w r Hw p H. lex H Ht. lex H Ht1. lex H Ht2. lex H Ht3.
    exists (next (next (next (next p)))). split; [|exact H].
    apply loops_return. intros c k. unfold braceTail.
    rewrite (want_eq _ _ Ht). eval_got Ht1.
    rewrite (redirected_out _ Ht2), value_word by (rewrite Ht3; exact Hw).
    reflexivity.
  - (* [>& word] *)
    intros w r Hw p H. lex H Ht. lex H Ht1. lex H Ht2. lex H Ht3.
    exists (next (next (next (next p)))). split; [|exact H].
    apply loops_return. intros c k. unfold braceTail.
    rewrite (want_eq _ _ Ht). eval_got Ht1.
    rewrite (redirected_dup _ Ht2), value_word by (rewrite Ht3; exact Hw).
    reflexivity.
  - (* [< word] *)
    intros w r Hw p H. lex H Ht. lex H Ht1. lex H Ht2.
    exists (next (next (next p))). split; [|exact H].
    apply loops_return. intros c k. unfold braceTail.
    rewrite (want_eq _ _ Ht). eval_got Ht1.
    rewrite value_word by (rewrite Ht2; exact Hw). reflexivity.
Qed.

(** ** From the code back to the grammar *)

(** A state with the token [EOF] and an error on record delivers no
    tokens. *)
Lemma lexes_dead (p : parser) (ts : list Z) :
  p_tok p = EOF -> p_err p <> None -> ~ lexes p ts.
Proof. intros Ht He H. inversion H; subst; contradiction. Qed.

Lemma lexes_got (t : Z) (p : parser) (ts : list Z) :
  (p_tok p =? t) = true -> t <> EOF -> lexes (next p) ts ->
  lexes p (t :: ts).
Proof.
  intros E Ht H. apply Z.eqb_eq in E. subst t. apply lexes_cons; assumption.
Qed.

Lemma lexes_other (t : Z) (p : parser) (r : list Z) :
  (p_tok p =? t) = false -> lexes p r -> hd_error r <> Some t.
Proof.
  intros E H. apply Z.eqb_neq in E. inversion H; subst; cbn; congruence.
Qed.

Lemma want_back (t : Z) (p : parser) (ts : list Z) :
  t <> EOF -> lexes (want t p) ts -> lexes p (t :: ts).
Proof.
  intros Ht. unfold want. destruct (p_tok p =? t) eqn:E; cbn [negb].
  - apply lexes_got; assumption.
  - intros H. exfalso. revert H. apply lexes_dead; [reflexivity|discriminate].
Qed.

Lemma value_back (p : parser) (ts : list Z) :
  lexes (value p) ts -> exists w, wordTok w = true /\ lexes p (w :: ts).
Proof.
  unfold value. case_got.
  { intros H. exists IDENT. split; [reflexivity|].
    apply lexes_got; [assumption|discriminate|exact H]. }
  case_got.
  { intros H. exists STRING. split; [reflexivity|].
    apply lexes_got; [assumption|discriminate|exact H]. }
  intros H. exfalso. revert H. apply lexes_dead; [reflexivity|discriminate].
Qed.

Lemma redirect_back (p : parser) (ts : list Z) :
  lexes (value (redirected p)) ts ->
  exists w, wordTok w = true
            /\ (lexes p (w :: ts) \/ lexes p (code ">" :: w :: ts)
                \/ lexes p (code "&" :: w :: ts)).
Proof.
  intros H. apply value_back in H. destruct H as (w & Hw & H).
  exists w. split; [exact Hw|]. revert H. unfold redirected. case_got.
  { intros H. right; left. apply lexes_got; [assumption|discriminate|exact H]. }
  case_got; cbn [snd].
  { intros H. right; right.
    apply lexes_got; [assumption|discriminate|exact H]. }
  auto.
Qed.

Lemma assigned_back (p : parser) (ts : list Z) :
  lexes (assigned p) ts ->
  lexes p ts \/ exists w, wordTok w = true /\ lexes p (w :: ts).
Proof.
  unfold assigned. case_got.
  { intros H. right. exists IDENT. split; [reflexivity|].
    apply lexes_got; [assumption|discriminate|exact H]. }
  case_got; cbn [snd]; [|auto].
  intros H. right. exists STRING. split; [reflexivity|].
  apply lexes_got; [assumption|discriminate|exact H].
Qed.

Section Complete.

Variable c : parser -> option parser.
Hypothesis Hc : forall q q' r,
  c q = Some q' -> lexes q' r -> exists ts, lexes q ts /\ Cmd ts r.

(** What the two connectors give back, for a loop or for the end of a
    block. *)
Lemma andThen_back (p p' : parser) (r : list Z) :
  andThen c p = Some p' -> lexes p' r ->
  (lexes p r /\ hd_error r <> Some (code "&"))
  \/ exists ts, lexes p (code "&" :: ts) /\ Cmd ts r.
Proof.
  unfold andThen. case_got.
  - intros E Hl. right. destruct (Hc _ _ _ E Hl) as (ts & Hts & HC).
    exists ts. split; [|exact HC].
    apply lexes_got; [assumption|discriminate|exact Hts].
  - intros [= <-] Hl. left. split; [exact Hl|].
    eapply lexes_other; eassumption.
Qed.

Lemma pipeThen_back (p p' : parser) (r : list Z) :
  pipeThen c p = Some p' -> lexes p' r ->
  (exists ts, lexes p ts /\ Cmd ts r)
  \/ exists ts, lexes p (code "|" :: ts) /\ Cmd ts r.
Proof.
  unfold pipeThen. case_got; cbn [snd].
  - intros E Hl. right. destruct (Hc _ _ _ E Hl) as (ts & Hts & HC).
    exists ts. split; [|exact HC].
    apply lexes_got; [assumption|discriminate|exact Hts].
  - intros E Hl. left. eapply Hc; eassumption.
Qed.

Lemma funcBody_complete (fuel : nat) (p p' : parser) (r : list Z) :
  funcBody c fuel p = Some p' -> lexes p' r ->
  exists ts, lexes p ts /\ Block ts r.
Proof.
  revert p. induction fuel as [|n IH]; intros p; [discriminate|].
  rewrite funcBody_S. case_got.
  { intros [= <-] Hl. exists (code "}" :: r). split; [|apply block_end].
    apply lexes_got; [assumption|discriminate|exact Hl]. }
  destruct (p_tok p =? EOF) eqn:He.
  { intros [= <-] Hl. exfalso. revert Hl.
    apply lexes_dead; [reflexivity|discriminate]. }
  case_got.
  { intros E Hl. destruct (IH _ E Hl) as (ts & Hts & HB).
    exists (code newline :: ts). split; [|apply block_newline; exact HB].
    apply lexes_got; [assumption|discriminate|exact Hts]. }
  destruct (c p) as [q|] eqn:Hq; [|discriminate].
  intros E Hl. destruct (IH _ E Hl) as (m & Hm & HB).
  destruct (Hc _ _ _ Hq Hm) as (ts & Hts & HC).
  exists ts. split; [exact Hts|]. eapply block_cmd; eassumption.
Qed.

Lemma braceBody_complete (fuel : nat) (p q : parser) (m : list Z) :
  braceBody c fuel p = Some q -> lexes q (code "}" :: m) ->
  exists ts, lexes p ts /\ Block ts m.
Proof.
  revert p. induction fuel as [|n IH]; intros p; [discriminate|].
  rewrite braceBody_S. destruct (_ && _).
  - case_got.
    + intros E Hl. destruct (IH _ E Hl) as (ts & Hts & HB).
      exists (code newline :: ts). split; [|apply block_newline; exact HB].
      apply lexes_got; [assumption|discriminate|exact Hts].
    + destruct (c p) as [q0|] eqn:Hq; [|discriminate].
      intros E Hl. destruct (IH _ E Hl) as (k & Hk & HB).
      destruct (Hc _ _ _ Hq Hk) as (ts & Hts & HC).
      exists ts. split; [exact Hts|]. eapply block_cmd; eassumption.
  - intros [= <-] Hl. exists (code "}" :: m). split; [exact Hl|].
    apply block_end.
Qed.

Lemma braceTail_complete (q p' : parser) (r : list Z) :
  braceTail c q = Some p' -> lexes p' r ->
  exists m, lexes q (code "}" :: m) /\ After m r.
Proof.
  unfold braceTail. set (q0 := want (code "}") q).
  assert (Hback : forall m, lexes q0 m -> lexes q (code "}" :: m)).
  { intros m. apply want_back. discriminate. }
  clearbody q0.
  case_got.
  { intros E Hl. destruct (andThen_back _ _ _ E Hl) as [(H & Hh)|(ts & H & HC)].
    - exists (code "&" :: r). split; [|apply after_bg; exact Hh].
      apply Hback, lexes_got; [assumption|discriminate|exact H].
    - exists (code "&" :: code "&" :: ts). split; [|apply after_and; exact HC].
      apply Hback, lexes_got; [assumption|discriminate|exact H]. }
  case_got.
  { intros E Hl.
    destruct (pipeThen_back _ _ _ E Hl) as [(ts & H & HC)|(ts & H & HC)].
    - exists (code "|" :: ts). split; [|apply after_pipe; exact HC].
      apply Hback, lexes_got; [assumption|discriminate|exact H].
    - exists (code "|" :: code "|" :: ts). split; [|apply after_or; exact HC].
      apply Hback, lexes_got; [assumption|discriminate|exact H]. }
  case_got.
  { intros [= <-] Hl. apply redirect_back in Hl.
    destruct Hl as (w & Hw & [H|[H|H]]).
    - exists (code ">" :: w :: r). split; [|apply after_out; exact Hw].
      apply Hback, lexes_got; [assumption|discriminate|exact H].
    - exists (code ">" :: code ">" :: w :: r).
      split; [|apply after_append; exact Hw].
      apply Hback, lexes_got; [assumption|discriminate|exact H].
    - exists (code ">" :: code "&" :: w :: r).
      split; [|apply after_dup; exact Hw].
      apply Hback, lexes_got; [assumption|discriminate|exact H]. }
  case_got.
  { intros [= <-] Hl. apply value_back in Hl. destruct Hl as (w & Hw & H).
    exists (code "<" :: w :: r). split; [|apply after_in; exact Hw].
    apply Hback, lexes_got; [assumption|discriminate|exact H]. }
  case_got.
  { intros [= <-] Hl. exists (code ";" :: r). split; [|apply after_semi].
    apply Hback, lexes_got; [assumption|discriminate|exact Hl]. }
  case_got.
  { intros [= <-] Hl. exists (code newline :: r).
    split; [|apply after_newline].
    apply Hback, lexes_got; [assumption|discriminate|exact Hl]. }
  intros [= <-] Hl. exfalso. revert Hl.
  apply lexes_dead; [reflexivity|discriminate].
Qed.

(** The loop after the first word: the cases that the two loops share
    are settled first, for either loop. *)
Lemma wordLoop_complete (id : bool) (fuel : nat) (p p' : parser)
    (r : list Z) :
  wordLoop id c fuel p = Some p' -> lexes p' r ->
  exists ts, lexes p ts /\ Tail id ts r.
Proof.
  revert p. induction fuel as [|n IH]; intros p;
    [destruct id; discriminate|].
  assert (Hword : forall t, (p_tok p =? t) = true -> wordTok t = true ->
            wordLoop id c n (next p) = Some p' -> lexes p' r ->
            exists ts, lexes p ts /\ Tail id ts r).
  { intros t Ht Hw E Hl. destruct (IH _ E Hl) as (ts & Hts & HT).
    exists (t :: ts). split; [|apply tail_word; assumption].
    apply lexes_got; [assumption| |exact Hts].
    apply wordTok_cases in Hw. destruct Hw as [-> | ->]; discriminate. }
  assert (Hamp : (p_tok p =? code "&") = true ->
            andThen c (next p) = Some p' -> lexes p' r ->
            exists ts, lexes p ts /\ Tail id ts r).
  { intros Ht E Hl.
    destruct (andThen_back _ _ _ E Hl) as [(H & Hh)|(ts & H & HC)].
    - exists (code "&" :: r). split; [|apply tail_bg; exact Hh].
      apply lexes_got; [assumption|discriminate|exact H].
    - exists (code "&" :: code "&" :: ts). split; [|apply tail_and; exact HC].
      apply lexes_got; [assumption|discriminate|exact H]. }
  assert (Hbar : (p_tok p =? code "|") = true ->
            pipeThen c (next p) = Some p' -> lexes p' r ->
            exists ts, lexes p ts /\ Tail id ts r).
  { intros Ht E Hl.
    destruct (pipeThen_back _ _ _ E Hl) as [(ts & H & HC)|(ts & H & HC)].
    - exists (code "|" :: ts). split; [|apply tail_pipe; exact HC].
      apply lexes_got; [assumption|discriminate|exact H].
    - exists (code "|" :: code "|" :: ts). split; [|apply tail_or; exact HC].
      apply lexes_got; [assumption|discriminate|exact H]. }
  assert (Hout : (p_tok p =? code ">") = true ->
            wordLoop id c n (value (redirected (next p))) = Some p' ->
            lexes p' r -> exists ts, lexes p ts /\ Tail id ts r).
  { intros Ht E Hl. destruct (IH _ E Hl) as (ts & Hts & HT).
    apply redirect_back in Hts. destruct Hts as (w & Hw & [H|[H|H]]).
    - exists (code ">" :: w :: ts). split; [|apply tail_out; assumption].
      apply lexes_got; [assumption|discriminate|exact H].
    - exists (code ">" :: code ">" :: w :: ts).
      split; [|apply tail_append; assumption].
      apply lexes_got; [assumption|discriminate|exact H].
    - exists (code ">" :: code "&" :: w :: ts).
      split; [|apply tail_dup; assumption].
      apply lexes_got; [assumption|discriminate|exact H]. }
  assert (Hin : (p_tok p =? code "<") = true ->
            wordLoop id c n (value (next p)) = Some p' ->
            lexes p' r -> exists ts, lexes p ts /\ Tail id ts r).
  { intros Ht E Hl. destruct (IH _ E Hl) as (ts & Hts & HT).
    apply value_back in Hts. destruct Hts as (w & Hw & H).
    exists (code "<" :: w :: ts). split; [|apply tail_in; assumption].
    apply lexes_got; [assumption|discriminate|exact H]. }
  assert (Hend : forall t, (p_tok p =? t) = true -> t <> EOF ->
            Tail id (t :: r) r -> Some (next p) = Some p' -> lexes p' r ->
            exists ts, lexes p ts /\ Tail id ts r).
  { intros t Ht Hne HT [= <-] Hl. exists (t :: r). split; [|exact HT].
    apply lexes_got; assumption. }
  assert (Herr : wordLoop id c n (errUnexpected p) = Some p' -> lexes p' r ->
            exists ts, lexes p ts /\ Tail id ts r).
  { intros E Hl. destruct (IH _ E Hl) as (ts & Hts & _). exfalso.
    revert Hts. apply lexes_dead; [reflexivity|discriminate]. }
  assert (Heof : (p_tok p =? EOF) = true -> Some p = Some p' -> lexes p' r ->
            exists ts, lexes p ts /\ Tail id ts r).
  { intros Ht [= <-] Hl. apply Z.eqb_eq in Ht.
    inversion Hl; subst; [|contradiction].
    exists []. split; [exact Hl|apply tail_eof]. }
  destruct id; cbn [wordLoop] in *.
  - rewrite identLoop_S. destruct (p_tok p =? EOF) eqn:He; [auto|].
    case_got; [apply (Hword IDENT); auto|].
    case_got; [apply (Hword STRING); auto|].
    case_got.
    { intros E Hl. destruct (IH _ E Hl) as (ts & Hts & HT).
      apply assigned_back in Hts. destruct Hts as [H|(w & Hw & H)].
      - exists (code "=" :: ts). split; [|apply tail_assign; exact HT].
        apply lexes_got; [assumption|discriminate|exact H].
      - exists (code "=" :: w :: ts).
        split; [|apply tail_assign, tail_word; assumption].
        apply lexes_got; [assumption|discriminate|exact H]. }
    case_got; [auto|]. case_got; [auto|].
    case_got.
    { intros E Hl. destruct (funcBody_complete _ _ _ _ E Hl) as (ts & Hts & HB).
      apply want_back in Hts; [|discriminate].
      apply want_back in Hts; [|discriminate].
      exists (code "(" :: code ")" :: code "{" :: ts).
      split; [|apply tail_func; exact HB].
      apply lexes_got; [assumption|discriminate|exact Hts]. }
    case_got; [auto|]. case_got; [auto|].
    case_got; [apply (Hend (code ";")); auto; [discriminate|apply tail_semi]|].
    case_got;
      [apply (Hend (code newline)); auto; [discriminate|apply tail_newline]|].
    auto.
  - rewrite stringLoop_S. destruct (p_tok p =? EOF) eqn:He; [auto|].
    case_got; [apply (Hword IDENT); auto|].
    case_got; [apply (Hword STRING); auto|].
    case_got; [auto|]. case_got; [auto|].
    case_got; [auto|]. case_got; [auto|].
    case_got; [apply (Hend (code ";")); auto; [discriminate|apply tail_semi]|].
    case_got;
      [apply (Hend (code newline)); auto; [discriminate|apply tail_newline]|].
    auto.
Qed.

Lemma commandBody_complete (fuel : nat) (p p' : parser) (r : list Z) :
  commandBody c fuel p = Some p' -> lexes p' r ->
  exists ts, lexes p ts /\ Cmd ts r.
Proof.
  unfold commandBody. case_got.
  { intros E Hl.
    destruct (wordLoop_complete true _ _ _ _ E Hl) as (ts & Hts & HT).
    exists (IDENT :: ts). split; [|apply cmd_ident; exact HT].
    apply lexes_got; [assumption|discriminate|exact Hts]. }
  case_got.
  { intros E Hl.
    destruct (wordLoop_complete false _ _ _ _ E Hl) as (ts & Hts & HT).
    exists (STRING :: ts). split; [|apply cmd_string; exact HT].
    apply lexes_got; [assumption|discriminate|exact Hts]. }
  case_got.
  { destruct (braceBody c fuel (next p)) as [q|] eqn:Hq; [|discriminate].
    intros E Hl. destruct (braceTail_complete _ _ _ E Hl) as (m & Hm & HA).
    destruct (braceBody_complete _ _ _ _ Hq Hm) as (ts & Hts & HB).
    exists (code "{" :: ts). split; [|eapply cmd_brace; eassumption].
    apply lexes_got; [assumption|discriminate|exact Hts]. }
  intros [= <-] Hl. exfalso. revert Hl.
  apply lexes_dead; [reflexivity|discriminate].
Qed.

Lemma programLoop_complete (fuel : nat) (p p' : parser) (r : list Z) :
  programLoop c fuel p = Some p' -> lexes p' r ->
  exists ts, lexes p ts /\ Prog ts.
Proof.
  revert p. induction fuel as [|n IH]; intros p; [discriminate|].
  rewrite programLoop_S. destruct (p_tok p =? EOF) eqn:He; cbn [negb].
  - intros [= <-] Hl. apply Z.eqb_eq in He.
    inversion Hl; subst; [|contradiction].
    exists []. split; [exact Hl|apply prog_end].
  - case_got.
    + intros E Hl. destruct (IH _ E Hl) as (ts & Hts & HP).
      exists (code newline :: ts). split; [|apply prog_newline; exact HP].
      apply lexes_got; [assumption|discriminate|exact Hts].
    + destruct (c p) as [q|] eqn:Hq; [|discriminate].
      intros E Hl. destruct (IH _ E Hl) as (m & Hm & HP).
      destruct (Hc _ _ _ Hq Hm) as (ts & Hts & HC).
      exists ts. split; [exact Hts|]. eapply prog_cmd; eassumption.
Qed.

End Complete.

Lemma command_complete (fuel : nat) (q q' : parser) (r : list Z) :
  command fuel q = Some q' -> lexes q' r ->
  exists ts, lexes q ts /\ Cmd ts r.
Proof.
  revert q q' r. induction fuel as [|n IH]; intros q q' r; [discriminate|].
  rewrite command_S. apply commandBody_complete. exact IH.
Qed.

(** ** The pass and the grammar *)

Lemma scan_lexes (fuel : nat) (p : parser) (ts : list Z) :
  scan fuel p = Some ts -> lexes p ts.
Proof.
  revert p ts. induction fuel as [|n IH]; intros p ts; [discriminate|].
  cbn [scan]. destruct (p_tok p =? EOF) eqn:He.
  - apply Z.eqb_eq in He. destruct (p_err p) eqn:E; [discriminate|].
    intros [= <-]. apply lexes_nil; assumption.
  - apply Z.eqb_neq in He.
    destruct (scan n (next p)) as [ts'|] eqn:Hs; [|discriminate].
    intros [= <-]. apply lexes_cons; [exact He|]. apply IH. exact Hs.
Qed.

Lemma lexes_scan (p : parser) (ts : list Z) :
  lexes p ts -> forall fuel, (mu p < fuel)%nat -> scan fuel p = Some ts.
Proof.
  induction 1 as [p Ht He|p ts Ht _ IH]; intros [|n] Hf; try lia;
    cbn [scan].
  - rewrite Ht, He. reflexivity.
  - apply Z.eqb_neq in Ht. rewrite Ht. apply Z.eqb_neq in Ht.
    pose proof (next_mu p Ht). rewrite IH by lia. reflexivity.
Qed.

Lemma tokens_lexes (r name : string) (ts : list Z) :
  tokens r name = Some ts
  <-> lexes (next (newParser (list_ascii_of_string r) name)) ts.
Proof.
  unfold tokens. split; [apply scan_lexes|]. intros H.
  apply (lexes_scan _ _ H).
  assert (Hm : (mu (next (newParser (list_ascii_of_string r) name))
                 < mu (newParser (list_ascii_of_string r) name))%nat)
    by (apply next_mu; discriminate).
  assert (He : mu (newParser (list_ascii_of_string r) name)
               = S (length (list_ascii_of_string r))).
  { unfold mu, buflen. cbn. lia. }
  unfold passFuel. lia.
Qed.

Lemma Prog_sound (ts : list Z) :
  Prog ts ->
  forall p, lexes p ts -> exists p', loops programLoop p p' /\ lexes p' [].
Proof.
  induction 1 as [|ts _ IH|ts r HC _ IH]; intros p H.
  - exists p. split; [|exact H]. apply lexes_inv_nil in H.
    destruct H as [Ht _]. apply loops_return. intros c k.
    apply programLoop_eof. exact Ht.
  - lex H Ht. destruct (IH _ H) as (p' & Hr & Hl).
    exists p'. split; [|exact Hl]. eapply loops_step; [|exact Hr].
    intros c k. rewrite programLoop_S, Ht.
    change (negb (code newline =? EOF)) with true. cbv iota.
    rewrite (got_eq _ _ Ht). reflexivity.
  - destruct (proj1 (proj2 grammar_sound) _ _ HC _ H) as (q & Hq & Hlq).
    destruct (IH _ Hlq) as (p' & Hr & Hl).
    exists p'. split; [|exact Hl].
    eapply loops_call_then; [|exact Hq|exact Hr].
    intros c k. rewrite programLoop_S.
    destruct (lexes_Cmd_tok _ _ _ H HC) as [E|[E|E]]; rewrite E;
      cbn [negb]; rewrite got_neq by (rewrite E; discriminate);
      reflexivity.
Qed.

Lemma lexes_Prog_accepted (r name : string) (ts : list Z) :
  lexes (next (newParser (list_ascii_of_string r) name)) ts -> Prog ts ->
  parse r name = Some None.
Proof.
  intros Ht HP.
  destruct (Prog_sound _ HP _ Ht) as (p' & (n & Hn) & Hl).
  apply lexes_inv_nil in Hl. destruct Hl as [_ He].
  destruct (run_parse_total r name) as (q & Hq & _).
  unfold parse. rewrite Hq. cbn. f_equal. rewrite <- He. f_equal.
  unfold run_parse, program in Hq.
  set (F := passFuel (list_ascii_of_string r)) in *.
  assert (H1 : programLoop (command (Nat.max n F)) (Nat.max n F)
                 (next (newParser (list_ascii_of_string r) name)) = Some q).
  { eapply programLoop_mono; [|exact Hq|lia].
    intros a b Hab. eapply command_mono; [exact Hab|lia]. }
  rewrite Hn in H1 by lia. congruence.
Qed.

(** X5: an input whose tokens, as successive calls of [next] deliver them
    up to the end of the input with no error, form a program of the
    grammar is accepted: [parse] returns the [nil] error. *)
Theorem grammar_accepted (r name : string) (ts : list Z) :
  tokens r name = Some ts -> Prog ts -> parse r name = Some None.
Proof.
  intros Ht HP. apply tokens_lexes in Ht.
  eapply lexes_Prog_accepted; eassumption.
Qed.

(** The input [a | b > f;], whose tokens are [IDENT], the bar, [IDENT],
    [>], [IDENT] and [;]. *)
Lemma grammar_accepted_witness : parse "a | b > f;" "f" = Some None.
Proof.
  apply (grammar_accepted "a | b > f;" "f"
           [IDENT; code "|"; IDENT; code ">"; IDENT; code ";"]).
  - reflexivity.
  - eapply prog_cmd; [|apply prog_end].
    apply cmd_ident, tail_pipe, cmd_ident, tail_out; [reflexivity|].
    apply tail_semi.
Defined.

(** X6: an input that is accepted has been read to its end with no error
    and its tokens form a program of the grammar: commands led by a word
    or by an opening brace, each made and ended as [Tail], [Block] and
    [After] say, and newlines between them. *)
Theorem accepted_in_grammar (r name : string) :
  parse r name = Some None ->
  exists ts, tokens r name = Some ts /\ Prog ts.
Proof.
  unfold parse. intros H.
  destruct (parse_total r name) as (p & Hp & Ht & _).
  rewrite Hp in H. cbn in H. injection H as He.
  assert (Hl : lexes p []) by (apply lexes_nil; assumption).
  unfold run_parse, program in Hp.
  destruct (programLoop_complete _ (command_complete _) _ _ _ _ Hp Hl)
    as (ts & Hts & HP).
  exists ts. split; [|exact HP]. apply tokens_lexes. exact Hts.
Qed.

(** The input [f() { a; }]. *)
Lemma accepted_in_grammar_witness :
  exists ts, tokens "f() { a; }" "f" = Some ts /\ Prog ts.
Proof. apply (accepted_in_grammar "f() { a; }" "f"). reflexivity. Defined.

(** * Inputs with no command *)

Lemma code_inj (a b : ascii) : code a = code b -> a = b.
Proof.
  unfold code. intros H. apply N2Z.inj in H.
  rewrite <- (ascii_N_embedding a), <- (ascii_N_embedding b), H.
  reflexivity.
Qed.

Lemma space_cases (c : ascii) :
  space (code c) = true -> c = " "%char \/ c = tab.
Proof.
  unfold space, runeSet. cbn [existsb]. rewrite orb_false_r. intros H.
  apply orb_prop in H. destruct H as [H|H]; apply Z.eqb_eq, code_inj in H;
    auto.
Qed.

(** A space or a tab before a token only moves the column. *)
Lemma next_skip (p : parser) (c : ascii) (t : list ascii) :
  rd_buf (p_r p) = c :: t -> space (code c) = true ->
  next p
  = next (set_col (set_r p (mkReader t (Some [c]))) (incr (p_col p))).
Proof.
  intros Hb Hs.
  set (p1 := set_col (set_r p (mkReader t (Some [c]))) (incr (p_col p))).
  assert (Hc : code c < 128).
  { apply space_cases in Hs. destruct Hs as [-> | ->]; reflexivity. }
  pose proof (next_defined p1) as Hq.
  apply (next_eq (S (lexFuel p1))).
  unfold lexFuel in *. rewrite Nat.add_comm in *. cbn [Nat.add] in *.
  remember (length (rd_buf (p_r p1))) as n eqn:Hn. clear Hn.
  rewrite next_fuel_S in Hq. rewrite next_fuel_S.
  assert (Hsk : skipSpace (S (S n)) p = skipSpace (S n) p1).
  { cbn [skipSpace]. rewrite (ReadRune_ascii _ _ _ Hb Hc). cbv iota beta.
    rewrite Hs. reflexivity. }
  rewrite Hsk.
  destruct (skipSpace (S n) p1) as [[s|r s]|]; [exact Hq| |discriminate].
  eapply lexRune_mono; [|exact Hq|lia].
  intros q0 q1 H. eapply next_fuel_mono; [exact H|lia].
Qed.

(** A comment that the end of the input ends. *)
Lemma next_comment_end (p : parser) (body : list ascii) :
  rd_buf (p_r p) = "#"%char :: body -> ~ In newline body ->
  next p = set_tok (set_col (set_r p (mkReader [] None)) (incr (p_col p))) EOF.
Proof.
  intros Hb Hn. apply (next_eq 3). rewrite next_fuel_S.
  rewrite (skipSpace_rune _ _ _ _ Hb);
    [|vm_compute; reflexivity|vm_compute; reflexivity].
  unfold lexRune. change (code "#" =? code bslash) with false. cbv iota.
  unfold token. change (reserved (code "#")) with true.
  change (code "#" =? code "#") with true. cbv iota.
  unfold discardUpTo, ReadBytes. cbn [p_r set_col set_r rd_buf].
  apply cut_none in Hn. rewrite Hn. cbv iota beta.
  rewrite next_fuel_S. cbn [skipSpace]. unfold ReadRune.
  cbn [p_r set_tok set_r set_col rd_buf]. reflexivity.
Qed.

(** What is left of a comment: no newline, or a newline and more. *)
Lemma blankFrom_comment (t : list ascii) :
  blankFrom true t = true ->
  ~ In newline t
  \/ exists body t', t = body ++ newline :: t' /\ ~ In newline body
                     /\ blankFrom false t' = true.
Proof.
  induction t as [|c t IH]; intros H; [left; intros []|].
  cbn [blankFrom] in H. destruct (Ascii.eqb c newline) eqn:E; cbn [negb] in H.
  - apply Ascii.eqb_eq in E. subst c. right. exists [], t.
    split; [reflexivity|]. split; [intros []|exact H].
  - apply Ascii.eqb_neq in E. destruct (IH H) as [Hn|(body & t' & -> & Hb & Ht)].
    + left. intros [X|X]; [congruence|contradiction].
    + right. exists (c :: body), t'. split; [reflexivity|].
      split; [|exact Ht]. intros [X|X]; [congruence|contradiction].
Qed.

(** Over spaces, tabs, newlines and comments the lexer delivers newlines
    only, and reaches the end with no error. *)
Lemma blank_lexes (n : nat) :
  forall (l : list ascii) (p : parser),
    (length l <= n)%nat -> rd_buf (p_r p) = l -> blankFrom false l = true ->
    p_err p = None ->
    exists k, lexes (next p) (repeat (code newline) k).
Proof.
  induction n as [|n IH]; intros l p Hlen Hb Hl He.
  - destruct l; [|cbn in Hlen; lia]. exists 0%nat.
    rewrite (next_end p Hb). apply lexes_nil; [reflexivity|exact He].
  - destruct l as [|c t].
    { exists 0%nat. rewrite (next_end p Hb).
      apply lexes_nil; [reflexivity|exact He]. }
    cbn [blankFrom] in Hl. cbn [length] in Hlen.
    destruct (Ascii.eqb c "#") eqn:Eh.
    + apply Ascii.eqb_eq in Eh. subst c.
      destruct (blankFrom_comment t Hl) as [Hn|(body & t' & -> & Hn & Ht)].
      * exists 0%nat. rewrite (next_comment_end p t Hb Hn).
        apply lexes_nil; [reflexivity|exact He].
      * rewrite (next_comment p body t' Hb Hn).
        apply (IH t'); [|reflexivity|exact Ht|exact He].
        rewrite length_app in Hlen. cbn [length] in Hlen. lia.
    + apply andb_prop in Hl. destruct Hl as [Hc Ht].
      apply orb_prop in Hc. destruct Hc as [Hc|Hc].
      * rewrite (next_skip p c t Hb Hc).
        apply (IH t); [lia|reflexivity|exact Ht|exact He].
      * apply Ascii.eqb_eq in Hc. subst c. rewrite (next_newline p t Hb).
        match goal with |- context [lexes ?q _] => set (q0 := q) end.
        destruct (IH t q0) as (k & Hk); [lia|reflexivity|exact Ht|exact He|].
        exists (S k). cbn [repeat].
        change (code newline) with (p_tok q0) at 1.
        apply lexes_cons; [discriminate|exact Hk].
Qed.

Lemma Prog_newlines (k : nat) : Prog (repeat (code newline) k).
Proof.
  induction k as [|k IH]; [apply prog_end|]. apply prog_newline. exact IH.
Qed.

(** X7: an input that holds nothing but spaces, tabs, newlines and
    comments (each from a ['#'] to the end of its line or of the input) is
    accepted; the empty input is one. *)
Theorem blank_input_accepted (l : list ascii) (name : string) :
  blankFrom false l = true -> parse (str l) name = Some None.
Proof.
  intros Hl.
  destruct (blank_lexes (length l) l (newParser l name))
    as (k & Hk); [lia|reflexivity|exact Hl|reflexivity|].
  apply (lexes_Prog_accepted _ _ (repeat (code newline) k));
    [rewrite list_of_str; exact Hk|apply Prog_newlines].
Qed.

(** Two blank lines, a comment line and a comment with no newline. *)
Lemma blank_input_accepted_witness :
  parse (str [" "; newline; tab; newline; "#"; "a"; newline; " "; "#"; "b"]%char)
        "f"
  = Some None.
Proof.
  apply (blank_input_accepted
           [" "; newline; tab; newline; "#"; "a"; newline; " "; "#"; "b"]%char).
  reflexivity.
Defined.

(** * Quoted strings *)

(** Single-quoted content ends at the first single quote. *)
Lemma strContent_single (fuel : nat) (p : parser) (s t : list ascii) :
  rd_buf (p_r p) = s ++ squote :: t -> ~ In squote s ->
  strContent (S fuel) squote p = Some (set_r p (mkReader t None)).
Proof.
  intros Hb Hn. cbn [strContent]. unfold ReadBytes.
  rewrite Hb, (cut_found _ _ _ Hn). reflexivity.
Qed.

(** Double-quoted content ends at the first double quote that no backslash
    precedes. *)
Lemma strContent_closed (s : list ascii) :
  closed s ->
  forall (fuel : nat) (p : parser) (t : list ascii),
    rd_buf (p_r p) = s ++ dquote :: t -> (length s + 1 <= fuel)%nat ->
    strContent fuel dquote p = Some (set_r p (mkReader t None)).
Proof.
  induction 1 as [s Hn Hl|pre s Hn Hs IH]; intros fuel p t Hb Hf.
  - destruct fuel as [|f]; [lia|]. cbn [strContent]. unfold ReadBytes.
    rewrite Hb, (cut_found _ _ _ Hn). cbv iota beta.
    change (Ascii.eqb dquote squote) with false. cbv iota.
    destruct (_ && _) eqn:Hc; [|reflexivity]. exfalso.
    apply andb_prop in Hc. destruct Hc as [Hc _].
    apply andb_prop in Hc. destruct Hc as [Hlen Hbs].
    apply Nat.ltb_lt in Hlen. apply Ascii.eqb_eq in Hbs.
    rewrite length_app in *. cbn [length] in *.
    destruct s as [|x xs] using rev_ind; [cbn in Hlen; lia|].
    rewrite last_last in Hl. rewrite length_app in Hbs. cbn [length] in Hbs.
    rewrite <- app_assoc in Hbs. cbn [app] in Hbs.
    rewrite app_nth2 in Hbs by lia.
    replace (length xs + 1 + 1 - 2 - length xs)%nat with 0%nat in Hbs by lia.
    cbn in Hbs. contradiction.
  - destruct fuel as [|f]; [lia|].
    rewrite <- app_assoc in Hb. cbn [app] in Hb.
    rewrite (strContent_escaped _ _ _ _ Hb Hn).
    rewrite (IH f _ t); [reflexivity|reflexivity|].
    rewrite length_app in Hf. cbn [length] in Hf. lia.
Qed.

(** X8: a quoted string that ends is one token [STRING] whatever it
    holds.  A single-quoted string ends at the first single quote, also
    when a backslash comes before it; a double-quoted one at the first
    double quote that no backslash precedes.  The content moves neither
    the line nor the column, even when it holds newlines: after the token
    the line is the one of the opening quote and the column one more than
    before it.  (The calls are those made on a token other than [EOF], as
    all calls of the walker are.) *)
Theorem quoted_string_is_one_token :
  (forall (p : parser) (s t : list ascii),
      p_tok p <> EOF ->
      rd_buf (p_r p) = squote :: s ++ squote :: t -> ~ In squote s ->
      next p
      = set_tok (set_col (set_r p (mkReader t None)) (incr (p_col p))) STRING)
  /\ (forall (p : parser) (s t : list ascii),
        p_tok p <> EOF ->
        rd_buf (p_r p) = dquote :: s ++ dquote :: t -> closed s ->
        next p
        = set_tok (set_col (set_r p (mkReader t None)) (incr (p_col p)))
                  STRING).
Proof.
  split; intros p s t Ht Hb Hs; apply Z.eqb_neq in Ht.
  - apply (next_eq 3). rewrite next_fuel_S.
    rewrite (skipSpace_rune _ _ _ _ Hb);
      [|vm_compute; reflexivity|vm_compute; reflexivity].
    unfold lexRune. change (code squote =? code bslash) with false. cbv iota.
    unfold token. change (reserved (code squote)) with false.
    change (quote (code squote)) with true. cbv iota.
    change (byte_of (code squote)) with squote.
    rewrite (strContent_single _ _ s t); [|reflexivity|exact Hs].
    cbn [p_tok set_r set_col]. rewrite Ht. reflexivity.
  - apply (next_eq (S (S (S (length s))))). rewrite next_fuel_S.
    rewrite (skipSpace_rune _ _ _ _ Hb);
      [|vm_compute; reflexivity|vm_compute; reflexivity].
    unfold lexRune. change (code dquote =? code bslash) with false. cbv iota.
    unfold token. change (reserved (code dquote)) with false.
    change (quote (code dquote)) with true. cbv iota.
    change (byte_of (code dquote)) with dquote.
    rewrite (strContent_closed s Hs _ _ t); [|reflexivity|lia].
    cbn [p_tok set_r set_col]. rewrite Ht. reflexivity.
Qed.

(** * The backslash outside strings *)

(** The state after the backslash that starts a token. *)
Lemma skipSpace_bslash (fuel : nat) (p : parser) (t : list ascii) :
  rd_buf (p_r p) = bslash :: t ->
  skipSpace (S fuel) p
  = Some (Rune (code bslash)
               (set_col (set_r p (mkReader t (Some [bslash])))
                        (incr (p_col p)))).
Proof.
  intros Hb. apply (skipSpace_rune _ _ _ _ Hb); vm_compute; reflexivity.
Qed.

(** [next] on a backslash: the nested call, then the test of its token. *)
Lemma next_bslash (p : parser) (t : list ascii) :
  rd_buf (p_r p) = bslash :: t ->
  let q := set_col (set_r p (mkReader t (Some [bslash]))) (incr (p_col p)) in
  forall fuel, (lexFuel q <= fuel)%nat ->
    next_fuel (S fuel) p
    = if p_tok (next q) =? code newline then next_fuel fuel (next q)
      else
        match UnreadRune (p_r (next q)) with
        | (Some e, rd) => Some (errPass e (set_r (next q) rd))
        | (None, rd) =>
            token (next_fuel fuel) fuel (code bslash)
                  (set_col (set_r (next q) rd) (decr (p_col (next q))))
        end.
Proof.
  intros Hb q fuel Hf.
  destruct fuel as [|f]; [unfold lexFuel in Hf; lia|].
  rewrite next_fuel_S, (skipSpace_bslash _ _ _ Hb).
  fold q. unfold lexRune. rewrite Z.eqb_refl.
  rewrite (next_fuel_mono _ (S f) _ _ (next_defined q) Hf). reflexivity.
Qed.

(** X9: a backslash that starts a token and that a newline follows joins
    the two lines: the token is the one that [next] finds after the
    newline, and the newline is counted, so that the line goes up by one
    and the column starts again at 0. *)
Theorem backslash_newline_continues (p : parser) (t : list ascii) :
  rd_buf (p_r p) = bslash :: newline :: t ->
  next p
  = next (set_tok (set_col (set_line (set_r p (mkReader t (Some [newline])))
                                     (incr (p_line p))) 0)
                  (code newline)).
Proof.
  intros Hb.
  set (p1 := set_tok (set_col (set_line (set_r p (mkReader t (Some [newline])))
                                        (incr (p_line p))) 0)
                     (code newline)).
  set (q := set_col (set_r p (mkReader (newline :: t) (Some [bslash])))
                    (incr (p_col p))).
  assert (Hq : next q = p1) by (apply (next_newline q t); reflexivity).
  apply (next_eq (S (S (lexFuel p1)))).
  rewrite (next_bslash p _ Hb); fold q; [|unfold lexFuel; cbn; lia].
  rewrite Hq. change (p_tok p1 =? code newline) with true. cbv iota.
  apply (next_fuel_mono (lexFuel p1)); [apply next_defined|lia].
Qed.

(** A backslash, a newline and [b;]: the token is the [b] of the second
    line. *)
Lemma backslash_newline_continues_witness :
  let p := newParser [bslash; newline; "b"; ";"]%char "f" in
  next p
  = next (set_tok (set_col (set_line
                              (set_r p (mkReader ["b"; ";"]%char
                                                 (Some [newline])))
                              (incr (p_line p))) 0)
                  (code newline)).
Proof.
  intros p. apply (backslash_newline_continues p ["b"; ";"]%char).
  reflexivity.
Defined.

(** A token that starts with a byte that is neither a space, nor
    reserved, nor a backslash: a word or a quoted string.  It leaves
    nothing to push back, and is no newline. *)
Lemma next_unreserved (p : parser) (c : ascii) (t : list ascii) :
  rd_buf (p_r p) = c :: t -> code c < 128 ->
  space (code c) = false -> reserved (code c) = false ->
  code c <> code bslash ->
  rd_last (p_r (next p)) = None /\ p_tok (next p) <> code newline.
Proof.
  intros Hb Hc Hs Hr Hbs. pose proof (next_defined p) as H.
  unfold lexFuel in H. rewrite Hb in H.
  replace (length (c :: t) + 2)%nat with (S (S (S (length t)))) in H
    by (cbn [length]; lia).
  rewrite next_fuel_S, (skipSpace_rune _ _ _ _ Hb Hc Hs) in H.
  unfold lexRune in H. apply Z.eqb_neq in Hbs. rewrite Hbs in H.
  unfold token in H. rewrite Hr in H.
  destruct (quote (code c)) eqn:Hq.
  - destruct (strContent _ _ _) as [q|] eqn:E; [|discriminate].
    apply strContent_inv in E. destruct E as (_ & E).
    destruct (p_tok q =? EOF) eqn:Et; injection H as <-.
    + apply Z.eqb_eq in Et. rewrite Et. split; [exact E|discriminate].
    + split; [exact E|discriminate].
  - apply word_inv in H; [|unfold delimiter; rewrite Hr, Hq, Hs; reflexivity].
    destruct H as (H1 & _ & [(_ & [H|H])|(_ & H)]); rewrite H;
      split; try exact H1; discriminate.
Qed.

(** X10: a backslash that starts a token and that a byte of a word or a
    quote follows is refused: the nested call of [next] has read the word
    or the string, which leaves nothing to push back, and the [UnreadRune]
    that follows fails.  So is a backslash that ends the input.  When the
    backslash starts the first token of the input, the error of
    [UnreadRune] is what [parse] returns. *)
Theorem backslash_before_word_fails :
  (forall (p : parser) (c : ascii) (t : list ascii),
      rd_buf (p_r p) = bslash :: c :: t -> code c < 128 ->
      space (code c) = false -> reserved (code c) = false ->
      code c <> code bslash ->
      p_err (next p) = Some ErrInvalidUnreadRune /\ p_tok (next p) = EOF)
  /\ (forall p : parser,
        rd_buf (p_r p) = [bslash] ->
        p_err (next p) = Some ErrInvalidUnreadRune /\ p_tok (next p) = EOF)
  /\ (forall (c : ascii) (t : list ascii) (name : string),
        code c < 128 -> space (code c) = false ->
        reserved (code c) = false -> code c <> code bslash ->
        parse (str (bslash :: c :: t)) name
        = Some (Some ErrInvalidUnreadRune)).
Proof.
  assert (H1 : forall (p : parser) (c : ascii) (t : list ascii),
      rd_buf (p_r p) = bslash :: c :: t -> code c < 128 ->
      space (code c) = false -> reserved (code c) = false ->
      code c <> code bslash ->
      p_err (next p) = Some ErrInvalidUnreadRune /\ p_tok (next p) = EOF).
  { intros p c t Hb Hc Hs Hr Hbs.
    set (q := set_col (set_r p (mkReader (c :: t) (Some [bslash])))
                      (incr (p_col p))).
    destruct (next_unreserved q c t eq_refl Hc Hs Hr Hbs) as (Hl & Hn).
    pose proof (next_bslash p _ Hb (lexFuel q) (Nat.le_refl _)) as H.
    fold q in H. apply Z.eqb_neq in Hn. rewrite Hn in H.
    unfold UnreadRune in H. rewrite Hl in H.
    rewrite (next_eq _ _ _ H). split; reflexivity. }
  split; [exact H1|]. split.
  - intros p Hb.
    set (q := set_col (set_r p (mkReader [] (Some [bslash])))
                      (incr (p_col p))).
    pose proof (next_bslash p _ Hb (lexFuel q) (Nat.le_refl _)) as H.
    fold q in H. rewrite (next_end q eq_refl) in H.
    rewrite (next_eq _ _ _ H). split; reflexivity.
  - intros c t name Hc Hs Hr Hbs. unfold parse.
    destruct (H1 (newParser (bslash :: c :: t) name) c t eq_refl Hc Hs Hr Hbs)
      as (He & Ht).
    rewrite run_parse_first_eof; rewrite list_of_str;
      [cbn [option_map]; rewrite He; reflexivity|exact Ht].
Qed.

(** X11: a backslash that starts a token and that a reserved byte other
    than ['#'] and the newline follows does not quote that byte: the
    backslash alone is a token [STRING], the reserved byte is pushed back
    and is the next token.  The column, taken up and down with each push
    back, ends one above where it was. *)
Theorem backslash_before_reserved_is_word (p : parser) (c : ascii)
    (t : list ascii) :
  rd_buf (p_r p) = bslash :: c :: t -> code c < 128 ->
  reserved (code c) = true ->
  code c <> code "#" -> code c <> code newline ->
  next p
  = set_tok (set_col (set_r p (mkReader (c :: t) None))
                     (decr (incr (decr (incr (incr (p_col p)))))))
            STRING
  /\ next (next p)
     = set_tok (set_col (set_r p (mkReader t (Some [c])))
                        (incr (decr (incr (decr (incr (incr (p_col p))))))))
               (code c).
Proof.
  intros Hb Hc Hr Hh Hn.
  destruct p as [rd tok e name line col lg].
  cbn [p_r p_col set_tok set_col set_r p_tok p_err p_name p_line p_log] in *.
  set (q := mkParser (mkReader (c :: t) (Some [bslash])) tok e name line
                     (incr col) lg).
  assert (Hq : next q
               = mkParser (mkReader t (Some [c])) (code c) e name line
                          (incr (incr col)) lg).
  { rewrite (next_reserved q c t); [reflexivity|reflexivity|assumption..]. }
  assert (Hd : endChar c = true).
  { unfold endChar, delimiter. rewrite Hr. apply Z.ltb_lt in Hc.
    rewrite Hc. reflexivity. }
  assert (H1 : next (mkParser rd tok e name line col lg)
               = mkParser (mkReader (c :: t) None) STRING e name line
                          (decr (incr (decr (incr (incr col))))) lg).
  { apply (next_eq (S (S (S (lexFuel q))))).
    pose proof (next_bslash (mkParser rd tok e name line col lg) (c :: t) Hb
                  (S (S (lexFuel q)))) as Hnb.
    change (set_col (set_r (mkParser rd tok e name line col lg)
                           (mkReader (c :: t) (Some [bslash])))
                    (incr (p_col (mkParser rd tok e name line col lg))))
      with q in Hnb.
    rewrite Hnb by lia. clear Hnb.
    rewrite Hq. cbn [p_tok p_r p_col set_r set_col].
    apply Z.eqb_neq in Hn. rewrite Hn.
    unfold UnreadRune. cbn [rd_last rd_buf app set_r set_col p_r p_col].
    unfold token. change (reserved (code bslash)) with false.
    change (quote (code bslash)) with false. cbv iota.
    unfold word.
    erewrite (readRun_run [] _ (code bslash) [code bslash] _ c t);
      [|reflexivity|reflexivity|reflexivity|exact Hd
       |cbn [length]; unfold lexFuel; lia].
    cbn [map app length Nat.ltb Nat.leb]. unfold UnreadRune.
    cbn [rd_last p_r set_tok set_col set_r rd_buf app p_col removelast
         p_tok p_err p_name p_line p_log].
    replace (classify [code bslash]) with STRING by (vm_compute; reflexivity).
    reflexivity. }
  split; [exact H1|]. rewrite H1.
  rewrite (next_reserved _ c t); [|reflexivity|assumption..].
  unfold set_tok, set_col, set_r.
  cbn [p_r p_tok p_err p_name p_line p_col p_log]. reflexivity.
Qed.

(** The input of a backslash and [;]: the token is [STRING], and the [;]
    is left to be read. *)
Lemma backslash_before_reserved_is_word_witness :
  let p := newParser [bslash; ";"]%char "f" in
  next p
  = set_tok (set_col (set_r p (mkReader [";"]%char None))
                     (decr (incr (decr (incr (incr (p_col p)))))))
            STRING
  /\ next (next p)
     = set_tok (set_col (set_r p (mkReader [] (Some [";"]%char)))
                        (incr (decr (incr (decr (incr (incr (p_col p))))))))
               (code ";").
Proof.
  intros p. apply (backslash_before_reserved_is_word p ";"%char []).
  - reflexivity.
  - reflexivity.
  - reflexivity.
  - discriminate.
  - discriminate.
Defined.

(** * Positions on plain input *)

Lemma endPosition_app (a b : list ascii) (line col : Z) :
  endPosition (a ++ b) line col
  = endPosition b (fst (endPosition a line col)) (snd (endPosition a line col)).
Proof.
  revert line col. induction a as [|c a IH]; intros line col; [reflexivity|].
  cbn [app endPosition]. destruct (Ascii.eqb c newline); apply IH.
Qed.

Lemma endPosition_bounds (l : list ascii) (line col : Z) :
  0 <= col ->
  line <= fst (endPosition l line col) <= line + Z.of_nat (length l)
  /\ 0 <= snd (endPosition l line col) <= col + Z.of_nat (length l).
Proof.
  revert line col. induction l as [|c l IH]; intros line col Hc;
    [cbn; lia|].
  cbn [endPosition length]. destruct (Ascii.eqb c newline).
  - specialize (IH (line + 1) 0). lia.
  - specialize (IH line (col + 1)). lia.
Qed.

Lemma wordChar_not_newline (c : ascii) :
  wordChar c = true -> Ascii.eqb c newline = false.
Proof.
  intros H. apply Ascii.eqb_neq. intros ->. vm_compute in H. discriminate.
Qed.

Lemma endPosition_word (w : list ascii) (line col : Z) :
  forallb wordChar w = true ->
  endPosition w line col = (line, col + Z.of_nat (length w)).
Proof.
  revert col. induction w as [|c w IH]; intros col H;
    [cbn; f_equal; lia|].
  cbn [forallb] in H. apply andb_prop in H. destruct H as [Hc Hw].
  cbn [endPosition length]. rewrite (wordChar_not_newline c Hc).
  rewrite IH by exact Hw. f_equal. lia.
Qed.

Lemma incr_small (z : Z) : 0 <= z -> z + 1 < 2 ^ 63 -> incr z = z + 1.
Proof.
  intros H0 H1. unfold incr, int_wrap. rewrite Z.mod_small by lia. lia.
Qed.

Lemma decr_small (z : Z) : 0 < z -> z < 2 ^ 63 -> decr z = z - 1.
Proof.
  intros H0 H1. unfold decr, int_wrap. rewrite Z.mod_small by lia. lia.
Qed.

(** The bytes of a word that start plain bytes, and what ends them. *)
Lemma word_span (l : list ascii) :
  forallb plainByte l = true ->
  exists w rest, l = w ++ rest /\ forallb wordChar w = true
                 /\ (rest = [] \/ exists d t, rest = d :: t
                                              /\ endChar d = true).
Proof.
  induction l as [|c l IH]; intros H.
  - exists [], []. auto.
  - cbn [forallb] in H. apply andb_prop in H. destruct H as [Hc Hl].
    destruct (wordChar c) eqn:Hw.
    + destruct (IH Hl) as (w & rest & -> & Hw' & Hr).
      exists (c :: w), rest. split; [reflexivity|].
      split; [cbn [forallb]; rewrite Hw, Hw'; reflexivity|exact Hr].
    + exists [], (c :: l). split; [reflexivity|]. split; [reflexivity|].
      right. exists c, l. split; [reflexivity|].
      unfold plainByte in Hc. unfold wordChar in Hw. unfold endChar.
      destruct (code c <? 128); [|discriminate Hc].
      cbn [andb] in *. apply negb_false_iff in Hw. exact Hw.
Qed.

Lemma plainByte_spec (c : ascii) :
  plainByte c = true ->
  code c < 128 /\ code c <> code "#" /\ quote (code c) = false
  /\ code c <> code bslash.
Proof.
  unfold plainByte. intros H.
  repeat (apply andb_prop in H; destruct H as [H ?]).
  apply Z.ltb_lt in H.
  repeat match goal with
         | X : negb _ = true |- _ => apply negb_true_iff in X
         end.
  repeat split; auto; intros E; apply code_inj in E; subst c; discriminate.
Qed.

(** One call of [next] on plain bytes: it takes some of them, the line and
    the column become those of the end of the bytes taken, and the only
    error it can record is the one of [UnreadRune]. *)
Lemma plain_next (n : nat) :
  forall (l : list ascii) (p : parser),
    (length l <= n)%nat -> rd_buf (p_r p) = l ->
    forallb plainByte l = true ->
    0 <= p_col p -> 0 <= p_line p ->
    p_col p + Z.of_nat (length l) + 1 < 2 ^ 63 ->
    p_line p + Z.of_nat (length l) + 1 < 2 ^ 63 ->
    (exists k, (k <= length l)%nat
               /\ rd_buf (p_r (next p)) = skipn k l
               /\ endPosition (firstn k l) (p_line p) (p_col p)
                  = (p_line (next p), p_col (next p)))
    /\ (p_err (next p) = p_err p
        \/ (p_err (next p) = Some ErrInvalidUnreadRune
            /\ exists pre c c' w,
                 l = pre ++ c :: c' :: w
                 /\ forallb wordChar (c :: c' :: w) = true)).
Proof.
  induction n as [|n IH]; intros l p Hlen Hb Hp Hc0 Hl0 Hc1 Hl1.
  { destruct l; [|cbn in Hlen; lia]. rewrite (next_end p Hb).
    split; [exists 0%nat; cbn; auto|left; reflexivity]. }
  destruct l as [|c t].
  { rewrite (next_end p Hb).
    split; [exists 0%nat; cbn; auto|left; reflexivity]. }
  cbn [forallb] in Hp. apply andb_prop in Hp. destruct Hp as [Hpc Hpt].
  destruct (plainByte_spec c Hpc) as (Hc & Hh & Hq & Hbs).
  cbn [length] in *.
  destruct (wordChar c) eqn:Hw.
  - (* a word *)
    destruct (word_span t Hpt) as (w & rest & -> & Hww & Hr).
    rewrite length_app in *.
    assert (He : endPosition (c :: w) (p_line p) (p_col p)
                 = (p_line p, p_col p + 1 + Z.of_nat (length w))).
    { cbn [endPosition]. rewrite (wordChar_not_newline c Hw).
      rewrite endPosition_word by exact Hww. reflexivity. }
    destruct Hr as [-> |(d & t' & -> & Hd)].
    + rewrite app_nil_r in *. destruct w as [|c' w'].
      * rewrite (next_word_end1 p c Hb Hw Hbs). split; [|left; reflexivity].
        exists 1%nat. cbn [length firstn skipn p_r p_line p_col set_tok
                            set_col set_r rd_buf].
        split; [lia|]. split; [reflexivity|]. rewrite He.
        rewrite incr_small by (cbn [length] in *; lia). cbn [length].
        f_equal. lia.
      * rewrite (next_word_end p c c' w' Hb Hw Hbs Hww).
        split.
        2:{ right. split; [reflexivity|]. exists [], c, c', w'.
            split; [reflexivity|]. cbn [forallb]. rewrite Hw. exact Hww. }
        exists (S (length (c' :: w'))).
        cbn [p_r p_line p_col errPass set_col set_r rd_buf].
        split; [lia|]. rewrite firstn_all2, skipn_all2 by (cbn [length]; lia).
        split; [reflexivity|]. rewrite He.
        rewrite incrs_small by (cbn [length] in *; lia).
        cbn [length]. f_equal. lia.
    + rewrite (next_word p c w d t' Hb Hw Hbs Hww Hd).
      split; [|left; reflexivity]. exists (S (length w)).
      cbn [p_r p_line p_col set_tok set_col set_r rd_buf length] in *.
      split; [lia|].
      change (c :: w ++ d :: t') with ((c :: w) ++ d :: t').
      rewrite firstn_app, skipn_app.
      replace (S (length w) - length (c :: w))%nat with 0%nat
        by (cbn [length]; lia).
      rewrite firstn_all2, skipn_all2 by (cbn [length]; lia).
      cbn [firstn skipn app]. rewrite app_nil_r.
      split; [reflexivity|]. rewrite He.
      rewrite incrs_small by lia. rewrite decr_small by lia.
      f_equal. lia.
  - (* a delimiter *)
    assert (Hdl : delimiter (code c) = true).
    { unfold wordChar in Hw. apply Z.ltb_lt in Hc. rewrite Hc in Hw.
      cbn [andb] in Hw. apply negb_false_iff in Hw. exact Hw. }
    unfold delimiter in Hdl. rewrite Hq, orb_false_r in Hdl.
    destruct (space (code c)) eqn:Hs.
    + (* a space or a tab *)
      rewrite (next_skip p c t Hb Hs).
      assert (Hnl : Ascii.eqb c newline = false).
      { apply space_cases in Hs. destruct Hs as [-> | ->]; reflexivity. }
      set (p1 := set_col (set_r p (mkReader t (Some [c]))) (incr (p_col p))).
      assert (Hcol : p_col p1 = p_col p + 1).
      { unfold p1. cbn [p_col set_col]. apply incr_small; lia. }
      assert (H1 : (exists k, (k <= length t)%nat
                     /\ rd_buf (p_r (next p1)) = skipn k t
                     /\ endPosition (firstn k t) (p_line p1) (p_col p1)
                        = (p_line (next p1), p_col (next p1)))
                   /\ (p_err (next p1) = p_err p1
                       \/ (p_err (next p1) = Some ErrInvalidUnreadRune
                           /\ exists pre c0 c' w,
                                t = pre ++ c0 :: c' :: w
                                /\ forallb wordChar (c0 :: c' :: w)
                                   = true))).
      { apply (IH t p1); [lia|reflexivity|exact Hpt|lia| | |];
          try rewrite Hcol; cbn [p1 p_line set_col set_r]; lia. }
      destruct H1 as ((k & Hk & Hbuf & Hpos) & He).
      split.
      2:{ destruct He as [He|(He & pre & c0 & c' & w & -> & Hw')];
            [left; exact He|right].
          split; [exact He|]. exists (c :: pre), c0, c', w.
          split; [reflexivity|exact Hw']. }
      exists (S k). split; [lia|].
      split; [exact Hbuf|]. cbn [firstn endPosition]. rewrite Hnl.
      rewrite Hcol in Hpos. exact Hpos.
    + rewrite orb_false_r in Hdl.
      destruct (Ascii.eqb c newline) eqn:Hn.
      * apply Ascii.eqb_eq in Hn. subst c. rewrite (next_newline p t Hb).
        split; [|left; reflexivity]. exists 1%nat.
        cbn [p_r p_line p_col set_tok set_col set_line set_r rd_buf
             firstn skipn endPosition].
        split; [lia|]. split; [reflexivity|].
        change (Ascii.eqb newline newline) with true. cbv iota.
        rewrite incr_small by lia. reflexivity.
      * assert (Hne : code c <> code newline).
        { intros E. apply code_inj in E. subst c. discriminate Hn. }
        rewrite (next_reserved p c t Hb Hc Hdl Hh Hne).
        split; [|left; reflexivity]. exists 1%nat.
        cbn [p_r p_line p_col set_tok set_col set_r rd_buf
             firstn skipn endPosition].
        split; [lia|]. split; [reflexivity|]. rewrite Hn.
        rewrite incr_small by lia. reflexivity.
Qed.

Lemma wstep_located (input : list ascii) (p q : parser) :
  forallb plainByte input = true ->
  Z.of_nat (length input) + 2 < 2 ^ 63 ->
  wstep p q -> frozen p -> located input p -> endsInWord input p ->
  located input q /\ positioned q /\ endsInWord input q.
Proof.
  intros Hp Hlen Hs Hf (pre & Hi & Hpos) Hend. destruct Hs as [p Ht| |].
  - assert (Hpl : forallb plainByte (rd_buf (p_r p)) = true).
    { rewrite Hi, forallb_app in Hp. apply andb_prop in Hp. apply Hp. }
    assert (Hl : length input = (length pre + length (rd_buf (p_r p)))%nat).
    { rewrite Hi at 1. apply length_app. }
    pose proof (endPosition_bounds pre 1 0 (Z.le_refl 0)) as Hb.
    rewrite Hpos in Hb. cbn [fst snd] in Hb.
    destruct (plain_next _ (rd_buf (p_r p)) p (Nat.le_refl _) eq_refl Hpl)
      as ((k & Hk & Hbuf & Hpos') & He); try lia.
    assert (Hn : p_err p = None).
    { destruct (p_err p) eqn:E; [|reflexivity]. exfalso. apply Ht, Hf.
      rewrite E. discriminate. }
    split; [|split].
    + exists (pre ++ firstn k (rd_buf (p_r p))). split.
      * rewrite Hbuf, <- app_assoc, firstn_skipn. exact Hi.
      * rewrite endPosition_app, Hpos. exact Hpos'.
    + unfold positioned. destruct He as [He|(He & _)]; rewrite He;
        [rewrite Hn|]; exact I.
    + unfold endsInWord.
      destruct He as [He|(_ & pre0 & c & c' & w & Hl0 & Hw)].
      * rewrite He, Hn. discriminate.
      * intros _. exists (pre ++ pre0), c, c', w. split; [|exact Hw].
        rewrite Hi, Hl0, app_assoc. reflexivity.
  - split; [exists pre; split; assumption|]. split.
    + unfold positioned. cbn. eexists. reflexivity.
    + intros X. discriminate X.
  - split; [exists pre; split; assumption|]. split.
    + unfold positioned. cbn. eexists. reflexivity.
    + intros X. discriminate X.
Qed.

Lemma walks_located (input : list ascii) (p q : parser) :
  forallb plainByte input = true ->
  Z.of_nat (length input) + 2 < 2 ^ 63 ->
  walks p q -> frozen p -> located input p -> positioned p ->
  endsInWord input p ->
  located input q /\ positioned q /\ endsInWord input q.
Proof.
  intros Hp Hlen. induction 1 as [|p q r Hs Hw IH]; [auto|].
  intros Hf Hl _ He.
  destruct (wstep_located _ _ _ Hp Hlen Hs Hf Hl He) as (Hl' & Hp' & He').
  apply IH; [eapply wstep_frozen; eassumption|assumption..].
Qed.

Lemma reachable_located (input : list ascii) (name : string) (p : parser) :
  forallb plainByte input = true ->
  Z.of_nat (length input) + 2 < 2 ^ 63 ->
  reachable (str input) name p ->
  located input p /\ positioned p /\ endsInWord input p.
Proof.
  intros Hp Hlen Hr. unfold reachable in Hr. rewrite list_of_str in Hr.
  apply (walks_located input _ _ Hp Hlen Hr).
  - intros X. exfalso. apply X. reflexivity.
  - exists []. split; reflexivity.
  - exact I.
  - intros X. discriminate X.
Qed.

(** X12: on an input of plain bytes (ASCII, with no ['#'], no quote and
    no backslash) that is shorter than [int] can count, every state of the
    pass has as its line and column those of the last byte read, counted
    from line 1 with columns from 1: the line is one more than the number
    of newlines read, the column the number of bytes read since the last
    of them.  So an error that [lineErr] makes is reported at the line and
    the column of the last byte that the pass has read. *)
Theorem plain_input_positions (input : list ascii) (name : string) :
  forallb plainByte input = true ->
  Z.of_nat (length input) + 2 < 2 ^ 63 ->
  (forall p, reachable (str input) name p ->
     located input p /\ positioned p)
  /\ (forall e, parse (str input) name = Some (Some e) ->
        e = ErrInvalidUnreadRune
        \/ exists pre rest format v,
             input = pre ++ rest
             /\ e = Errorf (positionAt name (fst (endPosition pre 1 0))
                                            (snd (endPosition pre 1 0))
                            ++ format) v).
Proof.
  intros Hp Hlen.
  assert (H : forall p, reachable (str input) name p ->
                located input p /\ positioned p).
  { intros p Hr.
    destruct (reachable_located input name p Hp Hlen Hr) as (H1 & H2 & _).
    auto. }
  split; [exact H|]. intros e He. unfold parse in He.
  destruct (parse_total (str input) name) as (p & Hrun & _).
  rewrite Hrun in He. cbn in He. injection He as He.
  pose proof (run_parse_reachable _ _ _ Hrun) as Hr.
  destruct (H p Hr) as ((pre & Hi & Hpos) & Hpd).
  assert (Hn : p_name p = name).
  { apply (walks_wellLogged name _ _ Hr). split; [reflexivity|constructor]. }
  unfold positioned in Hpd. rewrite He in Hpd.
  destruct e as [| |format v]; [contradiction|left; reflexivity|].
  destruct Hpd as (rest & ->). right.
  exists pre, (rd_buf (p_r p)), rest, v. split; [exact Hi|].
  unfold position. rewrite Hn, Hpos. reflexivity.
Qed.

(** Two lines, the second with a [)] where a word would go: the error is
    at line 2, column 3. *)
Lemma plain_input_positions_witness :
  Errorf "f:2:3: unexpected token %s" ["')'"%string] = ErrInvalidUnreadRune
  \/ exists pre rest format v,
       ["a"; newline; "b"; " "; ")"; ";"]%char = pre ++ rest
       /\ Errorf "f:2:3: unexpected token %s" ["')'"%string]
          = Errorf (positionAt "f" (fst (endPosition pre 1 0))
                                   (snd (endPosition pre 1 0))
                    ++ format) v.
Proof.
  apply (proj2 (plain_input_positions
                  ["a"; newline; "b"; " "; ")"; ";"]%char "f"
                  eq_refl eq_refl)).
  reflexivity.
Defined.

(** X13: on an input of plain bytes the error of [UnreadRune] has one
    cause only: when [parse] returns it, the input ends in an unquoted word
    of two bytes or more, with no delimiter after it. *)
Theorem unread_error_only_at_end (input : list ascii) (name : string) :
  forallb plainByte input = true ->
  Z.of_nat (length input) + 2 < 2 ^ 63 ->
  parse (str input) name = Some (Some ErrInvalidUnreadRune) ->
  exists pre c c' w,
    input = pre ++ c :: c' :: w /\ forallb wordChar (c :: c' :: w) = true.
Proof.
  intros Hp Hlen He. unfold parse in He.
  destruct (parse_total (str input) name) as (p & Hrun & _).
  rewrite Hrun in He. cbn in He. injection He as He.
  pose proof (run_parse_reachable _ _ _ Hrun) as Hr.
  destruct (reachable_located input name p Hp Hlen Hr) as (_ & _ & H).
  apply H. exact He.
Qed.

(** The input [ls -l]. *)
Lemma unread_error_only_at_end_witness :
  exists pre c c' w,
    ["l"; "s"; " "; "-"; "l"]%char = pre ++ c :: c' :: w
    /\ forallb wordChar (c :: c' :: w) = true.
Proof.
  apply (unread_error_only_at_end ["l"; "s"; " "; "-"; "l"]%char "f");
    reflexivity.
Defined.

(** * Positions on input with comments *)

Lemma countedPosition_app (a b : list ascii) :
  forall (ic : bool) (line col : Z),
    countedPosition ic (a ++ b) line col
    = let '(ic', (line', col')) := countedPosition ic a line col in
      countedPosition ic' b line' col'.
Proof.
  induction a as [|c a IH]; intros ic line col; [reflexivity|].
  cbn [app countedPosition].
  destruct ic; [apply IH|].
  destruct (Ascii.eqb c "#"); [apply IH|].
  destruct (Ascii.eqb c newline); apply IH.
Qed.

Lemma countedPosition_bounds (l : list ascii) :
  forall (ic : bool) (line col : Z),
    0 <= col ->
    line <= fst (snd (countedPosition ic l line col))
         <= line + Z.of_nat (length l)
    /\ 0 <= snd (snd (countedPosition ic l line col))
         <= col + Z.of_nat (length l).
Proof.
  induction l as [|c l IH]; intros ic line col Hc; [cbn; lia|].
  cbn [countedPosition length]. destruct ic.
  { specialize (IH (negb (Ascii.eqb c newline)) line col). lia. }
  destruct (Ascii.eqb c "#").
  { specialize (IH true line (col + 1)). lia. }
  destruct (Ascii.eqb c newline).
  - specialize (IH false (line + 1) 0). lia.
  - specialize (IH false line (col + 1)). lia.
Qed.

Lemma wordChar_not_hash (c : ascii) :
  wordChar c = true -> Ascii.eqb c "#" = false.
Proof.
  intros H. apply Ascii.eqb_neq. intros ->. vm_compute in H. discriminate.
Qed.

Lemma countedPosition_word (w : list ascii) (line col : Z) :
  forallb wordChar w = true ->
  countedPosition false w line col
  = (false, (line, col + Z.of_nat (length w))).
Proof.
  revert col. induction w as [|c w IH]; intros col H;
    [cbn; do 2 f_equal; lia|].
  cbn [forallb] in H. apply andb_prop in H. destruct H as [Hc Hw].
  cbn [countedPosition length].
  rewrite (wordChar_not_hash c Hc), (wordChar_not_newline c Hc).
  rewrite IH by exact Hw. do 2 f_equal. lia.
Qed.

Lemma countedPosition_body (body : list ascii) (line col : Z) :
  ~ In newline body ->
  countedPosition true body line col = (true, (line, col)).
Proof.
  induction body as [|c body IH]; intros Hn; [reflexivity|].
  cbn [countedPosition].
  replace (Ascii.eqb c newline) with false.
  - apply IH. intros X. apply Hn. right. exact X.
  - symmetry. apply Ascii.eqb_neq. intros ->. apply Hn. left. reflexivity.
Qed.

Lemma countedPosition_comment (body s : list ascii) (line col : Z) :
  ~ In newline body ->
  countedPosition true (body ++ newline :: s) line col
  = countedPosition false s line col.
Proof.
  intros Hn. rewrite countedPosition_app, (countedPosition_body _ _ _ Hn).
  reflexivity.
Qed.

(** The line counted is the true line less the comment lines. *)
Lemma countedPosition_line (l : list ascii) :
  forall (ic : bool) (line col : Z),
    fst (snd (countedPosition ic l line col))
    = line + Z.of_nat (count_occ ascii_dec l newline)
      - Z.of_nat (commentLines ic l).
Proof.
  induction l as [|c l IH]; intros ic line col; [cbn; lia|].
  cbn [countedPosition commentLines count_occ].
  destruct (ascii_dec c newline) as [->|Hne].
  - change (Ascii.eqb newline newline) with true.
    change (Ascii.eqb newline "#") with false.
    destruct ic; cbn [negb]; rewrite IH; lia.
  - apply Ascii.eqb_neq in Hne. rewrite Hne. cbn [negb].
    destruct ic; [rewrite IH; lia|].
    destruct (Ascii.eqb c "#"); rewrite IH; lia.
Qed.

Lemma counted_line (pre : list ascii) :
  fst (snd (countedPosition false pre 1 0))
  = lineAfter pre - Z.of_nat (commentLines false pre).
Proof. rewrite countedPosition_line. unfold lineAfter. lia. Qed.

(** The bytes of a word that start bare bytes, and what ends them. *)
Lemma bare_span (l : list ascii) :
  forallb bareByte l = true ->
  exists w rest, l = w ++ rest /\ forallb wordChar w = true
                 /\ (rest = [] \/ exists d t, rest = d :: t
                                              /\ endChar d = true).
Proof.
  induction l as [|c l IH]; intros H.
  - exists [], []. auto.
  - cbn [forallb] in H. apply andb_prop in H. destruct H as [Hc Hl].
    destruct (wordChar c) eqn:Hw.
    + destruct (IH Hl) as (w & rest & -> & Hw' & Hr).
      exists (c :: w), rest. split; [reflexivity|].
      split; [cbn [forallb]; rewrite Hw, Hw'; reflexivity|exact Hr].
    + exists [], (c :: l). split; [reflexivity|]. split; [reflexivity|].
      right. exists c, l. split; [reflexivity|].
      unfold bareByte in Hc. unfold wordChar in Hw. unfold endChar.
      destruct (code c <? 128); [|discriminate Hc].
      cbn [andb] in *. apply negb_false_iff in Hw. exact Hw.
Qed.

Lemma bareByte_spec (c : ascii) :
  bareByte c = true ->
  code c < 128 /\ quote (code c) = false /\ code c <> code bslash.
Proof.
  unfold bareByte. intros H.
  repeat (apply andb_prop in H; destruct H as [H ?]).
  apply Z.ltb_lt in H.
  repeat match goal with
         | X : negb _ = true |- _ => apply negb_true_iff in X
         end.
  repeat split; auto. intros E. apply code_inj in E. subst c. discriminate.
Qed.

(** The first newline of a list, if it has one. *)
Lemma first_newline (t : list ascii) :
  ~ In newline t
  \/ exists body t', t = body ++ newline :: t' /\ ~ In newline body.
Proof.
  induction t as [|c t IH]; [left; intros []|].
  destruct (ascii_dec c newline) as [->|Hne].
  - right. exists [], t. split; [reflexivity|intros []].
  - destruct IH as [Hn|(body & t' & -> & Hb)].
    + left. intros [X|X]; [congruence|contradiction].
    + right. exists (c :: body), t'. split; [reflexivity|].
      intros [X|X]; [congruence|contradiction].
Qed.

(** One call of [next] on bare bytes: it takes some of them, the line and
    the column become those counted at the end of the bytes taken, and the
    only error it can record is the one of [UnreadRune]. *)
Lemma bare_next (n : nat) :
  forall (l : list ascii) (p : parser),
    (length l <= n)%nat -> rd_buf (p_r p) = l ->
    forallb bareByte l = true ->
    0 <= p_col p -> 0 <= p_line p ->
    p_col p + Z.of_nat (length l) + 1 < 2 ^ 63 ->
    p_line p + Z.of_nat (length l) + 1 < 2 ^ 63 ->
    (exists k ic, (k <= length l)%nat
                  /\ rd_buf (p_r (next p)) = skipn k l
                  /\ countedPosition false (firstn k l) (p_line p) (p_col p)
                     = (ic, (p_line (next p), p_col (next p)))
                  /\ (ic = true -> skipn k l = []))
    /\ (p_err (next p) = p_err p
        \/ p_err (next p) = Some ErrInvalidUnreadRune).
Proof.
  induction n as [|n IH]; intros l p Hlen Hb Hp Hc0 Hl0 Hc1 Hl1.
  { destruct l; [|cbn in Hlen; lia]. rewrite (next_end p Hb).
    split; [exists 0%nat, false; cbn; repeat split; auto; discriminate
           |left; reflexivity]. }
  destruct l as [|c t].
  { rewrite (next_end p Hb).
    split; [exists 0%nat, false; cbn; repeat split; auto; discriminate
           |left; reflexivity]. }
  cbn [forallb] in Hp. apply andb_prop in Hp. destruct Hp as [Hpc Hpt].
  destruct (bareByte_spec c Hpc) as (Hc & Hq & Hbs).
  cbn [length] in *.
  destruct (wordChar c) eqn:Hw.
  - (* a word *)
    destruct (bare_span t Hpt) as (w & rest & -> & Hww & Hr).
    rewrite length_app in *.
    assert (He : countedPosition false (c :: w) (p_line p) (p_col p)
                 = (false, (p_line p, p_col p + 1 + Z.of_nat (length w)))).
    { cbn [countedPosition].
      rewrite (wordChar_not_hash c Hw), (wordChar_not_newline c Hw).
      rewrite countedPosition_word by exact Hww. reflexivity. }
    destruct Hr as [-> |(d & t' & -> & Hd)].
    + rewrite app_nil_r in *. destruct w as [|c' w'].
      * rewrite (next_word_end1 p c Hb Hw Hbs). split; [|left; reflexivity].
        exists 1%nat, false.
        cbn [length firstn skipn p_r p_line p_col set_tok set_col set_r
             rd_buf].
        split; [lia|]. split; [reflexivity|]. split; [|discriminate].
        rewrite He. rewrite incr_small by (cbn [length] in *; lia).
        cbn [length]. do 2 f_equal. lia.
      * rewrite (next_word_end p c c' w' Hb Hw Hbs Hww).
        split; [|right; reflexivity].
        exists (S (length (c' :: w'))), false.
        cbn [p_r p_line p_col errPass set_col set_r rd_buf].
        split; [lia|]. rewrite firstn_all2, skipn_all2 by (cbn [length]; lia).
        split; [reflexivity|]. split; [|discriminate]. rewrite He.
        rewrite incrs_small by (cbn [length] in *; lia).
        cbn [length]. do 2 f_equal. lia.
    + rewrite (next_word p c w d t' Hb Hw Hbs Hww Hd).
      split; [|left; reflexivity]. exists (S (length w)), false.
      cbn [p_r p_line p_col set_tok set_col set_r rd_buf length] in *.
      split; [lia|].
      change (c :: w ++ d :: t') with ((c :: w) ++ d :: t').
      rewrite firstn_app, skipn_app.
      replace (S (length w) - length (c :: w))%nat with 0%nat
        by (cbn [length]; lia).
      rewrite firstn_all2, skipn_all2 by (cbn [length]; lia).
      cbn [firstn skipn app]. rewrite app_nil_r.
      split; [reflexivity|]. split; [|discriminate]. rewrite He.
      rewrite incrs_small by lia. rewrite decr_small by lia.
      do 2 f_equal. lia.
  - (* a delimiter *)
    assert (Hdl : delimiter (code c) = true).
    { unfold wordChar in Hw. apply Z.ltb_lt in Hc. rewrite Hc in Hw.
      cbn [andb] in Hw. apply negb_false_iff in Hw. exact Hw. }
    unfold delimiter in Hdl. rewrite Hq, orb_false_r in Hdl.
    destruct (space (code c)) eqn:Hs.
    + (* a space or a tab *)
      rewrite (next_skip p c t Hb Hs).
      assert (Hnl : Ascii.eqb c newline = false
                    /\ Ascii.eqb c "#" = false).
      { apply space_cases in Hs. destruct Hs as [-> | ->]; split;
          reflexivity. }
      destruct Hnl as [Hnl Hnh].
      set (p1 := set_col (set_r p (mkReader t (Some [c]))) (incr (p_col p))).
      assert (Hcol : p_col p1 = p_col p + 1).
      { unfold p1. cbn [p_col set_col]. apply incr_small; lia. }
      assert (H1 : (exists k ic, (k <= length t)%nat
                     /\ rd_buf (p_r (next p1)) = skipn k t
                     /\ countedPosition false (firstn k t) (p_line p1)
                          (p_col p1)
                        = (ic, (p_line (next p1), p_col (next p1)))
                     /\ (ic = true -> skipn k t = []))
                   /\ (p_err (next p1) = p_err p1
                       \/ p_err (next p1) = Some ErrInvalidUnreadRune)).
      { apply (IH t p1); [lia|reflexivity|exact Hpt|lia| | |];
          try rewrite Hcol; cbn [p1 p_line set_col set_r]; lia. }
      destruct H1 as ((k & ic & Hk & Hbuf & Hpos & Hic) & He).
      split; [|exact He].
      exists (S k), ic. split; [lia|].
      split; [exact Hbuf|]. cbn [firstn countedPosition skipn].
      rewrite Hnl, Hnh. rewrite Hcol in Hpos. split; [exact Hpos|exact Hic].
    + rewrite orb_false_r in Hdl.
      destruct (Ascii.eqb c "#") eqn:Hh.
      * (* a comment *)
        apply Ascii.eqb_eq in Hh. subst c.
        destruct (first_newline t) as [Hn|(body & t' & -> & Hn)].
        -- rewrite (next_comment_end p t Hb Hn). split; [|left; reflexivity].
           exists (S (length t)), true.
           cbn [p_r p_line p_col set_tok set_col set_r rd_buf].
           split; [lia|].
           rewrite firstn_all2, skipn_all2 by (cbn [length]; lia).
           split; [reflexivity|]. split; [|reflexivity].
           cbn [countedPosition]. change (Ascii.eqb "#" "#") with true.
           cbv iota. rewrite (countedPosition_body _ _ _ Hn).
           rewrite incr_small by lia. reflexivity.
        -- rewrite (next_comment p body t' Hb Hn).
           set (p1 := set_col (set_r p (mkReader t' None)) (incr (p_col p))).
           assert (Hcol : p_col p1 = p_col p + 1).
           { unfold p1. cbn [p_col set_col]. apply incr_small; lia. }
           rewrite length_app in *. cbn [length] in *.
           rewrite forallb_app in Hpt. apply andb_prop in Hpt.
           destruct Hpt as [_ Hpt]. cbn [forallb] in Hpt.
           apply andb_prop in Hpt. destruct Hpt as [_ Hpt].
           assert (H1 : (exists k ic, (k <= length t')%nat
                     /\ rd_buf (p_r (next p1)) = skipn k t'
                     /\ countedPosition false (firstn k t') (p_line p1)
                          (p_col p1)
                        = (ic, (p_line (next p1), p_col (next p1)))
                     /\ (ic = true -> skipn k t' = []))
                   /\ (p_err (next p1) = p_err p1
                       \/ p_err (next p1) = Some ErrInvalidUnreadRune)).
           { apply (IH t' p1); [lia|reflexivity|exact Hpt|lia| | |];
               try rewrite Hcol; cbn [p1 p_line set_col set_r]; lia. }
           destruct H1 as ((k & ic & Hk & Hbuf & Hpos & Hic) & He).
           split; [|exact He].
           exists (S (length body + 1 + k)), ic. split; [lia|].
           assert (Hf : firstn (S (length body + 1 + k))
                          ("#"%char :: body ++ newline :: t')
                        = "#"%char :: body ++ newline :: firstn k t').
           { cbn [firstn]. f_equal.
             change (body ++ newline :: t')
               with (body ++ [newline] ++ t').
             rewrite app_assoc, firstn_app.
             rewrite length_app. cbn [length].
             replace (length body + 1 + k - (length body + 1))%nat with k
               by lia.
             rewrite firstn_all2 by (rewrite length_app; cbn [length]; lia).
             rewrite <- app_assoc. reflexivity. }
           assert (Hsk : skipn (S (length body + 1 + k))
                           ("#"%char :: body ++ newline :: t')
                         = skipn k t').
           { cbn [skipn].
             change (body ++ newline :: t')
               with (body ++ [newline] ++ t').
             rewrite app_assoc, skipn_app.
             rewrite length_app. cbn [length].
             replace (length body + 1 + k - (length body + 1))%nat with k
               by lia.
             rewrite skipn_all2 by (rewrite length_app; cbn [length]; lia).
             reflexivity. }
           rewrite Hf, Hsk. split; [exact Hbuf|]. split; [|exact Hic].
           cbn [countedPosition]. change (Ascii.eqb "#" "#") with true.
           cbv iota. rewrite (countedPosition_comment _ _ _ _ Hn).
           rewrite Hcol in Hpos. exact Hpos.
      * destruct (Ascii.eqb c newline) eqn:Hn.
        -- apply Ascii.eqb_eq in Hn. subst c. rewrite (next_newline p t Hb).
           split; [|left; reflexivity]. exists 1%nat, false.
           cbn [p_r p_line p_col set_tok set_col set_line set_r rd_buf
                firstn skipn countedPosition].
           split; [lia|]. split; [reflexivity|]. split; [|discriminate].
           change (Ascii.eqb newline newline) with true.
           change (Ascii.eqb newline "#") with false. cbv iota.
           rewrite incr_small by lia. reflexivity.
        -- assert (Hne : code c <> code newline).
           { intros E. apply code_inj in E. subst c. discriminate Hn. }
           assert (Hnh : code c <> code "#").
           { intros E. apply code_inj in E. subst c. discriminate Hh. }
           rewrite (next_reserved p c t Hb Hc Hdl Hnh Hne).
           split; [|left; reflexivity]. exists 1%nat, false.
           cbn [p_r p_line p_col set_tok set_col set_r rd_buf
                firstn skipn countedPosition].
           split; [lia|]. split; [reflexivity|]. split; [|discriminate].
           rewrite Hn, Hh. rewrite incr_small by lia. reflexivity.
Qed.

Lemma wstep_counted (input : list ascii) (p q : parser) :
  forallb bareByte input = true ->
  Z.of_nat (length input) + 2 < 2 ^ 63 ->
  wstep p q -> frozen p -> counted input p ->
  counted input q /\ positioned q.
Proof.
  intros Hp Hlen Hs Hf (pre & ic & Hi & Hpos & Hic).
  destruct Hs as [p Ht| |].
  - assert (Hpl : forallb bareByte (rd_buf (p_r p)) = true).
    { rewrite Hi, forallb_app in Hp. apply andb_prop in Hp. apply Hp. }
    assert (Hl : length input = (length pre + length (rd_buf (p_r p)))%nat).
    { rewrite Hi at 1. apply length_app. }
    pose proof (countedPosition_bounds pre false 1 0 (Z.le_refl 0)) as Hb.
    rewrite Hpos in Hb. cbn [fst snd] in Hb.
    destruct (bare_next _ (rd_buf (p_r p)) p (Nat.le_refl _) eq_refl Hpl)
      as ((k & ic' & Hk & Hbuf & Hpos' & Hic') & He); try lia.
    assert (Hn : p_err p = None).
    { destruct (p_err p) eqn:E; [|reflexivity]. exfalso. apply Ht, Hf.
      rewrite E. discriminate. }
    split.
    + destruct ic.
      * (* the bytes read end inside a comment: nothing is left *)
        rewrite (Hic eq_refl) in *. rewrite app_nil_r in Hi.
        destruct k; cbn [firstn skipn countedPosition] in *.
        -- exists pre, true. rewrite Hbuf, app_nil_r.
           split; [exact Hi|]. split; [|reflexivity].
           rewrite Hpos. injection Hpos' as _ <- <-. reflexivity.
        -- exists pre, true. rewrite Hbuf, app_nil_r.
           split; [exact Hi|]. split; [|reflexivity].
           rewrite Hpos. injection Hpos' as _ <- <-. reflexivity.
      * exists (pre ++ firstn k (rd_buf (p_r p))), ic'. split.
        -- rewrite Hbuf, <- app_assoc, firstn_skipn. exact Hi.
        -- split; [|rewrite Hbuf; exact Hic'].
           rewrite countedPosition_app, Hpos. exact Hpos'.
    + unfold positioned. destruct He as [He|He]; rewrite He;
        [rewrite Hn|]; exact I.
  - split; [exists pre, ic; auto|].
    unfold positioned. cbn. eexists. reflexivity.
  - split; [exists pre, ic; auto|].
    unfold positioned. cbn. eexists. reflexivity.
Qed.

Lemma walks_counted (input : list ascii) (p q : parser) :
  forallb bareByte input = true ->
  Z.of_nat (length input) + 2 < 2 ^ 63 ->
  walks p q -> frozen p -> counted input p -> positioned p ->
  counted input q /\ positioned q.
Proof.
  intros Hp Hlen. induction 1 as [|p q r Hs Hw IH]; [auto|].
  intros Hf Hl _.
  destruct (wstep_counted _ _ _ Hp Hlen Hs Hf Hl) as (Hl' & Hp').
  apply IH; [eapply wstep_frozen; eassumption|assumption..].
Qed.

Lemma reachable_counted (input : list ascii) (name : string) (p : parser) :
  forallb bareByte input = true ->
  Z.of_nat (length input) + 2 < 2 ^ 63 ->
  reachable (str input) name p ->
  counted input p /\ positioned p.
Proof.
  intros Hp Hlen Hr. unfold reachable in Hr. rewrite list_of_str in Hr.
  apply (walks_counted input _ _ Hp Hlen Hr).
  - intros X. exfalso. apply X. reflexivity.
  - exists [], false. repeat split. discriminate.
  - exact I.
Qed.

(** C8, as stated, fails on a comment line followed by [a |] and a
    newline: the offending token is the newline at offset 6, which is on
    line 2, one comment line comes before it, and the error is reported on
    line 2, not on line 1, since a newline that is a token is counted when
    it is read, before the error is made. *)
Lemma line_not_short_by_comments :
  ~ line_short_by_comments ["#"; "c"; newline; "a"; " "; "|"; newline]%char
      "f" 6.
Proof.
  intros (col & format & v & H). vm_compute in H. discriminate H.
Qed.

(** C8, amended: a comment goes with the newline that ends it and moves
    neither the line nor the column, which only the ['#'] has advanced.  So
    on an ASCII input with no quote and no backslash that is shorter than
    [int] can count, every state of the pass has as its line the true line
    of the end of the bytes read less the number of comments that a newline ends
    among them, and as its column the number of bytes read since the last
    newline that was counted, the bytes of comments after their ['#'] left
    out; and an error that [lineErr] makes is reported at such a line and
    column, for the bytes that the pass has read, which are those read
    when the error was made. *)
Theorem comment_lines_not_counted :
  (forall (p : parser) (body t : list ascii),
      rd_buf (p_r p) = "#"%char :: body ++ newline :: t ->
      ~ In newline body ->
      next p = next (set_col (set_r p (mkReader t None)) (incr (p_col p))))
  /\ (forall (input : list ascii) (name : string),
        forallb bareByte input = true ->
        Z.of_nat (length input) + 2 < 2 ^ 63 ->
        (forall p, reachable (str input) name p ->
           exists pre,
             input = pre ++ rd_buf (p_r p)
             /\ p_line p = lineAfter pre - Z.of_nat (commentLines false pre)
             /\ p_col p = snd (snd (countedPosition false pre 1 0)))
        /\ (forall e, parse (str input) name = Some (Some e) ->
              e = ErrInvalidUnreadRune
              \/ exists p pre format v,
                   run_parse (str input) name = Some p
                   /\ input = pre ++ rd_buf (p_r p)
                   /\ e = Errorf
                            (positionAt name
                               (lineAfter pre
                                - Z.of_nat (commentLines false pre))
                               (snd (snd (countedPosition false pre 1 0)))
                             ++ format) v)).
Proof.
  split; [exact next_comment|]. intros input name Hp Hlen.
  assert (H : forall p, reachable (str input) name p ->
                exists pre,
                  input = pre ++ rd_buf (p_r p)
                  /\ p_line p
                     = lineAfter pre - Z.of_nat (commentLines false pre)
                  /\ p_col p = snd (snd (countedPosition false pre 1 0))).
  { intros p Hr.
    destruct (reachable_counted input name p Hp Hlen Hr)
      as ((pre & ic & Hi & Hpos & _) & _).
    exists pre. split; [exact Hi|].
    rewrite <- counted_line, Hpos. split; reflexivity. }
  split; [exact H|]. intros e He. unfold parse in He.
  destruct (parse_total (str input) name) as (p & Hrun & _).
  rewrite Hrun in He. cbn in He. injection He as He.
  pose proof (run_parse_reachable _ _ _ Hrun) as Hr.
  destruct (H p Hr) as (pre & Hi & Hline & Hcol).
  destruct (reachable_counted input name p Hp Hlen Hr) as (_ & Hpd).
  assert (Hn : p_name p = name).
  { apply (walks_wellLogged name _ _ Hr). split; [reflexivity|constructor]. }
  unfold positioned in Hpd. rewrite He in Hpd.
  destruct e as [| |format v]; [contradiction|left; reflexivity|].
  destruct Hpd as (rest & ->). right.
  exists p, pre, rest, v. split; [exact Hrun|]. split; [exact Hi|].
  unfold position. rewrite Hn, Hline, Hcol. reflexivity.
Qed.

(** A line, a comment line and then [(] on line 3: the error is reported
    on line 2; the example of the claim, a comment line and then [(] on
    line 2, is reported on line 1. *)
Lemma comment_lines_not_counted_witness :
  (Errorf "f:2:2: unexpected token %s" ["'('"%string] = ErrInvalidUnreadRune
   \/ exists p pre format v,
        run_parse (str ["a"; newline; "#"; "c"; newline; "("]%char) "f"
        = Some p
        /\ ["a"; newline; "#"; "c"; newline; "("]%char
           = pre ++ rd_buf (p_r p)
        /\ Errorf "f:2:2: unexpected token %s" ["'('"%string]
           = Errorf (positionAt "f"
                       (lineAfter pre - Z.of_nat (commentLines false pre))
                       (snd (snd (countedPosition false pre 1 0)))
                     ++ format) v)
  /\ line_short_by_comments ["#"; "c"; newline; "("]%char "f" 3.
Proof.
  split.
  - apply (proj2 (proj2 comment_lines_not_counted
                    ["a"; newline; "#"; "c"; newline; "("]%char "f"%string
                    eq_refl eq_refl)).
    reflexivity.
  - exists 2, "unexpected token %s"%string, ["'('"%string]. reflexivity.
Defined.

(** * The tokens of plain input *)

Lemma plainTokens_word (w' : list ascii) :
  forall (rest w : list ascii),
    forallb wordChar w' = true ->
    plainTokens (w' ++ rest) w = plainTokens rest (w ++ w').
Proof.
  induction w' as [|c w' IH]; intros rest w H.
  - rewrite app_nil_r. reflexivity.
  - cbn [forallb] in H. apply andb_prop in H. destruct H as [Hc Hw].
    cbn [app plainTokens]. rewrite Hc, IH by exact Hw.
    rewrite <- app_assoc. reflexivity.
Qed.

Lemma classify_not_EOF (runes : list Z) : classify runes <> EOF.
Proof. unfold classify. destruct (ident_MatchString runes); discriminate. Qed.

(** The lexer on plain bytes delivers the tokens of [plainTokens], and
    fails where it gives none. *)
Lemma plain_lexes (n : nat) :
  forall (l : list ascii) (p : parser),
    (length l <= n)%nat -> rd_buf (p_r p) = l ->
    forallb plainByte l = true -> p_err p = None ->
    match plainTokens l [] with
    | Some ts => lexes (next p) ts
    | None => forall ts, ~ lexes (next p) ts
    end.
Proof.
  induction n as [|n IH]; intros l p Hlen Hb Hp He.
  { destruct l; [|cbn in Hlen; lia]. cbn. rewrite (next_end p Hb).
    apply lexes_nil; [reflexivity|exact He]. }
  destruct l as [|c t].
  { cbn. rewrite (next_end p Hb). apply lexes_nil; [reflexivity|exact He]. }
  cbn [forallb] in Hp. apply andb_prop in Hp. destruct Hp as [Hpc Hpt].
  destruct (plainByte_spec c Hpc) as (Hc & Hh & Hq & Hbs).
  cbn [length] in Hlen. cbn [plainTokens].
  destruct (wordChar c) eqn:Hw.
  - (* a word *)
    destruct (word_span t Hpt) as (w & rest & -> & Hww & Hr).
    cbn [app]. rewrite (plainTokens_word w rest [c]) by exact Hww.
    cbn [app].
    destruct Hr as [-> |(d & t' & -> & Hd)].
    + rewrite app_nil_r in *. cbn [plainTokens flushEnd].
      destruct w as [|c' w'].
      * rewrite (next_word_end1 p c Hb Hw Hbs).
        match goal with |- lexes ?q _ => set (q0 := q) end.
        change (classify [code c]) with (p_tok q0).
        apply lexes_cons; [apply classify_not_EOF|].
        rewrite (next_end q0 eq_refl).
        apply lexes_nil; [reflexivity|exact He].
      * rewrite (next_word_end p c c' w' Hb Hw Hbs Hww).
        intros ts. apply lexes_dead; [reflexivity|discriminate].
    + rewrite (next_word p c w d t' Hb Hw Hbs Hww Hd).
      match goal with |- context [lexes ?q _] => set (q0 := q) end.
      assert (Hwd : wordChar d = false).
      { unfold endChar in Hd. unfold wordChar.
        apply andb_prop in Hd. destruct Hd as [-> ->]. reflexivity. }
      assert (Hpd : forallb plainByte (d :: t') = true).
      { rewrite forallb_app in Hpt. apply andb_prop in Hpt. apply Hpt. }
      pose proof (IH (d :: t') q0) as H.
      cbn [plainTokens] in H. rewrite Hwd in H. cbn [plainTokens].
      rewrite Hwd.
      assert (H' := H). clear H. 
      specialize (H' ltac:(rewrite length_app in Hlen; cbn [length] in *; lia)
                     eq_refl Hpd He).
      destruct (plainTokens t' []) as [ts|].
      * cbn [flush app] in *.
        change (classify (map code (c :: w))) with (p_tok q0).
        apply lexes_cons; [apply classify_not_EOF|exact H'].
      * intros [|t0 ts] Hl.
        -- apply lexes_inv_nil in Hl. destruct Hl as [Hl _]. revert Hl.
           apply classify_not_EOF.
        -- apply lexes_inv_cons in Hl. destruct Hl as (_ & _ & Hl).
           exact (H' _ Hl).
  - (* a delimiter *)
    assert (Hdl : delimiter (code c) = true).
    { unfold wordChar in Hw. apply Z.ltb_lt in Hc. rewrite Hc in Hw.
      cbn [andb] in Hw. apply negb_false_iff in Hw. exact Hw. }
    unfold delimiter in Hdl. rewrite Hq, orb_false_r in Hdl.
    destruct (space (code c)) eqn:Hs.
    + rewrite (next_skip p c t Hb Hs).
      specialize (IH t (set_col (set_r p (mkReader t (Some [c])))
                                (incr (p_col p)))
                     ltac:(lia) eq_refl Hpt He).
      destruct (plainTokens t []) as [ts|]; exact IH.
    + rewrite orb_false_r in Hdl.
      assert (Hn : next p
                   = set_tok (set_col (set_line
                                         (set_r p (mkReader t (Some [c])))
                                         (if code c =? code newline
                                          then incr (p_line p)
                                          else p_line p))
                                      (if code c =? code newline
                                       then 0 else incr (p_col p)))
                             (code c)).
      { destruct (code c =? code newline) eqn:En.
        - apply Z.eqb_eq, code_inj in En. subst c.
          exact (next_newline p t Hb).
        - apply Z.eqb_neq in En.
          rewrite (next_reserved p c t Hb Hc Hdl Hh En).
          destruct p; reflexivity. }
      rewrite Hn. match goal with |- context [lexes ?q _] => set (q0 := q) end.
      specialize (IH t q0 ltac:(lia) eq_refl Hpt He).
      destruct (plainTokens t []) as [ts|].
      * cbn [flush app]. change (code c) with (p_tok q0).
        apply lexes_cons; [|exact IH].
        apply reserved_not_EOF. exact Hdl.
      * intros [|t0 ts] Hl.
        -- apply lexes_inv_nil in Hl. destruct Hl as [Hl _]. revert Hl.
           apply reserved_not_EOF. exact Hdl.
        -- apply lexes_inv_cons in Hl. destruct Hl as (_ & _ & Hl).
           exact (IH _ Hl).
Qed.

(** X14: on an input of plain bytes (ASCII, with no ['#'], quote or
    backslash) the tokens that the lexer delivers are the longest runs of
    word bytes, each [IDENT] or [STRING] by the pattern of an identifier,
    and the reserved bytes, each its own token, in the order of the input;
    spaces and tabs only separate.  The one exception is a run of two
    bytes or more that ends the input, on which the lexer fails. *)
Theorem plain_tokens (l : list ascii) (name : string) :
  forallb plainByte l = true ->
  tokens (str l) name = plainTokens l [].
Proof.
  intros Hp.
  pose proof (plain_lexes (length l) l (newParser l name) (Nat.le_refl _)
                eq_refl Hp eq_refl) as H.
  destruct (plainTokens l []) as [ts|].
  - apply tokens_lexes. rewrite list_of_str. exact H.
  - destruct (tokens (str l) name) as [ts|] eqn:E; [|reflexivity].
    apply tokens_lexes in E. rewrite list_of_str in E.
    exfalso. eapply H. exact E.
Qed.

(** The input [ls -l| wc;]: an identifier, a string, the bar, an
    identifier and [;]. *)
Lemma plain_tokens_witness :
  tokens "ls -l| wc;" "f" = Some [IDENT; STRING; code "|"; IDENT; code ";"].
Proof.
  apply (plain_tokens (list_ascii_of_string "ls -l| wc;") "f").
  reflexivity.
Defined.

(** * Single-quoted strings with no end *)

Lemma next_single_unterminated (p : parser) (s : list ascii) :
  rd_buf (p_r p) = squote :: s -> ~ In squote s ->
  next p
  = errWanted (code squote)
      (set_col (set_r p (mkReader [] None)) (incr (p_col p))).
Proof.
  intros Hb Hs. apply (next_eq 3). rewrite next_fuel_S.
  rewrite (skipSpace_rune _ _ _ _ Hb);
    [|vm_compute; reflexivity|vm_compute; reflexivity].
  unfold lexRune. change (code squote =? code bslash) with false. cbv iota.
  unfold token. change (reserved (code squote)) with false.
  change (quote (code squote)) with true. cbv iota.
  change (byte_of (code squote)) with squote.
  cbn [strContent]. unfold ReadBytes. cbn [p_r set_col set_r rd_buf].
  apply cut_none in Hs. rewrite Hs. reflexivity.
Qed.

(** X15: a single quote that no single quote follows is refused, whatever
    follows it (a backslash quotes nothing there): [next] reads to the end
    of the input and records an error that wants the single quote, at the
    line and the column reached on reading the opening quote, and names
    the token that the parser held.  After an identifier this is the error
    that [parse] returns. *)
Theorem unterminated_single_quote :
  (forall (p : parser) (s : list ascii),
      rd_buf (p_r p) = squote :: s -> ~ In squote s ->
      next p
      = errWanted (code squote)
          (set_col (set_r p (mkReader [] None)) (incr (p_col p))))
  /\ (forall (r name : string) (s : list ascii),
        let p1 := next (newParser (list_ascii_of_string r) name) in
        p_tok p1 = IDENT -> rd_buf (p_r p1) = squote :: s ->
        ~ In squote s ->
        parse r name
        = Some (Some (Errorf (positionAt name (p_line p1) (incr (p_col p1))
                              ++ "unexpected token %s, wanted %s")
                             [tokStr IDENT; tokStr (code squote)]))).
Proof.
  split; [exact next_single_unterminated|].
  intros r name s p1 Ht Hb Hs. unfold parse.
  rewrite (run_parse_ident r name Ht). fold p1.
  rewrite (next_single_unterminated p1 s Hb Hs).
  rewrite identLoop_eof by reflexivity.
  rewrite programLoop_eof by reflexivity.
  cbn [option_map]. unfold errWanted, lineErr, errPass, position.
  cbn [p_err p_name p_line p_col p_tok set_col set_r].
  rewrite Ht. unfold p1. rewrite next_name. reflexivity.
Qed.

(** * Braces and parentheses of an accepted input *)

Lemma count_cons (t x : Z) (ts : list Z) :
  count t (x :: ts) = ((if (t =? x)%Z then 1 else 0) + count t ts)%nat.
Proof. unfold count. cbn [filter]. destruct (t =? x); reflexivity. Qed.

(** The counts of a sequence that starts with known tokens. *)
Ltac counts :=
  unfold closes in *; rewrite ?count_cons;
  repeat match goal with
         | |- context [code ?a =? ?b] =>
             let v := eval vm_compute in (code a =? b) in
             change (code a =? b) with v
         end;
  cbv iota; lia.

Lemma grammar_closes :
  (forall id ts r, Tail id ts r -> closes 0 ts r)
  /\ (forall ts r, Cmd ts r -> closes 0 ts r)
  /\ (forall ts r, Block ts r -> closes 1 ts r)
  /\ (forall m r, After m r -> closes 0 m r).
Proof.
  apply grammar_mut; intros;
    repeat match goal with
           | H : wordTok ?w = true |- _ =>
               apply wordTok_cases in H; destruct H as [-> | ->]
           end;
    counts.
Qed.

Lemma Prog_closes (ts : list Z) : Prog ts -> closes 0 ts [].
Proof.
  induction 1 as [|ts _ IH|ts r HC _ IH]; [counts|counts|].
  apply (proj1 (proj2 grammar_closes)) in HC. counts.
Qed.

(** X16: the braces and the parentheses of an accepted input balance:
    among the tokens that the lexer delivered there are as many closing
    braces as opening ones, and as many closing parentheses as opening
    ones (braces and parentheses inside quoted strings or comments are no
    tokens and do not count). *)
Theorem accepted_input_balances (r name : string) :
  parse r name = Some None ->
  exists ts, tokens r name = Some ts
             /\ count (code "{") ts = count (code "}") ts
             /\ count (code "(") ts = count (code ")") ts.
Proof.
  unfold parse. intros H.
  destruct (parse_total r name) as (p & Hp & Ht & _).
  rewrite Hp in H. cbn in H. injection H as He.
  assert (Hl : lexes p []) by (apply lexes_nil; assumption).
  unfold run_parse, program in Hp.
  destruct (programLoop_complete _ (command_complete _) _ _ _ _ Hp Hl)
    as (ts & Hts & HP).
  exists ts. split; [apply tokens_lexes; exact Hts|].
  apply Prog_closes in HP. destruct HP as [H1 H2].
  unfold count in *. cbn [filter length] in *. lia.
Qed.

(** The input [f() { { a; }; }]. *)
Lemma accepted_input_balances_witness :
  exists ts, tokens "f() { { a; }; }" "f" = Some ts
             /\ count (code "{") ts = count (code "}") ts
             /\ count (code "(") ts = count (code ")") ts.
Proof.
  apply (accepted_input_balances "f() { { a; }; }" "f"). reflexivity.
Defined.

(** * The name is read by [lineErr] only *)

Lemma alike_errPass (e e' : error) (p q : parser) :
  alike p q -> alike (errPass e p) (errPass e' q).
Proof.
  intros (H1 & H2 & H3 & H4 & H5). repeat split; cbn; auto; discriminate.
Qed.

Lemma alike_set_r (p q : parser) (rd : Reader) :
  alike p q -> alike (set_r p rd) (set_r q rd).
Proof. intros (H1 & H2 & H3 & H4 & H5). repeat split; cbn; tauto. Qed.

Lemma alike_set_tok (p q : parser) (t : Z) :
  alike p q -> alike (set_tok p t) (set_tok q t).
Proof. intros (H1 & H2 & H3 & H4 & H5). repeat split; cbn; tauto. Qed.

Lemma alike_set_col (p q : parser) (c c' : Z) :
  alike p q -> c = c' -> alike (set_col p c) (set_col q c').
Proof. intros (H1 & H2 & H3 & H4 & H5) ->. repeat split; cbn; tauto. Qed.

Lemma alike_set_line (p q : parser) (l l' : Z) :
  alike p q -> l = l' -> alike (set_line p l) (set_line q l').
Proof. intros (H1 & H2 & H3 & H4 & H5) ->. repeat split; cbn; tauto. Qed.

Create HintDb alike.

#[local] Hint Resolve alike_errPass alike_set_r alike_set_tok alike_set_col
  alike_set_line : alike.

Lemma strContent_alike (fuel : nat) (d : ascii) (p q : parser) :
  alike p q -> alikeOpt (strContent fuel d p) (strContent fuel d q).
Proof.
  revert p q. induction fuel as [|n IH]; intros p q H; [exact I|].
  cbn [strContent]. destruct H as (H1 & H).
  rewrite <- H1. destruct (ReadBytes d (p_r p)) as [[b e] rd].
  assert (Ha : alike
            (match e with
             | Some io_EOF => errWanted (code d) (set_r p rd)
             | Some e0 => errPass e0 (set_r p rd)
             | None => set_r p rd
             end)
            (match e with
             | Some io_EOF => errWanted (code d) (set_r q rd)
             | Some e0 => errPass e0 (set_r q rd)
             | None => set_r q rd
             end)).
  { assert (H0 : alike (set_r p rd) (set_r q rd))
      by (repeat split; cbn; tauto).
    destruct e as [[| |]|]; auto with alike;
      unfold errWanted, lineErr; auto with alike. }
  destruct (Ascii.eqb d squote); [exact Ha|].
  destruct (_ && _); [apply IH|]; exact Ha.
Qed.

Lemma discardUpTo_alike (d : ascii) (p q : parser) :
  alike p q -> alike (discardUpTo d p) (discardUpTo d q).
Proof.
  intros H. unfold discardUpTo. destruct H as (H1 & H). rewrite <- H1.
  destruct (ReadBytes d (p_r p)) as [[b e] rd].
  assert (H0 : alike (set_r p rd) (set_r q rd))
    by (repeat split; cbn; tauto).
  destruct e as [[| |]|]; auto with alike.
Qed.

(** Two outcomes of the loop over spaces that are alike. *)
Lemma skipSpace_alike (fuel : nat) (p q : parser) :
  alike p q ->
  match skipSpace fuel p, skipSpace fuel q with
  | Some (Returned p'), Some (Returned q') => alike p' q'
  | Some (Rune r p'), Some (Rune r' q') => r = r' /\ alike p' q'
  | None, None => True
  | _, _ => False
  end.
Proof.
  revert p q. induction fuel as [|n IH]; intros p q H; [exact I|].
  cbn [skipSpace]. pose proof H as (H1 & H2 & H3 & H4 & H5).
  rewrite <- H1. destruct (ReadRune (p_r p)) as [[[r sz] e] rd].
  assert (H0 : alike (set_r p rd) (set_r q rd)) by auto with alike.
  destruct e as [[| |]|]; auto with alike.
  assert (Hc : alike (set_col (set_r p rd) (incr (p_col (set_r p rd))))
                     (set_col (set_r q rd) (incr (p_col (set_r q rd))))).
  { apply alike_set_col; [exact H0|]. cbn. rewrite H4. reflexivity. }
  destruct (space r); [apply IH; exact Hc|split; [reflexivity|exact Hc]].
Qed.

Lemma readRun_alike (fuel : nat) (r : Z) (runes : list Z) (p q : parser) :
  alike p q ->
  match readRun fuel r runes p, readRun fuel r runes q with
  | Some (RunFailed p'), Some (RunFailed q') => alike p' q'
  | Some (RunEnd rs p'), Some (RunEnd rs' q') => rs = rs' /\ alike p' q'
  | None, None => True
  | _, _ => False
  end.
Proof.
  revert r runes p q. induction fuel as [|n IH]; intros r runes p q H;
    [exact I|].
  cbn [readRun]. destruct (_ && _); [|split; [reflexivity|exact H]].
  pose proof H as (H1 & H2 & H3 & H4 & H5).
  rewrite <- H1. destruct (ReadRune (p_r p)) as [[[r' sz] e] rd].
  assert (H0 : alike (set_r p rd) (set_r q rd)) by auto with alike.
  destruct e as [[| |]|]; auto with alike.
  apply IH. apply alike_set_col; [exact H0|]. cbn. rewrite H4. reflexivity.
Qed.

Lemma word_alike (fuel : nat) (r : Z) (p q : parser) :
  alike p q -> alikeOpt (word fuel r p) (word fuel r q).
Proof.
  intros H. unfold word. pose proof (readRun_alike fuel r [r] p q H) as Hr.
  destruct (readRun fuel r [r] p) as [[p'|rs p']|],
           (readRun fuel r [r] q) as [[q'|rs' q']|]; try contradiction;
    try exact Hr; try exact I.
  destruct Hr as (<- & Hr). pose proof Hr as (H1 & H2 & H3 & H4 & H5).
  destruct (1 <? length rs)%nat; [|cbn; auto with alike].
  rewrite <- H1. destruct (UnreadRune (p_r p')) as [[e|] rd]; cbn.
  - auto with alike.
  - apply alike_set_tok. apply alike_set_col; [auto with alike|].
    rewrite H4. reflexivity.
Qed.

Lemma token_alike (n1 n2 : parser -> option parser) (fuel : nat) (r : Z)
    (p q : parser) :
  (forall a b, alike a b -> alikeOpt (n1 a) (n2 b)) ->
  alike p q -> alikeOpt (token n1 fuel r p) (token n2 fuel r q).
Proof.
  intros Hn H. unfold token. destruct (reserved r).
  - destruct (r =? code "#"); [apply Hn, discardUpTo_alike; exact H|].
    pose proof H as (H1 & H2 & H3 & H4 & H5). cbn.
    apply alike_set_tok.
    destruct (r =? code newline); [|exact H].
    apply alike_set_col; [|reflexivity].
    apply alike_set_line; [exact H|]. rewrite H3. reflexivity.
  - destruct (quote r); [|apply word_alike; exact H].
    pose proof (strContent_alike fuel (byte_of r) p q H) as Hs.
    destruct (strContent fuel (byte_of r) p) as [p'|],
             (strContent fuel (byte_of r) q) as [q'|]; try contradiction;
      [|exact I].
    cbn in Hs. pose proof Hs as (H1 & H2 & H3 & H4 & H5). rewrite <- H2.
    destruct (p_tok p' =? EOF); cbn; auto with alike.
Qed.

Lemma next_fuel_alike (fuel : nat) (p q : parser) :
  alike p q -> alikeOpt (next_fuel fuel p) (next_fuel fuel q).
Proof.
  revert p q. induction fuel as [|n IH]; intros p q H; [exact I|].
  rewrite !next_fuel_S. pose proof (skipSpace_alike n p q H) as Hs.
  destruct (skipSpace n p) as [[p'|r p']|],
           (skipSpace n q) as [[q'|r' q']|]; try contradiction;
    try exact Hs; try exact I.
  destruct Hs as (<- & Hs). unfold lexRune.
  destruct (r =? code bslash); [|apply token_alike; assumption].
  pose proof (IH _ _ Hs) as H1.
  destruct (next_fuel n p') as [p1|], (next_fuel n q') as [q1|];
    try contradiction; [|exact I].
  cbn in H1. pose proof H1 as (E1 & E2 & E3 & E4 & E5). rewrite <- E2.
  destruct (p_tok p1 =? code newline); [apply IH; exact H1|].
  rewrite <- E1. destruct (UnreadRune (p_r p1)) as [[e|] rd].
  - cbn. auto with alike.
  - apply token_alike; [exact IH|].
    apply alike_set_col; [auto with alike|]. rewrite E4. reflexivity.
Qed.

Lemma next_alike (p q : parser) : alike p q -> alike (next p) (next q).
Proof.
  intros H. pose proof (next_fuel_alike (lexFuel p) p q H) as Hn.
  rewrite next_defined in Hn.
  assert (Hf : lexFuel q = lexFuel p).
  { unfold lexFuel. destruct H as (-> & _). reflexivity. }
  rewrite <- Hf, next_defined in Hn. exact Hn.
Qed.

Lemma lexes_alike (p : parser) (ts : list Z) :
  lexes p ts -> forall q, alike p q -> lexes q ts.
Proof.
  induction 1 as [p Ht He|p ts Ht _ IH]; intros q H;
    pose proof H as (H1 & H2 & H3 & H4 & H5).
  - apply lexes_nil; [congruence|tauto].
  - rewrite H2. apply lexes_cons; [congruence|].
    apply IH, next_alike, H.
Qed.

Lemma tokens_name (r name name' : string) :
  tokens r name = tokens r name'.
Proof.
  assert (H : forall n n' ts, tokens r n = Some ts -> tokens r n' = Some ts).
  { intros n n' ts Hn. apply tokens_lexes. apply tokens_lexes in Hn.
    apply (lexes_alike _ _ Hn). apply next_alike.
    repeat split; reflexivity. }
  destruct (tokens r name) as [ts|] eqn:E.
  - symmetry. apply (H name name'). exact E.
  - destruct (tokens r name') as [ts|] eqn:E'; [|reflexivity].
    rewrite (H name' name ts E') in E. discriminate E.
Qed.

(** X17: the name given to [parse] is read by [lineErr] only: the tokens
    of an input are the same under any two names, and so is the verdict, an
    input accepted under one name being accepted under every other. *)
Theorem name_does_not_matter (r name name' : string) :
  tokens r name = tokens r name'
  /\ (parse r name = Some None <-> parse r name' = Some None).
Proof.
  split; [apply tokens_name|].
  assert (H : forall n n', parse r n = Some None -> parse r n' = Some None).
  { intros n n'. unfold parse. intros H.
    destruct (parse_total r n) as (p & Hp & Ht & _).
    rewrite Hp in H. cbn in H. injection H as He.
    assert (Hl : lexes p []) by (apply lexes_nil; assumption).
    unfold run_parse, program in Hp.
    destruct (programLoop_complete _ (command_complete _) _ _ _ _ Hp Hl)
      as (ts & Hts & HP).
    apply (lexes_Prog_accepted r n' ts); [|exact HP].
    apply tokens_lexes. rewrite (tokens_name r n' n).
    apply tokens_lexes. exact Hts. }
  split; apply H.
Qed.

(** * The pass in its environment: the tables as declared, no read error *)

Lemma computes_ret {A : Type} (a : A) : computes (Env.ret a) (Some a).
Proof. reflexivity. Qed.

Lemma computes_bind {A B : Type} (m : Env.M A) (k : A -> Env.M B)
    (x : option A) (f : A -> option B) :
  computes m x -> (forall a, computes (k a) (f a)) ->
  computes (Env.bind m k) (match x with Some a => f a | None => None end).
Proof.
  unfold computes, Env.bind. intros -> Hk. destruct x as [a|]; cbn; auto.
Qed.

Lemma env_ReadRune (b : Reader) :
  computes (Env.ReadRune b) (Some (ReadRune b)).
Proof. unfold computes, Env.ReadRune. destruct (rd_buf b); reflexivity. Qed.

Lemma env_ReadBytes (d : ascii) (b : Reader) :
  computes (Env.ReadBytes d b) (Some (ReadBytes d b)).
Proof.
  unfold computes, Env.ReadBytes.
  destruct (cut d (rd_buf b)) as [[line rest]|]; reflexivity.
Qed.

Lemma env_strContent (fuel : nat) (d : ascii) (p : parser) :
  computes (Env.strContent fuel d p) (strContent fuel d p).
Proof.
  revert p. induction fuel as [|n IH]; intros p; [reflexivity|].
  cbn [Env.strContent strContent]. unfold computes, Env.bind.
  rewrite env_ReadBytes. cbn [option_map].
  destruct (ReadBytes d (p_r p)) as [[b err] rd].
  destruct (Ascii.eqb d squote); [reflexivity|].
  destruct ((1 <? length b)%nat
            && Ascii.eqb (nth (length b - 2) b zero) bslash
            && Ascii.eqb (nth (length b - 1) b zero) d);
    [apply IH|reflexivity].
Qed.

Lemma env_discardUpTo (d : ascii) (p : parser) :
  computes (Env.discardUpTo d p) (Some (discardUpTo d p)).
Proof.
  unfold computes, Env.discardUpTo, discardUpTo, Env.bind.
  rewrite env_ReadBytes. cbn [option_map].
  destruct (ReadBytes d (p_r p)) as [[b err] rd].
  destruct err as [[]|]; reflexivity.
Qed.

Lemma env_skipSpace (fuel : nat) (p : parser) :
  computes (Env.skipSpace fuel p) (skipSpace fuel p).
Proof.
  revert p. induction fuel as [|n IH]; intros p; [reflexivity|].
  cbn [Env.skipSpace skipSpace]. unfold computes, Env.bind.
  rewrite env_ReadRune. cbn [option_map].
  destruct (ReadRune (p_r p)) as [[[r sz] err] rd].
  destruct err as [[]|]; try reflexivity.
  unfold Env.lookup. cbn [Env.w_pkg Env.world0 Env.pk_space Env.package0].
  destruct (space r); [apply IH|reflexivity].
Qed.

Lemma env_delimits (r : Z) :
  computes (Env.orElse (Env.lookup Env.pk_reserved r)
              (Env.orElse (Env.lookup Env.pk_quote r)
                          (Env.lookup Env.pk_space r)))
           (Some (reserved r || quote r || space r)).
Proof.
  unfold computes, Env.orElse, Env.bind, Env.lookup, Env.ret.
  cbn [Env.w_pkg Env.world0 Env.pk_space Env.pk_quote Env.pk_reserved
       Env.package0 option_map].
  destruct (reserved r); [reflexivity|].
  cbn [Env.w_pkg Env.world0 Env.package0 Env.pk_space Env.pk_quote orb].
  destruct (quote r); reflexivity.
Qed.

Lemma env_readRun (fuel : nat) (r : Z) (runes : list Z) (p : parser) :
  computes (Env.readRun fuel r runes p) (readRun fuel r runes p).
Proof.
  revert r runes p. induction fuel as [|n IH]; intros r runes p;
    [reflexivity|].
  cbn [Env.readRun readRun]. unfold computes, Env.bind.
  rewrite env_delimits. cbn [option_map]. rewrite !negb_orb.
  destruct (negb (reserved r) && negb (quote r) && negb (space r));
    [|reflexivity].
  rewrite env_ReadRune. cbn [option_map].
  destruct (ReadRune (p_r p)) as [[[r' sz] err] rd].
  destruct err as [[]|]; try reflexivity. apply IH.
Qed.

Lemma env_classify (runes : list Z) :
  computes (Env.classify runes) (Some (classify runes)).
Proof. reflexivity. Qed.

Lemma env_word (fuel : nat) (r : Z) (p : parser) :
  computes (Env.word fuel r p) (word fuel r p).
Proof.
  unfold Env.word, word, computes, Env.bind. rewrite env_readRun.
  destruct (readRun fuel r [r] p) as [[q|runes q]|]; cbn [option_map];
    try reflexivity.
  destruct (1 <? length runes)%nat; [|reflexivity].
  destruct (UnreadRune (p_r q)) as [[e|] rd]; reflexivity.
Qed.

Section EnvLexer.

Variable next'E : parser -> Env.M parser.
Variable next' : parser -> option parser.
Hypothesis Hnext : forall p, computes (next'E p) (next' p).

Lemma env_token (fuel : nat) (r : Z) (p : parser) :
  computes (Env.token next'E fuel r p) (token next' fuel r p).
Proof.
  unfold Env.token, token, computes, Env.bind, Env.lookup.
  cbn [Env.w_pkg Env.world0 Env.pk_quote Env.pk_reserved Env.package0].
  fold Env.world0.
  destruct (reserved r).
  - destruct (r =? code "#"); [|reflexivity].
    rewrite env_discardUpTo. cbn [option_map]. apply Hnext.
  - cbn [Env.w_pkg Env.world0 Env.pk_quote Env.package0]. fold Env.world0.
    destruct (quote r); [|apply env_word].
    rewrite env_strContent.
    destruct (strContent fuel (byte_of r) p) as [q|]; cbn [option_map];
      [|reflexivity].
    destruct (p_tok q =? EOF); reflexivity.
Qed.

Lemma env_lexRune (fuel : nat) (r : Z) (p : parser) :
  computes (Env.lexRune next'E fuel r p) (lexRune next' fuel r p).
Proof.
  unfold Env.lexRune, lexRune.
  destruct (r =? code bslash); [|apply env_token].
  unfold computes, Env.bind. rewrite Hnext.
  destruct (next' p) as [q|]; cbn [option_map]; [|reflexivity].
  destruct (p_tok q =? code newline); [apply Hnext|].
  destruct (UnreadRune (p_r q)) as [[e|] rd]; [reflexivity|].
  apply env_token.
Qed.

End EnvLexer.

Lemma env_next_fuel (fuel : nat) (p : parser) :
  computes (Env.next_fuel fuel p) (next_fuel fuel p).
Proof.
  revert p. induction fuel as [|n IH]; intros p; [reflexivity|].
  cbn [Env.next_fuel next_fuel]. unfold computes, Env.bind.
  rewrite env_skipSpace.
  destruct (skipSpace n p) as [[q|r q]|]; cbn [option_map];
    try reflexivity.
  apply env_lexRune. exact IH.
Qed.

Lemma env_next (p : parser) : computes (Env.next p) (Some (next p)).
Proof.
  unfold computes, Env.next. cbn [Env.w_src Env.world0 Env.pending map
                                   list_sum fold_right].
  rewrite Nat.add_0_r, env_next_fuel, next_defined. reflexivity.
Qed.

Lemma env_got (tok : Z) (p : parser) :
  computes (Env.got tok p) (Some (got tok p)).
Proof.
  unfold Env.got, got. destruct (p_tok p =? tok); [|reflexivity].
  unfold computes, Env.bind. rewrite env_next. reflexivity.
Qed.

Lemma env_want (tok : Z) (p : parser) :
  computes (Env.want tok p) (Some (want tok p)).
Proof.
  unfold Env.want, want. destruct (negb (p_tok p =? tok)); [reflexivity|].
  apply env_next.
Qed.

(** One [case p.got(tok)] of a [switch], on both sides. *)
Ltac env_case :=
  unfold computes, Env.bind; rewrite env_got; cbn [option_map];
  cbv beta iota;
  match goal with
  | |- context [got ?t ?p] =>
      let q := fresh "q" in destruct (got t p) as [[|] q]
  end; cbv beta iota.

Lemma env_value (p : parser) :
  computes (Env.value p) (Some (value p)).
Proof.
  unfold Env.value, value. env_case; [reflexivity|].
  env_case; reflexivity.
Qed.

Lemma env_assigned (p : parser) :
  computes (Env.assigned p) (Some (assigned p)).
Proof.
  unfold Env.assigned, assigned. env_case; [reflexivity|].
  unfold computes, Env.bind. rewrite env_got. cbn [option_map].
  destruct (got STRING q) as [b q']. reflexivity.
Qed.

Lemma env_redirected (p : parser) :
  computes (Env.redirected p) (Some (redirected p)).
Proof.
  unfold Env.redirected, redirected. env_case; [reflexivity|].
  unfold computes, Env.bind. rewrite env_got. cbn [option_map].
  destruct (got (code "&") q) as [b q']. reflexivity.
Qed.

(** A call of [want], [value], [assigned] or [redirected] that comes
    first. *)
Ltac env_call lem :=
  unfold computes, Env.bind; rewrite lem; cbn [option_map]; cbv beta iota.

Section EnvWalker.

Variable commandE : parser -> Env.M parser.
Variable command' : parser -> option parser.
Hypothesis Hcmd : forall p, computes (commandE p) (command' p).

Lemma env_andThen (p : parser) :
  computes (Env.andThen commandE p) (andThen command' p).
Proof.
  unfold Env.andThen, andThen. env_case; [apply Hcmd|reflexivity].
Qed.

Lemma env_pipeThen (p : parser) :
  computes (Env.pipeThen commandE p) (pipeThen command' p).
Proof.
  unfold Env.pipeThen, pipeThen. unfold computes, Env.bind.
  rewrite env_got. cbn [option_map].
  destruct (got (code "|") p) as [b q]. apply Hcmd.
Qed.

(** A round that calls [command] and goes on with [L]. *)
Lemma env_command_then (LE : parser -> Env.M parser)
    (L : parser -> option parser) (p : parser) :
  (forall q, computes (LE q) (L q)) ->
  computes (Env.bind (commandE p) LE)
           (match command' p with Some q => L q | None => None end).
Proof.
  intros HL. unfold computes, Env.bind. rewrite Hcmd.
  destruct (command' p) as [q|]; [apply HL|reflexivity].
Qed.

Lemma env_funcBody (fuel : nat) (p : parser) :
  computes (Env.funcBody commandE fuel p) (funcBody command' fuel p).
Proof.
  revert p. induction fuel as [|n IH]; intros p; [reflexivity|].
  cbn [Env.funcBody funcBody]. env_case; [reflexivity|].
  destruct (p_tok q =? EOF); [reflexivity|].
  env_case; [apply IH|]. apply env_command_then. exact IH.
Qed.

Lemma env_identLoop (fuel : nat) (p : parser) :
  computes (Env.identLoop commandE fuel p) (identLoop command' fuel p).
Proof.
  revert p. induction fuel as [|n IH]; intros p; [reflexivity|].
  cbn [Env.identLoop identLoop].
  destruct (p_tok p =? EOF); [reflexivity|].
  env_case; [apply IH|].
  env_case; [apply IH|].
  env_case; [env_call env_assigned; apply IH|].
  env_case; [apply env_andThen|].
  env_case; [apply env_pipeThen|].
  env_case; [env_call env_want; env_call env_want; apply env_funcBody|].
  env_case; [env_call env_redirected; env_call env_value; apply IH|].
  env_case; [env_call env_value; apply IH|].
  env_case; [reflexivity|].
  env_case; [reflexivity|].
  apply IH.
Qed.

Lemma env_stringLoop (fuel : nat) (p : parser) :
  computes (Env.stringLoop commandE fuel p) (stringLoop command' fuel p).
Proof.
  revert p. induction fuel as [|n IH]; intros p; [reflexivity|].
  cbn [Env.stringLoop stringLoop].
  destruct (p_tok p =? EOF); [reflexivity|].
  env_case; [apply IH|].
  env_case; [apply IH|].
  env_case; [apply env_andThen|].
  env_case; [apply env_pipeThen|].
  env_case; [env_call env_redirected; env_call env_value; apply IH|].
  env_case; [env_call env_value; apply IH|].
  env_case; [reflexivity|].
  env_case; [reflexivity|].
  apply IH.
Qed.

Lemma env_braceBody (fuel : nat) (p : parser) :
  computes (Env.braceBody commandE fuel p) (braceBody command' fuel p).
Proof.
  revert p. induction fuel as [|n IH]; intros p; [reflexivity|].
  cbn [Env.braceBody braceBody].
  destruct (negb (p_tok p =? EOF) && negb (p_tok p =? code "}"));
    [|reflexivity].
  env_case; [apply IH|]. apply env_command_then. exact IH.
Qed.

Lemma env_braceTail (p : parser) :
  computes (Env.braceTail commandE p) (braceTail command' p).
Proof.
  unfold Env.braceTail, braceTail. env_call env_want.
  env_case; [apply env_andThen|].
  env_case; [apply env_pipeThen|].
  env_case; [env_call env_redirected; apply env_value|].
  env_case; [apply env_value|].
  env_case; [reflexivity|].
  env_case; reflexivity.
Qed.

Lemma env_commandBody (fuel : nat) (p : parser) :
  computes (Env.commandBody commandE fuel p) (commandBody command' fuel p).
Proof.
  unfold Env.commandBody, commandBody.
  env_case; [apply env_identLoop|].
  env_case; [apply env_stringLoop|].
  env_case; [|reflexivity].
  unfold computes, Env.bind. rewrite env_braceBody.
  destruct (braceBody command' fuel q1) as [q2|]; cbn [option_map];
    [apply env_braceTail|reflexivity].
Qed.

Lemma env_programLoop (fuel : nat) (p : parser) :
  computes (Env.programLoop commandE fuel p) (programLoop command' fuel p).
Proof.
  revert p. induction fuel as [|n IH]; intros p; [reflexivity|].
  cbn [Env.programLoop programLoop].
  destruct (negb (p_tok p =? EOF)); [|reflexivity].
  env_case; [apply IH|]. apply env_command_then. exact IH.
Qed.

End EnvWalker.

Lemma env_command (fuel : nat) (p : parser) :
  computes (Env.command fuel p) (command fuel p).
Proof.
  revert p. induction fuel as [|n IH]; intros p; [reflexivity|].
  cbn [Env.command command]. apply env_commandBody. exact IH.
Qed.

Lemma env_program (fuel : nat) (p : parser) :
  computes (Env.program fuel p) (program fuel p).
Proof.
  unfold Env.program, program. env_call env_next.
  apply env_programLoop. intros q. apply env_command.
Qed.

(** On a reader that does not fail the pass in its environment returns
    what [parse] returns, and leaves the package as it was. *)
Lemma env_parse (r name : string) :
  computes (Env.parse (list_ascii_of_string r, []) name) (parse r name).
Proof.
  unfold Env.parse, parse, Env.run_parse, run_parse, computes, Env.bind.
  cbn [fst snd Env.w_pkg Env.world0]. fold Env.world0.
  unfold Env.passFuel, Env.pending.
  cbn [fst snd map list_sum fold_right]. rewrite Nat.add_0_r.
  fold (passFuel (list_ascii_of_string r)). rewrite env_program.
  destruct (program _ _) as [q|]; reflexivity.
Qed.

(** * The pass in its environment: the package is only read *)

Lemma keeps_ret {A : Type} (a : A) : keeps (Env.ret a).
Proof. intros w x w' H. injection H as _ <-. reflexivity. Qed.

Lemma keeps_out_of_fuel {A : Type} : keeps (@Env.out_of_fuel A).
Proof. intros w x w' H. discriminate H. Qed.

Lemma keeps_bind {A B : Type} (m : Env.M A) (k : A -> Env.M B) :
  keeps m -> (forall a, keeps (k a)) -> keeps (Env.bind m k).
Proof.
  intros Hm Hk w b w' H. unfold Env.bind in H.
  destruct (m w) as [[a w1]|] eqn:E; [|discriminate H].
  rewrite (Hk a _ _ _ H). exact (Hm _ _ _ E).
Qed.

Lemma keeps_lookup (table : Env.package -> Z -> bool) (r : Z) :
  keeps (Env.lookup table r).
Proof. intros w x w' H. injection H as _ <-. reflexivity. Qed.

Lemma keeps_MatchString (s : list Z) : keeps (Env.MatchString s).
Proof. intros w x w' H. injection H as _ <-. reflexivity. Qed.

Lemma keeps_ReadRune (b : Reader) : keeps (Env.ReadRune b).
Proof.
  intros w x w' H. unfold Env.ReadRune in H.
  destruct (rd_buf b), (Env.w_src w) as [|[e bytes] src];
    injection H as _ <-; reflexivity.
Qed.

Lemma keeps_ReadBytes (d : ascii) (b : Reader) : keeps (Env.ReadBytes d b).
Proof.
  intros w x w' H. unfold Env.ReadBytes in H.
  destruct (cut d (rd_buf b)) as [[line rest]|],
           (Env.w_src w) as [|[e bytes] src];
    injection H as _ <-; reflexivity.
Qed.

Create HintDb keeps.

#[local] Hint Resolve keeps_ret keeps_out_of_fuel keeps_lookup
  keeps_MatchString keeps_ReadRune keeps_ReadBytes : keeps.

(** The cases of a computation, down to calls that keep the package. *)
Ltac keeps_cases :=
  repeat first
    [ progress auto with keeps
    | apply keeps_bind; [|intros ?]
    | match goal with
      | |- keeps (match ?x with _ => _ end) => destruct x
      | |- keeps (Env.orElse _ _) => unfold Env.orElse
      end ].

Lemma keeps_strContent (fuel : nat) (d : ascii) (p : parser) :
  keeps (Env.strContent fuel d p).
Proof.
  revert p. induction fuel as [|n IH]; intros p; cbn [Env.strContent];
    keeps_cases.
Qed.

Lemma keeps_discardUpTo (d : ascii) (p : parser) :
  keeps (Env.discardUpTo d p).
Proof. unfold Env.discardUpTo. keeps_cases. Qed.

Lemma keeps_skipSpace (fuel : nat) (p : parser) :
  keeps (Env.skipSpace fuel p).
Proof.
  revert p. induction fuel as [|n IH]; intros p; cbn [Env.skipSpace];
    keeps_cases.
Qed.

Lemma keeps_readRun (fuel : nat) (r : Z) (runes : list Z) (p : parser) :
  keeps (Env.readRun fuel r runes p).
Proof.
  revert r runes p. induction fuel as [|n IH]; intros r runes p;
    cbn [Env.readRun]; keeps_cases.
Qed.

#[local] Hint Resolve keeps_strContent keeps_discardUpTo keeps_skipSpace
  keeps_readRun : keeps.

Lemma keeps_word (fuel : nat) (r : Z) (p : parser) :
  keeps (Env.word fuel r p).
Proof. unfold Env.word, Env.classify. keeps_cases. Qed.

#[local] Hint Resolve keeps_word : keeps.

Lemma keeps_token (next' : parser -> Env.M parser) (fuel : nat) (r : Z)
    (p : parser) :
  (forall q, keeps (next' q)) -> keeps (Env.token next' fuel r p).
Proof. intros Hn. unfold Env.token. keeps_cases. Qed.

Lemma keeps_lexRune (next' : parser -> Env.M parser) (fuel : nat) (r : Z)
    (p : parser) :
  (forall q, keeps (next' q)) -> keeps (Env.lexRune next' fuel r p).
Proof.
  intros Hn. unfold Env.lexRune. keeps_cases; apply keeps_token; exact Hn.
Qed.

Lemma keeps_next_fuel (fuel : nat) (p : parser) :
  keeps (Env.next_fuel fuel p).
Proof.
  revert p. induction fuel as [|n IH]; intros p; cbn [Env.next_fuel];
    keeps_cases. apply keeps_lexRune. exact IH.
Qed.

Lemma keeps_next (p : parser) : keeps (Env.next p).
Proof. intros w a w' H. exact (keeps_next_fuel _ _ _ _ _ H). Qed.

#[local] Hint Resolve keeps_next : keeps.

Lemma keeps_got (tok : Z) (p : parser) : keeps (Env.got tok p).
Proof. unfold Env.got. keeps_cases. Qed.

Lemma keeps_want (tok : Z) (p : parser) : keeps (Env.want tok p).
Proof. unfold Env.want. keeps_cases. Qed.

#[local] Hint Resolve keeps_got keeps_want : keeps.

Lemma keeps_value (p : parser) : keeps (Env.value p).
Proof. unfold Env.value. keeps_cases. Qed.

Lemma keeps_assigned (p : parser) : keeps (Env.assigned p).
Proof. unfold Env.assigned. keeps_cases. Qed.

Lemma keeps_redirected (p : parser) : keeps (Env.redirected p).
Proof. unfold Env.redirected. keeps_cases. Qed.

#[local] Hint Resolve keeps_value keeps_assigned keeps_redirected : keeps.

Section EnvKeeps.

Variable commandE : parser -> Env.M parser.
Hypothesis Hcmd : forall p, keeps (commandE p).

Lemma keeps_andThen (p : parser) : keeps (Env.andThen commandE p).
Proof. unfold Env.andThen. keeps_cases. Qed.

Lemma keeps_pipeThen (p : parser) : keeps (Env.pipeThen commandE p).
Proof. unfold Env.pipeThen. keeps_cases. Qed.

Hint Resolve keeps_andThen keeps_pipeThen : keeps.

Lemma keeps_funcBody (fuel : nat) (p : parser) :
  keeps (Env.funcBody commandE fuel p).
Proof.
  revert p. induction fuel as [|n IH]; intros p; cbn [Env.funcBody];
    keeps_cases.
Qed.

Hint Resolve keeps_funcBody : keeps.

Lemma keeps_identLoop (fuel : nat) (p : parser) :
  keeps (Env.identLoop commandE fuel p).
Proof.
  revert p. induction fuel as [|n IH]; intros p; cbn [Env.identLoop];
    keeps_cases.
Qed.

Lemma keeps_stringLoop (fuel : nat) (p : parser) :
  keeps (Env.stringLoop commandE fuel p).
Proof.
  revert p. induction fuel as [|n IH]; intros p; cbn [Env.stringLoop];
    keeps_cases.
Qed.

Lemma keeps_braceBody (fuel : nat) (p : parser) :
  keeps (Env.braceBody commandE fuel p).
Proof.
  revert p. induction fuel as [|n IH]; intros p; cbn [Env.braceBody];
    keeps_cases.
Qed.

Lemma keeps_braceTail (p : parser) : keeps (Env.braceTail commandE p).
Proof. unfold Env.braceTail. keeps_cases. Qed.

Hint Resolve keeps_identLoop keeps_stringLoop keeps_braceBody
  keeps_braceTail : keeps.

Lemma keeps_commandBody (fuel : nat) (p : parser) :
  keeps (Env.commandBody commandE fuel p).
Proof. unfold Env.commandBody. keeps_cases. Qed.

Lemma keeps_programLoop (fuel : nat) (p : parser) :
  keeps (Env.programLoop commandE fuel p).
Proof.
  revert p. induction fuel as [|n IH]; intros p; cbn [Env.programLoop];
    keeps_cases.
Qed.

End EnvKeeps.

Lemma keeps_command (fuel : nat) (p : parser) : keeps (Env.command fuel p).
Proof.
  revert p. induction fuel as [|n IH]; intros p; cbn [Env.command];
    [apply keeps_out_of_fuel|]. apply keeps_commandBody. exact IH.
Qed.

Lemma keeps_program (fuel : nat) (p : parser) : keeps (Env.program fuel p).
Proof.
  unfold Env.program. apply keeps_bind; [apply keeps_next|].
  intros q. apply keeps_programLoop. intros q'. apply keeps_command.
Qed.

Lemma keeps_parse (r : Env.input) (name : string) :
  keeps (Env.parse r name).
Proof.
  intros w e w' H. unfold Env.parse, Env.bind, Env.run_parse in H.
  destruct (Env.program _ _ _) as [[q w1]|] eqn:E; [|discriminate H].
  injection H as _ <-. exact (keeps_program _ _ _ _ _ E).
Qed.

(** What a run returns depends on the world through the package only. *)
Lemma parse_from_package (r : Env.input) (name : string) (w w' : Env.world) :
  Env.w_pkg w' = Env.w_pkg w -> Env.parse r name w' = Env.parse r name w.
Proof.
  intros H. unfold Env.parse, Env.bind, Env.run_parse. rewrite H.
  reflexivity.
Qed.

(** C7: two runs of [parse], one after the other, each over a reader of
    its own that gives the same bytes, return the same result.  On the
    package as declared and a reader that does not fail, both return what
    [parse] returns, and the package is as it was.  Whatever the
    package-level variables hold and whatever the reader gives, read
    errors included, a run that returns leaves the variables as they
    were, so that a second run returns the same result and leaves the same
    world: a run writes to none of the variables that the runs share. *)
Theorem two_runs_agree :
  (forall r name : string,
      exists e, parse r name = Some e
                /\ Env.twice (list_ascii_of_string r, []) name Env.world0
                   = Some ((e, e), Env.world0))
  /\ (forall (r : Env.input) (name : string) (w w1 : Env.world)
             (e : option error),
        Env.parse r name w = Some (e, w1) ->
        Env.w_pkg w1 = Env.w_pkg w
        /\ Env.parse r name w1 = Some (e, w1)
        /\ Env.twice r name w = Some ((e, e), w1)).
Proof.
  split.
  - intros r name.
    destruct (parse_total r name) as (p & Hp & _).
    exists (p_err p). unfold parse at 1. rewrite Hp. split; [reflexivity|].
    pose proof (env_parse r name) as H. unfold computes in H.
    unfold parse in H. rewrite Hp in H. cbn [option_map] in H.
    unfold Env.twice, Env.bind. rewrite H, H. reflexivity.
  - intros r name w w1 e H.
    pose proof (keeps_parse r name _ _ _ H) as Hk.
    assert (H1 : Env.parse r name w1 = Some (e, w1)).
    { rewrite (parse_from_package r name w w1 Hk). exact H. }
    split; [exact Hk|]. split; [exact H1|].
    unfold Env.twice, Env.bind. rewrite H, H1. reflexivity.
Qed.

(** A run over a reader that fails once, inside the comment [#c], and
    then gives a line: both runs return the error of the reader. *)
Lemma two_runs_agree_witness :
  let r := (["#"; "c"]%char,
            [(Errorf "timeout" [], [newline; "a"; ";"]%char)]) in
  Env.w_pkg Env.world0 = Env.w_pkg Env.world0
  /\ Env.parse r "f" Env.world0
     = Some (Some (Errorf "timeout" []), Env.world0)
  /\ Env.twice r "f" Env.world0
     = Some ((Some (Errorf "timeout" []), Some (Errorf "timeout" [])),
             Env.world0).
Proof.
  intros r.
  apply (proj2 two_runs_agree r "f"%string Env.world0 Env.world0
           (Some (Errorf "timeout" []))).
  reflexivity.
Defined.

(** * A read error inside a comment *)

(** The read of a comment fails: [discardUpTo] records the error, and
    [next] then goes on with the call it makes after [discardUpTo], which
    reads what the reader gives after the error. *)
Lemma env_next_fuel_S (fuel : nat) (p : parser) :
  Env.next_fuel (S fuel) p
  = Env.bind (Env.skipSpace fuel p)
      (fun s => match s with
                | Returned p => Env.ret p
                | Rune r p => Env.lexRune (Env.next_fuel fuel) fuel r p
                end).
Proof. reflexivity. Qed.

Lemma env_skipSpace_rune (fuel : nat) (p : parser) (c : ascii)
    (t : list ascii) (w : Env.world) :
  rd_buf (p_r p) = c :: t -> code c < 128 ->
  Env.pk_space (Env.w_pkg w) (code c) = false ->
  Env.skipSpace (S fuel) p w
  = Some (Rune (code c)
               (set_col (set_r p (mkReader t (Some [c]))) (incr (p_col p))),
          w).
Proof.
  intros Hb Hc Hs. cbn [Env.skipSpace]. unfold Env.bind at 1.
  unfold Env.ReadRune. rewrite Hb. rewrite (ReadRune_ascii _ _ _ Hb Hc).
  cbv beta iota. unfold Env.bind, Env.lookup. rewrite Hs. reflexivity.
Qed.

Lemma env_next_comment_fails (p : parser) (body rest : list ascii)
    (e : error) :
  rd_buf (p_r p) = "#"%char :: body -> ~ In newline body -> e <> io_EOF ->
  Env.next p (Env.mkWorld Env.package0 [(e, rest)])
  = Some (next (errPass e (set_col (set_r p (mkReader rest None))
                                   (incr (p_col p)))),
          Env.world0).
Proof.
  intros Hb Hn He. unfold Env.next, lexFuel.
  cbn [Env.w_src Env.pending map list_sum fold_right snd].
  rewrite Hb. cbn [length].
  set (p2 := errPass e (set_col (set_r p (mkReader rest None))
                                (incr (p_col p)))).
  remember (S (length body + length rest + 1)) as k eqn:Hk.
  match goal with
  | |- Env.next_fuel ?f _ _ = _ => replace f with (S (S k)) by lia
  end.
  rewrite env_next_fuel_S. unfold Env.bind at 1.
  rewrite (env_skipSpace_rune k p "#"%char body _ Hb);
    [|vm_compute; reflexivity|reflexivity].
  unfold Env.lexRune. change (code "#" =? code bslash) with false.
  cbv beta iota. unfold Env.token. unfold Env.bind at 1.
  unfold Env.lookup at 1. cbn [Env.w_pkg Env.pk_reserved Env.package0].
  change (reserved (code "#")) with true.
  change (code "#" =? code "#") with true. cbv beta iota.
  unfold Env.bind at 1.
  assert (Hd : Env.discardUpTo newline
                 (set_col (set_r p (mkReader body (Some ["#"%char])))
                          (incr (p_col p)))
                 (Env.mkWorld Env.package0 [(e, rest)])
               = Some (p2, Env.world0)).
  { unfold Env.discardUpTo, Env.bind, Env.ReadBytes.
    cbn [p_r set_col set_r rd_buf Env.w_src].
    apply cut_none in Hn. rewrite Hn. cbv beta iota.
    destruct e; [contradiction He; reflexivity|reflexivity..]. }
  rewrite Hd.
  pose proof (env_next_fuel (S k) p2) as H.
  unfold computes in H. rewrite H.
  rewrite (next_fuel_mono (lexFuel p2) _ p2 (next p2) (next_defined p2)).
  - reflexivity.
  - unfold lexFuel, p2. cbn [p_r errPass set_col set_r rd_buf]. lia.
Qed.

(** C4 fails on the code when a read fails inside a comment with an error
    other than [io.EOF] and the reader then gives more: [discardUpTo]
    records the error and sets the token to [EOF], and [next], which
    does not look at the outcome of [discardUpTo], calls itself and reads
    on.  With a reserved byte after the error, the call of [next] ends
    with the error on record and that byte, not [EOF], as the token; [got]
    of that token then accepts it and reads the next token. *)
Theorem read_error_does_not_freeze (p : parser) (body : list ascii)
    (e : error) (c : ascii) (t : list ascii) :
  rd_buf (p_r p) = "#"%char :: body -> ~ In newline body -> e <> io_EOF ->
  code c < 128 -> reserved (code c) = true -> code c <> code "#" ->
  exists q,
    Env.next p (Env.mkWorld Env.package0 [(e, c :: t)])
    = Some (q, Env.world0)
    /\ p_err q = Some e /\ p_log q = e :: p_log p
    /\ p_tok q = code c /\ p_tok q <> EOF
    /\ rd_buf (p_r q) = t
    /\ Env.got (code c) q Env.world0 = Some ((true, next q), Env.world0)
    /\ (mu (next q) < mu q)%nat.
Proof.
  intros Hb Hn He Hc Hr Hh.
  set (p1 := errPass e (set_col (set_r p (mkReader (c :: t) None))
                                (incr (p_col p)))).
  exists (next p1).
  split; [exact (env_next_comment_fails p body (c :: t) e Hb Hn He)|].
  assert (Hq : p_err (next p1) = Some e /\ p_log (next p1) = e :: p_log p
               /\ p_tok (next p1) = code c /\ rd_buf (p_r (next p1)) = t).
  { destruct (ascii_dec c newline) as [->|Hne].
    - rewrite (next_newline p1 t eq_refl). repeat split; reflexivity.
    - rewrite (next_reserved p1 c t eq_refl Hc Hr Hh).
      + repeat split; reflexivity.
      + intros E. apply code_inj in E. contradiction. }
  destruct Hq as (H1 & H2 & H3 & H4).
  assert (Ht : p_tok (next p1) <> EOF).
  { rewrite H3. unfold EOF, code. pose proof (N2Z.is_nonneg (N_of_ascii c)).
    lia. }
  repeat (split; [assumption|]). split.
  - pose proof (env_got (code c) (next p1)) as H. unfold computes in H.
    rewrite H. unfold got. rewrite H3, Z.eqb_refl. reflexivity.
  - apply next_mu. exact Ht.
Qed.

(** A reader that gives [#], fails with a timeout, and then gives a newline
    and [a;]: the first call of [next] ends on the newline with the timeout
    on record; the pass goes on to the end of the input and returns the
    timeout. *)
Lemma read_error_does_not_freeze_witness :
  let timeout := Errorf "timeout" [] in
  let r := (["#"%char], [(timeout, [newline; "a"; ";"]%char)]) in
  (exists q,
     Env.next (newParser (fst r) "f") (Env.mkWorld Env.package0 (snd r))
     = Some (q, Env.world0)
     /\ p_err q = Some timeout /\ p_log q = [timeout]
     /\ p_tok q = code newline /\ p_tok q <> EOF
     /\ rd_buf (p_r q) = ["a"; ";"]%char
     /\ Env.got (code newline) q Env.world0
        = Some ((true, next q), Env.world0)
     /\ (mu (next q) < mu q)%nat)
  /\ option_map (fun x => (p_err (fst x), p_tok (fst x), rd_buf (p_r (fst x))))
       (Env.run_parse r "f" Env.world0)
     = Some (Some timeout, EOF, []).
Proof.
  intros timeout r. split; [|reflexivity].
  apply (read_error_does_not_freeze (newParser ["#"%char] "f") [] timeout
           newline ["a"; ";"]%char).
  - reflexivity.
  - intros [].
  - discriminate.
  - reflexivity.
  - reflexivity.
  - discriminate.
Defined.

(** * The errors of a pass over a reader that can fail *)

Lemma yields_ret {A : Type} (src : Env.source) (P : A -> Prop) (a : A) :
  P a -> yields src P (Env.ret a).
Proof. intros H w x w' Hw E. injection E as <- <-. auto. Qed.

Lemma yields_out_of_fuel {A : Type} (src : Env.source) (P : A -> Prop) :
  yields src P (@Env.out_of_fuel A).
Proof. intros w x w' _ E. discriminate E. Qed.

Lemma yields_bind {A B : Type} (src : Env.source) (P : A -> Prop)
    (Q : B -> Prop) (m : Env.M A) (k : A -> Env.M B) :
  yields src P m -> (forall a, P a -> yields src Q (k a)) ->
  yields src Q (Env.bind m k).
Proof.
  intros Hm Hk w b w' Hw E. unfold Env.bind in E.
  destruct (m w) as [[a w1]|] eqn:E1; [|discriminate E].
  destruct (Hm _ _ _ Hw E1) as [Ha Hw1]. exact (Hk a Ha _ _ _ Hw1 E).
Qed.

Lemma yields_lookup (src : Env.source) (table : Env.package -> Z -> bool)
    (r : Z) :
  yields src (fun _ => True) (Env.lookup table r).
Proof. intros w x w' Hw E. injection E as _ <-. auto. Qed.

Lemma yields_MatchString (src : Env.source) (s : list Z) :
  yields src (fun _ => True) (Env.MatchString s).
Proof. intros w x w' Hw E. injection E as _ <-. auto. Qed.

Lemma yields_orElse (src : Env.source) (a b : Env.M bool) :
  yields src (fun _ => True) a -> yields src (fun _ => True) b ->
  yields src (fun _ => True) (Env.orElse a b).
Proof.
  intros Ha Hb. unfold Env.orElse. eapply yields_bind; [exact Ha|].
  intros [|] _; [apply yields_ret; exact I|exact Hb].
Qed.

Lemma fault_cases (src : Env.source) (e : error) (bytes : list ascii) :
  In (e, bytes) src -> e = io_EOF \/ readError src e.
Proof.
  intros H. destruct e; [left; reflexivity|right..];
    (split; [discriminate|exists bytes; exact H]).
Qed.

Lemma yields_ReadRune (src : Env.source) (b : Reader) :
  yields src (readOutcome src) (Env.ReadRune b).
Proof.
  intros w x w' Hw E. unfold Env.ReadRune in E.
  destruct (rd_buf b) eqn:Hb.
  - destruct (Env.w_src w) as [|[e bytes] rest] eqn:Hs.
    + injection E as <- <-. split; [|rewrite Hs; exact Hw].
      intros e He. unfold ReadRune in He. rewrite Hb in He. cbn in He.
      injection He as <-. left. reflexivity.
    + injection E as <- <-. cbn [Env.w_src]. split.
      * intros e0 He. cbn in He. injection He as <-.
        apply (fault_cases src e bytes). apply Hw. left. reflexivity.
      * intros y Hy. apply Hw. right. exact Hy.
  - injection E as <- <-. split; [|exact Hw].
    intros e He. unfold ReadRune in He. rewrite Hb in He.
    destruct (if code a <? 128 then _ else _) as [r sz]. discriminate He.
Qed.

Lemma yields_ReadBytes (src : Env.source) (d : ascii) (b : Reader) :
  yields src (readOutcome src) (Env.ReadBytes d b).
Proof.
  intros w x w' Hw E. unfold Env.ReadBytes in E.
  destruct (cut d (rd_buf b)) as [[line rest]|] eqn:Hc.
  - injection E as <- <-. split; [|exact Hw].
    intros e He. unfold ReadBytes in He. rewrite Hc in He. discriminate He.
  - destruct (Env.w_src w) as [|[e bytes] rest] eqn:Hs.
    + injection E as <- <-. split; [|rewrite Hs; exact Hw].
      intros e He. unfold ReadBytes in He. rewrite Hc in He. cbn in He.
      injection He as <-. left. reflexivity.
    + injection E as <- <-. cbn [Env.w_src]. split.
      * intros e0 He. cbn in He. injection He as <-.
        apply (fault_cases src e bytes). apply Hw. left. reflexivity.
      * intros y Hy. apply Hw. right. exact Hy.
Qed.

Section Sound.

Variable name : string.
Variable src : Env.source.

Lemma sound_set_r (p : parser) (b : Reader) :
  sound name src p -> sound name src (set_r p b).
Proof. exact (fun H => H). Qed.

Lemma sound_set_tok (p : parser) (t : Z) :
  sound name src p -> sound name src (set_tok p t).
Proof. exact (fun H => H). Qed.

Lemma sound_set_col (p : parser) (c : Z) :
  sound name src p -> sound name src (set_col p c).
Proof. exact (fun H => H). Qed.

Lemma sound_set_line (p : parser) (l : Z) :
  sound name src p -> sound name src (set_line p l).
Proof. exact (fun H => H). Qed.

Lemma sound_errPass (p : parser) (e : error) :
  recordable name src e -> sound name src p ->
  sound name src (errPass e p).
Proof.
  intros He (Hn & Hl & _). split; [exact Hn|].
  split; [constructor; assumption|reflexivity].
Qed.

Lemma sound_unread (p : parser) :
  sound name src p -> sound name src (errPass ErrInvalidUnreadRune p).
Proof. apply sound_errPass. left. left. reflexivity. Qed.

Lemma sound_errWanted (p : parser) (t : Z) :
  sound name src p -> sound name src (errWanted t p).
Proof.
  intros H. apply sound_errPass; [|exact H]. left.
  destruct H as (<- & _). apply shaped_wanted.
Qed.

Lemma sound_errUnexpected (p : parser) :
  sound name src p -> sound name src (errUnexpected p).
Proof.
  intros H. apply sound_errPass; [|exact H]. left.
  destruct H as (<- & _). apply shaped_unexpected.
Qed.

Create HintDb sound.

Hint Resolve sound_set_r sound_set_tok sound_set_col sound_set_line
  sound_unread sound_errWanted sound_errUnexpected : sound.

(** The outcome [a] of a read, by its error. *)
Ltac read_cases a Ha :=
  let x := fresh "x" in
  let err := fresh "err" in
  let rd := fresh "rd" in
  let e := fresh "e" in
  let Hre := fresh "Hre" in
  destruct a as [[x err] rd]; unfold readOutcome in Ha;
  cbn [fst snd] in Ha; destruct err as [e|];
  [destruct (Ha e eq_refl) as [->|Hre];
   [|destruct e;
     [destruct Hre as [Hre _]; contradiction Hre; reflexivity| |]]|].

(** A result that is there, and sound. *)
Ltac sound_ret :=
  apply yields_ret;
  first [ assumption
        | apply sound_errPass; [right; assumption|assumption]
        | auto with sound ].

Lemma yields_strContent (fuel : nat) (d : ascii) (p : parser) :
  sound name src p ->
  yields src (sound name src) (Env.strContent fuel d p).
Proof.
  revert p. induction fuel as [|n IH]; intros p Hp;
    [apply yields_out_of_fuel|].
  cbn [Env.strContent]. eapply yields_bind; [apply yields_ReadBytes|].
  intros a Ha. read_cases a Ha;
    (destruct (Ascii.eqb d squote); [sound_ret|];
     match goal with
     | |- yields _ _ (if ?c then _ else _) => destruct c
     end; [apply IH|sound_ret]);
    first [ assumption
          | apply sound_errPass; [right; assumption|assumption]
          | auto with sound ].
Qed.

Lemma yields_discardUpTo (d : ascii) (p : parser) :
  sound name src p ->
  yields src (sound name src) (Env.discardUpTo d p).
Proof.
  intros Hp. unfold Env.discardUpTo.
  eapply yields_bind; [apply yields_ReadBytes|].
  intros a Ha. read_cases a Ha; sound_ret.
Qed.

Lemma yields_skipSpace (fuel : nat) (p : parser) :
  sound name src p ->
  yields src (fun s => sound name src (skippedParser s))
         (Env.skipSpace fuel p).
Proof.
  revert p. induction fuel as [|n IH]; intros p Hp;
    [apply yields_out_of_fuel|].
  cbn [Env.skipSpace]. eapply yields_bind; [apply yields_ReadRune|].
  intros a Ha. read_cases a Ha; destruct x as [r sz]; try sound_ret.
  eapply yields_bind; [apply yields_lookup|].
  intros [|] _; [apply IH; exact Hp|sound_ret].
Qed.

Lemma yields_readRun (fuel : nat) (r : Z) (runes : list Z) (p : parser) :
  sound name src p ->
  yields src (fun x => sound name src (runParser x))
         (Env.readRun fuel r runes p).
Proof.
  revert r runes p. induction fuel as [|n IH]; intros r runes p Hp;
    [apply yields_out_of_fuel|].
  cbn [Env.readRun]. eapply yields_bind.
  { apply yields_orElse; [apply yields_lookup|].
    apply yields_orElse; apply yields_lookup. }
  intros d _. destruct (negb d); [|sound_ret].
  eapply yields_bind; [apply yields_ReadRune|].
  intros a Ha. read_cases a Ha; destruct x as [r' sz]; try sound_ret.
  apply IH. exact Hp.
Qed.

Lemma yields_classify (runes : list Z) :
  yields src (fun _ => True) (Env.classify runes).
Proof.
  unfold Env.classify. eapply yields_bind; [apply yields_MatchString|].
  intros m _. apply yields_ret. exact I.
Qed.

Lemma yields_word (fuel : nat) (r : Z) (p : parser) :
  sound name src p ->
  yields src (sound name src) (Env.word fuel r p).
Proof.
  intros Hp. unfold Env.word.
  eapply yields_bind; [apply yields_readRun; exact Hp|].
  intros [q|runes q] Hq; cbn [runParser] in Hq; [sound_ret|].
  destruct (1 <? length runes)%nat.
  - destruct (UnreadRune (p_r q)) as [[e|] rd] eqn:Hu.
    + unfold UnreadRune in Hu. destruct (rd_last (p_r q));
        [discriminate Hu|]. injection Hu as <- <-. sound_ret.
    + eapply yields_bind; [apply yields_classify|]. intros t _. sound_ret.
  - eapply yields_bind; [apply yields_classify|]. intros t _. sound_ret.
Qed.

Section SoundLexer.

Variable next' : parser -> Env.M parser.
Hypothesis Hnext :
  forall p, sound name src p -> yields src (sound name src) (next' p).

Lemma yields_token (fuel : nat) (r : Z) (p : parser) :
  sound name src p ->
  yields src (sound name src) (Env.token next' fuel r p).
Proof.
  intros Hp. unfold Env.token.
  eapply yields_bind; [apply yields_lookup|]. intros [|] _.
  - destruct (r =? code "#").
    + eapply yields_bind; [apply yields_discardUpTo; exact Hp|].
      exact Hnext.
    + destruct (r =? code newline); sound_ret.
  - eapply yields_bind; [apply yields_lookup|]. intros [|] _.
    + eapply yields_bind; [apply yields_strContent; exact Hp|].
      intros q Hq. destruct (p_tok q =? EOF); sound_ret.
    + apply yields_word. exact Hp.
Qed.

Lemma yields_lexRune (fuel : nat) (r : Z) (p : parser) :
  sound name src p ->
  yields src (sound name src) (Env.lexRune next' fuel r p).
Proof.
  intros Hp. unfold Env.lexRune.
  destruct (r =? code bslash); [|apply yields_token; exact Hp].
  eapply yields_bind; [apply Hnext; exact Hp|]. intros q Hq.
  destruct (p_tok q =? code newline); [apply Hnext; exact Hq|].
  destruct (UnreadRune (p_r q)) as [[e|] rd] eqn:Hu.
  - unfold UnreadRune in Hu. destruct (rd_last (p_r q));
      [discriminate Hu|]. injection Hu as <- <-. sound_ret.
  - apply yields_token. exact Hq.
Qed.

End SoundLexer.

Lemma yields_next_fuel (fuel : nat) (p : parser) :
  sound name src p ->
  yields src (sound name src) (Env.next_fuel fuel p).
Proof.
  revert p. induction fuel as [|n IH]; intros p Hp;
    [apply yields_out_of_fuel|].
  cbn [Env.next_fuel].
  eapply yields_bind; [apply yields_skipSpace; exact Hp|].
  intros [q|r q] Hq; cbn [skippedParser] in Hq; [sound_ret|].
  apply yields_lexRune; [exact IH|exact Hq].
Qed.

Lemma yields_next (p : parser) :
  sound name src p -> yields src (sound name src) (Env.next p).
Proof.
  intros Hp w a w' Hw E. exact (yields_next_fuel _ p Hp _ _ _ Hw E).
Qed.

Lemma yields_got (tok : Z) (p : parser) :
  sound name src p ->
  yields src (fun x => sound name src (snd x)) (Env.got tok p).
Proof.
  intros Hp. unfold Env.got. destruct (p_tok p =? tok); [|sound_ret].
  eapply yields_bind; [apply yields_next; exact Hp|].
  intros q Hq. sound_ret.
Qed.

Lemma yields_want (tok : Z) (p : parser) :
  sound name src p -> yields src (sound name src) (Env.want tok p).
Proof.
  intros Hp. unfold Env.want.
  destruct (negb (p_tok p =? tok)); [sound_ret|apply yields_next; exact Hp].
Qed.

(** One [case p.got(tok)] of a [switch]. *)
Ltac sound_got :=
  eapply yields_bind; [apply yields_got; assumption|];
  let b := fresh "b" in
  let q := fresh "q" in
  let Hq := fresh "Hq" in
  intros [b q] Hq; cbn [snd] in Hq; destruct b.

(** A call that returns a sound parser, and what follows it. *)
Ltac sound_call lem :=
  eapply yields_bind; [apply lem; assumption|];
  let q := fresh "q" in
  let Hq := fresh "Hq" in
  intros q Hq.

Lemma yields_value (p : parser) :
  sound name src p -> yields src (sound name src) (Env.value p).
Proof.
  intros Hp. unfold Env.value. sound_got; [sound_ret|].
  sound_got; sound_ret.
Qed.

Lemma yields_assigned (p : parser) :
  sound name src p -> yields src (sound name src) (Env.assigned p).
Proof.
  intros Hp. unfold Env.assigned. sound_got; [sound_ret|].
  sound_got; sound_ret.
Qed.

Lemma yields_redirected (p : parser) :
  sound name src p -> yields src (sound name src) (Env.redirected p).
Proof.
  intros Hp. unfold Env.redirected. sound_got; [sound_ret|].
  sound_got; sound_ret.
Qed.

Section SoundWalker.

Variable commandE : parser -> Env.M parser.
Hypothesis Hcmd :
  forall p, sound name src p -> yields src (sound name src) (commandE p).

Lemma yields_andThen (p : parser) :
  sound name src p ->
  yields src (sound name src) (Env.andThen commandE p).
Proof.
  intros Hp. unfold Env.andThen.
  sound_got; [apply Hcmd; assumption|sound_ret].
Qed.

Lemma yields_pipeThen (p : parser) :
  sound name src p ->
  yields src (sound name src) (Env.pipeThen commandE p).
Proof.
  intros Hp. unfold Env.pipeThen. sound_got; apply Hcmd; assumption.
Qed.

Lemma yields_funcBody (fuel : nat) (p : parser) :
  sound name src p ->
  yields src (sound name src) (Env.funcBody commandE fuel p).
Proof.
  revert p. induction fuel as [|n IH]; intros p Hp;
    [apply yields_out_of_fuel|].
  cbn [Env.funcBody]. sound_got; [sound_ret|].
  destruct (p_tok q =? EOF); [sound_ret|].
  sound_got; [apply IH; assumption|].
  sound_call Hcmd. apply IH. assumption.
Qed.

Lemma yields_identLoop (fuel : nat) (p : parser) :
  sound name src p ->
  yields src (sound name src) (Env.identLoop commandE fuel p).
Proof.
  revert p. induction fuel as [|n IH]; intros p Hp;
    [apply yields_out_of_fuel|].
  cbn [Env.identLoop]. destruct (p_tok p =? EOF); [sound_ret|].
  sound_got; [apply IH; assumption|].
  sound_got; [apply IH; assumption|].
  sound_got; [sound_call yields_assigned; apply IH; assumption|].
  sound_got; [apply yields_andThen; assumption|].
  sound_got; [apply yields_pipeThen; assumption|].
  sound_got.
  { sound_call yields_want. sound_call yields_want.
    apply yields_funcBody. assumption. }
  sound_got.
  { sound_call yields_redirected. sound_call yields_value.
    apply IH. assumption. }
  sound_got; [sound_call yields_value; apply IH; assumption|].
  sound_got; [sound_ret|].
  sound_got; [sound_ret|].
  apply IH. auto with sound.
Qed.

Lemma yields_stringLoop (fuel : nat) (p : parser) :
  sound name src p ->
  yields src (sound name src) (Env.stringLoop commandE fuel p).
Proof.
  revert p. induction fuel as [|n IH]; intros p Hp;
    [apply yields_out_of_fuel|].
  cbn [Env.stringLoop]. destruct (p_tok p =? EOF); [sound_ret|].
  sound_got; [apply IH; assumption|].
  sound_got; [apply IH; assumption|].
  sound_got; [apply yields_andThen; assumption|].
  sound_got; [apply yields_pipeThen; assumption|].
  sound_got.
  { sound_call yields_redirected. sound_call yields_value.
    apply IH. assumption. }
  sound_got; [sound_call yields_value; apply IH; assumption|].
  sound_got; [sound_ret|].
  sound_got; [sound_ret|].
  apply IH. auto with sound.
Qed.

Lemma yields_braceBody (fuel : nat) (p : parser) :
  sound name src p ->
  yields src (sound name src) (Env.braceBody commandE fuel p).
Proof.
  revert p. induction fuel as [|n IH]; intros p Hp;
    [apply yields_out_of_fuel|].
  cbn [Env.braceBody].
  destruct (negb (p_tok p =? EOF) && negb (p_tok p =? code "}"));
    [|sound_ret].
  sound_got; [apply IH; assumption|].
  sound_call Hcmd. apply IH. assumption.
Qed.

Lemma yields_braceTail (p : parser) :
  sound name src p ->
  yields src (sound name src) (Env.braceTail commandE p).
Proof.
  intros Hp. unfold Env.braceTail. sound_call yields_want.
  sound_got; [apply yields_andThen; assumption|].
  sound_got; [apply yields_pipeThen; assumption|].
  sound_got.
  { sound_call yields_redirected. apply yields_value. assumption. }
  sound_got; [apply yields_value; assumption|].
  sound_got; [sound_ret|].
  sound_got; sound_ret.
Qed.

Lemma yields_commandBody (fuel : nat) (p : parser) :
  sound name src p ->
  yields src (sound name src) (Env.commandBody commandE fuel p).
Proof.
  intros Hp. unfold Env.commandBody.
  sound_got; [apply yields_identLoop; assumption|].
  sound_got; [apply yields_stringLoop; assumption|].
  sound_got; [|sound_ret].
  sound_call yields_braceBody. apply yields_braceTail. assumption.
Qed.

Lemma yields_programLoop (fuel : nat) (p : parser) :
  sound name src p ->
  yields src (sound name src) (Env.programLoop commandE fuel p).
Proof.
  revert p. induction fuel as [|n IH]; intros p Hp;
    [apply yields_out_of_fuel|].
  cbn [Env.programLoop]. destruct (negb (p_tok p =? EOF)); [|sound_ret].
  sound_got; [apply IH; assumption|].
  sound_call Hcmd. apply IH. assumption.
Qed.

End SoundWalker.

Lemma yields_command (fuel : nat) (p : parser) :
  sound name src p ->
  yields src (sound name src) (Env.command fuel p).
Proof.
  revert p. induction fuel as [|n IH]; intros p Hp;
    [apply yields_out_of_fuel|].
  cbn [Env.command]. apply yields_commandBody; [exact IH|exact Hp].
Qed.

Lemma yields_program (fuel : nat) (p : parser) :
  sound name src p ->
  yields src (sound name src) (Env.program fuel p).
Proof.
  intros Hp. unfold Env.program. sound_call yields_next.
  apply yields_programLoop; [|assumption].
  intros q' Hq'. apply yields_command. exact Hq'.
Qed.

End Sound.

(** The error that a pass over a reader that can fail returns is one of
    those it can record. *)
Lemma env_parse_recordable (r : Env.input) (name : string) (w w' : Env.world)
    (e : error) :
  Env.parse r name w = Some (Some e, w') -> recordable name (snd r) e.
Proof.
  unfold Env.parse, Env.bind, Env.run_parse. intros H.
  destruct (Env.program _ _ _) as [[p w1]|] eqn:E; [|discriminate H].
  injection H as He _.
  assert (Hs : sound name (snd r) (newParser (fst r) name)).
  { split; [reflexivity|]. split; [constructor|reflexivity]. }
  destruct (yields_program name (snd r) _ _ Hs
              (Env.mkWorld (Env.w_pkg w) (snd r)) _ _ (incl_refl _) E)
    as ((_ & Hl & Hc) & _).
  unfold consistent in Hc. rewrite He in Hc.
  destruct (p_log p) as [|e' es]; [discriminate Hc|].
  cbn in Hc. injection Hc as <-. inversion Hl; assumption.
Qed.

Lemma shaped_not_EOF (name : string) (e : error) :
  shaped name e -> e <> io_EOF.
Proof.
  intros [->|[(line & col & tok & ->)|(line & col & tok & w & ->)]];
    discriminate.
Qed.

Lemma recordable_not_EOF (name : string) (src : Env.source) (e : error) :
  recordable name src e -> e <> io_EOF.
Proof.
  intros [H|[H _]]; [exact (shaped_not_EOF name e H)|exact H].
Qed.

(** The text of an error of one of the shapes, under a name that holds no
    percent sign. *)
Lemma shaped_text (name : string) (e : error) :
  shaped name e -> noPercent name = true ->
  Error e = "bufio: invalid use of UnreadRune"%string
  \/ (exists line col tok,
        Error e = (name ++ ":" ++ itoa line ++ ":" ++ itoa col ++ ": "
                   ++ "unexpected token " ++ tokStr tok)%string)
  \/ (exists line col tok w,
        Error e = (name ++ ":" ++ itoa line ++ ":" ++ itoa col ++ ": "
                   ++ "unexpected token " ++ tokStr tok
                   ++ ", wanted " ++ tokStr w)%string).
Proof.
  intros H Hn.
  destruct H as [->|[(line & col & tok & ->)|(line & col & tok & w & ->)]].
  - left. reflexivity.
  - right; left. exists line, col, tok. cbn [Error].
    rewrite Sprintf_plain by (apply noPercent_position; exact Hn).
    unfold positionAt. rewrite !append_assoc. cbn. rewrite append_nil_r.
    reflexivity.
  - right; right. exists line, col, tok, w. cbn [Error].
    rewrite Sprintf_plain by (apply noPercent_position; exact Hn).
    unfold positionAt. rewrite !append_assoc. cbn. rewrite append_nil_r.
    reflexivity.
Qed.

(** X3: the error that the pass returns is never [io.EOF].  When no read
    of the input fails, it is the error of [UnreadRune], or one of the two
    that [lineErr] makes, whose format starts with the name given to
    [parse], a line and a column, and goes on with [unexpected token %s] or
    with [unexpected token %s, wanted %s], the operands being the names
    that [tokStr] gives to tokens.  Over a reader whose reads can fail, and
    whatever the package-level variables hold, it is one of these or an
    error other than [io.EOF] that a read of the reader returned. *)
Theorem parse_error_shape :
  (forall (r name : string) (e : error),
      parse r name = Some (Some e) -> shaped name e /\ e <> io_EOF)
  /\ (forall (r : Env.input) (name : string) (w w' : Env.world) (e : error),
        Env.parse r name w = Some (Some e, w') ->
        (shaped name e \/ readError (snd r) e) /\ e <> io_EOF).
Proof.
  split.
  - intros r name e H. apply parse_shaped in H.
    split; [exact H|exact (shaped_not_EOF name e H)].
  - intros r name w w' e H. apply env_parse_recordable in H.
    split; [exact H|exact (recordable_not_EOF _ _ _ H)].
Qed.

(** The input [(], and a reader that fails with a timeout inside a
    comment. *)
Lemma parse_error_shape_witness :
  (shaped "f" (Errorf (positionAt "f" 1 1 ++ "unexpected token %s")
                      [tokStr (code "(")])
   /\ Errorf (positionAt "f" 1 1 ++ "unexpected token %s")
             [tokStr (code "(")] <> io_EOF)
  /\ ((shaped "f" (Errorf "timeout" [])
       \/ readError [(Errorf "timeout" [], [newline; "a"; ";"]%char)]
                    (Errorf "timeout" []))
      /\ Errorf "timeout" [] <> io_EOF).
Proof.
  split.
  - apply (proj1 parse_error_shape "("%string "f"%string). reflexivity.
  - apply (proj2 parse_error_shape
             (["#"; "c"]%char,
              [(Errorf "timeout" [], [newline; "a"; ";"]%char)])
             "f"%string Env.world0 Env.world0).
    reflexivity.
Defined.

(** X4: under a name that holds no percent sign, the text of the error
    that the pass returns is that of bufio for [UnreadRune], or the name,
    the line and the column, each followed by a colon, then a space and
    [unexpected token], the name of a token and, for the errors of [want]
    and of [strContent], [, wanted] and the name of the token wanted.  Over
    a reader whose reads can fail, the error is of this text or is an error
    that a read of the reader returned. *)
Theorem error_text :
  (forall (r name : string) (e : error),
      parse r name = Some (Some e) -> noPercent name = true ->
      Error e = "bufio: invalid use of UnreadRune"%string
      \/ (exists line col tok,
            Error e = (name ++ ":" ++ itoa line ++ ":" ++ itoa col ++ ": "
                       ++ "unexpected token " ++ tokStr tok)%string)
      \/ (exists line col tok w,
            Error e = (name ++ ":" ++ itoa line ++ ":" ++ itoa col ++ ": "
                       ++ "unexpected token " ++ tokStr tok
                       ++ ", wanted " ++ tokStr w)%string))
  /\ (forall (r : Env.input) (name : string) (w w' : Env.world) (e : error),
        Env.parse r name w = Some (Some e, w') -> noPercent name = true ->
        readError (snd r) e
        \/ Error e = "bufio: invalid use of UnreadRune"%string
        \/ (exists line col tok,
              Error e = (name ++ ":" ++ itoa line ++ ":" ++ itoa col ++ ": "
                         ++ "unexpected token " ++ tokStr tok)%string)
        \/ (exists line col tok w,
              Error e = (name ++ ":" ++ itoa line ++ ":" ++ itoa col ++ ": "
                         ++ "unexpected token " ++ tokStr tok
                         ++ ", wanted " ++ tokStr w)%string)).
Proof.
  split.
  - intros r name e H Hn. apply parse_shaped in H.
    exact (shaped_text name e H Hn).
  - intros r name w w' e H Hn. apply env_parse_recordable in H.
    destruct H as [H|H]; [right; exact (shaped_text name e H Hn)|left; exact H].
Qed.

(** The input [a(b;] under the name [f]. *)
Lemma error_text_witness :
  Error (Errorf "f:1:3: unexpected token %s, wanted %s" ["EOF"; "'}'"]%string)
  = "bufio: invalid use of UnreadRune"%string
  \/ (exists line col tok,
        Error (Errorf "f:1:3: unexpected token %s, wanted %s"
                      ["EOF"; "'}'"]%string)
        = ("f" ++ ":" ++ itoa line ++ ":" ++ itoa col ++ ": "
           ++ "unexpected token " ++ tokStr tok)%string)
  \/ (exists line col tok w,
        Error (Errorf "f:1:3: unexpected token %s, wanted %s"
                      ["EOF"; "'}'"]%string)
        = ("f" ++ ":" ++ itoa line ++ ":" ++ itoa col ++ ": "
           ++ "unexpected token " ++ tokStr tok
           ++ ", wanted " ++ tokStr w)%string).
Proof.
  apply (proj1 error_text "a(b;"%string "f"%string); reflexivity.
Defined.

(** * Examples *)

(** Simple commands that a [;] or a newline ends are accepted, and so is
    one whose last word is a single byte. *)
Example simple_commands_accepted :
  parse "echo foo bar;" "f" = Some None
  /\ parse ("echo 'a b' -n x" ++ String newline "") "f" = Some None
  /\ parse "ls a" "f" = Some None.
Proof. vm_compute. repeat split. Qed.

(** The same commands with a longer last word and no terminator are not. *)
Example unterminated_commands_refused :
  parse "echo foo bar" "f" = Some (Some ErrInvalidUnreadRune)
  /\ parse "ls -l" "f" = Some (Some ErrInvalidUnreadRune).
Proof. vm_compute. repeat split. Qed.

(** A comment line, then ['('] on line 2: the text of the error. *)
Example comment_then_paren :
  option_map (option_map Error)
             (parse ("#c" ++ String newline "(") "f")
  = Some (Some "f:1:2: unexpected token '('"%string).
Proof. vm_compute. reflexivity. Qed.

(** A brace block with an error inside: three errors are recorded and the
    last is returned. *)
Example errors_in_brace_block :
  option_map (map Error) (recorded "{ (" "f")
  = Some ["f:1:3: unexpected token EOF";
          "f:1:3: unexpected token EOF, wanted '}'";
          "f:1:3: unexpected token '('"]%string
  /\ option_map (option_map Error) (parse "{ (" "f")
     = Some (Some "f:1:3: unexpected token EOF"%string).
Proof. vm_compute. split; reflexivity. Qed.

(** A backslash before a newline continues the line; before a word it is
    refused, since the word has pushed its delimiter back already. *)
Example backslash_cases :
  parse ("echo a " ++ String bslash (String newline "b;")) "f" = Some None
  /\ parse ("echo " ++ String bslash "a;") "f"
     = Some (Some ErrInvalidUnreadRune).
Proof. vm_compute. split; reflexivity. Qed.
